(** * Cesium3DTilesetTraversal: the per-frame tile selection of a 3D tileset

    A shallow embedding of [Source/Scene/Cesium3DTilesetTraversal.js] and
    the properties of its traversals.

    Modelling conventions.
    - Tiles are JavaScript objects that refer to one another ([parent],
      [children], [_priorityDistanceHolder], the ancestor links), and the
      traversal mutates them in place.  The objects live in a store
      [tiles : gmap TileId Tile]; a reference is a [TileId], and
      [undefined] references are [None].
    - JavaScript numbers are modelled by [Z]: the traversal only compares,
      subtracts and takes maxima and minima of them.  Rounding, NaN and
      the infinities are outside the model.
    - A [ManagedArray] used as a stack is a list whose head is the top of
      the stack.  The output arrays of the tileset are lists in array
      order, [push] appends at the end.
    - Loops that run until a stack drains take a [fuel] bound on the
      number of iterations and answer [None] when it is exceeded. *)

From Stdlib Require Import ZArith Bool List Lia Permutation Sorted.
From stdpp Require Import base option list gmap.

Open Scope Z_scope.

(** ** Enumerations *)

Inductive Cesium3DTileRefine : Type := ADD | REPLACE.

Inductive Intersect : Type := OUTSIDE | INTERSECTING | INSIDE.

Definition Cesium3DTileRefine_eqb (a b : Cesium3DTileRefine) : bool :=
  match a, b with
  | ADD, ADD | REPLACE, REPLACE => true
  | _, _ => false
  end.

Definition Intersect_eqb (a b : Intersect) : bool :=
  match a, b with
  | OUTSIDE, OUTSIDE | INTERSECTING, INTERSECTING | INSIDE, INSIDE => true
  | _, _ => false
  end.

(** What a call of [selectTiles] hands back: the early exits are bare
    [return;] statements, the full run ends in [return true;]. *)
Inductive ReturnValue : Type := RetUndefined | RetTrue.

(** ** Tiles *)

Definition TileId : Type := nat.

(** [Number.MAX_VALUE], the largest finite double. *)
Definition Number_MAX_VALUE : Z := 2 ^ 1024 - 2 ^ 971.

Definition descendantSelectionDepth : Z := 2.

Record Tile : Type := mkTile {
  parent : option TileId;
  children : list TileId;
  _depth : Z;
  refine : Cesium3DTileRefine;
  hasEmptyContent : bool;
  hasTilesetContent : bool;
  boundingSphere_radius : Z;
  _distanceToCamera : Z;
  _centerZDepth : Z;
  _screenSpaceError : Z;
  contentUnloaded : bool;
  contentAvailable : bool;
  contentExpired : bool;
  featurePropertiesDirty : bool;
  _visible : bool;
  _inRequestVolume : bool;
  _updatedVisibilityFrame : Z;
  _priorityDistance : Z;
  _priorityDistanceHolder : TileId;
  _wasMinChild : bool;
  _refines : bool;
  _finalResolution : bool;
  _shouldSelect : bool;
  _selectionDepth : nat;
  _stackLength : nat;
  _ancestorWithContent : option TileId;
  _ancestorWithContentAvailable : option TileId;
  _visitedFrame : Z;
  _touchedFrame : Z;
  _selectedFrame : Z;
  _requestedFrame : Z;
  lastStyleTime : Z;
  _decendantsThatHaveFadedIn : Z;
  _decendantsThatHaveFadedInLastFrame : Z;
  _decendantsCount : Z
}.

#[export] Instance Tile_inhabited : Inhabited Tile :=
  populate (mkTile None [] 0 REPLACE false false 0 0 0 0 false false false false
                   false false 0 0 O false false false false O O None None
                   0 0 0 0 0 0 0 0).

(** ** The tileset *)

Record Tileset : Type := mkTileset {
  root : TileId;
  tiles : gmap TileId Tile;
  _maximumScreenSpaceError : Z;
  baseScreenSpaceError : Z;
  _skipLevelOfDetail : bool;
  immediatelyLoadDesiredLevelOfDetail : bool;
  skipScreenSpaceErrorFactor : Z;
  skipLevels : Z;
  loadSiblings : bool;
  debugFreezeFrame : bool;
  _selectedTiles : list TileId;
  _selectedTilesToStyle : list TileId;
  _requestedTiles : list TileId;
  _emptyTiles : list TileId;
  _hasMixedContent : bool;
  _statistics_visited : Z;
  _tileset_updatedVisibilityFrame : Z;
  _cache_touched : list TileId;
  _minPriority_distance : Z;
  _minPriority_level : Z;
  _minPriority_minDistanceTile : option TileId;
  _minPriority_minPriorityHolder : option TileId;
  _maxPriority_distance : Z;
  _maxPriority_level : Z;
  _heatmap_resets : nat;
  traversal_stackMaximumLength : nat;
  emptyTraversal_stackMaximumLength : nat;
  descendantTraversal_stackMaximumLength : nat;
  selectionTraversal_stackMaximumLength : nat;
  selectionTraversal_ancestorStackMaximumLength : nat;
  visibilityUpdates : list TileId
}.

(** ** The frame

    [frameNumber] is the field the traversal reads.  The other components
    stand for what the tile methods compute from the camera of the frame;
    the tile class is not part of this file. *)
Record FrameState : Type := mkFrameState {
  frameNumber : Z;
  fs_visible : TileId -> bool;
  fs_inRequestVolume : TileId -> bool;
  fs_contentVisibility : TileId -> Intersect;
  fs_screenSpaceErrorWithParentError : TileId -> Z
}.

(** ** Field setters *)

Definition set_children (v : list TileId) (t : Tile) : Tile :=
  mkTile
    (parent t) v (_depth t) (refine t) (hasEmptyContent t) (hasTilesetContent t)
    (boundingSphere_radius t) (_distanceToCamera t) (_centerZDepth t) (_screenSpaceError t)
    (contentUnloaded t) (contentAvailable t) (contentExpired t) (featurePropertiesDirty t)
    (_visible t) (_inRequestVolume t) (_updatedVisibilityFrame t) (_priorityDistance t)
    (_priorityDistanceHolder t) (_wasMinChild t) (_refines t) (_finalResolution t)
    (_shouldSelect t) (_selectionDepth t) (_stackLength t) (_ancestorWithContent t)
    (_ancestorWithContentAvailable t) (_visitedFrame t) (_touchedFrame t) (_selectedFrame t)
    (_requestedFrame t) (lastStyleTime t) (_decendantsThatHaveFadedIn t)
    (_decendantsThatHaveFadedInLastFrame t) (_decendantsCount t).

Definition set_featurePropertiesDirty (v : bool) (t : Tile) : Tile :=
  mkTile
    (parent t) (children t) (_depth t) (refine t) (hasEmptyContent t) (hasTilesetContent t)
    (boundingSphere_radius t) (_distanceToCamera t) (_centerZDepth t) (_screenSpaceError t)
    (contentUnloaded t) (contentAvailable t) (contentExpired t) v (_visible t)
    (_inRequestVolume t) (_updatedVisibilityFrame t) (_priorityDistance t)
    (_priorityDistanceHolder t) (_wasMinChild t) (_refines t) (_finalResolution t)
    (_shouldSelect t) (_selectionDepth t) (_stackLength t) (_ancestorWithContent t)
    (_ancestorWithContentAvailable t) (_visitedFrame t) (_touchedFrame t) (_selectedFrame t)
    (_requestedFrame t) (lastStyleTime t) (_decendantsThatHaveFadedIn t)
    (_decendantsThatHaveFadedInLastFrame t) (_decendantsCount t).

Definition set_visible (v : bool) (t : Tile) : Tile :=
  mkTile
    (parent t) (children t) (_depth t) (refine t) (hasEmptyContent t) (hasTilesetContent t)
    (boundingSphere_radius t) (_distanceToCamera t) (_centerZDepth t) (_screenSpaceError t)
    (contentUnloaded t) (contentAvailable t) (contentExpired t) (featurePropertiesDirty t) v
    (_inRequestVolume t) (_updatedVisibilityFrame t) (_priorityDistance t)
    (_priorityDistanceHolder t) (_wasMinChild t) (_refines t) (_finalResolution t)
    (_shouldSelect t) (_selectionDepth t) (_stackLength t) (_ancestorWithContent t)
    (_ancestorWithContentAvailable t) (_visitedFrame t) (_touchedFrame t) (_selectedFrame t)
    (_requestedFrame t) (lastStyleTime t) (_decendantsThatHaveFadedIn t)
    (_decendantsThatHaveFadedInLastFrame t) (_decendantsCount t).

Definition set_inRequestVolume (v : bool) (t : Tile) : Tile :=
  mkTile
    (parent t) (children t) (_depth t) (refine t) (hasEmptyContent t) (hasTilesetContent t)
    (boundingSphere_radius t) (_distanceToCamera t) (_centerZDepth t) (_screenSpaceError t)
    (contentUnloaded t) (contentAvailable t) (contentExpired t) (featurePropertiesDirty t)
    (_visible t) v (_updatedVisibilityFrame t) (_priorityDistance t)
    (_priorityDistanceHolder t) (_wasMinChild t) (_refines t) (_finalResolution t)
    (_shouldSelect t) (_selectionDepth t) (_stackLength t) (_ancestorWithContent t)
    (_ancestorWithContentAvailable t) (_visitedFrame t) (_touchedFrame t) (_selectedFrame t)
    (_requestedFrame t) (lastStyleTime t) (_decendantsThatHaveFadedIn t)
    (_decendantsThatHaveFadedInLastFrame t) (_decendantsCount t).

Definition set_updatedVisibilityFrame (v : Z) (t : Tile) : Tile :=
  mkTile
    (parent t) (children t) (_depth t) (refine t) (hasEmptyContent t) (hasTilesetContent t)
    (boundingSphere_radius t) (_distanceToCamera t) (_centerZDepth t) (_screenSpaceError t)
    (contentUnloaded t) (contentAvailable t) (contentExpired t) (featurePropertiesDirty t)
    (_visible t) (_inRequestVolume t) v (_priorityDistance t) (_priorityDistanceHolder t)
    (_wasMinChild t) (_refines t) (_finalResolution t) (_shouldSelect t) (_selectionDepth t)
    (_stackLength t) (_ancestorWithContent t) (_ancestorWithContentAvailable t)
    (_visitedFrame t) (_touchedFrame t) (_selectedFrame t) (_requestedFrame t)
    (lastStyleTime t) (_decendantsThatHaveFadedIn t) (_decendantsThatHaveFadedInLastFrame t)
    (_decendantsCount t).

Definition set_priorityDistance (v : Z) (t : Tile) : Tile :=
  mkTile
    (parent t) (children t) (_depth t) (refine t) (hasEmptyContent t) (hasTilesetContent t)
    (boundingSphere_radius t) (_distanceToCamera t) (_centerZDepth t) (_screenSpaceError t)
    (contentUnloaded t) (contentAvailable t) (contentExpired t) (featurePropertiesDirty t)
    (_visible t) (_inRequestVolume t) (_updatedVisibilityFrame t) v (_priorityDistanceHolder t)
    (_wasMinChild t) (_refines t) (_finalResolution t) (_shouldSelect t) (_selectionDepth t)
    (_stackLength t) (_ancestorWithContent t) (_ancestorWithContentAvailable t)
    (_visitedFrame t) (_touchedFrame t) (_selectedFrame t) (_requestedFrame t)
    (lastStyleTime t) (_decendantsThatHaveFadedIn t) (_decendantsThatHaveFadedInLastFrame t)
    (_decendantsCount t).

Definition set_priorityDistanceHolder (v : TileId) (t : Tile) : Tile :=
  mkTile
    (parent t) (children t) (_depth t) (refine t) (hasEmptyContent t) (hasTilesetContent t)
    (boundingSphere_radius t) (_distanceToCamera t) (_centerZDepth t) (_screenSpaceError t)
    (contentUnloaded t) (contentAvailable t) (contentExpired t) (featurePropertiesDirty t)
    (_visible t) (_inRequestVolume t) (_updatedVisibilityFrame t) (_priorityDistance t) v
    (_wasMinChild t) (_refines t) (_finalResolution t) (_shouldSelect t) (_selectionDepth t)
    (_stackLength t) (_ancestorWithContent t) (_ancestorWithContentAvailable t)
    (_visitedFrame t) (_touchedFrame t) (_selectedFrame t) (_requestedFrame t)
    (lastStyleTime t) (_decendantsThatHaveFadedIn t) (_decendantsThatHaveFadedInLastFrame t)
    (_decendantsCount t).

Definition set_wasMinChild (v : bool) (t : Tile) : Tile :=
  mkTile
    (parent t) (children t) (_depth t) (refine t) (hasEmptyContent t) (hasTilesetContent t)
    (boundingSphere_radius t) (_distanceToCamera t) (_centerZDepth t) (_screenSpaceError t)
    (contentUnloaded t) (contentAvailable t) (contentExpired t) (featurePropertiesDirty t)
    (_visible t) (_inRequestVolume t) (_updatedVisibilityFrame t) (_priorityDistance t)
    (_priorityDistanceHolder t) v (_refines t) (_finalResolution t) (_shouldSelect t)
    (_selectionDepth t) (_stackLength t) (_ancestorWithContent t)
    (_ancestorWithContentAvailable t) (_visitedFrame t) (_touchedFrame t) (_selectedFrame t)
    (_requestedFrame t) (lastStyleTime t) (_decendantsThatHaveFadedIn t)
    (_decendantsThatHaveFadedInLastFrame t) (_decendantsCount t).

Definition set_refines (v : bool) (t : Tile) : Tile :=
  mkTile
    (parent t) (children t) (_depth t) (refine t) (hasEmptyContent t) (hasTilesetContent t)
    (boundingSphere_radius t) (_distanceToCamera t) (_centerZDepth t) (_screenSpaceError t)
    (contentUnloaded t) (contentAvailable t) (contentExpired t) (featurePropertiesDirty t)
    (_visible t) (_inRequestVolume t) (_updatedVisibilityFrame t) (_priorityDistance t)
    (_priorityDistanceHolder t) (_wasMinChild t) v (_finalResolution t) (_shouldSelect t)
    (_selectionDepth t) (_stackLength t) (_ancestorWithContent t)
    (_ancestorWithContentAvailable t) (_visitedFrame t) (_touchedFrame t) (_selectedFrame t)
    (_requestedFrame t) (lastStyleTime t) (_decendantsThatHaveFadedIn t)
    (_decendantsThatHaveFadedInLastFrame t) (_decendantsCount t).

Definition set_finalResolution (v : bool) (t : Tile) : Tile :=
  mkTile
    (parent t) (children t) (_depth t) (refine t) (hasEmptyContent t) (hasTilesetContent t)
    (boundingSphere_radius t) (_distanceToCamera t) (_centerZDepth t) (_screenSpaceError t)
    (contentUnloaded t) (contentAvailable t) (contentExpired t) (featurePropertiesDirty t)
    (_visible t) (_inRequestVolume t) (_updatedVisibilityFrame t) (_priorityDistance t)
    (_priorityDistanceHolder t) (_wasMinChild t) (_refines t) v (_shouldSelect t)
    (_selectionDepth t) (_stackLength t) (_ancestorWithContent t)
    (_ancestorWithContentAvailable t) (_visitedFrame t) (_touchedFrame t) (_selectedFrame t)
    (_requestedFrame t) (lastStyleTime t) (_decendantsThatHaveFadedIn t)
    (_decendantsThatHaveFadedInLastFrame t) (_decendantsCount t).

Definition set_shouldSelect (v : bool) (t : Tile) : Tile :=
  mkTile
    (parent t) (children t) (_depth t) (refine t) (hasEmptyContent t) (hasTilesetContent t)
    (boundingSphere_radius t) (_distanceToCamera t) (_centerZDepth t) (_screenSpaceError t)
    (contentUnloaded t) (contentAvailable t) (contentExpired t) (featurePropertiesDirty t)
    (_visible t) (_inRequestVolume t) (_updatedVisibilityFrame t) (_priorityDistance t)
    (_priorityDistanceHolder t) (_wasMinChild t) (_refines t) (_finalResolution t) v
    (_selectionDepth t) (_stackLength t) (_ancestorWithContent t)
    (_ancestorWithContentAvailable t) (_visitedFrame t) (_touchedFrame t) (_selectedFrame t)
    (_requestedFrame t) (lastStyleTime t) (_decendantsThatHaveFadedIn t)
    (_decendantsThatHaveFadedInLastFrame t) (_decendantsCount t).

Definition set_selectionDepth (v : nat) (t : Tile) : Tile :=
  mkTile
    (parent t) (children t) (_depth t) (refine t) (hasEmptyContent t) (hasTilesetContent t)
    (boundingSphere_radius t) (_distanceToCamera t) (_centerZDepth t) (_screenSpaceError t)
    (contentUnloaded t) (contentAvailable t) (contentExpired t) (featurePropertiesDirty t)
    (_visible t) (_inRequestVolume t) (_updatedVisibilityFrame t) (_priorityDistance t)
    (_priorityDistanceHolder t) (_wasMinChild t) (_refines t) (_finalResolution t)
    (_shouldSelect t) v (_stackLength t) (_ancestorWithContent t)
    (_ancestorWithContentAvailable t) (_visitedFrame t) (_touchedFrame t) (_selectedFrame t)
    (_requestedFrame t) (lastStyleTime t) (_decendantsThatHaveFadedIn t)
    (_decendantsThatHaveFadedInLastFrame t) (_decendantsCount t).

Definition set_stackLength (v : nat) (t : Tile) : Tile :=
  mkTile
    (parent t) (children t) (_depth t) (refine t) (hasEmptyContent t) (hasTilesetContent t)
    (boundingSphere_radius t) (_distanceToCamera t) (_centerZDepth t) (_screenSpaceError t)
    (contentUnloaded t) (contentAvailable t) (contentExpired t) (featurePropertiesDirty t)
    (_visible t) (_inRequestVolume t) (_updatedVisibilityFrame t) (_priorityDistance t)
    (_priorityDistanceHolder t) (_wasMinChild t) (_refines t) (_finalResolution t)
    (_shouldSelect t) (_selectionDepth t) v (_ancestorWithContent t)
    (_ancestorWithContentAvailable t) (_visitedFrame t) (_touchedFrame t) (_selectedFrame t)
    (_requestedFrame t) (lastStyleTime t) (_decendantsThatHaveFadedIn t)
    (_decendantsThatHaveFadedInLastFrame t) (_decendantsCount t).

Definition set_ancestorWithContent (v : option TileId) (t : Tile) : Tile :=
  mkTile
    (parent t) (children t) (_depth t) (refine t) (hasEmptyContent t) (hasTilesetContent t)
    (boundingSphere_radius t) (_distanceToCamera t) (_centerZDepth t) (_screenSpaceError t)
    (contentUnloaded t) (contentAvailable t) (contentExpired t) (featurePropertiesDirty t)
    (_visible t) (_inRequestVolume t) (_updatedVisibilityFrame t) (_priorityDistance t)
    (_priorityDistanceHolder t) (_wasMinChild t) (_refines t) (_finalResolution t)
    (_shouldSelect t) (_selectionDepth t) (_stackLength t) v (_ancestorWithContentAvailable t)
    (_visitedFrame t) (_touchedFrame t) (_selectedFrame t) (_requestedFrame t)
    (lastStyleTime t) (_decendantsThatHaveFadedIn t) (_decendantsThatHaveFadedInLastFrame t)
    (_decendantsCount t).

Definition set_ancestorWithContentAvailable (v : option TileId) (t : Tile) : Tile :=
  mkTile
    (parent t) (children t) (_depth t) (refine t) (hasEmptyContent t) (hasTilesetContent t)
    (boundingSphere_radius t) (_distanceToCamera t) (_centerZDepth t) (_screenSpaceError t)
    (contentUnloaded t) (contentAvailable t) (contentExpired t) (featurePropertiesDirty t)
    (_visible t) (_inRequestVolume t) (_updatedVisibilityFrame t) (_priorityDistance t)
    (_priorityDistanceHolder t) (_wasMinChild t) (_refines t) (_finalResolution t)
    (_shouldSelect t) (_selectionDepth t) (_stackLength t) (_ancestorWithContent t) v
    (_visitedFrame t) (_touchedFrame t) (_selectedFrame t) (_requestedFrame t)
    (lastStyleTime t) (_decendantsThatHaveFadedIn t) (_decendantsThatHaveFadedInLastFrame t)
    (_decendantsCount t).

Definition set_visitedFrame (v : Z) (t : Tile) : Tile :=
  mkTile
    (parent t) (children t) (_depth t) (refine t) (hasEmptyContent t) (hasTilesetContent t)
    (boundingSphere_radius t) (_distanceToCamera t) (_centerZDepth t) (_screenSpaceError t)
    (contentUnloaded t) (contentAvailable t) (contentExpired t) (featurePropertiesDirty t)
    (_visible t) (_inRequestVolume t) (_updatedVisibilityFrame t) (_priorityDistance t)
    (_priorityDistanceHolder t) (_wasMinChild t) (_refines t) (_finalResolution t)
    (_shouldSelect t) (_selectionDepth t) (_stackLength t) (_ancestorWithContent t)
    (_ancestorWithContentAvailable t) v (_touchedFrame t) (_selectedFrame t)
    (_requestedFrame t) (lastStyleTime t) (_decendantsThatHaveFadedIn t)
    (_decendantsThatHaveFadedInLastFrame t) (_decendantsCount t).

Definition set_touchedFrame (v : Z) (t : Tile) : Tile :=
  mkTile
    (parent t) (children t) (_depth t) (refine t) (hasEmptyContent t) (hasTilesetContent t)
    (boundingSphere_radius t) (_distanceToCamera t) (_centerZDepth t) (_screenSpaceError t)
    (contentUnloaded t) (contentAvailable t) (contentExpired t) (featurePropertiesDirty t)
    (_visible t) (_inRequestVolume t) (_updatedVisibilityFrame t) (_priorityDistance t)
    (_priorityDistanceHolder t) (_wasMinChild t) (_refines t) (_finalResolution t)
    (_shouldSelect t) (_selectionDepth t) (_stackLength t) (_ancestorWithContent t)
    (_ancestorWithContentAvailable t) (_visitedFrame t) v (_selectedFrame t)
    (_requestedFrame t) (lastStyleTime t) (_decendantsThatHaveFadedIn t)
    (_decendantsThatHaveFadedInLastFrame t) (_decendantsCount t).

Definition set_selectedFrame (v : Z) (t : Tile) : Tile :=
  mkTile
    (parent t) (children t) (_depth t) (refine t) (hasEmptyContent t) (hasTilesetContent t)
    (boundingSphere_radius t) (_distanceToCamera t) (_centerZDepth t) (_screenSpaceError t)
    (contentUnloaded t) (contentAvailable t) (contentExpired t) (featurePropertiesDirty t)
    (_visible t) (_inRequestVolume t) (_updatedVisibilityFrame t) (_priorityDistance t)
    (_priorityDistanceHolder t) (_wasMinChild t) (_refines t) (_finalResolution t)
    (_shouldSelect t) (_selectionDepth t) (_stackLength t) (_ancestorWithContent t)
    (_ancestorWithContentAvailable t) (_visitedFrame t) (_touchedFrame t) v (_requestedFrame t)
    (lastStyleTime t) (_decendantsThatHaveFadedIn t) (_decendantsThatHaveFadedInLastFrame t)
    (_decendantsCount t).

Definition set_requestedFrame (v : Z) (t : Tile) : Tile :=
  mkTile
    (parent t) (children t) (_depth t) (refine t) (hasEmptyContent t) (hasTilesetContent t)
    (boundingSphere_radius t) (_distanceToCamera t) (_centerZDepth t) (_screenSpaceError t)
    (contentUnloaded t) (contentAvailable t) (contentExpired t) (featurePropertiesDirty t)
    (_visible t) (_inRequestVolume t) (_updatedVisibilityFrame t) (_priorityDistance t)
    (_priorityDistanceHolder t) (_wasMinChild t) (_refines t) (_finalResolution t)
    (_shouldSelect t) (_selectionDepth t) (_stackLength t) (_ancestorWithContent t)
    (_ancestorWithContentAvailable t) (_visitedFrame t) (_touchedFrame t) (_selectedFrame t) v
    (lastStyleTime t) (_decendantsThatHaveFadedIn t) (_decendantsThatHaveFadedInLastFrame t)
    (_decendantsCount t).

Definition set_lastStyleTime (v : Z) (t : Tile) : Tile :=
  mkTile
    (parent t) (children t) (_depth t) (refine t) (hasEmptyContent t) (hasTilesetContent t)
    (boundingSphere_radius t) (_distanceToCamera t) (_centerZDepth t) (_screenSpaceError t)
    (contentUnloaded t) (contentAvailable t) (contentExpired t) (featurePropertiesDirty t)
    (_visible t) (_inRequestVolume t) (_updatedVisibilityFrame t) (_priorityDistance t)
    (_priorityDistanceHolder t) (_wasMinChild t) (_refines t) (_finalResolution t)
    (_shouldSelect t) (_selectionDepth t) (_stackLength t) (_ancestorWithContent t)
    (_ancestorWithContentAvailable t) (_visitedFrame t) (_touchedFrame t) (_selectedFrame t)
    (_requestedFrame t) v (_decendantsThatHaveFadedIn t)
    (_decendantsThatHaveFadedInLastFrame t) (_decendantsCount t).

Definition set_decendantsThatHaveFadedIn (v : Z) (t : Tile) : Tile :=
  mkTile
    (parent t) (children t) (_depth t) (refine t) (hasEmptyContent t) (hasTilesetContent t)
    (boundingSphere_radius t) (_distanceToCamera t) (_centerZDepth t) (_screenSpaceError t)
    (contentUnloaded t) (contentAvailable t) (contentExpired t) (featurePropertiesDirty t)
    (_visible t) (_inRequestVolume t) (_updatedVisibilityFrame t) (_priorityDistance t)
    (_priorityDistanceHolder t) (_wasMinChild t) (_refines t) (_finalResolution t)
    (_shouldSelect t) (_selectionDepth t) (_stackLength t) (_ancestorWithContent t)
    (_ancestorWithContentAvailable t) (_visitedFrame t) (_touchedFrame t) (_selectedFrame t)
    (_requestedFrame t) (lastStyleTime t) v (_decendantsThatHaveFadedInLastFrame t)
    (_decendantsCount t).

Definition set_decendantsThatHaveFadedInLastFrame (v : Z) (t : Tile) : Tile :=
  mkTile
    (parent t) (children t) (_depth t) (refine t) (hasEmptyContent t) (hasTilesetContent t)
    (boundingSphere_radius t) (_distanceToCamera t) (_centerZDepth t) (_screenSpaceError t)
    (contentUnloaded t) (contentAvailable t) (contentExpired t) (featurePropertiesDirty t)
    (_visible t) (_inRequestVolume t) (_updatedVisibilityFrame t) (_priorityDistance t)
    (_priorityDistanceHolder t) (_wasMinChild t) (_refines t) (_finalResolution t)
    (_shouldSelect t) (_selectionDepth t) (_stackLength t) (_ancestorWithContent t)
    (_ancestorWithContentAvailable t) (_visitedFrame t) (_touchedFrame t) (_selectedFrame t)
    (_requestedFrame t) (lastStyleTime t) (_decendantsThatHaveFadedIn t) v (_decendantsCount t).

Definition set_decendantsCount (v : Z) (t : Tile) : Tile :=
  mkTile
    (parent t) (children t) (_depth t) (refine t) (hasEmptyContent t) (hasTilesetContent t)
    (boundingSphere_radius t) (_distanceToCamera t) (_centerZDepth t) (_screenSpaceError t)
    (contentUnloaded t) (contentAvailable t) (contentExpired t) (featurePropertiesDirty t)
    (_visible t) (_inRequestVolume t) (_updatedVisibilityFrame t) (_priorityDistance t)
    (_priorityDistanceHolder t) (_wasMinChild t) (_refines t) (_finalResolution t)
    (_shouldSelect t) (_selectionDepth t) (_stackLength t) (_ancestorWithContent t)
    (_ancestorWithContentAvailable t) (_visitedFrame t) (_touchedFrame t) (_selectedFrame t)
    (_requestedFrame t) (lastStyleTime t) (_decendantsThatHaveFadedIn t)
    (_decendantsThatHaveFadedInLastFrame t) v.

Definition with_tiles (v : gmap TileId Tile) (ts : Tileset) : Tileset :=
  mkTileset
    (root ts) v (_maximumScreenSpaceError ts) (baseScreenSpaceError ts) (_skipLevelOfDetail ts)
    (immediatelyLoadDesiredLevelOfDetail ts) (skipScreenSpaceErrorFactor ts) (skipLevels ts)
    (loadSiblings ts) (debugFreezeFrame ts) (_selectedTiles ts) (_selectedTilesToStyle ts)
    (_requestedTiles ts) (_emptyTiles ts) (_hasMixedContent ts) (_statistics_visited ts)
    (_tileset_updatedVisibilityFrame ts) (_cache_touched ts) (_minPriority_distance ts)
    (_minPriority_level ts) (_minPriority_minDistanceTile ts)
    (_minPriority_minPriorityHolder ts) (_maxPriority_distance ts) (_maxPriority_level ts)
    (_heatmap_resets ts) (traversal_stackMaximumLength ts)
    (emptyTraversal_stackMaximumLength ts) (descendantTraversal_stackMaximumLength ts)
    (selectionTraversal_stackMaximumLength ts)
    (selectionTraversal_ancestorStackMaximumLength ts) (visibilityUpdates ts).

Definition with_selectedTiles (v : list TileId) (ts : Tileset) : Tileset :=
  mkTileset
    (root ts) (tiles ts) (_maximumScreenSpaceError ts) (baseScreenSpaceError ts)
    (_skipLevelOfDetail ts) (immediatelyLoadDesiredLevelOfDetail ts)
    (skipScreenSpaceErrorFactor ts) (skipLevels ts) (loadSiblings ts) (debugFreezeFrame ts) v
    (_selectedTilesToStyle ts) (_requestedTiles ts) (_emptyTiles ts) (_hasMixedContent ts)
    (_statistics_visited ts) (_tileset_updatedVisibilityFrame ts) (_cache_touched ts)
    (_minPriority_distance ts) (_minPriority_level ts) (_minPriority_minDistanceTile ts)
    (_minPriority_minPriorityHolder ts) (_maxPriority_distance ts) (_maxPriority_level ts)
    (_heatmap_resets ts) (traversal_stackMaximumLength ts)
    (emptyTraversal_stackMaximumLength ts) (descendantTraversal_stackMaximumLength ts)
    (selectionTraversal_stackMaximumLength ts)
    (selectionTraversal_ancestorStackMaximumLength ts) (visibilityUpdates ts).

Definition with_selectedTilesToStyle (v : list TileId) (ts : Tileset) : Tileset :=
  mkTileset
    (root ts) (tiles ts) (_maximumScreenSpaceError ts) (baseScreenSpaceError ts)
    (_skipLevelOfDetail ts) (immediatelyLoadDesiredLevelOfDetail ts)
    (skipScreenSpaceErrorFactor ts) (skipLevels ts) (loadSiblings ts) (debugFreezeFrame ts)
    (_selectedTiles ts) v (_requestedTiles ts) (_emptyTiles ts) (_hasMixedContent ts)
    (_statistics_visited ts) (_tileset_updatedVisibilityFrame ts) (_cache_touched ts)
    (_minPriority_distance ts) (_minPriority_level ts) (_minPriority_minDistanceTile ts)
    (_minPriority_minPriorityHolder ts) (_maxPriority_distance ts) (_maxPriority_level ts)
    (_heatmap_resets ts) (traversal_stackMaximumLength ts)
    (emptyTraversal_stackMaximumLength ts) (descendantTraversal_stackMaximumLength ts)
    (selectionTraversal_stackMaximumLength ts)
    (selectionTraversal_ancestorStackMaximumLength ts) (visibilityUpdates ts).

Definition with_requestedTiles (v : list TileId) (ts : Tileset) : Tileset :=
  mkTileset
    (root ts) (tiles ts) (_maximumScreenSpaceError ts) (baseScreenSpaceError ts)
    (_skipLevelOfDetail ts) (immediatelyLoadDesiredLevelOfDetail ts)
    (skipScreenSpaceErrorFactor ts) (skipLevels ts) (loadSiblings ts) (debugFreezeFrame ts)
    (_selectedTiles ts) (_selectedTilesToStyle ts) v (_emptyTiles ts) (_hasMixedContent ts)
    (_statistics_visited ts) (_tileset_updatedVisibilityFrame ts) (_cache_touched ts)
    (_minPriority_distance ts) (_minPriority_level ts) (_minPriority_minDistanceTile ts)
    (_minPriority_minPriorityHolder ts) (_maxPriority_distance ts) (_maxPriority_level ts)
    (_heatmap_resets ts) (traversal_stackMaximumLength ts)
    (emptyTraversal_stackMaximumLength ts) (descendantTraversal_stackMaximumLength ts)
    (selectionTraversal_stackMaximumLength ts)
    (selectionTraversal_ancestorStackMaximumLength ts) (visibilityUpdates ts).

Definition with_emptyTiles (v : list TileId) (ts : Tileset) : Tileset :=
  mkTileset
    (root ts) (tiles ts) (_maximumScreenSpaceError ts) (baseScreenSpaceError ts)
    (_skipLevelOfDetail ts) (immediatelyLoadDesiredLevelOfDetail ts)
    (skipScreenSpaceErrorFactor ts) (skipLevels ts) (loadSiblings ts) (debugFreezeFrame ts)
    (_selectedTiles ts) (_selectedTilesToStyle ts) (_requestedTiles ts) v (_hasMixedContent ts)
    (_statistics_visited ts) (_tileset_updatedVisibilityFrame ts) (_cache_touched ts)
    (_minPriority_distance ts) (_minPriority_level ts) (_minPriority_minDistanceTile ts)
    (_minPriority_minPriorityHolder ts) (_maxPriority_distance ts) (_maxPriority_level ts)
    (_heatmap_resets ts) (traversal_stackMaximumLength ts)
    (emptyTraversal_stackMaximumLength ts) (descendantTraversal_stackMaximumLength ts)
    (selectionTraversal_stackMaximumLength ts)
    (selectionTraversal_ancestorStackMaximumLength ts) (visibilityUpdates ts).

Definition with_hasMixedContent (v : bool) (ts : Tileset) : Tileset :=
  mkTileset
    (root ts) (tiles ts) (_maximumScreenSpaceError ts) (baseScreenSpaceError ts)
    (_skipLevelOfDetail ts) (immediatelyLoadDesiredLevelOfDetail ts)
    (skipScreenSpaceErrorFactor ts) (skipLevels ts) (loadSiblings ts) (debugFreezeFrame ts)
    (_selectedTiles ts) (_selectedTilesToStyle ts) (_requestedTiles ts) (_emptyTiles ts) v
    (_statistics_visited ts) (_tileset_updatedVisibilityFrame ts) (_cache_touched ts)
    (_minPriority_distance ts) (_minPriority_level ts) (_minPriority_minDistanceTile ts)
    (_minPriority_minPriorityHolder ts) (_maxPriority_distance ts) (_maxPriority_level ts)
    (_heatmap_resets ts) (traversal_stackMaximumLength ts)
    (emptyTraversal_stackMaximumLength ts) (descendantTraversal_stackMaximumLength ts)
    (selectionTraversal_stackMaximumLength ts)
    (selectionTraversal_ancestorStackMaximumLength ts) (visibilityUpdates ts).

Definition with_statistics_visited (v : Z) (ts : Tileset) : Tileset :=
  mkTileset
    (root ts) (tiles ts) (_maximumScreenSpaceError ts) (baseScreenSpaceError ts)
    (_skipLevelOfDetail ts) (immediatelyLoadDesiredLevelOfDetail ts)
    (skipScreenSpaceErrorFactor ts) (skipLevels ts) (loadSiblings ts) (debugFreezeFrame ts)
    (_selectedTiles ts) (_selectedTilesToStyle ts) (_requestedTiles ts) (_emptyTiles ts)
    (_hasMixedContent ts) v (_tileset_updatedVisibilityFrame ts) (_cache_touched ts)
    (_minPriority_distance ts) (_minPriority_level ts) (_minPriority_minDistanceTile ts)
    (_minPriority_minPriorityHolder ts) (_maxPriority_distance ts) (_maxPriority_level ts)
    (_heatmap_resets ts) (traversal_stackMaximumLength ts)
    (emptyTraversal_stackMaximumLength ts) (descendantTraversal_stackMaximumLength ts)
    (selectionTraversal_stackMaximumLength ts)
    (selectionTraversal_ancestorStackMaximumLength ts) (visibilityUpdates ts).

Definition with_cache_touched (v : list TileId) (ts : Tileset) : Tileset :=
  mkTileset
    (root ts) (tiles ts) (_maximumScreenSpaceError ts) (baseScreenSpaceError ts)
    (_skipLevelOfDetail ts) (immediatelyLoadDesiredLevelOfDetail ts)
    (skipScreenSpaceErrorFactor ts) (skipLevels ts) (loadSiblings ts) (debugFreezeFrame ts)
    (_selectedTiles ts) (_selectedTilesToStyle ts) (_requestedTiles ts) (_emptyTiles ts)
    (_hasMixedContent ts) (_statistics_visited ts) (_tileset_updatedVisibilityFrame ts) v
    (_minPriority_distance ts) (_minPriority_level ts) (_minPriority_minDistanceTile ts)
    (_minPriority_minPriorityHolder ts) (_maxPriority_distance ts) (_maxPriority_level ts)
    (_heatmap_resets ts) (traversal_stackMaximumLength ts)
    (emptyTraversal_stackMaximumLength ts) (descendantTraversal_stackMaximumLength ts)
    (selectionTraversal_stackMaximumLength ts)
    (selectionTraversal_ancestorStackMaximumLength ts) (visibilityUpdates ts).

Definition with_minPriority_distance (v : Z) (ts : Tileset) : Tileset :=
  mkTileset
    (root ts) (tiles ts) (_maximumScreenSpaceError ts) (baseScreenSpaceError ts)
    (_skipLevelOfDetail ts) (immediatelyLoadDesiredLevelOfDetail ts)
    (skipScreenSpaceErrorFactor ts) (skipLevels ts) (loadSiblings ts) (debugFreezeFrame ts)
    (_selectedTiles ts) (_selectedTilesToStyle ts) (_requestedTiles ts) (_emptyTiles ts)
    (_hasMixedContent ts) (_statistics_visited ts) (_tileset_updatedVisibilityFrame ts)
    (_cache_touched ts) v (_minPriority_level ts) (_minPriority_minDistanceTile ts)
    (_minPriority_minPriorityHolder ts) (_maxPriority_distance ts) (_maxPriority_level ts)
    (_heatmap_resets ts) (traversal_stackMaximumLength ts)
    (emptyTraversal_stackMaximumLength ts) (descendantTraversal_stackMaximumLength ts)
    (selectionTraversal_stackMaximumLength ts)
    (selectionTraversal_ancestorStackMaximumLength ts) (visibilityUpdates ts).

Definition with_minPriority_level (v : Z) (ts : Tileset) : Tileset :=
  mkTileset
    (root ts) (tiles ts) (_maximumScreenSpaceError ts) (baseScreenSpaceError ts)
    (_skipLevelOfDetail ts) (immediatelyLoadDesiredLevelOfDetail ts)
    (skipScreenSpaceErrorFactor ts) (skipLevels ts) (loadSiblings ts) (debugFreezeFrame ts)
    (_selectedTiles ts) (_selectedTilesToStyle ts) (_requestedTiles ts) (_emptyTiles ts)
    (_hasMixedContent ts) (_statistics_visited ts) (_tileset_updatedVisibilityFrame ts)
    (_cache_touched ts) (_minPriority_distance ts) v (_minPriority_minDistanceTile ts)
    (_minPriority_minPriorityHolder ts) (_maxPriority_distance ts) (_maxPriority_level ts)
    (_heatmap_resets ts) (traversal_stackMaximumLength ts)
    (emptyTraversal_stackMaximumLength ts) (descendantTraversal_stackMaximumLength ts)
    (selectionTraversal_stackMaximumLength ts)
    (selectionTraversal_ancestorStackMaximumLength ts) (visibilityUpdates ts).

Definition with_minPriority_minDistanceTile (v : option TileId) (ts : Tileset) : Tileset :=
  mkTileset
    (root ts) (tiles ts) (_maximumScreenSpaceError ts) (baseScreenSpaceError ts)
    (_skipLevelOfDetail ts) (immediatelyLoadDesiredLevelOfDetail ts)
    (skipScreenSpaceErrorFactor ts) (skipLevels ts) (loadSiblings ts) (debugFreezeFrame ts)
    (_selectedTiles ts) (_selectedTilesToStyle ts) (_requestedTiles ts) (_emptyTiles ts)
    (_hasMixedContent ts) (_statistics_visited ts) (_tileset_updatedVisibilityFrame ts)
    (_cache_touched ts) (_minPriority_distance ts) (_minPriority_level ts) v
    (_minPriority_minPriorityHolder ts) (_maxPriority_distance ts) (_maxPriority_level ts)
    (_heatmap_resets ts) (traversal_stackMaximumLength ts)
    (emptyTraversal_stackMaximumLength ts) (descendantTraversal_stackMaximumLength ts)
    (selectionTraversal_stackMaximumLength ts)
    (selectionTraversal_ancestorStackMaximumLength ts) (visibilityUpdates ts).

Definition with_minPriority_minPriorityHolder (v : option TileId) (ts : Tileset) : Tileset :=
  mkTileset
    (root ts) (tiles ts) (_maximumScreenSpaceError ts) (baseScreenSpaceError ts)
    (_skipLevelOfDetail ts) (immediatelyLoadDesiredLevelOfDetail ts)
    (skipScreenSpaceErrorFactor ts) (skipLevels ts) (loadSiblings ts) (debugFreezeFrame ts)
    (_selectedTiles ts) (_selectedTilesToStyle ts) (_requestedTiles ts) (_emptyTiles ts)
    (_hasMixedContent ts) (_statistics_visited ts) (_tileset_updatedVisibilityFrame ts)
    (_cache_touched ts) (_minPriority_distance ts) (_minPriority_level ts)
    (_minPriority_minDistanceTile ts) v (_maxPriority_distance ts) (_maxPriority_level ts)
    (_heatmap_resets ts) (traversal_stackMaximumLength ts)
    (emptyTraversal_stackMaximumLength ts) (descendantTraversal_stackMaximumLength ts)
    (selectionTraversal_stackMaximumLength ts)
    (selectionTraversal_ancestorStackMaximumLength ts) (visibilityUpdates ts).

Definition with_maxPriority_distance (v : Z) (ts : Tileset) : Tileset :=
  mkTileset
    (root ts) (tiles ts) (_maximumScreenSpaceError ts) (baseScreenSpaceError ts)
    (_skipLevelOfDetail ts) (immediatelyLoadDesiredLevelOfDetail ts)
    (skipScreenSpaceErrorFactor ts) (skipLevels ts) (loadSiblings ts) (debugFreezeFrame ts)
    (_selectedTiles ts) (_selectedTilesToStyle ts) (_requestedTiles ts) (_emptyTiles ts)
    (_hasMixedContent ts) (_statistics_visited ts) (_tileset_updatedVisibilityFrame ts)
    (_cache_touched ts) (_minPriority_distance ts) (_minPriority_level ts)
    (_minPriority_minDistanceTile ts) (_minPriority_minPriorityHolder ts) v
    (_maxPriority_level ts) (_heatmap_resets ts) (traversal_stackMaximumLength ts)
    (emptyTraversal_stackMaximumLength ts) (descendantTraversal_stackMaximumLength ts)
    (selectionTraversal_stackMaximumLength ts)
    (selectionTraversal_ancestorStackMaximumLength ts) (visibilityUpdates ts).

Definition with_maxPriority_level (v : Z) (ts : Tileset) : Tileset :=
  mkTileset
    (root ts) (tiles ts) (_maximumScreenSpaceError ts) (baseScreenSpaceError ts)
    (_skipLevelOfDetail ts) (immediatelyLoadDesiredLevelOfDetail ts)
    (skipScreenSpaceErrorFactor ts) (skipLevels ts) (loadSiblings ts) (debugFreezeFrame ts)
    (_selectedTiles ts) (_selectedTilesToStyle ts) (_requestedTiles ts) (_emptyTiles ts)
    (_hasMixedContent ts) (_statistics_visited ts) (_tileset_updatedVisibilityFrame ts)
    (_cache_touched ts) (_minPriority_distance ts) (_minPriority_level ts)
    (_minPriority_minDistanceTile ts) (_minPriority_minPriorityHolder ts)
    (_maxPriority_distance ts) v (_heatmap_resets ts) (traversal_stackMaximumLength ts)
    (emptyTraversal_stackMaximumLength ts) (descendantTraversal_stackMaximumLength ts)
    (selectionTraversal_stackMaximumLength ts)
    (selectionTraversal_ancestorStackMaximumLength ts) (visibilityUpdates ts).

Definition with_heatmap_resets (v : nat) (ts : Tileset) : Tileset :=
  mkTileset
    (root ts) (tiles ts) (_maximumScreenSpaceError ts) (baseScreenSpaceError ts)
    (_skipLevelOfDetail ts) (immediatelyLoadDesiredLevelOfDetail ts)
    (skipScreenSpaceErrorFactor ts) (skipLevels ts) (loadSiblings ts) (debugFreezeFrame ts)
    (_selectedTiles ts) (_selectedTilesToStyle ts) (_requestedTiles ts) (_emptyTiles ts)
    (_hasMixedContent ts) (_statistics_visited ts) (_tileset_updatedVisibilityFrame ts)
    (_cache_touched ts) (_minPriority_distance ts) (_minPriority_level ts)
    (_minPriority_minDistanceTile ts) (_minPriority_minPriorityHolder ts)
    (_maxPriority_distance ts) (_maxPriority_level ts) v (traversal_stackMaximumLength ts)
    (emptyTraversal_stackMaximumLength ts) (descendantTraversal_stackMaximumLength ts)
    (selectionTraversal_stackMaximumLength ts)
    (selectionTraversal_ancestorStackMaximumLength ts) (visibilityUpdates ts).

Definition with_traversal_stackMaximumLength (v : nat) (ts : Tileset) : Tileset :=
  mkTileset
    (root ts) (tiles ts) (_maximumScreenSpaceError ts) (baseScreenSpaceError ts)
    (_skipLevelOfDetail ts) (immediatelyLoadDesiredLevelOfDetail ts)
    (skipScreenSpaceErrorFactor ts) (skipLevels ts) (loadSiblings ts) (debugFreezeFrame ts)
    (_selectedTiles ts) (_selectedTilesToStyle ts) (_requestedTiles ts) (_emptyTiles ts)
    (_hasMixedContent ts) (_statistics_visited ts) (_tileset_updatedVisibilityFrame ts)
    (_cache_touched ts) (_minPriority_distance ts) (_minPriority_level ts)
    (_minPriority_minDistanceTile ts) (_minPriority_minPriorityHolder ts)
    (_maxPriority_distance ts) (_maxPriority_level ts) (_heatmap_resets ts) v
    (emptyTraversal_stackMaximumLength ts) (descendantTraversal_stackMaximumLength ts)
    (selectionTraversal_stackMaximumLength ts)
    (selectionTraversal_ancestorStackMaximumLength ts) (visibilityUpdates ts).

Definition with_emptyTraversal_stackMaximumLength (v : nat) (ts : Tileset) : Tileset :=
  mkTileset
    (root ts) (tiles ts) (_maximumScreenSpaceError ts) (baseScreenSpaceError ts)
    (_skipLevelOfDetail ts) (immediatelyLoadDesiredLevelOfDetail ts)
    (skipScreenSpaceErrorFactor ts) (skipLevels ts) (loadSiblings ts) (debugFreezeFrame ts)
    (_selectedTiles ts) (_selectedTilesToStyle ts) (_requestedTiles ts) (_emptyTiles ts)
    (_hasMixedContent ts) (_statistics_visited ts) (_tileset_updatedVisibilityFrame ts)
    (_cache_touched ts) (_minPriority_distance ts) (_minPriority_level ts)
    (_minPriority_minDistanceTile ts) (_minPriority_minPriorityHolder ts)
    (_maxPriority_distance ts) (_maxPriority_level ts) (_heatmap_resets ts)
    (traversal_stackMaximumLength ts) v (descendantTraversal_stackMaximumLength ts)
    (selectionTraversal_stackMaximumLength ts)
    (selectionTraversal_ancestorStackMaximumLength ts) (visibilityUpdates ts).

Definition with_descendantTraversal_stackMaximumLength (v : nat) (ts : Tileset) : Tileset :=
  mkTileset
    (root ts) (tiles ts) (_maximumScreenSpaceError ts) (baseScreenSpaceError ts)
    (_skipLevelOfDetail ts) (immediatelyLoadDesiredLevelOfDetail ts)
    (skipScreenSpaceErrorFactor ts) (skipLevels ts) (loadSiblings ts) (debugFreezeFrame ts)
    (_selectedTiles ts) (_selectedTilesToStyle ts) (_requestedTiles ts) (_emptyTiles ts)
    (_hasMixedContent ts) (_statistics_visited ts) (_tileset_updatedVisibilityFrame ts)
    (_cache_touched ts) (_minPriority_distance ts) (_minPriority_level ts)
    (_minPriority_minDistanceTile ts) (_minPriority_minPriorityHolder ts)
    (_maxPriority_distance ts) (_maxPriority_level ts) (_heatmap_resets ts)
    (traversal_stackMaximumLength ts) (emptyTraversal_stackMaximumLength ts) v
    (selectionTraversal_stackMaximumLength ts)
    (selectionTraversal_ancestorStackMaximumLength ts) (visibilityUpdates ts).

Definition with_selectionTraversal_stackMaximumLength (v : nat) (ts : Tileset) : Tileset :=
  mkTileset
    (root ts) (tiles ts) (_maximumScreenSpaceError ts) (baseScreenSpaceError ts)
    (_skipLevelOfDetail ts) (immediatelyLoadDesiredLevelOfDetail ts)
    (skipScreenSpaceErrorFactor ts) (skipLevels ts) (loadSiblings ts) (debugFreezeFrame ts)
    (_selectedTiles ts) (_selectedTilesToStyle ts) (_requestedTiles ts) (_emptyTiles ts)
    (_hasMixedContent ts) (_statistics_visited ts) (_tileset_updatedVisibilityFrame ts)
    (_cache_touched ts) (_minPriority_distance ts) (_minPriority_level ts)
    (_minPriority_minDistanceTile ts) (_minPriority_minPriorityHolder ts)
    (_maxPriority_distance ts) (_maxPriority_level ts) (_heatmap_resets ts)
    (traversal_stackMaximumLength ts) (emptyTraversal_stackMaximumLength ts)
    (descendantTraversal_stackMaximumLength ts) v
    (selectionTraversal_ancestorStackMaximumLength ts) (visibilityUpdates ts).

Definition with_selectionTraversal_ancestorStackMaximumLength (v : nat) (ts : Tileset) : Tileset :=
  mkTileset
    (root ts) (tiles ts) (_maximumScreenSpaceError ts) (baseScreenSpaceError ts)
    (_skipLevelOfDetail ts) (immediatelyLoadDesiredLevelOfDetail ts)
    (skipScreenSpaceErrorFactor ts) (skipLevels ts) (loadSiblings ts) (debugFreezeFrame ts)
    (_selectedTiles ts) (_selectedTilesToStyle ts) (_requestedTiles ts) (_emptyTiles ts)
    (_hasMixedContent ts) (_statistics_visited ts) (_tileset_updatedVisibilityFrame ts)
    (_cache_touched ts) (_minPriority_distance ts) (_minPriority_level ts)
    (_minPriority_minDistanceTile ts) (_minPriority_minPriorityHolder ts)
    (_maxPriority_distance ts) (_maxPriority_level ts) (_heatmap_resets ts)
    (traversal_stackMaximumLength ts) (emptyTraversal_stackMaximumLength ts)
    (descendantTraversal_stackMaximumLength ts) (selectionTraversal_stackMaximumLength ts) v
    (visibilityUpdates ts).

Definition with_visibilityUpdates (v : list TileId) (ts : Tileset) : Tileset :=
  mkTileset
    (root ts) (tiles ts) (_maximumScreenSpaceError ts) (baseScreenSpaceError ts)
    (_skipLevelOfDetail ts) (immediatelyLoadDesiredLevelOfDetail ts)
    (skipScreenSpaceErrorFactor ts) (skipLevels ts) (loadSiblings ts) (debugFreezeFrame ts)
    (_selectedTiles ts) (_selectedTilesToStyle ts) (_requestedTiles ts) (_emptyTiles ts)
    (_hasMixedContent ts) (_statistics_visited ts) (_tileset_updatedVisibilityFrame ts)
    (_cache_touched ts) (_minPriority_distance ts) (_minPriority_level ts)
    (_minPriority_minDistanceTile ts) (_minPriority_minPriorityHolder ts)
    (_maxPriority_distance ts) (_maxPriority_level ts) (_heatmap_resets ts)
    (traversal_stackMaximumLength ts) (emptyTraversal_stackMaximumLength ts)
    (descendantTraversal_stackMaximumLength ts) (selectionTraversal_stackMaximumLength ts)
    (selectionTraversal_ancestorStackMaximumLength ts) v.

(** ** The store of tile objects *)

Definition getTile (ts : Tileset) (tile : TileId) : Tile := tiles ts !!! tile.

Definition modTile (tile : TileId) (f : Tile -> Tile) (ts : Tileset) : Tileset :=
  with_tiles (<[tile := f (getTile ts tile)]> (tiles ts)) ts.

(** ** Collaborators that are not part of the traversal file *)

(** Modelled from the spec: the tile method [updateVisibility(frameState)],
    which is declared in the tile class and not in the traversal file.  It
    sets [_visible] and [_inRequestVolume] from the camera of the frame.
    Every call is recorded in [visibilityUpdates]. *)
Definition Tile_updateVisibility (fs : FrameState) (tile : TileId) (ts : Tileset) : Tileset :=
  with_visibilityUpdates (visibilityUpdates ts ++ [tile])
    (modTile tile
       (fun t => set_inRequestVolume (fs_inRequestVolume fs tile)
                   (set_visible (fs_visible fs tile) t)) ts).

(** Modelled from the spec: the tile method [updateExpiration()], the
    expiration refresh of the tile class.  The availability flags of a
    tile are inputs of the frame and stay as they are. *)
Definition Tile_updateExpiration (tile : TileId) (ts : Tileset) : Tileset := ts.

(** Modelled from the spec: the tile method [contentVisibility(frameState)],
    the frustum check against the content bounds. *)
Definition Tile_contentVisibility (fs : FrameState) (tile : TileId) : Intersect :=
  fs_contentVisibility fs tile.

(** Modelled from the spec: the tile method
    [getScreenSpaceError(frameState, useParentGeometricError)]. *)
Definition Tile_getScreenSpaceError (ts : Tileset) (tile : TileId) (fs : FrameState)
    (useParentGeometricError : bool) : Z :=
  if useParentGeometricError then fs_screenSpaceErrorWithParentError fs tile
  else _screenSpaceError (getTile ts tile).

(** Modelled from the spec: [CesiumMath.clamp(value, min, max)] of
    [Core/Math], which is not part of the traversal file: a value below
    [min] becomes [min], a value above [max] becomes [max]. *)
Definition clamp (value min max : Z) : Z :=
  if value <? min then min else if max <? value then max else value.

(** Modelled from the spec: [tileset._cache.touch(tile)], the touch of the
    LRU cache; the calls are recorded in order. *)
Definition cache_touch (tile : TileId) (ts : Tileset) : Tileset :=
  with_cache_touched (_cache_touched ts ++ [tile]) ts.

(** Modelled from the spec: [tileset._heatmap.resetMinMax()]. *)
Definition heatmap_resetMinMax (ts : Tileset) : Tileset :=
  with_heatmap_resets (S (_heatmap_resets ts)) ts.

(** [Array.prototype.sort(compare)]: a stable sort by a comparator whose
    sign decides the order of two elements. *)
Fixpoint Array_sort_insert {A : Type} (compare : A -> A -> Z) (x : A) (l : list A) : list A :=
  match l with
  | [] => [x]
  | y :: l' => if compare x y <=? 0 then x :: y :: l'
               else y :: Array_sort_insert compare x l'
  end.

Fixpoint Array_sort {A : Type} (compare : A -> A -> Z) (l : list A) : list A :=
  match l with
  | [] => []
  | x :: l' => Array_sort_insert compare x (Array_sort compare l')
  end.

(** [a < b / c] for JavaScript numbers, without rounding: the quotient by
    zero is an infinity with the sign of [b], or NaN when [b] is zero. *)
Definition lt_quotient (a b c : Z) : bool :=
  if 0 <? c then a * c <? b
  else if c <? 0 then b <? a * c
  else 0 <? b.

(** [while (cond) { body }] with a bound on the number of iterations. *)
Fixpoint while {S : Type} (cond : S -> bool) (body : S -> option S) (fuel : nat) (s : S)
    : option S :=
  if cond s then
    match fuel with
    | O => None
    | Datatypes.S fuel' =>
        match body s with
        | Some s' => while cond body fuel' s'
        | None => None
        end
    end
  else Some s.

(** ** The traversal *)

Definition isVisible (ts : Tileset) (tile : TileId) : bool :=
  _visible (getTile ts tile) && _inRequestVolume (getTile ts tile).

Definition skipLevelOfDetail (ts : Tileset) : bool := _skipLevelOfDetail ts.

Definition addEmptyTile (ts : Tileset) (tile : TileId) : Tileset :=
  with_emptyTiles (_emptyTiles ts ++ [tile]) ts.

Definition selectTile (ts : Tileset) (tile : TileId) (fs : FrameState) : Tileset :=
  if Intersect_eqb (Tile_contentVisibility fs tile) OUTSIDE then ts
  else
    let ts :=
      if featurePropertiesDirty (getTile ts tile) then
        let ts := modTile tile (set_featurePropertiesDirty false) ts in
        let ts := modTile tile (set_lastStyleTime 0) ts in
        with_selectedTilesToStyle (_selectedTilesToStyle ts ++ [tile]) ts
      else if _selectedFrame (getTile ts tile) <? frameNumber fs - 1 then
        with_selectedTilesToStyle (_selectedTilesToStyle ts ++ [tile]) ts
      else ts in
    let ts := modTile tile (set_selectedFrame (frameNumber fs)) ts in
    with_selectedTiles (_selectedTiles ts ++ [tile]) ts.

Definition touchTile (ts : Tileset) (tile : TileId) (fs : FrameState) : Tileset :=
  if _touchedFrame (getTile ts tile) =? frameNumber fs then ts
  else
    let ts := cache_touch tile ts in
    modTile tile (set_touchedFrame (frameNumber fs)) ts.

Definition getPriority (ts : Tileset) (tile : TileId) : Z :=
  let t := getTile ts tile in
  clamp (_centerZDepth t - boundingSphere_radius t) 0 (_centerZDepth t).

Definition updateMinMaxPriority (ts : Tileset) (tile : TileId) : Tileset :=
  let t := getTile ts tile in
  let holderDistance := _priorityDistance (getTile ts (_priorityDistanceHolder t)) in
  let ts := with_maxPriority_distance (Z.max holderDistance (_maxPriority_distance ts)) ts in
  let ts :=
    if _priorityDistance t <? _minPriority_distance ts then
      let ts := with_minPriority_distance (_priorityDistance t) ts in
      with_minPriority_minDistanceTile (Some tile) ts
    else ts in
  let ts :=
    if holderDistance <=? _minPriority_distance ts then
      with_minPriority_minPriorityHolder (Some tile) ts
    else ts in
  let ts := with_maxPriority_level (Z.max (_depth t) (_maxPriority_level ts)) ts in
  with_minPriority_level (Z.min (_depth t) (_minPriority_level ts)) ts.

(** The function [hasEmptyContent(tile)] of the traversal; the trailing
    underscore keeps it apart from the tile property of the same name. *)
Definition hasEmptyContent_ (ts : Tileset) (tile : TileId) : bool :=
  hasEmptyContent (getTile ts tile) || hasTilesetContent (getTile ts tile).

Definition hasUnloadedContent (ts : Tileset) (tile : TileId) : bool :=
  negb (hasEmptyContent_ ts tile) && contentUnloaded (getTile ts tile).

Definition loadTile (ts : Tileset) (tile : TileId) (fs : FrameState) : Tileset :=
  if hasUnloadedContent ts tile || contentExpired (getTile ts tile) then
    let ts := modTile tile (set_requestedFrame (frameNumber fs)) ts in
    let ts := updateMinMaxPriority ts tile in
    with_requestedTiles (_requestedTiles ts ++ [tile]) ts
  else ts.

(** The memoising wrapper of the source.  No traversal calls it:
    [updateTile] goes to the tile method directly. *)
Definition updateVisibility (ts : Tileset) (tile : TileId) (fs : FrameState) : Tileset :=
  if _updatedVisibilityFrame (getTile ts tile) =? _tileset_updatedVisibilityFrame ts then ts
  else
    let ts := Tile_updateVisibility fs tile ts in
    modTile tile (set_updatedVisibilityFrame (_tileset_updatedVisibilityFrame ts)) ts.

Definition updateTile (ts : Tileset) (tile : TileId) (fs : FrameState) : Tileset :=
  let ts := Tile_updateVisibility fs tile ts in
  let ts := modTile tile (set_priorityDistance (getPriority ts tile)) ts in
  let ts := modTile tile (set_priorityDistanceHolder tile) ts in
  let ts := Tile_updateExpiration tile ts in
  let ts := modTile tile (set_decendantsThatHaveFadedIn 0) ts in
  let ts := modTile tile (set_decendantsThatHaveFadedInLastFrame 0) ts in
  let ts := modTile tile (set_decendantsCount 0) ts in
  let ts := modTile tile (set_wasMinChild false) ts in
  let ts := modTile tile (set_shouldSelect false) ts in
  modTile tile (set_finalResolution true) ts.

Definition updateTileAncestorContentLinks (ts : Tileset) (tile : TileId) (fs : FrameState)
    : Tileset :=
  let ts := modTile tile (set_ancestorWithContent None) ts in
  let ts := modTile tile (set_ancestorWithContentAvailable None) ts in
  match parent (getTile ts tile) with
  | Some parent =>
      let hasContent :=
        negb (hasUnloadedContent ts parent)
        || (_requestedFrame (getTile ts parent) =? frameNumber fs) in
      let ts :=
        modTile tile
          (set_ancestorWithContent
             (if hasContent then Some parent else _ancestorWithContent (getTile ts parent))) ts in
      modTile tile
        (set_ancestorWithContentAvailable
           (if contentAvailable (getTile ts parent) then Some parent
            else _ancestorWithContentAvailable (getTile ts parent))) ts
  | None => ts
  end.

Definition reachedSkippingThreshold (ts : Tileset) (tile : TileId) : bool :=
  match _ancestorWithContent (getTile ts tile) with
  | Some ancestor =>
      negb (immediatelyLoadDesiredLevelOfDetail ts)
      && lt_quotient (_screenSpaceError (getTile ts tile))
           (_screenSpaceError (getTile ts ancestor)) (skipScreenSpaceErrorFactor ts)
      && (_depth (getTile ts ancestor) + skipLevels ts <? _depth (getTile ts tile))
  | None => false
  end.

Definition sortChildrenByDistanceToCamera (a b : Tile) : Z :=
  if (_distanceToCamera b =? 0) && (_distanceToCamera a =? 0) then
    _centerZDepth b - _centerZDepth a
  else _distanceToCamera b - _distanceToCamera a.

Definition canTraverse (ts : Tileset) (tile : TileId) : bool :=
  if (length (children (getTile ts tile)) =? 0)%nat then false
  else if hasTilesetContent (getTile ts tile) then negb (contentExpired (getTile ts tile))
  else _maximumScreenSpaceError ts <? _screenSpaceError (getTile ts tile).

(** [None] stands for the TypeError of reading [tile.parent._screenSpaceError]
    on a tile without a parent. *)
Definition inBaseTraversal (ts : Tileset) (tile : TileId) (baseScreenSpaceError : Z)
    : option bool :=
  if negb (skipLevelOfDetail ts) then Some true
  else if immediatelyLoadDesiredLevelOfDetail ts then Some false
  else
    match _ancestorWithContent (getTile ts tile) with
    | None => Some true
    | Some _ =>
        if _screenSpaceError (getTile ts tile) =? 0 then
          match parent (getTile ts tile) with
          | Some parent => Some (baseScreenSpaceError <? _screenSpaceError (getTile ts parent))
          | None => None
          end
        else Some (baseScreenSpaceError <? _screenSpaceError (getTile ts tile))
    end.

Definition visitTile (ts : Tileset) (tile : TileId) (fs : FrameState) : Tileset :=
  let ts := with_statistics_visited (_statistics_visited ts + 1) ts in
  modTile tile (set_visitedFrame (frameNumber fs)) ts.

(** The [for] loop over the children of a popped tile in [selectDescendants]. *)
Fixpoint selectDescendants_children (fs : FrameState) (root : TileId)
    (children : list TileId) (ts : Tileset) (stack : list TileId)
    : Tileset * list TileId :=
  match children with
  | [] => (ts, stack)
  | child :: rest =>
      if isVisible ts child then
        if contentAvailable (getTile ts child) then
          let ts := updateTile ts child fs in
          let ts := touchTile ts child fs in
          let ts := selectTile ts child fs in
          selectDescendants_children fs root rest ts stack
        else if _depth (getTile ts child) - _depth (getTile ts root)
                <? descendantSelectionDepth then
          selectDescendants_children fs root rest ts (child :: stack)
        else selectDescendants_children fs root rest ts stack
      else selectDescendants_children fs root rest ts stack
  end.

Definition selectDescendants_body (fs : FrameState) (root : TileId)
    (st : Tileset * list TileId) : option (Tileset * list TileId) :=
  let '(ts, stack) := st in
  let ts :=
    with_descendantTraversal_stackMaximumLength
      (Nat.max (descendantTraversal_stackMaximumLength ts) (length stack)) ts in
  match stack with
  | tile :: stack =>
      Some (selectDescendants_children fs root (children (getTile ts tile)) ts stack)
  | [] => None
  end.

Definition stack_nonempty {A : Type} (stack : list A) : bool :=
  (0 <? length stack)%nat.

Definition selectDescendants (fuel : nat) (ts : Tileset) (root : TileId) (fs : FrameState)
    : option Tileset :=
  match while (fun st => stack_nonempty (snd st)) (selectDescendants_body fs root)
              fuel (ts, [root]) with
  | Some (ts, _) => Some ts
  | None => None
  end.

Definition selectDesiredTile (fuel : nat) (ts : Tileset) (tile : TileId) (fs : FrameState)
    : option Tileset :=
  if negb (skipLevelOfDetail ts) then
    if contentAvailable (getTile ts tile) then Some (selectTile ts tile fs)
    else Some ts
  else
    let loadedTile :=
      if contentAvailable (getTile ts tile) then Some tile
      else _ancestorWithContentAvailable (getTile ts tile) in
    match loadedTile with
    | Some loadedTile => Some (modTile loadedTile (set_shouldSelect true) ts)
    | None => selectDescendants fuel ts tile fs
    end.

(** *** The empty traversal *)

Definition executeEmptyTraversal_body (fs : FrameState)
    (st : Tileset * list TileId * bool) : option (Tileset * list TileId * bool) :=
  let '(ts, stack, allDescendantsLoaded) := st in
  let ts :=
    with_emptyTraversal_stackMaximumLength
      (Nat.max (emptyTraversal_stackMaximumLength ts) (length stack)) ts in
  match stack with
  | tile :: stack =>
      let children := children (getTile ts tile) in
      let traverse := hasEmptyContent_ ts tile && canTraverse ts tile in
      let allDescendantsLoaded :=
        if negb traverse && negb (contentAvailable (getTile ts tile)) then false
        else allDescendantsLoaded in
      let ts := updateTile ts tile fs in
      let ts :=
        if negb (isVisible ts tile) then
          let ts := loadTile ts tile fs in
          touchTile ts tile fs
        else ts in
      let stack := if traverse then rev children ++ stack else stack in
      Some (ts, stack, allDescendantsLoaded)
  | [] => None
  end.

Definition executeEmptyTraversal (fuel : nat) (ts : Tileset) (root : TileId) (fs : FrameState)
    : option (bool * Tileset) :=
  match while (fun st => stack_nonempty (snd (fst st))) (executeEmptyTraversal_body fs)
              fuel (ts, [root], true) with
  | Some (ts, _, allDescendantsLoaded) => Some (allDescendantsLoaded, ts)
  | None => None
  end.

(** *** Children of a traversed tile *)

Record ChildrenLoop : Type := mkChildrenLoop {
  cl_tileset : Tileset;
  cl_stack : list TileId;
  cl_refines : bool;
  cl_anyChildrenVisible : bool;
  cl_minIndex : option nat;
  cl_minDistancePriority : Z
}.

(** One iteration of the second [for] loop of [updateAndPushChildren] on
    the child at index [i]; [cl_minIndex = None] is the index [-1]. *)
Definition updateAndPushChildren_child (fuel : nat) (fs : FrameState) (checkRefines : bool)
    (child : TileId) (i : nat) (st : ChildrenLoop) : option ChildrenLoop :=
  let ts := cl_tileset st in
  let st :=
    if isVisible ts child then
      let smaller := _priorityDistance (getTile ts child) <? cl_minDistancePriority st in
      mkChildrenLoop ts (child :: cl_stack st) (cl_refines st) true
        (if smaller then Some i else cl_minIndex st)
        (if smaller then _priorityDistance (getTile ts child)
         else cl_minDistancePriority st)
    else if checkRefines || loadSiblings ts then
      let smaller := _priorityDistance (getTile ts child) <? cl_minDistancePriority st in
      let ts' := loadTile ts child fs in
      let ts' := touchTile ts' child fs in
      mkChildrenLoop ts' (cl_stack st) (cl_refines st) (cl_anyChildrenVisible st)
        (if smaller then Some i else cl_minIndex st)
        (if smaller then _priorityDistance (getTile ts child)
         else cl_minDistancePriority st)
    else st in
  let ts := cl_tileset st in
  if checkRefines then
    if negb (_inRequestVolume (getTile ts child)) then
      Some (mkChildrenLoop ts (cl_stack st) (cl_refines st && false)
              (cl_anyChildrenVisible st) (cl_minIndex st) (cl_minDistancePriority st))
    else if hasEmptyContent_ ts child then
      match executeEmptyTraversal fuel ts child fs with
      | Some (childRefines, ts') =>
          Some (mkChildrenLoop ts' (cl_stack st) (cl_refines st && childRefines)
                  (cl_anyChildrenVisible st) (cl_minIndex st)
                  (cl_minDistancePriority st))
      | None => None
      end
    else
      Some (mkChildrenLoop ts (cl_stack st)
              (cl_refines st && contentAvailable (getTile ts child))
              (cl_anyChildrenVisible st) (cl_minIndex st) (cl_minDistancePriority st))
  else Some st.

(** The loop over the children from index [i] on. *)
Fixpoint updateAndPushChildren_loop (fuel : nat) (fs : FrameState) (checkRefines : bool)
    (children : list TileId) (i : nat) (st : ChildrenLoop) : option ChildrenLoop :=
  match children with
  | [] => Some st
  | child :: rest =>
      match updateAndPushChildren_child fuel fs checkRefines child i st with
      | Some st => updateAndPushChildren_loop fuel fs checkRefines rest (S i) st
      | None => None
      end
  end.

(** The body of [if (minIndex !== -1)] at the end of
    [updateAndPushChildren]: the priority holder of the children. *)
Definition updateAndPushChildren_link (ts : Tileset) (tile : TileId) (children : list TileId)
    (minPriorityChild : TileId) : Tileset :=
  let ts := modTile minPriorityChild (set_wasMinChild true) ts in
  let priorityHolder :=
    if _wasMinChild (getTile ts tile) || (tile =? root ts)%nat
    then _priorityDistanceHolder (getTile ts tile) else tile in
  let ts :=
    modTile priorityHolder
      (set_priorityDistance (_priorityDistance (getTile ts minPriorityChild))) ts in
  foldl (fun ts child => modTile child (set_priorityDistanceHolder priorityHolder) ts)
    ts children.

(** The result is [refines] with the tileset and the stack after the call;
    [None] also stands for the TypeError of [children[minIndex]] out of range. *)
Definition updateAndPushChildren (fuel : nat) (ts : Tileset) (tile : TileId)
    (stack : list TileId) (fs : FrameState) : option (bool * Tileset * list TileId) :=
  let replace := Cesium3DTileRefine_eqb (refine (getTile ts tile)) REPLACE in
  let children0 := children (getTile ts tile) in
  let ts := foldl (fun ts child => updateTile ts child fs) ts children0 in
  let children :=
    Array_sort (fun a b => sortChildrenByDistanceToCamera (getTile ts a) (getTile ts b))
      children0 in
  let ts := modTile tile (set_children children) ts in
  let checkRefines :=
    negb (skipLevelOfDetail ts) && replace && negb (hasEmptyContent_ ts tile) in
  match updateAndPushChildren_loop fuel fs checkRefines children 0
          (mkChildrenLoop ts stack true false None Number_MAX_VALUE) with
  | None => None
  | Some st =>
      let ts := cl_tileset st in
      let refines := if negb (cl_anyChildrenVisible st) then false else cl_refines st in
      match cl_minIndex st with
      | Some minIndex =>
          match children !! minIndex with
          | Some minPriorityChild =>
              Some (refines, updateAndPushChildren_link ts tile children minPriorityChild,
                    cl_stack st)
          | None => None
          end
      | None => Some (refines, ts, cl_stack st)
      end
  end.

(** *** The main traversal *)

(** The dispatch on the content of the popped tile: the [if] chain of the
    loop body that loads and selects. *)
Definition executeTraversal_select (fuel : nat) (ts : Tileset) (tile : TileId)
    (fs : FrameState) (baseTraversal stoppedRefining : bool) : option Tileset :=
  let add := Cesium3DTileRefine_eqb (refine (getTile ts tile)) ADD in
  let replace := Cesium3DTileRefine_eqb (refine (getTile ts tile)) REPLACE in
  if hasEmptyContent_ ts tile then
    let ts := addEmptyTile ts tile in
    let ts := loadTile ts tile fs in
    if stoppedRefining then selectDesiredTile fuel ts tile fs else Some ts
  else if add then
    match selectDesiredTile fuel ts tile fs with
    | Some ts => Some (loadTile ts tile fs)
    | None => None
    end
  else if replace then
    if baseTraversal then
      let ts := loadTile ts tile fs in
      if stoppedRefining then selectDesiredTile fuel ts tile fs else Some ts
    else if stoppedRefining then
      match selectDesiredTile fuel ts tile fs with
      | Some ts => Some (loadTile ts tile fs)
      | None => None
      end
    else if reachedSkippingThreshold ts tile then Some (loadTile ts tile fs)
    else Some ts
  else Some ts.

(** [parentRefines] of the loop body. *)
Definition parentRefines (ts : Tileset) (tile : TileId) : bool :=
  match parent (getTile ts tile) with
  | Some parent => _refines (getTile ts parent)
  | None => true
  end.

Definition executeTraversal_body (fuel : nat) (fs : FrameState)
    (baseScreenSpaceError maximumScreenSpaceError : Z)
    (st : Tileset * list TileId) : option (Tileset * list TileId) :=
  let '(ts, stack) := st in
  let ts :=
    with_traversal_stackMaximumLength
      (Nat.max (traversal_stackMaximumLength ts) (length stack)) ts in
  match stack with
  | [] => None
  | tile :: stack =>
      let ts := updateTileAncestorContentLinks ts tile fs in
      match inBaseTraversal ts tile baseScreenSpaceError with
      | None => None
      | Some baseTraversal =>
          let parentRefines := parentRefines ts tile in
          let traversed :=
            if canTraverse ts tile then
              match updateAndPushChildren fuel ts tile stack fs with
              | Some (childrenRefine, ts, stack) =>
                  Some (childrenRefine && parentRefines, ts, stack)
              | None => None
              end
            else Some (false, ts, stack) in
          match traversed with
          | None => None
          | Some (refines, ts, stack) =>
              let stoppedRefining := negb refines && parentRefines in
              match executeTraversal_select fuel ts tile fs baseTraversal stoppedRefining with
              | None => None
              | Some ts =>
                  let ts := visitTile ts tile fs in
                  let ts := touchTile ts tile fs in
                  let ts := modTile tile (set_refines refines) ts in
                  Some (ts, stack)
              end
          end
      end
  end.

Definition executeTraversal (fuel : nat) (ts : Tileset) (root : TileId)
    (baseScreenSpaceError maximumScreenSpaceError : Z) (fs : FrameState) : option Tileset :=
  match while (fun st => stack_nonempty (snd st))
              (executeTraversal_body fuel fs baseScreenSpaceError maximumScreenSpaceError)
              fuel (ts, [root]) with
  | Some (ts, _) => Some ts
  | None => None
  end.

(** *** The selection pass of the skip-LOD modes *)

Record SelectionLoop : Type := mkSelectionLoop {
  sl_tileset : Tileset;
  sl_stack : list TileId;
  sl_ancestorStack : list TileId;
  sl_lastAncestor : option TileId
}.

Definition traverseAndSelect_cond (st : SelectionLoop) : bool :=
  stack_nonempty (sl_stack st) || stack_nonempty (sl_ancestorStack st).

(** Pushes the visible children of a tile in the order of the array. *)
Fixpoint pushVisibleChildren (ts : Tileset) (children stack : list TileId) : list TileId :=
  match children with
  | [] => stack
  | child :: rest =>
      pushVisibleChildren ts rest (if isVisible ts child then child :: stack else stack)
  end.

(** The part of the loop body after the ancestor stack has been looked
    at: pops a tile, where [ManagedArray.pop] of an empty array is
    [undefined] and the iteration ends. *)
Definition traverseAndSelect_visit (fs : FrameState) (st : SelectionLoop) : SelectionLoop :=
  let ts := sl_tileset st in
  match sl_stack st with
  | [] => st
  | tile :: stack =>
      let ancestorStack := sl_ancestorStack st in
      let add := Cesium3DTileRefine_eqb (refine (getTile ts tile)) ADD in
      let shouldSelect := _shouldSelect (getTile ts tile) in
      let children := children (getTile ts tile) in
      let traverse := canTraverse ts tile in
      let pushChildren (ts : Tileset) (ancestorStack : list TileId)
          (lastAncestor : option TileId) :=
        mkSelectionLoop ts
          (if traverse then pushVisibleChildren ts children stack else stack)
          ancestorStack lastAncestor in
      if shouldSelect then
        if add then
          pushChildren (selectTile ts tile fs) ancestorStack (sl_lastAncestor st)
        else
          let ts := modTile tile (set_selectionDepth (length ancestorStack)) ts in
          let ts :=
            if (0 <? _selectionDepth (getTile ts tile))%nat
            then with_hasMixedContent true ts else ts in
          if negb traverse then
            mkSelectionLoop (selectTile ts tile fs) stack ancestorStack (Some tile)
          else
            let ts := modTile tile (set_stackLength (length stack)) ts in
            pushChildren ts (tile :: ancestorStack) (Some tile)
      else pushChildren ts ancestorStack (sl_lastAncestor st)
  end.

Definition traverseAndSelect_body (fs : FrameState) (st : SelectionLoop)
    : option SelectionLoop :=
  let ts := sl_tileset st in
  let ts :=
    with_selectionTraversal_stackMaximumLength
      (Nat.max (selectionTraversal_stackMaximumLength ts) (length (sl_stack st))) ts in
  let ts :=
    with_selectionTraversal_ancestorStackMaximumLength
      (Nat.max (selectionTraversal_ancestorStackMaximumLength ts)
         (length (sl_ancestorStack st))) ts in
  let st := mkSelectionLoop ts (sl_stack st) (sl_ancestorStack st) (sl_lastAncestor st) in
  match sl_ancestorStack st with
  | waitingTile :: ancestorStack =>
      if (_stackLength (getTile ts waitingTile) =? length (sl_stack st))%nat then
        let ts :=
          if negb (bool_decide (Some waitingTile = sl_lastAncestor st))
          then modTile waitingTile (set_finalResolution false) ts else ts in
        let ts := selectTile ts waitingTile fs in
        Some (mkSelectionLoop ts (sl_stack st) ancestorStack (sl_lastAncestor st))
      else Some (traverseAndSelect_visit fs st)
  | [] => Some (traverseAndSelect_visit fs st)
  end.

Definition traverseAndSelect (fuel : nat) (ts : Tileset) (root : TileId) (fs : FrameState)
    : option Tileset :=
  match while traverseAndSelect_cond (traverseAndSelect_body fs) fuel
              (mkSelectionLoop ts [root] [] None) with
  | Some st => Some (sl_tileset st)
  | None => None
  end.

(** *** The three modes and the entry point *)

Definition executeBaseTraversal (fuel : nat) (ts : Tileset) (root : TileId) (fs : FrameState)
    : option Tileset :=
  let baseScreenSpaceError := _maximumScreenSpaceError ts in
  let maximumScreenSpaceError := _maximumScreenSpaceError ts in
  executeTraversal fuel ts root baseScreenSpaceError maximumScreenSpaceError fs.

Definition executeSkipTraversal (fuel : nat) (ts : Tileset) (root : TileId) (fs : FrameState)
    : option Tileset :=
  let baseScreenSpaceError := Number_MAX_VALUE in
  let maximumScreenSpaceError := _maximumScreenSpaceError ts in
  match executeTraversal fuel ts root baseScreenSpaceError maximumScreenSpaceError fs with
  | Some ts => traverseAndSelect fuel ts root fs
  | None => None
  end.

Definition executeBaseAndSkipTraversal (fuel : nat) (ts : Tileset) (root : TileId)
    (fs : FrameState) : option Tileset :=
  let baseScreenSpaceError := Z.max (baseScreenSpaceError ts) (_maximumScreenSpaceError ts) in
  let maximumScreenSpaceError := _maximumScreenSpaceError ts in
  match executeTraversal fuel ts root baseScreenSpaceError maximumScreenSpaceError fs with
  | Some ts => traverseAndSelect fuel ts root fs
  | None => None
  end.

(** [ManagedArray.trim] releases storage beyond the high-water mark and
    leaves the elements alone, so the five trims at the end leave the model
    as it is. *)
Definition selectTiles (fuel : nat) (ts : Tileset) (fs : FrameState)
    : option (ReturnValue * Tileset) :=
  let ts := with_requestedTiles [] ts in
  if debugFreezeFrame ts then Some (RetUndefined, ts)
  else
    let ts := with_selectedTiles [] ts in
    let ts := with_selectedTilesToStyle [] ts in
    let ts := with_emptyTiles [] ts in
    let ts := with_hasMixedContent false ts in
    let root := root ts in
    let ts := updateTile ts root fs in
    if negb (isVisible ts root) then Some (RetUndefined, ts)
    else if Tile_getScreenSpaceError ts root fs true <=? _maximumScreenSpaceError ts
    then Some (RetUndefined, ts)
    else
      let ts := heatmap_resetMinMax ts in
      let traversed :=
        if negb (skipLevelOfDetail ts) then executeBaseTraversal fuel ts root fs
        else if immediatelyLoadDesiredLevelOfDetail ts then executeSkipTraversal fuel ts root fs
        else executeBaseAndSkipTraversal fuel ts root fs in
      match traversed with
      | Some ts => Some (RetTrue, ts)
      | None => None
      end.

(** ** Building tilesets

    Constructors for tiles and tilesets before their first frame: the
    fields the traversal writes start at the values of the tile class
    ([false], [0], [undefined]); a tile is its own priority holder. *)

Definition newTile (self : TileId) (parent : option TileId) (children : list TileId)
    (depth : Z) (refine : Cesium3DTileRefine) (hasEmptyContent hasTilesetContent : bool)
    (radius distanceToCamera centerZDepth screenSpaceError : Z)
    (contentUnloaded contentAvailable contentExpired : bool) : Tile :=
  mkTile parent children depth refine hasEmptyContent hasTilesetContent
    radius distanceToCamera centerZDepth screenSpaceError
    contentUnloaded contentAvailable contentExpired false
    false false 0 0 self false false false false O O None None
    0 0 0 0 0 0 0 0.

Definition newTileset (root : TileId) (tiles : list (TileId * Tile))
    (maximumScreenSpaceError baseScreenSpaceError : Z)
    (skipLevelOfDetail immediatelyLoadDesiredLevelOfDetail loadSiblings : bool) : Tileset :=
  mkTileset root (list_to_map tiles) maximumScreenSpaceError baseScreenSpaceError
    skipLevelOfDetail immediatelyLoadDesiredLevelOfDetail 16 1 loadSiblings false
    [] [] [] [] false 0 1 [] Number_MAX_VALUE Number_MAX_VALUE None None
    (- Number_MAX_VALUE) (- Number_MAX_VALUE) O O O O O O [].

(** A frame in which every tile is inside the frustum and the request
    volume, except the tiles listed in [culled]. *)
Definition newFrame (frameNumber : Z) (culled : list TileId)
    (screenSpaceErrorWithParentError : TileId -> Z) : FrameState :=
  mkFrameState frameNumber
    (fun tile => negb (bool_decide (tile ∈ culled)))
    (fun _ => true) (fun _ => INSIDE) screenSpaceErrorWithParentError.

(** ** Example tilesets

    Tile 0 is the root in all of them; [maximumScreenSpaceError] is 16. *)

(** Every tile passes the culling tests; the root has a screen space
    error of 64 under the geometric error of its parent. *)
Definition frame_allVisible : FrameState := newFrame 1 [] (fun _ => 64).

(** A loaded REPLACE root over one leaf with empty content. *)
Definition tileset_emptyChild : Tileset :=
  newTileset 0%nat
    [ (0%nat, newTile 0%nat None [1%nat] 0 REPLACE false false 10 5 20 32 false true false);
      (1%nat, newTile 1%nat (Some 0%nat) [] 1 REPLACE true false 8 5 20 8 false false false) ]
    16 16 false false false.

(** A loaded REPLACE root, an empty child that can be traversed, and an
    unloaded grandchild; [loadSiblings] is on. *)
Definition tileset_hiddenGrandchild : Tileset :=
  newTileset 0%nat
    [ (0%nat, newTile 0%nat None [1%nat] 0 REPLACE false false 10 5 20 32 false true false);
      (1%nat, newTile 1%nat (Some 0%nat) [2%nat] 1 REPLACE true false 8 5 20 24 false false false);
      (2%nat, newTile 2%nat (Some 1%nat) [] 2 REPLACE false false 4 5 20 8 true false false) ]
    16 16 false false true.

(** The frame in which the grandchild is culled. *)
Definition frame_hiddenGrandchild : FrameState := newFrame 1 [2%nat] (fun _ => 64).

(** A single loaded tile, and a frame in which its screen space error
    under the geometric error of its parent is 10. *)
Definition tileset_coarse : Tileset :=
  newTileset 0%nat
    [ (0%nat, newTile 0%nat None [] 0 REPLACE false false 10 5 20 10 false true false) ]
    16 16 false false false.

Definition frame_coarse : FrameState := newFrame 1 [] (fun _ => 10).

(** Skip-LOD with [immediatelyLoadDesiredLevelOfDetail]: a loaded ADD root
    over a loaded REPLACE leaf. *)
Definition tileset_addRoot : Tileset :=
  newTileset 0%nat
    [ (0%nat, newTile 0%nat None [1%nat] 0 ADD false false 10 5 20 32 false true false);
      (1%nat, newTile 1%nat (Some 0%nat) [] 1 REPLACE false false 8 5 20 8 false true false) ]
    16 16 true true false.

(** Base mode: a chain of three loaded REPLACE tiles whose bounding
    spheres shrink towards the leaf, with priorities 10, 25 and 38. *)
Definition tileset_chain : Tileset :=
  newTileset 0%nat
    [ (0%nat, newTile 0%nat None [1%nat] 0 REPLACE false false 10 5 20 64 false true false);
      (1%nat, newTile 1%nat (Some 0%nat) [2%nat] 1 REPLACE false false 5 5 30 32 false true false);
      (2%nat, newTile 2%nat (Some 1%nat) [] 2 REPLACE false false 2 5 40 8 false true false) ]
    16 16 false false false.

(** Base mode: an unloaded REPLACE root over an unloaded REPLACE leaf. *)
Definition tileset_unloadedRoot : Tileset :=
  newTileset 0%nat
    [ (0%nat, newTile 0%nat None [1%nat] 0 REPLACE false false 10 5 20 32 true false false);
      (1%nat, newTile 1%nat (Some 0%nat) [] 1 REPLACE false false 8 5 20 8 true false false) ]
    16 16 false false false.

(** Base mode: a loaded REPLACE root over a loaded ADD leaf and an
    unloaded REPLACE leaf. *)
Definition tileset_addChild : Tileset :=
  newTileset 0%nat
    [ (0%nat, newTile 0%nat None [1%nat; 2%nat] 0 REPLACE false false 10 5 20 32 false true false);
      (1%nat, newTile 1%nat (Some 0%nat) [] 1 ADD false false 8 5 20 8 false true false);
      (2%nat, newTile 2%nat (Some 0%nat) [] 1 REPLACE false false 8 6 20 8 true false false) ]
    16 16 false false false.

(** Base mode: a loaded REPLACE root over a loaded REPLACE leaf and an
    unloaded REPLACE leaf. *)
Definition tileset_unloadedChild : Tileset :=
  newTileset 0%nat
    [ (0%nat, newTile 0%nat None [1%nat; 2%nat] 0 REPLACE false false 10 5 20 32 false true false);
      (1%nat, newTile 1%nat (Some 0%nat) [] 1 REPLACE false false 8 5 20 8 false true false);
      (2%nat, newTile 2%nat (Some 0%nat) [] 1 REPLACE false false 8 6 20 8 true false false) ]
    16 16 false false false.

(** Sizes for the example tilesets: no tile of theirs is deeper than three
    levels below the root, and tiles are numbered from the root down. *)
Definition size_example (tile : TileId) : nat :=
  match tile with
  | 0%nat => 4%nat
  | 1%nat => 2%nat
  | _ => 1%nat
  end.

(** Skip-LOD with [immediatelyLoadDesiredLevelOfDetail]: a loaded REPLACE
    root over a loaded REPLACE leaf and an unloaded REPLACE leaf. *)
Definition tileset_mixedContent : Tileset :=
  newTileset 0%nat
    [ (0%nat, newTile 0%nat None [1%nat; 2%nat] 0 REPLACE false false 10 5 20 32 false true false);
      (1%nat, newTile 1%nat (Some 0%nat) [] 1 REPLACE false false 8 5 20 8 false true false);
      (2%nat, newTile 2%nat (Some 0%nat) [] 1 REPLACE false false 8 6 20 8 true false false) ]
    16 16 true true false.

(** Base mode: three levels of loaded REPLACE tiles, a root over an inner
    tile with two leaves and over a third leaf; in both children arrays
    the nearer child comes first. *)
Definition tileset_threeLevels : Tileset :=
  newTileset 0%nat
    [ (0%nat, newTile 0%nat None [1%nat; 2%nat] 0 REPLACE false false 10 5 20 64 false true false);
      (1%nat, newTile 1%nat (Some 0%nat) [3%nat; 4%nat] 1 REPLACE false false 8 5 20 32 false true false);
      (2%nat, newTile 2%nat (Some 0%nat) [] 1 REPLACE false false 8 6 20 8 false true false);
      (3%nat, newTile 3%nat (Some 1%nat) [] 2 REPLACE false false 4 5 20 8 false true false);
      (4%nat, newTile 4%nat (Some 1%nat) [] 2 REPLACE false false 4 7 20 8 false true false) ]
    16 16 false false false.

(** Sizes for [tileset_threeLevels]. *)
Definition size_threeLevels (tile : TileId) : nat :=
  match tile with
  | 0%nat => 5%nat
  | 1%nat => 3%nat
  | _ => 1%nat
  end.

(** Skip-LOD with [immediatelyLoadDesiredLevelOfDetail]: a loaded REPLACE
    root over a loaded ADD leaf and an unloaded REPLACE leaf. *)
Definition tileset_addLeaf : Tileset :=
  newTileset 0%nat
    [ (0%nat, newTile 0%nat None [1%nat; 2%nat] 0 REPLACE false false 10 5 20 32 false true false);
      (1%nat, newTile 1%nat (Some 0%nat) [] 1 ADD false false 8 5 20 8 false true false);
      (2%nat, newTile 2%nat (Some 0%nat) [] 1 REPLACE false false 8 6 20 8 true false false) ]
    16 16 true true false.


(** Skip-LOD in a later frame: an unloaded REPLACE root that cannot be
    traversed over a loaded REPLACE leaf, which was visible in the frame
    before and has come out of it with the selection depth 5. *)
Definition tileset_staleDepth : Tileset :=
  modTile 1%nat (fun t => set_selectionDepth 5 (set_inRequestVolume true (set_visible true t)))
    (newTileset 0%nat
       [ (0%nat, newTile 0%nat None [1%nat] 0 REPLACE false false 10 5 20 8 true false false);
         (1%nat, newTile 1%nat (Some 0%nat) [] 1 REPLACE false false 8 5 20 4 false true false) ]
       16 16 true true false).

(** ** The inputs of a frame

    What the traversal reads and never writes: the settings of the
    tileset, and of every tile its place in the tree, its geometry and the
    state of its content.  The [children] array is kept apart, since
    [updateAndPushChildren] sorts it. *)

Definition settings (ts : Tileset) :=
  (root ts, _maximumScreenSpaceError ts, baseScreenSpaceError ts, _skipLevelOfDetail ts,
   immediatelyLoadDesiredLevelOfDetail ts, skipScreenSpaceErrorFactor ts, skipLevels ts,
   loadSiblings ts, debugFreezeFrame ts, _tileset_updatedVisibilityFrame ts).

Definition tile_input (t : Tile) :=
  (parent t, _depth t, refine t, hasEmptyContent t, hasTilesetContent t,
   boundingSphere_radius t, _distanceToCamera t, _centerZDepth t, _screenSpaceError t,
   contentUnloaded t, contentAvailable t, contentExpired t).

(** [same_tiles R ts ts']: the tileset [ts'] has the settings and the tile
    inputs of [ts], and the children arrays are related by [R]. *)
Definition same_tiles (R : list TileId -> list TileId -> Prop) (ts ts' : Tileset) : Prop :=
  settings ts' = settings ts
  /\ forall j, tile_input (getTile ts' j) = tile_input (getTile ts j)
               /\ R (children (getTile ts j)) (children (getTile ts' j)).

(** The tile has been refreshed in this frame: its visibility flags are
    those of the frame. *)
Definition refreshed (fs : FrameState) (ts : Tileset) (tile : TileId) : Prop :=
  _visible (getTile ts tile) = fs_visible fs tile
  /\ _inRequestVolume (getTile ts tile) = fs_inRequestVolume fs tile.

(** ** The descent of the empty traversal

    [emptyTraversal_visits ts root tile]: the descent of
    [executeEmptyTraversal] from [root] comes to [tile].  It goes on below
    a tile exactly when the tile is empty and can be traversed, whatever
    the visibility of the tile; at every other tile it stops. *)
Inductive emptyTraversal_visits (ts : Tileset) : TileId -> TileId -> Prop :=
| visits_root (root : TileId) : emptyTraversal_visits ts root root
| visits_child (root child tile : TileId) :
    hasEmptyContent_ ts root && canTraverse ts root = true ->
    child ∈ children (getTile ts root) ->
    emptyTraversal_visits ts child tile ->
    emptyTraversal_visits ts root tile.

Definition emptyTraversal_stops (ts : Tileset) (root tile : TileId) : Prop :=
  emptyTraversal_visits ts root tile
  /\ hasEmptyContent_ ts tile && canTraverse ts tile = false.

(** ** Finite trees

    [tree_sizes ts size]: every tile is larger than its children taken
    together.  Such a [size] exists exactly when no tile is below itself
    and every subtree is finite; it bounds the iterations of the loops. *)
Definition tree_sizes (ts : Tileset) (size : TileId -> nat) : Prop :=
  forall tile, (sum_list_with size (children (getTile ts tile)) < size tile)%nat.

(** ** The order of the children

    [fartherFirst ts a b]: tile [a] may stand before tile [b] in a children
    array sorted by [sortChildrenByDistanceToCamera]: [a] is at least as far
    from the camera, and when both distances are 0 its centre is at least
    as deep. *)
Definition fartherFirst (ts : Tileset) (a b : TileId) : Prop :=
  _distanceToCamera (getTile ts b) <= _distanceToCamera (getTile ts a)
  /\ (_distanceToCamera (getTile ts a) = 0 -> _distanceToCamera (getTile ts b) = 0 ->
      _centerZDepth (getTile ts b) <= _centerZDepth (getTile ts a)).

(** ** Properties kept by every write of the traversal

    [Stable fs P]: the property [P] of the tileset survives each operation
    and each single write that the traversals of a frame perform. *)
Record Stable (fs : FrameState) (P : Tileset -> Prop) : Prop := mkStable {
  stable_updateTile : forall ts tile, P ts -> P (updateTile ts tile fs);
  stable_loadTile : forall ts tile, P ts -> P (loadTile ts tile fs);
  stable_touchTile : forall ts tile, P ts -> P (touchTile ts tile fs);
  stable_selectTile : forall ts tile, P ts -> P (selectTile ts tile fs);
  stable_visitTile : forall ts tile, P ts -> P (visitTile ts tile fs);
  stable_addEmptyTile : forall ts tile, P ts -> P (addEmptyTile ts tile);
  stable_updateTileAncestorContentLinks :
    forall ts tile, P ts -> P (updateTileAncestorContentLinks ts tile fs);
  stable_sort :
    forall ts tile,
      P ts ->
      P (modTile tile
           (set_children
              (Array_sort
                 (fun a b => sortChildrenByDistanceToCamera (getTile ts a) (getTile ts b))
                 (children (getTile ts tile)))) ts);
  stable_wasMinChild : forall ts tile, P ts -> P (modTile tile (set_wasMinChild true) ts);
  stable_priorityDistance :
    forall ts tile v, P ts -> P (modTile tile (set_priorityDistance v) ts);
  stable_priorityDistanceHolder :
    forall ts tile holder, P ts -> P (modTile tile (set_priorityDistanceHolder holder) ts);
  stable_shouldSelect : forall ts tile, P ts -> P (modTile tile (set_shouldSelect true) ts);
  stable_refines : forall ts tile b, P ts -> P (modTile tile (set_refines b) ts);
  stable_selectionDepth :
    forall ts tile n, P ts -> P (modTile tile (set_selectionDepth n) ts);
  stable_stackLength : forall ts tile n, P ts -> P (modTile tile (set_stackLength n) ts);
  stable_finalResolution :
    forall ts tile, P ts -> P (modTile tile (set_finalResolution false) ts);
  stable_hasMixedContent : forall ts b, P ts -> P (with_hasMixedContent b ts);
  stable_requestedTiles : forall ts, P ts -> P (with_requestedTiles [] ts);
  stable_selectedTiles : forall ts, P ts -> P (with_selectedTiles [] ts);
  stable_selectedTilesToStyle : forall ts, P ts -> P (with_selectedTilesToStyle [] ts);
  stable_emptyTiles : forall ts, P ts -> P (with_emptyTiles [] ts);
  stable_heatmap : forall ts, P ts -> P (heatmap_resetMinMax ts);
  stable_traversal_stackMaximumLength :
    forall ts n, P ts -> P (with_traversal_stackMaximumLength n ts);
  stable_emptyTraversal_stackMaximumLength :
    forall ts n, P ts -> P (with_emptyTraversal_stackMaximumLength n ts);
  stable_descendantTraversal_stackMaximumLength :
    forall ts n, P ts -> P (with_descendantTraversal_stackMaximumLength n ts);
  stable_selectionTraversal_stackMaximumLength :
    forall ts n, P ts -> P (with_selectionTraversal_stackMaximumLength n ts);
  stable_selectionTraversal_ancestorStackMaximumLength :
    forall ts n, P ts -> P (with_selectionTraversal_ancestorStackMaximumLength n ts)
}.

(** ** The tileset at the start of the traversal

    The tileset in which [selectTiles] starts the traversal of a visible
    root: the output arrays are cleared and the root is refreshed. *)
Definition selectTiles_start (ts : Tileset) (fs : FrameState) : Tileset :=
  heatmap_resetMinMax
    (updateTile
       (with_hasMixedContent false
          (with_emptyTiles []
             (with_selectedTilesToStyle []
                (with_selectedTiles [] (with_requestedTiles [] ts)))))
       (root ts) fs).

(** The base screen space error of the mode of the tileset. *)
Definition selectTiles_baseScreenSpaceError (ts : Tileset) : Z :=
  if negb (skipLevelOfDetail ts) then _maximumScreenSpaceError ts
  else if immediatelyLoadDesiredLevelOfDetail ts then Number_MAX_VALUE
  else Z.max (baseScreenSpaceError ts) (_maximumScreenSpaceError ts).

(** ** Children after their refresh

    [fresh_child fs ts0 ts child]: in [ts], a tileset of the frame that
    started in [ts0], the tile [child] is as [updateTile] leaves it: its
    visibility flags are those of the frame, its priority is its own
    [getPriority], and it is its own priority holder. *)
Definition fresh_child (fs : FrameState) (ts0 ts : Tileset) (child : TileId) : Prop :=
  same_tiles Permutation ts0 ts
  /\ refreshed fs ts child
  /\ _priorityDistance (getTile ts child) = getPriority ts0 child
  /\ _priorityDistanceHolder (getTile ts child) = child.

(** The children that take part in the search for the minimum priority
    in [updateAndPushChildren]: the visible ones, and all of them under
    the refine check or [loadSiblings]. *)
Definition checkRefines (ts : Tileset) (tile : TileId) : bool :=
  negb (skipLevelOfDetail ts)
  && Cesium3DTileRefine_eqb (refine (getTile ts tile)) REPLACE
  && negb (hasEmptyContent_ ts tile).

Definition inPrioritySearch (fs : FrameState) (ts : Tileset) (tile child : TileId) : bool :=
  (fs_visible fs child && fs_inRequestVolume fs child)
  || checkRefines ts tile || loadSiblings ts.

(** ** Children that hold back the refinement of their parent

    [blocksRefinement ts child]: the child fails the refine check of a
    REPLACE parent by its content: it has content that is not available,
    or it is empty and the descent of the empty traversal from it stops
    at a tile without available content. *)
Definition blocksRefinement (ts : Tileset) (child : TileId) : Prop :=
  if hasEmptyContent_ ts child then
    exists hole,
      emptyTraversal_stops ts child hole /\ contentAvailable (getTile ts hole) = false
  else contentAvailable (getTile ts child) = false.

(** [unselected ts0 ts]: [ts] has the selected tiles and the [_refines]
    flags of [ts0], and has lost none of its requests. *)
Definition unselected (ts0 ts : Tileset) : Prop :=
  _selectedTiles ts = _selectedTiles ts0
  /\ (forall j, _refines (getTile ts j) = _refines (getTile ts0 j))
  /\ (forall c, c ∈ _requestedTiles ts0 -> c ∈ _requestedTiles ts).

(** ** Parents and children agree

    [wf_parents ts]: the [parent] of every tile in a children array is the
    owner of the array, as the constructor of the tile class makes it. *)
Definition wf_parents (ts : Tileset) : Prop :=
  forall p c, c ∈ children (getTile ts p) -> parent (getTile ts c) = Some p.

(** ** The selection pass

    What [traverseAndSelect] reads of a tile besides its inputs: the mark
    of the main traversal and the visibility flags. *)
Definition selection_flags (t : Tile) := (_shouldSelect t, _visible t, _inRequestVolume t).

(** [same_selection ts ts']: the tileset [ts'] has the inputs, the children
    arrays and the selection flags of [ts]. *)
Definition same_selection (ts ts' : Tileset) : Prop :=
  same_tiles eq ts ts'
  /\ forall j, selection_flags (getTile ts' j) = selection_flags (getTile ts j).

(** [ancestry ts tile l]: [l] lists the proper ancestors of [tile], from
    its parent up to the tile without a parent. *)
Inductive ancestry (ts : Tileset) : TileId -> list TileId -> Prop :=
| ancestry_root (tile : TileId) :
    parent (getTile ts tile) = None -> ancestry ts tile []
| ancestry_parent (tile p : TileId) (l : list TileId) :
    parent (getTile ts tile) = Some p -> ancestry ts p l -> ancestry ts tile (p :: l).

(** [lineage ts root tile l]: a path of children arrays leads from [root]
    down to [tile]; [l] lists the tiles on it above [tile], nearest first. *)
Inductive lineage (ts : Tileset) (root : TileId) : TileId -> list TileId -> Prop :=
| lineage_root : lineage ts root root []
| lineage_child (p c : TileId) (l : list TileId) :
    lineage ts root p l -> c ∈ children (getTile ts p) -> lineage ts root c (p :: l).

(** [selection_reaches ts root tile]: the selection pass from [root] pops
    [tile]: it goes down from a tile that can be traversed to its visible
    children. *)
Inductive selection_reaches (ts : Tileset) (root : TileId) : TileId -> Prop :=
| reaches_root : selection_reaches ts root root
| reaches_child (p c : TileId) :
    selection_reaches ts root p ->
    canTraverse ts p = true ->
    c ∈ children (getTile ts p) ->
    isVisible ts c = true ->
    selection_reaches ts root c.

(** The tiles that the selection pass gives a selection depth, and puts on
    the ancestor stack when they can be traversed: the marked REPLACE
    tiles. *)
Definition selectionAncestor (ts : Tileset) (tile : TileId) : bool :=
  _shouldSelect (getTile ts tile)
  && negb (Cesium3DTileRefine_eqb (refine (getTile ts tile)) ADD).

(** The tiles of the ancestor stack that wait for the stack to come down
    to a length of at most [n]. *)
Definition waiting (ts : Tileset) (n : nat) (ancestorStack : list TileId) : list TileId :=
  List.filter (fun a => (_stackLength (getTile ts a) <=? n)%nat) ancestorStack.

(** The selection depth of [tile] counts the marked REPLACE tiles among
    its proper ancestors. *)
Definition depth_counts (ts0 ts : Tileset) (tile : TileId) : Prop :=
  selectionAncestor ts0 tile = true ->
  forall l, ancestry ts0 tile l ->
            _selectionDepth (getTile ts tile) = length (List.filter (selectionAncestor ts0) l).

(** The invariant of the loop of [traverseAndSelect] that started from
    [root] in the tileset [ts0]: every tile on the stack is below the
    ancestors that wait for a stack no longer than the part under the
    tile; the ancestors wait for longer stacks towards the top, none for
    more than the stack. *)
Record selection_invariant (ts0 : Tileset) (root : TileId) (st : SelectionLoop) : Prop :=
  mkSelectionInvariant {
  inv_same : same_selection ts0 (sl_tileset st);
  inv_stack :
    forall pre x post,
      sl_stack st = pre ++ x :: post ->
      exists l,
        lineage ts0 root x l
        /\ List.filter (selectionAncestor ts0) l
           = waiting (sl_tileset st) (length post) (sl_ancestorStack st);
  inv_sorted :
    StronglySorted
      (fun a a' => (_stackLength (getTile (sl_tileset st) a')
                    <= _stackLength (getTile (sl_tileset st) a))%nat)
      (sl_ancestorStack st);
  inv_bound :
    Forall (fun a => (_stackLength (getTile (sl_tileset st) a) <= length (sl_stack st))%nat)
      (sl_ancestorStack st)
}.

(** The tiles that the pass reaches are done or still to come from the
    stack. *)
Definition selection_done (ts0 : Tileset) (root : TileId) (st : SelectionLoop) : Prop :=
  forall t,
    selection_reaches ts0 root t ->
    depth_counts ts0 (sl_tileset st) t
    \/ exists x, x ∈ sl_stack st /\ selection_reaches ts0 x t.

(** The measure of the loop of [traverseAndSelect]: it counts every tile on
    the stack twice, since a visit may put the tile on the ancestor stack. *)
Definition selection_measure (size : TileId -> nat) (st : SelectionLoop) : nat :=
  2 * sum_list_with size (sl_stack st) + length (sl_ancestorStack st).

(** ** Selected tiles have content

    [selected_loaded ts]: every tile in [_selectedTiles] has available
    content. *)
Definition selected_loaded (ts : Tileset) : Prop :=
  forall t, t ∈ _selectedTiles ts -> contentAvailable (getTile ts t) = true.

(** A tile that is marked for selection has available content. *)
Definition mark_loaded (ts : Tileset) (tile : TileId) : Prop :=
  _shouldSelect (getTile ts tile) = true -> contentAvailable (getTile ts tile) = true.

(** The link of a tile to an ancestor with available content leads to a
    tile with available content. *)
Definition link_loaded (ts : Tileset) (tile : TileId) : Prop :=
  forall a, _ancestorWithContentAvailable (getTile ts tile) = Some a ->
            contentAvailable (getTile ts a) = true.

(** The tile has been refreshed in the frame, and a mark that it got
    since is on available content. *)
Definition tile_ready (fs : FrameState) (ts : Tileset) (tile : TileId) : Prop :=
  refreshed fs ts tile /\ mark_loaded ts tile.

(** [Careful fs P]: the property [P] of the tileset survives the writes of
    the main traversal, where a tile is selected or marked for selection
    only with available content. *)
Record Careful (fs : FrameState) (P : Tileset -> Prop) : Prop := mkCareful {
  careful_updateTile : forall ts tile, P ts -> P (updateTile ts tile fs);
  careful_loadTile : forall ts tile, P ts -> P (loadTile ts tile fs);
  careful_touchTile : forall ts tile, P ts -> P (touchTile ts tile fs);
  careful_visitTile : forall ts tile, P ts -> P (visitTile ts tile fs);
  careful_addEmptyTile : forall ts tile, P ts -> P (addEmptyTile ts tile);
  careful_sort :
    forall ts tile l, P ts -> P (modTile tile (set_children l) ts);
  careful_wasMinChild : forall ts tile, P ts -> P (modTile tile (set_wasMinChild true) ts);
  careful_priorityDistance :
    forall ts tile v, P ts -> P (modTile tile (set_priorityDistance v) ts);
  careful_priorityDistanceHolder :
    forall ts tile holder, P ts -> P (modTile tile (set_priorityDistanceHolder holder) ts);
  careful_refines : forall ts tile b, P ts -> P (modTile tile (set_refines b) ts);
  careful_traversal_stackMaximumLength :
    forall ts n, P ts -> P (with_traversal_stackMaximumLength n ts);
  careful_emptyTraversal_stackMaximumLength :
    forall ts n, P ts -> P (with_emptyTraversal_stackMaximumLength n ts);
  careful_descendantTraversal_stackMaximumLength :
    forall ts n, P ts -> P (with_descendantTraversal_stackMaximumLength n ts);
  careful_selectTile :
    forall ts tile,
      contentAvailable (getTile ts tile) = true -> P ts -> P (selectTile ts tile fs);
  careful_shouldSelect :
    forall ts tile,
      contentAvailable (getTile ts tile) = true ->
      P ts -> P (modTile tile (set_shouldSelect true) ts)
}.

(** What the selection of loaded tiles reads of a tile. *)
Definition loaded_view (t : Tile) :=
  (contentAvailable t, _shouldSelect t, _visible t, _inRequestVolume t,
   _ancestorWithContentAvailable t).

(** [traversal_reaches fs ts root tile]: the main traversal from [root]
    pops [tile]: it goes down from a tile that can be traversed to the
    children that the frame sees. *)
Inductive traversal_reaches (fs : FrameState) (ts : Tileset) (root : TileId)
    : TileId -> Prop :=
| traversal_root : traversal_reaches fs ts root root
| traversal_child (p c : TileId) :
    traversal_reaches fs ts root p ->
    canTraverse ts p = true ->
    c ∈ children (getTile ts p) ->
    fs_visible fs c && fs_inRequestVolume fs c = true ->
    traversal_reaches fs ts root c.

(** The children of a tile that can be traversed are ready. *)
Definition children_ready (fs : FrameState) (ts0 ts : Tileset) (tile : TileId) : Prop :=
  canTraverse ts0 tile = true ->
  forall c, c ∈ children (getTile ts0 tile) -> tile_ready fs ts c.

(** The invariant of the loop of [executeTraversal] that started from
    [root] in the tileset [ts0], for the selection of loaded tiles: the
    selected tiles have content; the tiles on the stack are ready and the
    links of their parents are good; and a tile that the traversal reaches
    is ready with its children, or still to come from the stack. *)
Definition loaded_invariant (fs : FrameState) (ts0 : Tileset) (root : TileId)
    (st : Tileset * list TileId) : Prop :=
  same_tiles Permutation ts0 (fst st)
  /\ selected_loaded (fst st)
  /\ (forall s, s ∈ snd st ->
                tile_ready fs (fst st) s
                /\ forall p, parent (getTile ts0 s) = Some p -> link_loaded (fst st) p)
  /\ (forall t, traversal_reaches fs ts0 root t ->
                (tile_ready fs (fst st) t /\ children_ready fs ts0 (fst st) t)
                \/ exists s, s ∈ snd st /\ traversal_reaches fs ts0 s t).

(** ** The touches and the requests of a frame *)

(** Two tilesets with the same record of cache touches. *)
Definition same_touches (ts ts' : Tileset) : Prop :=
  _cache_touched ts' = _cache_touched ts
  /\ forall j, _touchedFrame (getTile ts' j) = _touchedFrame (getTile ts j).

(** [touched_once fs ts0 ts]: since [ts0] the cache was touched for
    distinct tiles, none of which carried the frame number in [ts0], and
    the tiles that carry it in [ts] are those and the ones of [ts0]. *)
Definition touched_once (fs : FrameState) (ts0 ts : Tileset) : Prop :=
  exists touched,
    _cache_touched ts = _cache_touched ts0 ++ touched
    /\ NoDup touched
    /\ (forall t, t ∈ touched -> _touchedFrame (getTile ts0 t) <> frameNumber fs)
    /\ (forall t, _touchedFrame (getTile ts t) = frameNumber fs
                  <-> t ∈ touched \/ _touchedFrame (getTile ts0 t) = frameNumber fs).

(** Two tilesets with the same requests and the same range of levels. *)
Definition same_requests (ts ts' : Tileset) : Prop :=
  _requestedTiles ts' = _requestedTiles ts
  /\ _minPriority_level ts' = _minPriority_level ts
  /\ _maxPriority_level ts' = _maxPriority_level ts
  /\ forall j, _requestedFrame (getTile ts' j) = _requestedFrame (getTile ts j).

(** Every requested tile was requested in this frame, lies in the range of
    levels of the tileset, and has unloaded or expired content. *)
Definition requests_invariant (fs : FrameState) (ts : Tileset) : Prop :=
  forall t,
    t ∈ _requestedTiles ts ->
    _requestedFrame (getTile ts t) = frameNumber fs
    /\ _minPriority_level ts <= _depth (getTile ts t) <= _maxPriority_level ts
    /\ hasUnloadedContent ts t || contentExpired (getTile ts t) = true.

(** ** The writes of one round of the main traversal

    [Popped fs x P]: the property [P] of the tileset survives every write
    of the round of [executeTraversal] that pops the tile [x]: the popped
    tile is the only one that is visited, and it is added to the empty
    tiles only when its content is empty. *)
Record Popped (fs : FrameState) (x : TileId) (P : Tileset -> Prop) : Prop := mkPopped {
  popped_updateTile : forall ts tile, P ts -> P (updateTile ts tile fs);
  popped_loadTile : forall ts tile, P ts -> P (loadTile ts tile fs);
  popped_touchTile : forall ts tile, P ts -> P (touchTile ts tile fs);
  popped_selectTile : forall ts tile, P ts -> P (selectTile ts tile fs);
  popped_visitTile : forall ts, P ts -> P (visitTile ts x fs);
  popped_addEmptyTile :
    forall ts, hasEmptyContent_ ts x = true -> P ts -> P (addEmptyTile ts x);
  popped_updateTileAncestorContentLinks :
    forall ts tile, P ts -> P (updateTileAncestorContentLinks ts tile fs);
  popped_sort :
    forall ts tile,
      P ts ->
      P (modTile tile
           (set_children
              (Array_sort
                 (fun a b => sortChildrenByDistanceToCamera (getTile ts a) (getTile ts b))
                 (children (getTile ts tile)))) ts);
  popped_wasMinChild : forall ts tile, P ts -> P (modTile tile (set_wasMinChild true) ts);
  popped_priorityDistance :
    forall ts tile v, P ts -> P (modTile tile (set_priorityDistance v) ts);
  popped_priorityDistanceHolder :
    forall ts tile holder, P ts -> P (modTile tile (set_priorityDistanceHolder holder) ts);
  popped_shouldSelect : forall ts tile, P ts -> P (modTile tile (set_shouldSelect true) ts);
  popped_refines : forall ts tile b, P ts -> P (modTile tile (set_refines b) ts);
  popped_traversal_stackMaximumLength :
    forall ts n, P ts -> P (with_traversal_stackMaximumLength n ts);
  popped_emptyTraversal_stackMaximumLength :
    forall ts n, P ts -> P (with_emptyTraversal_stackMaximumLength n ts);
  popped_descendantTraversal_stackMaximumLength :
    forall ts n, P ts -> P (with_descendantTraversal_stackMaximumLength n ts)
}.

(** [Round fs x P]: as [Popped fs x P], for the writes as the round makes
    them: it selects the popped tile or, in [selectDescendants], a tile
    that it has just refreshed and touched, and it marks for selection the
    popped tile or the ancestor that the popped tile is linked to. *)
Record Round (fs : FrameState) (x : TileId) (P : Tileset -> Prop) : Prop := mkRound {
  round_updateTile : forall ts tile, P ts -> P (updateTile ts tile fs);
  round_loadTile : forall ts tile, P ts -> P (loadTile ts tile fs);
  round_touchTile : forall ts tile, P ts -> P (touchTile ts tile fs);
  round_selectTile : forall ts, P ts -> P (selectTile ts x fs);
  round_selectDescendant :
    forall ts child,
      P (touchTile (updateTile ts child fs) child fs) ->
      P (selectTile (touchTile (updateTile ts child fs) child fs) child fs);
  round_visitTile : forall ts, P ts -> P (visitTile ts x fs);
  round_addEmptyTile :
    forall ts, hasEmptyContent_ ts x = true -> P ts -> P (addEmptyTile ts x);
  round_updateTileAncestorContentLinks :
    forall ts, P ts -> P (updateTileAncestorContentLinks ts x fs);
  round_sort :
    forall ts tile,
      P ts ->
      P (modTile tile
           (set_children
              (Array_sort
                 (fun a b => sortChildrenByDistanceToCamera (getTile ts a) (getTile ts b))
                 (children (getTile ts tile)))) ts);
  round_wasMinChild : forall ts tile, P ts -> P (modTile tile (set_wasMinChild true) ts);
  round_priorityDistance :
    forall ts tile v, P ts -> P (modTile tile (set_priorityDistance v) ts);
  round_priorityDistanceHolder :
    forall ts tile holder, P ts -> P (modTile tile (set_priorityDistanceHolder holder) ts);
  round_shouldSelect :
    forall ts tile,
      tile = x \/ _ancestorWithContentAvailable (getTile ts x) = Some tile ->
      P ts -> P (modTile tile (set_shouldSelect true) ts);
  round_refines : forall ts b, P ts -> P (modTile x (set_refines b) ts);
  round_traversal_stackMaximumLength :
    forall ts n, P ts -> P (with_traversal_stackMaximumLength n ts);
  round_emptyTraversal_stackMaximumLength :
    forall ts n, P ts -> P (with_emptyTraversal_stackMaximumLength n ts);
  round_descendantTraversal_stackMaximumLength :
    forall ts n, P ts -> P (with_descendantTraversal_stackMaximumLength n ts)
}.

(** [Dispatch fs x P]: the property [P] survives the writes of the round
    that pops [x] between the link of [x] to its ancestors and the visit
    of [x], but for [addEmptyTile]: those of [updateAndPushChildren] and
    of the dispatch on the content of [x]. *)
Record Dispatch (fs : FrameState) (x : TileId) (P : Tileset -> Prop) : Prop := mkDispatch {
  dispatch_updateTile : forall ts tile, P ts -> P (updateTile ts tile fs);
  dispatch_loadTile : forall ts tile, P ts -> P (loadTile ts tile fs);
  dispatch_touchTile : forall ts tile, P ts -> P (touchTile ts tile fs);
  dispatch_selectTile : forall ts, P ts -> P (selectTile ts x fs);
  dispatch_selectDescendant :
    forall ts child,
      P (touchTile (updateTile ts child fs) child fs) ->
      P (selectTile (touchTile (updateTile ts child fs) child fs) child fs);
  dispatch_sort :
    forall ts tile,
      P ts ->
      P (modTile tile
           (set_children
              (Array_sort
                 (fun a b => sortChildrenByDistanceToCamera (getTile ts a) (getTile ts b))
                 (children (getTile ts tile)))) ts);
  dispatch_wasMinChild : forall ts tile, P ts -> P (modTile tile (set_wasMinChild true) ts);
  dispatch_priorityDistance :
    forall ts tile v, P ts -> P (modTile tile (set_priorityDistance v) ts);
  dispatch_priorityDistanceHolder :
    forall ts tile holder, P ts -> P (modTile tile (set_priorityDistanceHolder holder) ts);
  dispatch_shouldSelect :
    forall ts tile,
      tile = x \/ _ancestorWithContentAvailable (getTile ts x) = Some tile ->
      P ts -> P (modTile tile (set_shouldSelect true) ts);
  dispatch_emptyTraversal_stackMaximumLength :
    forall ts n, P ts -> P (with_emptyTraversal_stackMaximumLength n ts);
  dispatch_descendantTraversal_stackMaximumLength :
    forall ts n, P ts -> P (with_descendantTraversal_stackMaximumLength n ts)
}.

(** ** Descendants are selected before their ancestors *)

(** [selection_descendant ts fs a d]: the selection pass reaches the tile
    [d] below the tile [a], and selects it. *)
Definition selection_descendant (ts : Tileset) (fs : FrameState) (a d : TileId) : Prop :=
  selection_reaches ts a d /\ d <> a
  /\ _shouldSelect (getTile ts d) = true /\ Tile_contentVisibility fs d <> OUTSIDE.

(** In the list [new] of selected tiles, a marked REPLACE tile that can be
    traversed stands behind the tiles that the pass selects below it. *)
Definition ancestors_last (ts : Tileset) (fs : FrameState) (new : list TileId) : Prop :=
  forall l1 a l2,
    new = l1 ++ a :: l2 ->
    selectionAncestor ts a = true -> canTraverse ts a = true ->
    forall d, selection_descendant ts fs a d -> d ∈ l1.

(** The tiles to select below a waiting ancestor are selected, or wait
    above it on the ancestor stack, or are still to come from the part of
    the stack above the length that the ancestor waits for. *)
Definition descendants_pending (ts : Tileset) (fs : FrameState) (st : SelectionLoop)
    (new : list TileId) : Prop :=
  forall a_pre a a_post,
    sl_ancestorStack st = a_pre ++ a :: a_post ->
    forall d,
      selection_descendant ts fs a d ->
      d ∈ new \/ d ∈ a_pre
      \/ exists pre x post,
           sl_stack st = pre ++ x :: post
           /\ (_stackLength (getTile (sl_tileset st) a) <= length post)%nat
           /\ selection_reaches ts x d.

(** ** The frontier of the main traversal

    The invariant of the loop of [executeTraversal] from [root] on a tree,
    over the list [done] of the tiles that it has popped: no tile is
    popped twice; a tile on the stack has not been popped, while its
    parent has; the popped tiles and those on the stack are reached from
    the root, and every tile that the traversal reaches is popped or lies
    below a tile on the stack. *)
Record frontier (fs : FrameState) (ts0 : Tileset) (root : TileId) (done : list TileId)
    (st : Tileset * list TileId) : Prop := mkFrontier {
  frontier_same : same_tiles Permutation ts0 (fst st);
  frontier_popped_once : NoDup done;
  frontier_NoDup : NoDup (snd st);
  frontier_stack :
    forall s, s ∈ snd st ->
              (s ∉ done) /\ (s = root \/ exists p, parent (getTile ts0 s) = Some p /\ p ∈ done);
  frontier_done :
    forall t, t ∈ done ->
              t = root \/ exists p, parent (getTile ts0 t) = Some p /\ p ∈ done;
  frontier_sound :
    forall t, t ∈ done \/ t ∈ snd st -> traversal_reaches fs ts0 root t;
  frontier_complete :
    forall t, traversal_reaches fs ts0 root t ->
              t ∈ done \/ exists s, s ∈ snd st /\ traversal_reaches fs ts0 s t
}.

(** The cut of the base traversal among the popped tiles [done]: no tile
    is selected twice, a popped tile refines only under a parent that
    refines, and a selected REPLACE tile has stopped refining under a
    parent that refines. *)
Record cut_invariant (ts0 : Tileset) (done : list TileId) (ts : Tileset) : Prop :=
  mkCutInvariant {
  cut_selected_once : NoDup (_selectedTiles ts);
  cut_refines :
    forall t p, t ∈ done -> parent (getTile ts0 t) = Some p ->
                _refines (getTile ts t) = true -> _refines (getTile ts p) = true;
  cut_selected :
    forall t, t ∈ _selectedTiles ts ->
              t ∈ done
              /\ (refine (getTile ts0 t) = REPLACE ->
                  _refines (getTile ts t) = false
                  /\ forall p, parent (getTile ts0 t) = Some p ->
                               _refines (getTile ts p) = true)
}.

(** The link that [updateTileAncestorContentLinks] gives to a tile with the
    parent [p], read in the tileset [ts]. *)
Definition link_through (ts0 ts : Tileset) (tile : TileId) : option TileId :=
  match parent (getTile ts0 tile) with
  | Some p =>
      if contentAvailable (getTile ts0 p) then Some p
      else _ancestorWithContentAvailable (getTile ts p)
  | None => None
  end.


(** [child_refines ts fs child]: the child passes the refine check of a
    REPLACE parent in [updateAndPushChildren]: it is in the request
    volume, and it has available content or, when it is empty, the
    descent of the empty traversal from it stops only at tiles with
    available content. *)
Definition child_refines (ts : Tileset) (fs : FrameState) (child : TileId) : Prop :=
  fs_inRequestVolume fs child = true
  /\ if hasEmptyContent_ ts child then
       forall tile, emptyTraversal_stops ts child tile ->
                    contentAvailable (getTile ts tile) = true
     else contentAvailable (getTile ts child) = true.


(** ** Mixed content

    [selection_mixed ts root]: the selection pass from [root] reaches a
    marked REPLACE tile on a path of children arrays through another
    marked REPLACE tile. *)
Definition selection_mixed (ts : Tileset) (root : TileId) : Prop :=
  exists t l,
    selection_reaches ts root t
    /\ selectionAncestor ts t = true
    /\ lineage ts root t l
    /\ List.filter (selectionAncestor ts) l <> [].

(** The invariant of the loop of [traverseAndSelect] for the flag
    [_hasMixedContent]: the flag is set only for a marked tile below a
    marked one, it is never taken back, and it is set when the stack has
    no such tile to come. *)
Record mixed_invariant (ts0 : Tileset) (root : TileId) (st : SelectionLoop) : Prop :=
  mkMixedInvariant {
  mixed_selection : selection_invariant ts0 root st;
  mixed_stack : forall x, x ∈ sl_stack st -> selection_reaches ts0 root x;
  mixed_sound :
    _hasMixedContent (sl_tileset st) = true ->
    _hasMixedContent ts0 = true \/ selection_mixed ts0 root;
  mixed_kept : _hasMixedContent ts0 = true -> _hasMixedContent (sl_tileset st) = true;
  mixed_complete :
    forall t l,
      selection_reaches ts0 root t ->
      selectionAncestor ts0 t = true ->
      lineage ts0 root t l ->
      List.filter (selectionAncestor ts0) l <> [] ->
      _hasMixedContent (sl_tileset st) = true
      \/ exists s, s ∈ sl_stack st /\ selection_reaches ts0 s t
}.


(** ** The final resolution

    [refined_below ts root a]: the selection pass from [root] lets the
    marked REPLACE tile [a] wait on the ancestor stack, and comes to
    another marked REPLACE tile below it. *)
Definition refined_below (ts : Tileset) (root a : TileId) : Prop :=
  selection_reaches ts root a
  /\ selectionAncestor ts a = true
  /\ canTraverse ts a = true
  /\ exists t, selection_reaches ts a t /\ t <> a /\ selectionAncestor ts t = true.

(** The invariant of the loop of [traverseAndSelect] for the flags
    [_finalResolution]: a flag is cleared only for a tile with a marked
    REPLACE tile below it and is never set; the last ancestor is a tile
    that waits only while no marked REPLACE tile has been visited below
    it; and a tile with a marked REPLACE tile below it has lost its flag,
    or waits, or is still to come. *)
Record resolution_invariant (ts0 : Tileset) (root : TileId) (st : SelectionLoop) : Prop :=
  mkResolutionInvariant {
  res_selection : selection_invariant ts0 root st;
  res_stack : forall x, x ∈ sl_stack st -> selection_reaches ts0 root x;
  res_waiting :
    forall a, a ∈ sl_ancestorStack st ->
              selection_reaches ts0 root a
              /\ selectionAncestor ts0 a = true /\ canTraverse ts0 a = true;
  res_sound :
    forall a, _finalResolution (getTile (sl_tileset st) a) = false ->
              _finalResolution (getTile ts0 a) = false \/ refined_below ts0 root a;
  res_kept :
    forall a, _finalResolution (getTile ts0 a) = false ->
              _finalResolution (getTile (sl_tileset st) a) = false;
  res_last :
    forall a, a ∈ sl_ancestorStack st ->
              sl_lastAncestor st <> Some a ->
              exists t, selection_reaches ts0 a t /\ t <> a /\ selectionAncestor ts0 t = true;
  res_complete :
    forall a t,
      selection_reaches ts0 root a ->
      selectionAncestor ts0 a = true ->
      canTraverse ts0 a = true ->
      selection_reaches ts0 a t -> t <> a -> selectionAncestor ts0 t = true ->
      _finalResolution (getTile (sl_tileset st) a) = false
      \/ (a ∈ sl_ancestorStack st
          /\ (sl_lastAncestor st <> Some a
              \/ exists pre y post,
                   sl_stack st = pre ++ y :: post
                   /\ (_stackLength (getTile (sl_tileset st) a) <= length post)%nat
                   /\ selection_reaches ts0 y t))
      \/ exists s, s ∈ sl_stack st /\ selection_reaches ts0 s a
}.

(** * Properties *)

(** Reduction of field projections over field setters, and nothing else. *)
Ltac fields :=
  cbn [
    parent children _depth refine hasEmptyContent hasTilesetContent boundingSphere_radius
    _distanceToCamera _centerZDepth _screenSpaceError contentUnloaded contentAvailable
    contentExpired featurePropertiesDirty _visible _inRequestVolume _updatedVisibilityFrame
    _priorityDistance _priorityDistanceHolder _wasMinChild _refines _finalResolution
    _shouldSelect _selectionDepth _stackLength _ancestorWithContent
    _ancestorWithContentAvailable _visitedFrame _touchedFrame _selectedFrame _requestedFrame
    lastStyleTime _decendantsThatHaveFadedIn _decendantsThatHaveFadedInLastFrame
    _decendantsCount
    set_children set_featurePropertiesDirty set_visible set_inRequestVolume
    set_updatedVisibilityFrame set_priorityDistance set_priorityDistanceHolder
    set_wasMinChild set_refines set_finalResolution set_shouldSelect set_selectionDepth
    set_stackLength set_ancestorWithContent set_ancestorWithContentAvailable
    set_visitedFrame set_touchedFrame set_selectedFrame set_requestedFrame set_lastStyleTime
    set_decendantsThatHaveFadedIn set_decendantsThatHaveFadedInLastFrame set_decendantsCount
    root tiles _maximumScreenSpaceError baseScreenSpaceError _skipLevelOfDetail
    immediatelyLoadDesiredLevelOfDetail skipScreenSpaceErrorFactor skipLevels loadSiblings
    debugFreezeFrame _selectedTiles _selectedTilesToStyle _requestedTiles _emptyTiles
    _hasMixedContent _statistics_visited _tileset_updatedVisibilityFrame _cache_touched
    _minPriority_distance _minPriority_level _minPriority_minDistanceTile
    _minPriority_minPriorityHolder _maxPriority_distance _maxPriority_level _heatmap_resets
    traversal_stackMaximumLength emptyTraversal_stackMaximumLength
    descendantTraversal_stackMaximumLength selectionTraversal_stackMaximumLength
    selectionTraversal_ancestorStackMaximumLength visibilityUpdates
    with_tiles with_selectedTiles with_selectedTilesToStyle with_requestedTiles
    with_emptyTiles with_hasMixedContent with_statistics_visited with_cache_touched
    with_minPriority_distance with_minPriority_level with_minPriority_minDistanceTile
    with_minPriority_minPriorityHolder with_maxPriority_distance with_maxPriority_level
    with_heatmap_resets with_traversal_stackMaximumLength
    with_emptyTraversal_stackMaximumLength with_descendantTraversal_stackMaximumLength
    with_selectionTraversal_stackMaximumLength
    with_selectionTraversal_ancestorStackMaximumLength with_visibilityUpdates ] in *.


(** ** The store *)

Lemma getTile_modTile (ts : Tileset) (i j : TileId) (f : Tile -> Tile) :
  getTile (modTile i f ts) j = if decide (j = i) then f (getTile ts i) else getTile ts j.
Proof.
  unfold getTile, modTile. destruct ts; simpl.
  destruct (decide (j = i)) as [->|Hne].
  - apply lookup_total_insert_eq.
  - apply lookup_total_insert_ne. congruence.
Qed.

Lemma getTile_modTile_eq (ts : Tileset) (i : TileId) (f : Tile -> Tile) :
  getTile (modTile i f ts) i = f (getTile ts i).
Proof. rewrite getTile_modTile. destruct (decide (i = i)); congruence. Qed.

Lemma getTile_modTile_ne (ts : Tileset) (i j : TileId) (f : Tile -> Tile) :
  j <> i -> getTile (modTile i f ts) j = getTile ts j.
Proof. intros H. rewrite getTile_modTile. destruct (decide (j = i)); congruence. Qed.

(** A field that [f] leaves alone is left alone in the whole store. *)
Lemma modTile_field {A : Type} (proj : Tile -> A) (f : Tile -> Tile) (ts : Tileset)
    (i j : TileId) :
  (forall t, proj (f t) = proj t) ->
  proj (getTile (modTile i f ts) j) = proj (getTile ts j).
Proof.
  intros H. rewrite getTile_modTile. destruct (decide (j = i)) as [->|]; [apply H|reflexivity].
Qed.

(** ** The clamp of the priority *)

Lemma clamp_lower (value max : Z) : value < 0 -> clamp value 0 max = 0.
Proof. intros H. unfold clamp. destruct (Z.ltb_spec value 0); [reflexivity|lia]. Qed.

Lemma clamp_inside (value min max : Z) : min <= value <= max -> clamp value min max = value.
Proof.
  intros H. unfold clamp.
  destruct (Z.ltb_spec value min); [lia|]. destruct (Z.ltb_spec max value); [lia|reflexivity].
Qed.

Lemma getTile_Tile_updateVisibility (ts : Tileset) (fs : FrameState) (i j : TileId) :
  getTile (Tile_updateVisibility fs i ts) j =
  if decide (j = i)
  then set_inRequestVolume (fs_inRequestVolume fs i) (set_visible (fs_visible fs i) (getTile ts i))
  else getTile ts j.
Proof.
  unfold Tile_updateVisibility.
  change (getTile (with_visibilityUpdates ?v ?ts') j) with (getTile ts' j).
  apply getTile_modTile.
Qed.

Lemma getPriority_updateTile (ts : Tileset) (tile : TileId) (fs : FrameState) :
  _priorityDistance (getTile (updateTile ts tile fs) tile) = getPriority ts tile.
Proof.
  unfold updateTile, Tile_updateExpiration.
  rewrite !getTile_modTile_eq. unfold getPriority.
  rewrite getTile_Tile_updateVisibility. destruct (decide (tile = tile)); [|congruence].
  reflexivity.
Qed.

(** C5.  The priority that [updateTile] stores in a tile is
    [clamp(centerZDepth - radius, 0, centerZDepth)]; for a bounding sphere
    (radius at least 0) it is never negative, and it is exactly 0 as soon
    as [centerZDepth - radius <= 0], in particular for every negative
    [centerZDepth]. *)
Theorem priority_is_clamped_depth (ts : Tileset) (tile : TileId) (fs : FrameState) :
  0 <= boundingSphere_radius (getTile ts tile) ->
  let t := getTile ts tile in
  let priority := _priorityDistance (getTile (updateTile ts tile fs) tile) in
  priority = getPriority ts tile
  /\ priority = clamp (_centerZDepth t - boundingSphere_radius t) 0 (_centerZDepth t)
  /\ 0 <= priority
  /\ (_centerZDepth t - boundingSphere_radius t <= 0 -> priority = 0)
  /\ (_centerZDepth t < 0 -> priority = 0).
Proof.
  intros Hr. cbv zeta. rewrite getPriority_updateTile. unfold getPriority.
  remember (_centerZDepth (getTile ts tile)) as c eqn:Hc.
  remember (boundingSphere_radius (getTile ts tile)) as r eqn:Hrad.
  assert (Hcases : c - r < 0 \/ 0 <= c - r <= c) by lia.
  split; [reflexivity|]. split; [reflexivity|]. split; [|split].
  - destruct Hcases as [H|H]; [rewrite clamp_lower by lia; lia|rewrite clamp_inside; lia].
  - intros Hle. destruct Hcases as [H|H]; [apply clamp_lower; lia|rewrite clamp_inside; lia].
  - intros Hneg. apply clamp_lower. lia.
Qed.

(** Case analysis on the conditions of the goal, innermost first. *)
Ltac case_ifs :=
  repeat match goal with
         | |- context [if ?c then _ else _] =>
             lazymatch c with
             | context [if _ then _ else _] => fail
             | _ => destruct c; cbv iota
             end
         end.

(** ** What the basic operations leave alone *)

(** [updateMinMaxPriority] writes the priority bounds of the tileset and
    nothing else. *)
Lemma getTile_updateMinMaxPriority (ts : Tileset) (tile j : TileId) :
  getTile (updateMinMaxPriority ts tile) j = getTile ts j.
Proof. unfold updateMinMaxPriority. cbv zeta. fields. case_ifs; reflexivity. Qed.

Lemma requestedTiles_updateMinMaxPriority (ts : Tileset) (tile : TileId) :
  _requestedTiles (updateMinMaxPriority ts tile) = _requestedTiles ts.
Proof. unfold updateMinMaxPriority. cbv zeta. fields. case_ifs; reflexivity. Qed.

Lemma updateTile_requestedTiles (ts : Tileset) (tile : TileId) (fs : FrameState) :
  _requestedTiles (updateTile ts tile fs) = _requestedTiles ts.
Proof. reflexivity. Qed.

Lemma updateTile_selectedTiles (ts : Tileset) (tile : TileId) (fs : FrameState) :
  _selectedTiles (updateTile ts tile fs) = _selectedTiles ts.
Proof. reflexivity. Qed.

Lemma updateTile_visible (ts : Tileset) (tile : TileId) (fs : FrameState) :
  isVisible (updateTile ts tile fs) tile = fs_visible fs tile && fs_inRequestVolume fs tile.
Proof.
  unfold isVisible, updateTile, Tile_updateExpiration.
  rewrite !getTile_modTile_eq, getTile_Tile_updateVisibility.
  destruct (decide (tile = tile)); [reflexivity|congruence].
Qed.

(** ** The early exits of [selectTiles] *)

(** C4, as amended.  With [debugFreezeFrame] off, a visible root whose
    screen space error under the geometric error of its parent is at most
    [maximumScreenSpaceError] makes [selectTiles] return early: the
    returned value is [undefined], not [true], and [selectedTiles] and
    [requestedTiles] are empty.  No iteration of a loop is needed. *)
Theorem selectTiles_root_meets_error (fuel : nat) (ts : Tileset) (fs : FrameState) :
  debugFreezeFrame ts = false ->
  fs_visible fs (root ts) && fs_inRequestVolume fs (root ts) = true ->
  fs_screenSpaceErrorWithParentError fs (root ts) <= _maximumScreenSpaceError ts ->
  exists ts',
    selectTiles fuel ts fs = Some (RetUndefined, ts')
    /\ _selectedTiles ts' = [] /\ _requestedTiles ts' = [].
Proof.
  intros Hfreeze Hvis Hsse. unfold selectTiles. fields. rewrite Hfreeze.
  rewrite updateTile_visible. fields. rewrite Hvis. cbn [negb].
  unfold Tile_getScreenSpaceError.
  change (_maximumScreenSpaceError (updateTile ?a ?b ?c)) with (_maximumScreenSpaceError a).
  fields.
  destruct (Z.leb_spec (fs_screenSpaceErrorWithParentError fs (root ts))
              (_maximumScreenSpaceError ts)) as [_|Hgt]; [|lia].
  eexists. split; [reflexivity|]. split; reflexivity.
Qed.

Lemma selectTiles_root_meets_error_witness :
  exists ts',
    selectTiles 0 tileset_coarse frame_coarse = Some (RetUndefined, ts')
    /\ _selectedTiles ts' = [] /\ _requestedTiles ts' = [].
Proof.
  apply (selectTiles_root_meets_error 0 tileset_coarse frame_coarse).
  - reflexivity.
  - reflexivity.
  - vm_compute. discriminate.
Defined.

(** C4, as stated, fails on [tileset_coarse]: the root is visible and its
    screen space error is 10 against a maximum of 16, and the call returns
    [undefined] whatever the fuel. *)
Lemma selectTiles_root_meets_error_returns_undefined :
  fs_visible frame_coarse (root tileset_coarse)
  && fs_inRequestVolume frame_coarse (root tileset_coarse) = true
  /\ fs_screenSpaceErrorWithParentError frame_coarse (root tileset_coarse)
     <= _maximumScreenSpaceError tileset_coarse
  /\ forall fuel, fst <$> selectTiles fuel tileset_coarse frame_coarse <> Some RetTrue.
Proof.
  split; [reflexivity|]. split; [vm_compute; discriminate|].
  intros fuel H. vm_compute in H. discriminate.
Qed.


Section SameTiles.
Context (R : list TileId -> list TileId -> Prop) `{!Reflexive R} `{!Transitive R}.

Lemma same_tiles_refl (ts : Tileset) : same_tiles R ts ts.
Proof. split; [reflexivity|]. intros j. split; reflexivity. Qed.

Lemma same_tiles_trans (ts1 ts2 ts3 : Tileset) :
  same_tiles R ts1 ts2 -> same_tiles R ts2 ts3 -> same_tiles R ts1 ts3.
Proof.
  intros [Hs1 Ht1] [Hs2 Ht2]. split; [congruence|].
  intros j. destruct (Ht1 j) as [Ha Hb], (Ht2 j) as [Hc Hd].
  split; [congruence|]. etransitivity; eassumption.
Qed.

(** A setter of the tileset that leaves the store and the settings alone. *)
Lemma same_tiles_with (w : Tileset -> Tileset) :
  (forall ts, settings (w ts) = settings ts) ->
  (forall ts, tiles (w ts) = tiles ts) ->
  forall ts, same_tiles R ts (w ts).
Proof.
  intros Hs Ht ts. split; [apply Hs|]. intros j. unfold getTile. rewrite Ht.
  split; reflexivity.
Qed.

(** A setter of a tile that leaves its inputs and its children alone. *)
Lemma same_tiles_modTile (ts : Tileset) (i : TileId) (f : Tile -> Tile) :
  (forall t, tile_input (f t) = tile_input t) ->
  (forall t, children (f t) = children t) ->
  same_tiles R ts (modTile i f ts).
Proof.
  intros Hin Hch. split; [reflexivity|]. intros j. rewrite getTile_modTile.
  destruct (decide (j = i)) as [->|]; [|split; reflexivity].
  split; [apply Hin|rewrite Hch; reflexivity].
Qed.
End SameTiles.

#[export] Instance same_tiles_preorder (R : list TileId -> list TileId -> Prop)
    `{!PreOrder R} : PreOrder (same_tiles R).
Proof.
  split.
  - intros ts. apply same_tiles_refl. apply _.
  - intros ts1 ts2 ts3. apply same_tiles_trans. apply _.
Qed.

Lemma same_tiles_weaken (ts ts' : Tileset) :
  same_tiles eq ts ts' -> same_tiles Permutation ts ts'.
Proof.
  intros [Hs Ht]. split; [exact Hs|]. intros j. destruct (Ht j) as [Ha Hb].
  split; [exact Ha|rewrite Hb; reflexivity].
Qed.

(** Steps of a tileset through setters and the basic operations: the goal
    [same_tiles R ts (op .. X ..)] is reduced to [same_tiles R ts X], where
    [X] is the tileset among the arguments of [op]. *)
Ltac same_tiles_step lemmas :=
  let setter w X :=
    (transitivity X;
     [same_tiles_step lemmas
     |first [ lemmas
            | simple apply (same_tiles_with _ w);
              first [intros ?; reflexivity|apply _] ]]) in
  lazymatch goal with
  | |- same_tiles _ ?ts ?ts => reflexivity
  | |- same_tiles _ ?ts (let x := _ in _) => cbv zeta; same_tiles_step lemmas
  | |- same_tiles _ ?ts (if ?c then _ else _) => destruct c; same_tiles_step lemmas
  | |- same_tiles _ ?ts (match ?c with Some _ => _ | None => _ end) =>
      destruct c; same_tiles_step lemmas
  | |- same_tiles _ ?ts (modTile ?i ?f ?X) =>
      transitivity X;
      [same_tiles_step lemmas
      |simple apply same_tiles_modTile; first [intros ?; reflexivity|apply _]]
  | |- same_tiles _ ?ts (?op ?a ?b ?c) =>
      lazymatch type of a with
      | Tileset => transitivity a; [same_tiles_step lemmas|lemmas]
      | _ => transitivity c; [same_tiles_step lemmas|lemmas]
      end
  | |- same_tiles _ ?ts (?op ?a ?b) =>
      lazymatch type of a with
      | Tileset => transitivity a; [same_tiles_step lemmas|lemmas]
      | _ => setter (op a) b
      end
  | |- same_tiles _ ?ts (?op ?a) => setter op a
  end.

Section Operations.
Context (R : list TileId -> list TileId -> Prop) `{!PreOrder R}.
Context (fs : FrameState).

Lemma same_tiles_Tile_updateVisibility (ts : Tileset) (tile : TileId) :
  same_tiles R ts (Tile_updateVisibility fs tile ts).
Proof. unfold Tile_updateVisibility. same_tiles_step fail. Qed.

Lemma same_tiles_updateTile (ts : Tileset) (tile : TileId) :
  same_tiles R ts (updateTile ts tile fs).
Proof.
  unfold updateTile, Tile_updateExpiration.
  same_tiles_step ltac:(simple apply same_tiles_Tile_updateVisibility).
Qed.

Lemma same_tiles_touchTile (ts : Tileset) (tile : TileId) :
  same_tiles R ts (touchTile ts tile fs).
Proof. unfold touchTile, cache_touch. same_tiles_step fail. Qed.

Lemma same_tiles_updateMinMaxPriority (ts : Tileset) (tile : TileId) :
  same_tiles R ts (updateMinMaxPriority ts tile).
Proof.
  apply (same_tiles_with _ (fun ts => updateMinMaxPriority ts tile)).
  - intros ts'. unfold updateMinMaxPriority. cbv zeta. case_ifs; reflexivity.
  - intros ts'. unfold updateMinMaxPriority. cbv zeta. case_ifs; reflexivity.
Qed.

Lemma same_tiles_loadTile (ts : Tileset) (tile : TileId) :
  same_tiles R ts (loadTile ts tile fs).
Proof.
  unfold loadTile.
  destruct (hasUnloadedContent ts tile || contentExpired (getTile ts tile));
    [|reflexivity].
  same_tiles_step ltac:(simple apply same_tiles_updateMinMaxPriority).
Qed.

Lemma same_tiles_selectTile (ts : Tileset) (tile : TileId) :
  same_tiles R ts (selectTile ts tile fs).
Proof. unfold selectTile. same_tiles_step fail. Qed.

Lemma same_tiles_visitTile (ts : Tileset) (tile : TileId) :
  same_tiles R ts (visitTile ts tile fs).
Proof. unfold visitTile. same_tiles_step fail. Qed.

Lemma same_tiles_addEmptyTile (ts : Tileset) (tile : TileId) :
  same_tiles R ts (addEmptyTile ts tile).
Proof. unfold addEmptyTile. same_tiles_step fail. Qed.

Lemma same_tiles_updateTileAncestorContentLinks (ts : Tileset) (tile : TileId) :
  same_tiles R ts (updateTileAncestorContentLinks ts tile fs).
Proof. unfold updateTileAncestorContentLinks. same_tiles_step fail. Qed.
End Operations.

(** ** What depends on the inputs only *)

Section Inputs.
Context (R : list TileId -> list TileId -> Prop) (ts ts' : Tileset).
Hypothesis Hperm : forall l l', R l l' -> Permutation l l'.
Hypothesis Hsame : same_tiles R ts ts'.

Lemma same_settings :
  root ts' = root ts
  /\ _maximumScreenSpaceError ts' = _maximumScreenSpaceError ts
  /\ baseScreenSpaceError ts' = baseScreenSpaceError ts
  /\ _skipLevelOfDetail ts' = _skipLevelOfDetail ts
  /\ immediatelyLoadDesiredLevelOfDetail ts' = immediatelyLoadDesiredLevelOfDetail ts
  /\ skipScreenSpaceErrorFactor ts' = skipScreenSpaceErrorFactor ts
  /\ skipLevels ts' = skipLevels ts
  /\ loadSiblings ts' = loadSiblings ts
  /\ debugFreezeFrame ts' = debugFreezeFrame ts.
Proof.
  destruct Hsame as [Hs _]. unfold settings in Hs. injection Hs as -> -> -> -> -> -> -> -> -> _.
  repeat split.
Qed.

Lemma same_root : root ts' = root ts.
Proof. apply same_settings. Qed.

Lemma same_skipLevelOfDetail : skipLevelOfDetail ts' = skipLevelOfDetail ts.
Proof. unfold skipLevelOfDetail. apply same_settings. Qed.

Lemma same_loadSiblings : loadSiblings ts' = loadSiblings ts.
Proof. apply same_settings. Qed.

Lemma same_maximumScreenSpaceError :
  _maximumScreenSpaceError ts' = _maximumScreenSpaceError ts.
Proof. apply same_settings. Qed.

Lemma same_tile_input (j : TileId) :
  let t := getTile ts j in
  let t' := getTile ts' j in
  parent t' = parent t /\ _depth t' = _depth t /\ refine t' = refine t
  /\ hasEmptyContent t' = hasEmptyContent t /\ hasTilesetContent t' = hasTilesetContent t
  /\ boundingSphere_radius t' = boundingSphere_radius t
  /\ _distanceToCamera t' = _distanceToCamera t /\ _centerZDepth t' = _centerZDepth t
  /\ _screenSpaceError t' = _screenSpaceError t
  /\ contentUnloaded t' = contentUnloaded t /\ contentAvailable t' = contentAvailable t
  /\ contentExpired t' = contentExpired t.
Proof.
  destruct Hsame as [_ Ht]. destruct (Ht j) as [Hin _]. cbv zeta.
  unfold tile_input in Hin. injection Hin as -> -> -> -> -> -> -> -> -> -> -> ->.
  repeat split.
Qed.

Lemma same_parent (j : TileId) : parent (getTile ts' j) = parent (getTile ts j).
Proof. apply same_tile_input. Qed.

Lemma same_refine (j : TileId) : refine (getTile ts' j) = refine (getTile ts j).
Proof. apply same_tile_input. Qed.

Lemma same_contentAvailable (j : TileId) :
  contentAvailable (getTile ts' j) = contentAvailable (getTile ts j).
Proof. apply same_tile_input. Qed.

Lemma same_contentExpired (j : TileId) :
  contentExpired (getTile ts' j) = contentExpired (getTile ts j).
Proof. apply same_tile_input. Qed.

Lemma same_screenSpaceError (j : TileId) :
  _screenSpaceError (getTile ts' j) = _screenSpaceError (getTile ts j).
Proof. apply same_tile_input. Qed.

Lemma same_depth (j : TileId) : _depth (getTile ts' j) = _depth (getTile ts j).
Proof. apply same_tile_input. Qed.

Lemma same_children (j : TileId) :
  Permutation (children (getTile ts j)) (children (getTile ts' j)).
Proof. destruct Hsame as [_ Ht]. apply Hperm, (Ht j). Qed.

Lemma same_hasEmptyContent (j : TileId) : hasEmptyContent_ ts' j = hasEmptyContent_ ts j.
Proof.
  unfold hasEmptyContent_. pose proof (same_tile_input j) as H. cbv zeta in H.
  destruct H as (_ & _ & _ & -> & -> & _). reflexivity.
Qed.

Lemma same_hasUnloadedContent (j : TileId) :
  hasUnloadedContent ts' j = hasUnloadedContent ts j.
Proof.
  unfold hasUnloadedContent. rewrite same_hasEmptyContent.
  pose proof (same_tile_input j) as H. cbv zeta in H.
  destruct H as (_ & _ & _ & _ & _ & _ & _ & _ & _ & -> & _). reflexivity.
Qed.

Lemma same_getPriority (j : TileId) : getPriority ts' j = getPriority ts j.
Proof.
  unfold getPriority. pose proof (same_tile_input j) as H. cbv zeta in H.
  destruct H as (_ & _ & _ & _ & _ & -> & _ & -> & _). reflexivity.
Qed.

Lemma same_canTraverse (j : TileId) : canTraverse ts' j = canTraverse ts j.
Proof.
  unfold canTraverse. rewrite same_maximumScreenSpaceError, same_contentExpired,
    same_screenSpaceError.
  rewrite <- (Permutation_length (same_children j)).
  pose proof (same_tile_input j) as H. cbv zeta in H.
  destruct H as (_ & _ & _ & _ & -> & _). reflexivity.
Qed.

Lemma same_sortChildrenByDistanceToCamera (a b : TileId) :
  sortChildrenByDistanceToCamera (getTile ts' a) (getTile ts' b)
  = sortChildrenByDistanceToCamera (getTile ts a) (getTile ts b).
Proof.
  unfold sortChildrenByDistanceToCamera.
  pose proof (same_tile_input a) as Ha. pose proof (same_tile_input b) as Hb.
  cbv zeta in Ha, Hb.
  destruct Ha as (_ & _ & _ & _ & _ & _ & -> & -> & _).
  destruct Hb as (_ & _ & _ & _ & _ & _ & -> & -> & _). reflexivity.
Qed.
End Inputs.

(** ** Loops *)

Section While.
Context {S : Type} (cond : S -> bool) (body : S -> option S).

Lemma while_done (fuel : nat) (s : S) : cond s = false -> while cond body fuel s = Some s.
Proof. intros H. destruct fuel; simpl; rewrite H; reflexivity. Qed.

Lemma while_step (fuel : nat) (s s' : S) :
  cond s = true -> body s = Some s' ->
  while cond body (Datatypes.S fuel) s = while cond body fuel s'.
Proof. intros Hc Hb. simpl. rewrite Hc, Hb. reflexivity. Qed.

(** The rule of the loop invariant. *)
Lemma while_invariant (Inv : S -> Prop) :
  (forall s s', Inv s -> cond s = true -> body s = Some s' -> Inv s') ->
  forall fuel s s', Inv s -> while cond body fuel s = Some s' ->
                    Inv s' /\ cond s' = false.
Proof.
  intros Hstep fuel. induction fuel as [|fuel IH]; intros s s' Hinv Hrun; simpl in Hrun.
  - destruct (cond s) eqn:Hc; [discriminate|]. injection Hrun as <-. auto.
  - destruct (cond s) eqn:Hc; [|injection Hrun as <-; auto].
    destruct (body s) as [s1|] eqn:Hb; [|discriminate].
    eapply IH; [|exact Hrun]. eauto.
Qed.

(** A loop whose body succeeds and lowers a measure terminates within
    as many iterations as the measure. *)
Lemma while_terminates (Inv : S -> Prop) (measure : S -> nat) :
  (forall s, Inv s -> cond s = true ->
             exists s', body s = Some s' /\ Inv s' /\ (measure s' < measure s)%nat) ->
  forall fuel s, Inv s -> (measure s <= fuel)%nat ->
                 exists s', while cond body fuel s = Some s'.
Proof.
  intros Hstep fuel. induction fuel as [|fuel IH]; intros s Hinv Hm; simpl.
  - destruct (cond s) eqn:Hc; [|eauto].
    destruct (Hstep s Hinv Hc) as (s' & _ & _ & Hlt). lia.
  - destruct (cond s) eqn:Hc; [|eauto].
    destruct (Hstep s Hinv Hc) as (s' & -> & Hinv' & Hlt).
    apply IH; [exact Hinv'|lia].
Qed.
End While.

(** More fuel never changes a result. *)
Lemma while_fuel_monotone {S : Type} (cond : S -> bool) (body body' : S -> option S) :
  (forall s s', body s = Some s' -> body' s = Some s') ->
  forall fuel fuel' s s', (fuel <= fuel')%nat ->
    while cond body fuel s = Some s' -> while cond body' fuel' s = Some s'.
Proof.
  intros Hbody fuel. induction fuel as [|fuel IH]; intros fuel' s s' Hle Hrun; simpl in Hrun.
  - destruct (cond s) eqn:Hc; [discriminate|]. rewrite while_done; assumption.
  - destruct (cond s) eqn:Hc; [|rewrite while_done; assumption].
    destruct (body s) as [s1|] eqn:Hb; [|discriminate].
    destruct fuel' as [|fuel']; [lia|].
    rewrite (while_step _ _ _ _ s1) by auto. apply IH; [lia|exact Hrun].
Qed.

(** ** The empty traversal *)

Lemma elem_of_rev (l : list TileId) (x : TileId) : x ∈ rev l <-> x ∈ l.
Proof. rewrite !list_elem_of_In. symmetry. apply in_rev. Qed.

Lemma emptyTraversal_stops_here (ts : Tileset) (root tile : TileId) :
  hasEmptyContent_ ts root && canTraverse ts root = false ->
  emptyTraversal_stops ts root tile <-> tile = root.
Proof.
  intros Hstop. split.
  - intros [Hvisits _]. inversion Hvisits; subst; [reflexivity|congruence].
  - intros ->. split; [constructor|exact Hstop].
Qed.

Lemma emptyTraversal_stops_below (ts : Tileset) (root tile : TileId) :
  hasEmptyContent_ ts root && canTraverse ts root = true ->
  emptyTraversal_stops ts root tile
  <-> exists child, child ∈ children (getTile ts root) /\ emptyTraversal_stops ts child tile.
Proof.
  intros Hgo. split.
  - intros [Hvisits Hstop]. inversion Hvisits; subst; [congruence|].
    eexists. split; [eassumption|]. split; assumption.
  - intros (child & Hin & Hvisits & Hstop). split; [|exact Hstop].
    econstructor; eassumption.
Qed.

Lemma same_tiles_executeEmptyTraversal_body (R : list TileId -> list TileId -> Prop)
    `{!PreOrder R} (fs : FrameState) (ts ts' : Tileset) (stack stack' : list TileId)
    (b b' : bool) :
  executeEmptyTraversal_body fs (ts, stack, b) = Some (ts', stack', b') ->
  same_tiles R ts ts'.
Proof.
  unfold executeEmptyTraversal_body. destruct stack as [|tile rest]; [discriminate|].
  cbv zeta. intros H. injection H as <- _ _.
  same_tiles_step ltac:(first [ simple apply same_tiles_updateTile
                              | simple apply same_tiles_loadTile
                              | simple apply same_tiles_touchTile ]; apply _).
Qed.

Lemma executeEmptyTraversal_loop (fs : FrameState) (ts0 : Tileset) (fuel : nat) :
  forall ts stack b ts' stack' b',
    same_tiles eq ts0 ts ->
    while (fun st => stack_nonempty (snd (fst st))) (executeEmptyTraversal_body fs)
      fuel (ts, stack, b) = Some (ts', stack', b') ->
    same_tiles eq ts0 ts'
    /\ (b' = true <->
        b = true
        /\ forall s tile, s ∈ stack -> emptyTraversal_stops ts0 s tile ->
                          contentAvailable (getTile ts0 tile) = true).
Proof.
  induction fuel as [|fuel IH]; intros ts stack b ts' stack' b' Hsame Hrun;
    simpl in Hrun; destruct stack as [|top rest]; simpl in Hrun;
    try discriminate.
  - injection Hrun as <- <- <-. split; [exact Hsame|]. split; [|tauto].
    intros ->. split; [reflexivity|]. intros s tile Hin. inversion Hin.
  - injection Hrun as <- <- <-. split; [exact Hsame|]. split; [|tauto].
    intros ->. split; [reflexivity|]. intros s tile Hin. inversion Hin.
  - match type of Hrun with
    | while _ _ _ (?ts1, ?stack1, ?b1) = _ =>
        assert (Hbody : executeEmptyTraversal_body fs (ts, top :: rest, b)
                        = Some (ts1, stack1, b1)) by reflexivity;
        destruct (IH ts1 stack1 b1 ts' stack' b') as [Hsame' Hiff];
        [etransitivity;
         [exact Hsame|exact (same_tiles_executeEmptyTraversal_body eq fs _ _ _ _ _ _ Hbody)]
        |exact Hrun|]
    end.
    clear Hbody Hrun IH. split; [exact Hsame'|]. rewrite Hiff. clear Hiff.
    set (ts1 := with_emptyTraversal_stackMaximumLength _ ts).
    assert (Hsame1 : same_tiles eq ts0 ts1).
    { etransitivity; [exact Hsame|]. subst ts1. same_tiles_step fail. }
    assert (Hperm : forall l l' : list TileId, l = l' -> Permutation l l')
      by (intros l l' ->; reflexivity).
    rewrite (same_hasEmptyContent eq ts0 ts1 Hsame1),
      (same_canTraverse eq ts0 ts1 Hperm Hsame1),
      (same_contentAvailable eq ts0 ts1 Hsame1).
    assert (Hch : children (getTile ts1 top) = children (getTile ts0 top)).
    { destruct Hsame1 as [_ Ht]. destruct (Ht top) as [_ Hc]. congruence. }
    rewrite Hch. clear Hch Hsame1 Hsame' ts1.
    destruct (hasEmptyContent_ ts0 top && canTraverse ts0 top) eqn:Hgo; cbn [negb andb].
    + split.
      * intros [-> Hall]. split; [reflexivity|]. intros s tile Hin Hstop.
        apply elem_of_cons in Hin as [->|Hin].
        -- apply (emptyTraversal_stops_below _ _ _ Hgo) in Hstop
             as (child & Hchild & Hstop).
           apply (Hall child tile); [|exact Hstop].
           apply elem_of_app. left. apply elem_of_rev. exact Hchild.
        -- apply (Hall s tile); [|exact Hstop]. apply elem_of_app. right. exact Hin.
      * intros [-> Hall]. split; [reflexivity|]. intros s tile Hin Hstop.
        apply elem_of_app in Hin as [Hin|Hin].
        -- rewrite elem_of_rev in Hin. apply (Hall top tile); [left|].
           apply (emptyTraversal_stops_below _ _ _ Hgo). exists s. split; assumption.
        -- apply (Hall s tile); [right; exact Hin|exact Hstop].
    + destruct (contentAvailable (getTile ts0 top)) eqn:Hloaded; cbn [negb].
      * split.
        -- intros [-> Hall]. split; [reflexivity|]. intros s tile Hin Hstop.
           apply elem_of_cons in Hin as [->|Hin]; [|eauto].
           apply (emptyTraversal_stops_here _ _ _ Hgo) in Hstop. congruence.
        -- intros [-> Hall]. split; [reflexivity|]. intros s tile Hin Hstop.
           apply (Hall s tile); [right; exact Hin|exact Hstop].
      * split; [intros [? _]; discriminate|]. intros [_ Hall]. exfalso.
        assert (contentAvailable (getTile ts0 top) = true); [|congruence].
        apply (Hall top top); [left|]. apply (emptyTraversal_stops_here _ _ _ Hgo).
        reflexivity.
Qed.

(** ** Properties that the operations of a traversal keep *)

Section Preserved.
Context (fs : FrameState) (P : Tileset -> Prop).

Hypothesis P_updateTile : forall ts tile, P ts -> P (updateTile ts tile fs).
Hypothesis P_loadTile : forall ts tile, P ts -> P (loadTile ts tile fs).
Hypothesis P_touchTile : forall ts tile, P ts -> P (touchTile ts tile fs).
Hypothesis P_emptyTraversal_stackMaximumLength :
  forall ts n, P ts -> P (with_emptyTraversal_stackMaximumLength n ts).

Lemma executeEmptyTraversal_body_preserves (ts ts' : Tileset) (stack stack' : list TileId)
    (b b' : bool) :
  P ts -> executeEmptyTraversal_body fs (ts, stack, b) = Some (ts', stack', b') -> P ts'.
Proof.
  intros HP. unfold executeEmptyTraversal_body. destruct stack as [|tile rest];
    [discriminate|].
  cbv zeta. intros H. injection H as <- _ _.
  match goal with |- P (if ?c then _ else _) => destruct c end; auto 6.
Qed.

Lemma executeEmptyTraversal_preserves (fuel : nat) (ts ts' : Tileset) (root : TileId)
    (b : bool) :
  P ts -> executeEmptyTraversal fuel ts root fs = Some (b, ts') -> P ts'.
Proof.
  intros HP. unfold executeEmptyTraversal.
  destruct (while _ _ fuel (ts, [root], true)) as [[[ts1 stack1] b1]|] eqn:Hrun;
    [|discriminate].
  intros H. injection H as <- <-.
  apply (while_invariant _ _ (fun st => P (fst (fst st)))) in Hrun as [Hinv _];
    [exact Hinv| |exact HP].
  intros [[ts2 stack2] b2] [[ts3 stack3] b3] Hinv _ Hbody.
  exact (executeEmptyTraversal_body_preserves _ _ _ _ _ _ Hinv Hbody).
Qed.

Lemma updateAndPushChildren_child_preserves (fuel : nat) (checkRefines : bool)
    (child : TileId) (i : nat) (st st' : ChildrenLoop) :
  P (cl_tileset st) ->
  updateAndPushChildren_child fuel fs checkRefines child i st = Some st' ->
  P (cl_tileset st').
Proof.
  intros HP. unfold updateAndPushChildren_child. cbv zeta.
  set (st1 := if isVisible (cl_tileset st) child then _ else _).
  assert (HP1 : P (cl_tileset st1)).
  { subst st1. destruct (isVisible (cl_tileset st) child); [exact HP|].
    destruct (checkRefines || loadSiblings (cl_tileset st)); [|exact HP].
    cbn [cl_tileset]. auto. }
  clearbody st1. destruct checkRefines; [|intros H; injection H as <-; exact HP1].
  destruct (negb (_inRequestVolume (getTile (cl_tileset st1) child)));
    [intros H; injection H as <-; exact HP1|].
  destruct (hasEmptyContent_ (cl_tileset st1) child);
    [|intros H; injection H as <-; exact HP1].
  destruct (executeEmptyTraversal fuel (cl_tileset st1) child fs) as [[b ts1]|] eqn:Hempty;
    [|discriminate].
  intros H. injection H as <-. cbn [cl_tileset].
  exact (executeEmptyTraversal_preserves _ _ _ _ _ HP1 Hempty).
Qed.

Lemma updateAndPushChildren_loop_preserves (fuel : nat) (checkRefines : bool)
    (children : list TileId) :
  forall i st st',
    P (cl_tileset st) ->
    updateAndPushChildren_loop fuel fs checkRefines children i st = Some st' ->
    P (cl_tileset st').
Proof.
  induction children as [|child rest IH]; intros i st st' HP; simpl.
  - intros H. injection H as <-. exact HP.
  - destruct (updateAndPushChildren_child fuel fs checkRefines child i st) as [st1|] eqn:Hchild;
      [|discriminate].
    apply IH. exact (updateAndPushChildren_child_preserves _ _ _ _ _ _ HP Hchild).
Qed.

Hypothesis P_sort :
  forall ts tile compare,
    P ts -> P (modTile tile (set_children (Array_sort compare (children (getTile ts tile)))) ts).
Hypothesis P_wasMinChild :
  forall ts tile, P ts -> P (modTile tile (set_wasMinChild true) ts).
Hypothesis P_priorityDistance :
  forall ts tile v, P ts -> P (modTile tile (set_priorityDistance v) ts).
Hypothesis P_priorityDistanceHolder :
  forall ts tile holder, P ts -> P (modTile tile (set_priorityDistanceHolder holder) ts).

Lemma foldl_updateTile_preserves (children : list TileId) :
  forall ts, P ts -> P (foldl (fun ts child => updateTile ts child fs) ts children).
Proof. induction children as [|child rest IH]; intros ts HP; simpl; auto. Qed.

Lemma foldl_priorityDistanceHolder_preserves (holder : TileId) (children : list TileId) :
  forall ts,
    P ts ->
    P (foldl (fun ts child => modTile child (set_priorityDistanceHolder holder) ts)
         ts children).
Proof. induction children as [|child rest IH]; intros ts HP; simpl; auto. Qed.
End Preserved.

(** ** The effect of the basic operations on a tile of the store *)

Lemma getTile_updateTile (ts : Tileset) (tile j : TileId) (fs : FrameState) :
  getTile (updateTile ts tile fs) j =
  if decide (j = tile) then
    set_finalResolution true
      (set_shouldSelect false
         (set_wasMinChild false
            (set_decendantsCount 0
               (set_decendantsThatHaveFadedInLastFrame 0
                  (set_decendantsThatHaveFadedIn 0
                     (set_priorityDistanceHolder tile
                        (set_priorityDistance (getPriority ts tile)
                           (set_inRequestVolume (fs_inRequestVolume fs tile)
                              (set_visible (fs_visible fs tile) (getTile ts tile))))))))))
  else getTile ts j.
Proof.
  unfold updateTile, Tile_updateExpiration. cbv zeta.
  destruct (decide (j = tile)) as [->|Hne].
  - rewrite !getTile_modTile_eq. unfold getPriority.
    rewrite getTile_Tile_updateVisibility. destruct (decide (tile = tile)); [|congruence].
    reflexivity.
  - rewrite !getTile_modTile_ne by exact Hne.
    rewrite getTile_Tile_updateVisibility. destruct (decide (j = tile)); [congruence|].
    reflexivity.
Qed.

Lemma getTile_touchTile (ts : Tileset) (tile j : TileId) (fs : FrameState) :
  getTile (touchTile ts tile fs) j =
  if decide (j = tile) then
    if _touchedFrame (getTile ts tile) =? frameNumber fs then getTile ts tile
    else set_touchedFrame (frameNumber fs) (getTile ts tile)
  else getTile ts j.
Proof.
  unfold touchTile, cache_touch. cbv zeta.
  destruct (_touchedFrame (getTile ts tile) =? frameNumber fs).
  - destruct (decide (j = tile)) as [->|]; reflexivity.
  - rewrite getTile_modTile. reflexivity.
Qed.

Lemma getTile_loadTile (ts : Tileset) (tile j : TileId) (fs : FrameState) :
  getTile (loadTile ts tile fs) j =
  if decide (j = tile) then
    if hasUnloadedContent ts tile || contentExpired (getTile ts tile)
    then set_requestedFrame (frameNumber fs) (getTile ts tile)
    else getTile ts tile
  else getTile ts j.
Proof.
  unfold loadTile. cbv zeta.
  destruct (hasUnloadedContent ts tile || contentExpired (getTile ts tile)).
  - change (getTile (with_requestedTiles ?l ?a) j) with (getTile a j).
    rewrite getTile_updateMinMaxPriority, getTile_modTile. reflexivity.
  - destruct (decide (j = tile)) as [->|]; reflexivity.
Qed.

Lemma getTile_visitTile (ts : Tileset) (tile j : TileId) (fs : FrameState) :
  getTile (visitTile ts tile fs) j =
  if decide (j = tile) then set_visitedFrame (frameNumber fs) (getTile ts tile)
  else getTile ts j.
Proof. unfold visitTile. cbv zeta. rewrite getTile_modTile. reflexivity. Qed.

Lemma getTile_selectTile (ts : Tileset) (tile j : TileId) (fs : FrameState) :
  getTile (selectTile ts tile fs) j =
  if decide (j = tile) then
    if Intersect_eqb (Tile_contentVisibility fs tile) OUTSIDE then getTile ts tile
    else if featurePropertiesDirty (getTile ts tile) then
      set_selectedFrame (frameNumber fs)
        (set_lastStyleTime 0 (set_featurePropertiesDirty false (getTile ts tile)))
    else set_selectedFrame (frameNumber fs) (getTile ts tile)
  else getTile ts j.
Proof.
  unfold selectTile. cbv zeta.
  destruct (Intersect_eqb (Tile_contentVisibility fs tile) OUTSIDE).
  { destruct (decide (j = tile)) as [->|]; reflexivity. }
  change (getTile (with_selectedTiles ?l ?a) j) with (getTile a j).
  rewrite getTile_modTile.
  destruct (decide (j = tile)) as [->|Hne].
  - destruct (featurePropertiesDirty (getTile ts tile)).
    + change (getTile (with_selectedTilesToStyle ?l ?a) tile) with (getTile a tile).
      rewrite !getTile_modTile_eq. reflexivity.
    + destruct (_selectedFrame (getTile ts tile) <? frameNumber fs - 1); reflexivity.
  - destruct (featurePropertiesDirty (getTile ts tile)).
    + change (getTile (with_selectedTilesToStyle ?l ?a) j) with (getTile a j).
      rewrite !getTile_modTile_ne by exact Hne. reflexivity.
    + destruct (_selectedFrame (getTile ts tile) <? frameNumber fs - 1); reflexivity.
Qed.

Lemma getTile_updateTileAncestorContentLinks (ts : Tileset) (tile j : TileId)
    (fs : FrameState) :
  getTile (updateTileAncestorContentLinks ts tile fs) j =
  if decide (j = tile) then
    match parent (getTile ts tile) with
    | Some parent =>
        set_ancestorWithContentAvailable
          (if contentAvailable (getTile ts parent) then Some parent
           else if decide (parent = tile) then None
                else _ancestorWithContentAvailable (getTile ts parent))
          (set_ancestorWithContent
             (if negb (hasUnloadedContent ts parent)
                 || (_requestedFrame (getTile ts parent) =? frameNumber fs)
              then Some parent
              else if decide (parent = tile) then None
                   else _ancestorWithContent (getTile ts parent))
             (getTile ts tile))
    | None =>
        set_ancestorWithContentAvailable None (set_ancestorWithContent None (getTile ts tile))
    end
  else getTile ts j.
Proof.
  unfold updateTileAncestorContentLinks, hasUnloadedContent, hasEmptyContent_. cbv zeta.
  repeat (rewrite !getTile_modTile; destruct (decide (tile = tile)) as [_|]; [|congruence];
          fields).
  destruct (parent (getTile ts tile)) as [p|].
  - repeat (rewrite !getTile_modTile; destruct (decide (tile = tile)) as [_|]; [|congruence];
            fields).
    destruct (decide (p = tile)) as [->|Hp], (decide (j = tile)) as [->|Hj];
      try (destruct (decide (tile = tile)) as [_|]; [|congruence]);
      fields; reflexivity.
  - rewrite !getTile_modTile.
    destruct (decide (j = tile)) as [->|Hj]; [|reflexivity].
    destruct (decide (tile = tile)) as [_|]; [|congruence]. reflexivity.
Qed.

(** ** Requests and touches *)

Lemma loadTile_requestedTiles (ts : Tileset) (tile : TileId) (fs : FrameState) :
  _requestedTiles (loadTile ts tile fs) =
  if hasUnloadedContent ts tile || contentExpired (getTile ts tile)
  then _requestedTiles ts ++ [tile] else _requestedTiles ts.
Proof.
  unfold loadTile. destruct (hasUnloadedContent ts tile || contentExpired (getTile ts tile));
    [|reflexivity].
  cbv zeta. change (_requestedTiles (with_requestedTiles ?l ?a)) with l.
  rewrite requestedTiles_updateMinMaxPriority. reflexivity.
Qed.

Lemma loadTile_condition (ts : Tileset) (tile : TileId) (fs : FrameState) :
  hasUnloadedContent (loadTile ts tile fs) tile
  || contentExpired (getTile (loadTile ts tile fs) tile)
  = hasUnloadedContent ts tile || contentExpired (getTile ts tile).
Proof.
  pose proof (same_tiles_loadTile eq fs ts tile) as Hsame.
  rewrite (same_hasUnloadedContent eq _ _ Hsame), (same_contentExpired eq _ _ Hsame).
  reflexivity.
Qed.

Lemma touchTile_cache_touched (ts : Tileset) (tile : TileId) (fs : FrameState) :
  _cache_touched (touchTile ts tile fs) =
  if _touchedFrame (getTile ts tile) =? frameNumber fs then _cache_touched ts
  else _cache_touched ts ++ [tile].
Proof.
  unfold touchTile. destruct (_touchedFrame (getTile ts tile) =? frameNumber fs); reflexivity.
Qed.

(** C10.  [loadTile] has no guard of its own: on a tile with unloaded or
    expired content a second call in the same frame appends the tile to
    [requestedTiles] a second time, while a second [touchTile] touches
    the cache no further.  On [tileset_hiddenGrandchild] one call of
    [selectTiles] requests the grandchild twice, once from the empty
    traversal of the refine check of the root and once from
    [updateAndPushChildren] of its parent under [loadSiblings]. *)
Theorem loadTile_requests_again (ts : Tileset) (tile : TileId) (fs : FrameState) :
  hasUnloadedContent ts tile || contentExpired (getTile ts tile) = true ->
  _requestedTiles (loadTile (loadTile ts tile fs) tile fs) = _requestedTiles ts ++ [tile; tile]
  /\ _cache_touched (touchTile (touchTile ts tile fs) tile fs)
     = _cache_touched (touchTile ts tile fs)
  /\ exists ts',
       selectTiles 2 tileset_hiddenGrandchild frame_hiddenGrandchild = Some (RetTrue, ts')
       /\ _requestedTiles ts' = [2%nat; 2%nat].
Proof.
  intros H. split; [|split].
  - rewrite !loadTile_requestedTiles, loadTile_condition, H, <- app_assoc. reflexivity.
  - rewrite (touchTile_cache_touched (touchTile ts tile fs)), getTile_touchTile.
    destruct (decide (tile = tile)) as [_|]; [|congruence].
    destruct (_touchedFrame (getTile ts tile) =? frameNumber fs) eqn:Hfirst.
    + rewrite Hfirst. reflexivity.
    + fields. rewrite Z.eqb_refl. reflexivity.
  - eexists. split; [vm_compute; reflexivity|]. vm_compute. reflexivity.
Qed.

Lemma loadTile_requests_again_witness :
  _requestedTiles
    (loadTile (loadTile tileset_hiddenGrandchild 2%nat frame_hiddenGrandchild) 2%nat
       frame_hiddenGrandchild) = [2%nat; 2%nat].
Proof.
  exact (proj1 (loadTile_requests_again tileset_hiddenGrandchild 2%nat
                  frame_hiddenGrandchild eq_refl)).
Defined.

(** ** Visibility is recomputed on every refresh *)

(** The wrapper [updateVisibility] of the source does memoise: a second
    call with the same epoch leaves the tileset as the first call left it. *)
Lemma updateVisibility_memoises (ts : Tileset) (tile : TileId) (fs : FrameState) :
  updateVisibility (updateVisibility ts tile fs) tile fs = updateVisibility ts tile fs.
Proof.
  unfold updateVisibility at 1.
  destruct (_updatedVisibilityFrame (getTile (updateVisibility ts tile fs) tile)
            =? _tileset_updatedVisibilityFrame (updateVisibility ts tile fs)) eqn:Hagain;
    [reflexivity|].
  exfalso. unfold updateVisibility in Hagain.
  destruct (_updatedVisibilityFrame (getTile ts tile) =? _tileset_updatedVisibilityFrame ts)
    eqn:Hfirst; [congruence|].
  cbv zeta in Hagain. rewrite getTile_modTile_eq in Hagain. fields.
  change (_tileset_updatedVisibilityFrame (modTile ?i ?f ?a))
    with (_tileset_updatedVisibilityFrame a) in Hagain.
  rewrite Z.eqb_refl in Hagain. discriminate.
Qed.

(** C3 fails on [tileset_emptyChild].  [updateTile] calls the tile method
    [updateVisibility] itself, not the memoising wrapper, so the empty
    child 1 is recomputed twice in one [selectTiles]: once when
    [updateAndPushChildren] refreshes the children of the root, once more
    in the empty traversal of the refine check. *)
Theorem visibility_recomputed_twice :
  exists ts',
    selectTiles 2 tileset_emptyChild frame_allVisible = Some (RetTrue, ts')
    /\ visibilityUpdates ts' = [0%nat; 1%nat; 1%nat]
    /\ count_occ Nat.eq_dec (visibilityUpdates ts') 1%nat = 2%nat.
Proof.
  eexists. split; [vm_compute; reflexivity|]. split; vm_compute; reflexivity.
Qed.

(** ** One child of [updateAndPushChildren] *)

Lemma isVisible_loadTile (ts : Tileset) (tile j : TileId) (fs : FrameState) :
  isVisible (loadTile ts tile fs) j = isVisible ts j.
Proof.
  unfold isVisible. rewrite getTile_loadTile.
  destruct (decide (j = tile)) as [->|]; [|reflexivity].
  destruct (hasUnloadedContent ts tile || contentExpired (getTile ts tile)); reflexivity.
Qed.

Lemma isVisible_touchTile (ts : Tileset) (tile j : TileId) (fs : FrameState) :
  isVisible (touchTile ts tile fs) j = isVisible ts j.
Proof.
  unfold isVisible. rewrite getTile_touchTile.
  destruct (decide (j = tile)) as [->|]; [|reflexivity].
  destruct (_touchedFrame (getTile ts tile) =? frameNumber fs); reflexivity.
Qed.

Lemma inRequestVolume_loadTile (ts : Tileset) (tile j : TileId) (fs : FrameState) :
  _inRequestVolume (getTile (loadTile ts tile fs) j) = _inRequestVolume (getTile ts j).
Proof.
  rewrite getTile_loadTile. destruct (decide (j = tile)) as [->|]; [|reflexivity].
  destruct (hasUnloadedContent ts tile || contentExpired (getTile ts tile)); reflexivity.
Qed.

Lemma inRequestVolume_touchTile (ts : Tileset) (tile j : TileId) (fs : FrameState) :
  _inRequestVolume (getTile (touchTile ts tile fs) j) = _inRequestVolume (getTile ts j).
Proof.
  rewrite getTile_touchTile. destruct (decide (j = tile)) as [->|]; [|reflexivity].
  destruct (_touchedFrame (getTile ts tile) =? frameNumber fs); reflexivity.
Qed.

Lemma same_tiles_executeEmptyTraversal (R : list TileId -> list TileId -> Prop)
    `{!PreOrder R} (fuel : nat) (ts ts' : Tileset) (root : TileId) (fs : FrameState)
    (b : bool) :
  executeEmptyTraversal fuel ts root fs = Some (b, ts') -> same_tiles R ts ts'.
Proof.
  apply (executeEmptyTraversal_preserves fs (same_tiles R ts)); [..|reflexivity].
  - intros ts1 t H. etransitivity; [exact H|apply same_tiles_updateTile; apply _].
  - intros ts1 t H. etransitivity; [exact H|apply same_tiles_loadTile; apply _].
  - intros ts1 t H. etransitivity; [exact H|apply same_tiles_touchTile; apply _].
  - intros ts1 n H. etransitivity; [exact H|].
    apply (same_tiles_with _ (with_emptyTraversal_stackMaximumLength n));
      intros ?; reflexivity.
Qed.

(** What one iteration does to the loop variables.  [mid] is the tileset
    after the first [if], in which the empty traversal of the refine check
    starts. *)
Lemma updateAndPushChildren_child_spec (fuel : nat) (fs : FrameState) (checkRefines : bool)
    (child : TileId) (i : nat) (st st' : ChildrenLoop) :
  updateAndPushChildren_child fuel fs checkRefines child i st = Some st' ->
  let ts := cl_tileset st in
  let visible := isVisible ts child in
  let considered := visible || checkRefines || loadSiblings ts in
  let smaller := _priorityDistance (getTile ts child) <? cl_minDistancePriority st in
  exists mid childRefines,
    same_tiles eq ts mid
    /\ same_tiles eq mid (cl_tileset st')
    /\ cl_stack st' = (if visible then child :: cl_stack st else cl_stack st)
    /\ cl_anyChildrenVisible st' = visible || cl_anyChildrenVisible st
    /\ cl_minIndex st' = (if considered && smaller then Some i else cl_minIndex st)
    /\ cl_minDistancePriority st'
       = (if considered && smaller then _priorityDistance (getTile ts child)
          else cl_minDistancePriority st)
    /\ cl_refines st' = cl_refines st && childRefines
    /\ (if checkRefines then
          if negb (_inRequestVolume (getTile ts child)) then childRefines = false
          else if hasEmptyContent_ ts child then
                 executeEmptyTraversal fuel mid child fs = Some (childRefines, cl_tileset st')
               else childRefines = contentAvailable (getTile ts child)
                    /\ cl_tileset st' = mid
        else childRefines = true /\ cl_tileset st' = mid).
Proof.
  unfold updateAndPushChildren_child. cbv zeta.
  set (ts := cl_tileset st). set (visible := isVisible ts child).
  set (smaller := _priorityDistance (getTile ts child) <? cl_minDistancePriority st).
  set (st1 := if visible then _ else _).
  assert (H1 : same_tiles eq ts (cl_tileset st1)
               /\ isVisible (cl_tileset st1) child = visible
               /\ _inRequestVolume (getTile (cl_tileset st1) child)
                  = _inRequestVolume (getTile ts child)
               /\ cl_stack st1 = (if visible then child :: cl_stack st else cl_stack st)
               /\ cl_anyChildrenVisible st1 = visible || cl_anyChildrenVisible st
               /\ cl_minIndex st1
                  = (if (visible || checkRefines || loadSiblings ts) && smaller
                     then Some i else cl_minIndex st)
               /\ cl_minDistancePriority st1
                  = (if (visible || checkRefines || loadSiblings ts) && smaller
                     then _priorityDistance (getTile ts child)
                     else cl_minDistancePriority st)
               /\ cl_refines st1 = cl_refines st).
  { subst st1. destruct visible eqn:Hvis.
    - cbn [cl_tileset cl_stack cl_anyChildrenVisible cl_minIndex cl_minDistancePriority
           cl_refines orb andb].
      split; [reflexivity|]. auto 10.
    - cbn [orb]. destruct (checkRefines || loadSiblings ts).
      + cbn [cl_tileset cl_stack cl_anyChildrenVisible cl_minIndex cl_minDistancePriority
             cl_refines orb andb].
        split; [|split; [|split; [|auto 10]]].
        * etransitivity; [apply same_tiles_loadTile|apply same_tiles_touchTile]; apply _.
        * rewrite isVisible_touchTile, isVisible_loadTile. exact Hvis.
        * rewrite inRequestVolume_touchTile, inRequestVolume_loadTile. reflexivity.
      + cbn [andb]. split; [reflexivity|]. auto 10. }
  clearbody st1.
  destruct H1 as (Hsame1 & Hvis1 & Hreq1 & Hstack1 & Hany1 & Hidx1 & Hmin1 & Href1).
  rewrite Hreq1, (same_hasEmptyContent eq _ _ Hsame1), (same_contentAvailable eq _ _ Hsame1).
  intros Hstep. exists (cl_tileset st1).
  assert (Hfinish : forall childRefines ts2,
            same_tiles eq (cl_tileset st1) ts2 ->
            st' = mkChildrenLoop ts2 (cl_stack st1) (cl_refines st1 && childRefines)
                    (cl_anyChildrenVisible st1) (cl_minIndex st1) (cl_minDistancePriority st1) ->
            same_tiles eq ts (cl_tileset st1)
            /\ same_tiles eq (cl_tileset st1) (cl_tileset st')
            /\ cl_stack st' = (if visible then child :: cl_stack st else cl_stack st)
            /\ cl_anyChildrenVisible st' = visible || cl_anyChildrenVisible st
            /\ cl_minIndex st'
               = (if (visible || checkRefines || loadSiblings ts) && smaller
                  then Some i else cl_minIndex st)
            /\ cl_minDistancePriority st'
               = (if (visible || checkRefines || loadSiblings ts) && smaller
                  then _priorityDistance (getTile ts child) else cl_minDistancePriority st)
            /\ cl_refines st' = cl_refines st && childRefines).
  { intros childRefines ts2 Hsame2 ->.
    cbn [cl_tileset cl_stack cl_anyChildrenVisible cl_minIndex cl_minDistancePriority
         cl_refines].
    rewrite Href1. auto 10. }
  destruct checkRefines.
  - destruct (negb (_inRequestVolume (getTile ts child))).
    + injection Hstep as <-. exists false.
      destruct (Hfinish false (cl_tileset st1)) as (H1 & H2 & H3 & H4 & H5 & H6 & H7);
        [reflexivity|reflexivity|]. auto 10.
    + destruct (hasEmptyContent_ ts child).
      * destruct (executeEmptyTraversal fuel (cl_tileset st1) child fs) as [[b ts2]|] eqn:He;
          [|discriminate].
        injection Hstep as <-. exists b.
        destruct (Hfinish b ts2) as (H1 & H2 & H3 & H4 & H5 & H6 & H7);
          [exact (same_tiles_executeEmptyTraversal eq _ _ _ _ _ _ He)|reflexivity|].
        auto 10.
      * injection Hstep as <-. exists (contentAvailable (getTile ts child)).
        destruct (Hfinish (contentAvailable (getTile ts child)) (cl_tileset st1))
          as (H1 & H2 & H3 & H4 & H5 & H6 & H7); [reflexivity|reflexivity|]. auto 10.
  - injection Hstep as <-. exists true.
    destruct (Hfinish true (cl_tileset st1)) as (H1 & H2 & H3 & H4 & H5 & H6 & H7);
      [reflexivity|destruct st1; cbn; rewrite andb_true_r; reflexivity|].
    auto 10.
Qed.

(** ** The loop over the children *)

(** The rule of the invariant for the loop over the children; [done] are
    the children behind the loop. *)
Lemma updateAndPushChildren_loop_invariant (fuel : nat) (fs : FrameState)
    (checkRefines : bool) (Inv : list TileId -> ChildrenLoop -> Prop) :
  (forall done child st st',
     Inv done st ->
     updateAndPushChildren_child fuel fs checkRefines child (length done) st = Some st' ->
     Inv (done ++ [child]) st') ->
  forall rest done st st',
    Inv done st ->
    updateAndPushChildren_loop fuel fs checkRefines rest (length done) st = Some st' ->
    Inv (done ++ rest) st'.
Proof.
  intros Hstep rest. induction rest as [|child rest IH]; intros done st st' Hinv; simpl.
  - intros H. injection H as <-. rewrite app_nil_r. exact Hinv.
  - destruct (updateAndPushChildren_child fuel fs checkRefines child (length done) st)
      as [st1|] eqn:Hchild; [|discriminate].
    intros Hloop. replace (done ++ child :: rest) with ((done ++ [child]) ++ rest)
      by (rewrite <- app_assoc; reflexivity).
    apply (IH _ st1); [eapply Hstep; eassumption|].
    rewrite length_app. simpl. rewrite Nat.add_1_r. exact Hloop.
Qed.

(** The pieces of a call of [updateAndPushChildren]. *)
Lemma updateAndPushChildren_inversion (fuel : nat) (ts ts' : Tileset) (tile : TileId)
    (stack stack' : list TileId) (fs : FrameState) (refines : bool) :
  updateAndPushChildren fuel ts tile stack fs = Some (refines, ts', stack') ->
  let ts1 := foldl (fun ts child => updateTile ts child fs) ts (children (getTile ts tile)) in
  let sorted :=
    Array_sort (fun a b => sortChildrenByDistanceToCamera (getTile ts1 a) (getTile ts1 b))
      (children (getTile ts tile)) in
  let ts2 := modTile tile (set_children sorted) ts1 in
  let checkRefines :=
    negb (skipLevelOfDetail ts2)
    && Cesium3DTileRefine_eqb (refine (getTile ts tile)) REPLACE
    && negb (hasEmptyContent_ ts2 tile) in
  exists st,
    updateAndPushChildren_loop fuel fs checkRefines sorted 0
      (mkChildrenLoop ts2 stack true false None Number_MAX_VALUE) = Some st
    /\ stack' = cl_stack st
    /\ refines = (if negb (cl_anyChildrenVisible st) then false else cl_refines st)
    /\ match cl_minIndex st with
       | Some minIndex =>
           exists minPriorityChild,
             sorted !! minIndex = Some minPriorityChild
             /\ ts' = updateAndPushChildren_link (cl_tileset st) tile sorted minPriorityChild
       | None => ts' = cl_tileset st
       end.
Proof.
  unfold updateAndPushChildren. cbv zeta.
  destruct (updateAndPushChildren_loop _ _ _ _ _ _) as [st|]; [|discriminate].
  intros H. exists st. split; [reflexivity|].
  destruct (cl_minIndex st) as [minIndex|].
  - destruct (_ !! minIndex) as [m|]; [|discriminate]. injection H as <- <- <-.
    split; [reflexivity|]. split; [reflexivity|]. exists m. split; reflexivity.
  - injection H as <- <- <-. auto.
Qed.

(** ** Sorting *)

Lemma Array_sort_insert_permutation {A : Type} (compare : A -> A -> Z) (x : A) (l : list A) :
  Permutation (x :: l) (Array_sort_insert compare x l).
Proof.
  induction l as [|y l IH]; simpl; [reflexivity|].
  destruct (compare x y <=? 0); [reflexivity|].
  rewrite <- IH. apply perm_swap.
Qed.

Lemma Array_sort_permutation {A : Type} (compare : A -> A -> Z) (l : list A) :
  Permutation l (Array_sort compare l).
Proof.
  induction l as [|x l IH]; simpl; [reflexivity|].
  rewrite <- Array_sort_insert_permutation. apply perm_skip, IH.
Qed.

Section Sorted.
Context {A : Type} (compare : A -> A -> Z) (before : A -> A -> Prop).
Hypothesis compare_before : forall a b, compare a b <= 0 -> before a b.
Hypothesis compare_after : forall a b, 0 < compare a b -> before b a.
Hypothesis before_trans : forall a b c, before a b -> before b c -> before a c.

Lemma Array_sort_insert_sorted (x : A) (l : list A) :
  StronglySorted before l -> StronglySorted before (Array_sort_insert compare x l).
Proof.
  induction l as [|y l IH]; intros Hsorted; simpl.
  - constructor; constructor.
  - apply StronglySorted_inv in Hsorted as [Hl Hy].
    destruct (Z.leb_spec (compare x y) 0) as [Hle|Hgt].
    + constructor; [constructor; assumption|].
      constructor; [auto|]. eapply Forall_impl; [exact Hy|]. intros z Hz. eauto.
    + constructor; [auto|].
      rewrite <- Array_sort_insert_permutation. constructor; [auto|exact Hy].
Qed.

Lemma Array_sort_sorted (l : list A) : StronglySorted before (Array_sort compare l).
Proof.
  induction l as [|x l IH]; simpl; [constructor|].
  apply Array_sort_insert_sorted, IH.
Qed.
End Sorted.

Lemma fartherFirst_sorted (ts : Tileset) (l : list TileId) :
  StronglySorted (fartherFirst ts)
    (Array_sort (fun a b => sortChildrenByDistanceToCamera (getTile ts a) (getTile ts b)) l).
Proof.
  apply Array_sort_sorted.
  - intros a b. unfold sortChildrenByDistanceToCamera, fartherFirst.
    destruct (Z.eqb_spec (_distanceToCamera (getTile ts b)) 0) as [Hb|Hb],
             (Z.eqb_spec (_distanceToCamera (getTile ts a)) 0) as [Ha|Ha];
      cbn [andb]; lia.
  - intros a b. unfold sortChildrenByDistanceToCamera, fartherFirst.
    destruct (Z.eqb_spec (_distanceToCamera (getTile ts b)) 0) as [Hb|Hb],
             (Z.eqb_spec (_distanceToCamera (getTile ts a)) 0) as [Ha|Ha];
      cbn [andb]; lia.
  - intros a b c. unfold fartherFirst. lia.
Qed.

Lemma same_tiles_foldl_updateTile (R : list TileId -> list TileId -> Prop) `{!PreOrder R}
    (fs : FrameState) (l : list TileId) :
  forall ts, same_tiles R ts (foldl (fun ts child => updateTile ts child fs) ts l).
Proof.
  induction l as [|x l IH]; intros ts; simpl; [reflexivity|].
  etransitivity; [apply same_tiles_updateTile; apply _|apply IH].
Qed.

(** ** Properties that [updateAndPushChildren] keeps *)

Section PreservedChildren.
Context (fs : FrameState) (P : Tileset -> Prop).
Hypothesis P_updateTile : forall ts tile, P ts -> P (updateTile ts tile fs).
Hypothesis P_loadTile : forall ts tile, P ts -> P (loadTile ts tile fs).
Hypothesis P_touchTile : forall ts tile, P ts -> P (touchTile ts tile fs).
Hypothesis P_emptyTraversal_stackMaximumLength :
  forall ts n, P ts -> P (with_emptyTraversal_stackMaximumLength n ts).
Hypothesis P_wasMinChild :
  forall ts tile, P ts -> P (modTile tile (set_wasMinChild true) ts).
Hypothesis P_priorityDistance :
  forall ts tile v, P ts -> P (modTile tile (set_priorityDistance v) ts).
Hypothesis P_priorityDistanceHolder :
  forall ts tile holder, P ts -> P (modTile tile (set_priorityDistanceHolder holder) ts).

Lemma updateAndPushChildren_link_preserves (ts : Tileset) (tile : TileId)
    (children : list TileId) (minPriorityChild : TileId) :
  P ts -> P (updateAndPushChildren_link ts tile children minPriorityChild).
Proof.
  intros HP. unfold updateAndPushChildren_link. cbv zeta.
  apply foldl_priorityDistanceHolder_preserves; auto.
Qed.

(** A property of the tileset with the sorted children array is kept to
    the end of the call. *)
Lemma updateAndPushChildren_preserves_sorted (fuel : nat) (ts ts' : Tileset) (tile : TileId)
    (stack stack' : list TileId) (refines : bool) :
  updateAndPushChildren fuel ts tile stack fs = Some (refines, ts', stack') ->
  let ts1 := foldl (fun ts child => updateTile ts child fs) ts (children (getTile ts tile)) in
  P (modTile tile
       (set_children
          (Array_sort
             (fun a b => sortChildrenByDistanceToCamera (getTile ts1 a) (getTile ts1 b))
             (children (getTile ts1 tile)))) ts1) ->
  P ts'.
Proof.
  intros Hcall. apply updateAndPushChildren_inversion in Hcall. cbv zeta in Hcall. cbv zeta.
  pose proof (same_tiles_foldl_updateTile eq fs (children (getTile ts tile)) ts) as Hsame.
  destruct Hsame as [_ Ht]. destruct (Ht tile) as [_ Hch]. clear Ht.
  set (l := children (getTile ts tile)) in *.
  set (ts1 := foldl _ ts l) in *. clearbody ts1. rewrite <- Hch. intros HP2.
  destruct Hcall as (st & Hloop & _ & _ & Hlink).
  apply (updateAndPushChildren_loop_preserves fs P) in Hloop; auto.
  destruct (cl_minIndex st) as [minIndex|].
  - destruct Hlink as (m & _ & ->). apply updateAndPushChildren_link_preserves. exact Hloop.
  - subst ts'. exact Hloop.
Qed.

Hypothesis P_sort :
  forall ts tile,
    P ts ->
    P (modTile tile
         (set_children
            (Array_sort
               (fun a b => sortChildrenByDistanceToCamera (getTile ts a) (getTile ts b))
               (children (getTile ts tile)))) ts).

Lemma updateAndPushChildren_preserves (fuel : nat) (ts ts' : Tileset) (tile : TileId)
    (stack stack' : list TileId) (refines : bool) :
  P ts -> updateAndPushChildren fuel ts tile stack fs = Some (refines, ts', stack') -> P ts'.
Proof.
  intros HP Hcall. apply (updateAndPushChildren_preserves_sorted _ _ _ _ _ _ _ Hcall).
  apply P_sort, foldl_updateTile_preserves; auto.
Qed.
End PreservedChildren.

Lemma same_tiles_sort (ts : Tileset) (tile : TileId) (compare : TileId -> TileId -> Z) :
  same_tiles Permutation ts
    (modTile tile (set_children (Array_sort compare (children (getTile ts tile)))) ts).
Proof.
  split; [reflexivity|]. intros j. rewrite getTile_modTile.
  destruct (decide (j = tile)) as [->|]; [|split; reflexivity].
  split; [reflexivity|]. fields. apply Array_sort_permutation.
Qed.

Lemma same_tiles_updateAndPushChildren (fuel : nat) (ts ts' : Tileset) (tile : TileId)
    (stack stack' : list TileId) (fs : FrameState) (refines : bool) :
  updateAndPushChildren fuel ts tile stack fs = Some (refines, ts', stack') ->
  same_tiles Permutation ts ts'.
Proof.
  apply (updateAndPushChildren_preserves fs (same_tiles Permutation ts)); [..|reflexivity].
  - intros ts1 t H. etransitivity; [exact H|apply same_tiles_updateTile; apply _].
  - intros ts1 t H. etransitivity; [exact H|apply same_tiles_loadTile; apply _].
  - intros ts1 t H. etransitivity; [exact H|apply same_tiles_touchTile; apply _].
  - intros ts1 n H. etransitivity; [exact H|].
    apply (same_tiles_with _ (with_emptyTraversal_stackMaximumLength n)); intros ?; reflexivity.
  - intros ts1 t H. etransitivity; [exact H|].
    apply same_tiles_modTile; [apply _|reflexivity|reflexivity].
  - intros ts1 t v H. etransitivity; [exact H|].
    apply same_tiles_modTile; [apply _|reflexivity|reflexivity].
  - intros ts1 t h H. etransitivity; [exact H|].
    apply same_tiles_modTile; [apply _|reflexivity|reflexivity].
  - intros ts1 t H. etransitivity; [exact H|apply same_tiles_sort].
Qed.

(** ** Properties that a whole frame keeps *)

Section StableTraversal.
Context (fs : FrameState) (P : Tileset -> Prop) (HP : Stable fs P).

Lemma selectDescendants_children_preserves (root : TileId) (children : list TileId) :
  forall ts stack,
    P ts -> P (fst (selectDescendants_children fs root children ts stack)).
Proof.
  induction children as [|child rest IH]; intros ts stack Hts; simpl; [exact Hts|].
  destruct (isVisible ts child); [|auto].
  destruct (contentAvailable (getTile ts child)).
  - cbv zeta. apply IH. destruct HP. auto.
  - destruct (_ <? _); auto.
Qed.

Lemma selectDescendants_preserves (fuel : nat) (ts ts' : Tileset) (root : TileId) :
  P ts -> selectDescendants fuel ts root fs = Some ts' -> P ts'.
Proof.
  intros Hts. unfold selectDescendants.
  destruct (while _ _ fuel (ts, [root])) as [[ts1 stack1]|] eqn:Hrun; [|discriminate].
  intros H. injection H as <-.
  apply (while_invariant _ _ (fun st => P (fst st))) in Hrun as [Hinv _];
    [exact Hinv| |exact Hts].
  intros [ts2 stack2] [ts3 stack3] Hinv _. unfold selectDescendants_body.
  destruct stack2 as [|tile rest]; [discriminate|]. intros H. injection H as H.
  cbn [fst] in *.
  match type of H with
  | selectDescendants_children ?fs ?r ?c ?a ?b = _ =>
      pose proof (selectDescendants_children_preserves r c a b) as Hgoal
  end.
  rewrite H in Hgoal. apply Hgoal. destruct HP. auto.
Qed.

Lemma selectDesiredTile_preserves (fuel : nat) (ts ts' : Tileset) (tile : TileId) :
  P ts -> selectDesiredTile fuel ts tile fs = Some ts' -> P ts'.
Proof.
  intros Hts. unfold selectDesiredTile.
  destruct (negb (skipLevelOfDetail ts)).
  - destruct (contentAvailable (getTile ts tile)); intros H; injection H as <-;
      [destruct HP; auto|exact Hts].
  - cbv zeta.
    destruct (if contentAvailable (getTile ts tile) then _ else _) as [loadedTile|].
    + intros H. injection H as <-. destruct HP. auto.
    + apply selectDescendants_preserves. exact Hts.
Qed.

Lemma executeTraversal_select_preserves (fuel : nat) (ts ts' : Tileset) (tile : TileId)
    (baseTraversal stoppedRefining : bool) :
  P ts ->
  executeTraversal_select fuel ts tile fs baseTraversal stoppedRefining = Some ts' -> P ts'.
Proof.
  intros Hts. unfold executeTraversal_select. cbv zeta.
  assert (Hload : forall ts1, P ts1 -> P (loadTile ts1 tile fs)) by (destruct HP; auto).
  assert (Hempty : forall ts1, P ts1 -> P (addEmptyTile ts1 tile)) by (destruct HP; auto).
  assert (Hselect : forall ts1 ts2, P ts1 -> selectDesiredTile fuel ts1 tile fs = Some ts2 ->
                                    P ts2)
    by (intros ts1 ts2; apply selectDesiredTile_preserves).
  assert (Hthen : forall ts1 ts2,
            P ts1 ->
            match selectDesiredTile fuel ts1 tile fs with
            | Some ts3 => Some (loadTile ts3 tile fs)
            | None => None
            end = Some ts2 -> P ts2).
  { intros ts1 ts2 H1. destruct (selectDesiredTile fuel ts1 tile fs) as [ts3|] eqn:Hs;
      [|discriminate].
    intros H. injection H as <-. eauto. }
  repeat match goal with
         | |- (if ?c then _ else _) = _ -> _ => destruct c
         end;
    try (intros H; injection H as <-); eauto.
Qed.

Lemma updateAndPushChildren_stable (fuel : nat) (ts ts' : Tileset) (tile : TileId)
    (stack stack' : list TileId) (refines : bool) :
  P ts -> updateAndPushChildren fuel ts tile stack fs = Some (refines, ts', stack') -> P ts'.
Proof. destruct HP. apply updateAndPushChildren_preserves; auto. Qed.

Lemma executeTraversal_body_preserves (fuel : nat) (base maximum : Z) (ts ts' : Tileset)
    (stack stack' : list TileId) :
  P ts -> executeTraversal_body fuel fs base maximum (ts, stack) = Some (ts', stack') -> P ts'.
Proof.
  intros Hts. unfold executeTraversal_body. destruct stack as [|tile rest]; [discriminate|].
  cbv zeta.
  set (ts1 := updateTileAncestorContentLinks _ tile fs).
  assert (H1 : P ts1) by (subst ts1; destruct HP; auto).
  clearbody ts1. destruct (inBaseTraversal ts1 tile base) as [baseTraversal|]; [|discriminate].
  assert (Hfinish : forall ts3 refines stack3,
            P ts3 ->
            match executeTraversal_select fuel ts3 tile fs baseTraversal
                    (negb refines && parentRefines ts1 tile) with
            | Some ts4 =>
                Some (modTile tile (set_refines refines)
                        (touchTile (visitTile ts4 tile fs) tile fs), stack3)
            | None => None
            end = Some (ts', stack') -> P ts').
  { intros ts3 refines stack3 H3.
    destruct (executeTraversal_select _ _ _ _ _ _) as [ts4|] eqn:Hs; [|discriminate].
    intros H. injection H as <- _.
    apply (executeTraversal_select_preserves _ _ _ _ _ _ H3) in Hs. destruct HP. auto. }
  destruct (canTraverse ts1 tile).
  - destruct (updateAndPushChildren fuel ts1 tile rest fs) as [[[cr ts2] stack2]|] eqn:Hu;
      [|discriminate].
    apply Hfinish. exact (updateAndPushChildren_stable _ _ _ _ _ _ _ H1 Hu).
  - apply Hfinish. exact H1.
Qed.

Lemma executeTraversal_preserves (fuel : nat) (base maximum : Z) (ts ts' : Tileset)
    (root : TileId) :
  P ts -> executeTraversal fuel ts root base maximum fs = Some ts' -> P ts'.
Proof.
  intros Hts. unfold executeTraversal.
  destruct (while _ _ fuel (ts, [root])) as [[ts1 stack1]|] eqn:Hrun; [|discriminate].
  intros H. injection H as <-.
  apply (while_invariant _ _ (fun st => P (fst st))) in Hrun as [Hinv _];
    [exact Hinv| |exact Hts].
  intros [ts2 stack2] [ts3 stack3] Hinv _ Hbody.
  exact (executeTraversal_body_preserves _ _ _ _ _ _ _ Hinv Hbody).
Qed.

Lemma traverseAndSelect_visit_preserves (st : SelectionLoop) :
  P (sl_tileset st) -> P (sl_tileset (traverseAndSelect_visit fs st)).
Proof.
  intros Hts. unfold traverseAndSelect_visit. cbv zeta.
  destruct (sl_stack st) as [|tile stack]; [exact Hts|].
  destruct (_shouldSelect (getTile (sl_tileset st) tile)); [|exact Hts].
  destruct (Cesium3DTileRefine_eqb _ ADD); [cbn [sl_tileset]; destruct HP; auto|].
  set (ts1 := if (0 <? _)%nat then _ else _).
  assert (H1 : P ts1).
  { subst ts1. destruct (0 <? _)%nat; destruct HP; auto. }
  clearbody ts1. destruct (negb (canTraverse (sl_tileset st) tile)); cbn [sl_tileset];
    destruct HP; auto.
Qed.

Lemma traverseAndSelect_body_preserves (st st' : SelectionLoop) :
  P (sl_tileset st) -> traverseAndSelect_body fs st = Some st' -> P (sl_tileset st').
Proof.
  intros Hts. unfold traverseAndSelect_body. cbv zeta.
  set (ts1 := with_selectionTraversal_ancestorStackMaximumLength _ _).
  assert (H1 : P ts1) by (subst ts1; destruct HP; auto).
  clearbody ts1. cbn [sl_ancestorStack sl_stack sl_lastAncestor].
  destruct (sl_ancestorStack st) as [|waitingTile ancestorStack].
  - intros H. injection H as <-. apply traverseAndSelect_visit_preserves. exact H1.
  - destruct (_stackLength (getTile ts1 waitingTile) =? length (sl_stack st))%nat.
    + intros H. injection H as <-. cbn [sl_tileset].
      destruct (negb (bool_decide _)); destruct HP; auto.
    + intros H. injection H as <-. apply traverseAndSelect_visit_preserves. exact H1.
Qed.

Lemma traverseAndSelect_preserves (fuel : nat) (ts ts' : Tileset) (root : TileId) :
  P ts -> traverseAndSelect fuel ts root fs = Some ts' -> P ts'.
Proof.
  intros Hts. unfold traverseAndSelect.
  destruct (while _ _ fuel _) as [st1|] eqn:Hrun; [|discriminate].
  intros H. injection H as <-.
  apply (while_invariant _ _ (fun st => P (sl_tileset st))) in Hrun as [Hinv _];
    [exact Hinv| |exact Hts].
  intros st2 st3 Hinv _ Hbody. exact (traverseAndSelect_body_preserves _ _ Hinv Hbody).
Qed.

Lemma selectTiles_preserves (fuel : nat) (ts ts' : Tileset) (ret : ReturnValue) :
  P ts -> selectTiles fuel ts fs = Some (ret, ts') -> P ts'.
Proof.
  intros Hts. unfold selectTiles. cbv zeta.
  set (ts1 := with_requestedTiles [] ts).
  assert (H1 : P ts1) by (subst ts1; destruct HP; auto).
  clearbody ts1. destruct (debugFreezeFrame ts1); [intros H; injection H as _ <-; exact H1|].
  set (ts2 := updateTile _ _ fs).
  assert (H2 : P ts2) by (subst ts2; destruct HP; auto 6).
  clearbody ts2. set (r := root (with_hasMixedContent _ _)). clearbody r.
  destruct (negb (isVisible ts2 r)); [intros H; injection H as _ <-; exact H2|].
  destruct (_ <=? _); [intros H; injection H as _ <-; exact H2|].
  assert (H3 : P (heatmap_resetMinMax ts2)) by (destruct HP; auto).
  unfold executeBaseTraversal, executeSkipTraversal, executeBaseAndSkipTraversal. cbv zeta.
  destruct (negb (skipLevelOfDetail (heatmap_resetMinMax ts2))).
  - destruct (executeTraversal _ _ _ _ _ _) as [ts3|] eqn:He; [|discriminate].
    intros H. injection H as _ <-. exact (executeTraversal_preserves _ _ _ _ _ _ H3 He).
  - destruct (immediatelyLoadDesiredLevelOfDetail (heatmap_resetMinMax ts2)).
    + destruct (executeTraversal _ _ _ _ _ _) as [ts3|] eqn:He; [|discriminate].
      destruct (traverseAndSelect fuel ts3 r fs) as [ts4|] eqn:Hs; [|discriminate].
      intros H. injection H as _ <-.
      apply (executeTraversal_preserves _ _ _ _ _ _ H3) in He.
      exact (traverseAndSelect_preserves _ _ _ _ He Hs).
    + destruct (executeTraversal _ _ _ _ _ _) as [ts3|] eqn:He; [|discriminate].
      destruct (traverseAndSelect fuel ts3 r fs) as [ts4|] eqn:Hs; [|discriminate].
      intros H. injection H as _ <-.
      apply (executeTraversal_preserves _ _ _ _ _ _ H3) in He.
      exact (traverseAndSelect_preserves _ _ _ _ He Hs).
Qed.
End StableTraversal.

(** ** Stable properties *)

(** A property that only depends on the inputs and on the children arrays
    is stable as soon as sorting keeps it. *)
Lemma Stable_inputs (fs : FrameState) (P : Tileset -> Prop) :
  (forall ts ts', same_tiles eq ts ts' -> P ts -> P ts') ->
  (forall ts tile,
     P ts ->
     P (modTile tile
          (set_children
             (Array_sort
                (fun a b => sortChildrenByDistanceToCamera (getTile ts a) (getTile ts b))
                (children (getTile ts tile)))) ts)) ->
  Stable fs P.
Proof.
  intros Hsame Hsort.
  assert (Hmod : forall ts i f,
            (forall t, tile_input (f t) = tile_input t) ->
            (forall t, children (f t) = children t) ->
            P ts -> P (modTile i f ts)).
  { intros ts i f H1 H2. apply Hsame, same_tiles_modTile; [apply _|exact H1|exact H2]. }
  assert (Hwith : forall (w : Tileset -> Tileset),
            (forall ts, settings (w ts) = settings ts) ->
            (forall ts, tiles (w ts) = tiles ts) ->
            forall ts, P ts -> P (w ts)).
  { intros w H1 H2 ts. apply Hsame, same_tiles_with; [apply _|exact H1|exact H2]. }
  constructor; intros;
    first [ apply Hsort; assumption
          | eapply Hsame; [|eassumption];
            first [ simple apply same_tiles_updateTile
                  | simple apply same_tiles_loadTile
                  | simple apply same_tiles_touchTile
                  | simple apply same_tiles_selectTile
                  | simple apply same_tiles_visitTile
                  | simple apply same_tiles_addEmptyTile
                  | simple apply same_tiles_updateTileAncestorContentLinks ]; apply _
          | apply Hmod; [reflexivity|reflexivity|assumption]
          | match goal with
            | |- P (?w ?v ?ts) => apply (Hwith (w v)); [reflexivity|reflexivity|assumption]
            | |- P (?w ?ts) => apply (Hwith w); [reflexivity|reflexivity|assumption]
            end ].
Qed.

Lemma Stable_same_tiles (fs : FrameState) (ts0 : Tileset) :
  Stable fs (same_tiles Permutation ts0).
Proof.
  apply Stable_inputs.
  - intros ts ts' Hsame H. etransitivity; [exact H|apply same_tiles_weaken, Hsame].
  - intros ts tile H. etransitivity; [exact H|apply same_tiles_sort].
Qed.

Lemma StronglySorted_impl {A : Type} (R R' : A -> A -> Prop) (l : list A) :
  (forall a b, R a b -> R' a b) -> StronglySorted R l -> StronglySorted R' l.
Proof.
  intros Himpl Hsorted. induction Hsorted as [|a l Hl IH Ha]; constructor; [exact IH|].
  eapply Forall_impl; [exact Ha|]. intros b. apply Himpl.
Qed.

Lemma same_fartherFirst (R : list TileId -> list TileId -> Prop) (ts ts' : Tileset)
    (a b : TileId) :
  same_tiles R ts ts' -> fartherFirst ts' a b -> fartherFirst ts a b.
Proof.
  intros Hsame. unfold fartherFirst.
  pose proof (same_tile_input R ts ts' Hsame a) as Ha.
  pose proof (same_tile_input R ts ts' Hsame b) as Hb. cbv zeta in Ha, Hb.
  destruct Ha as (_ & _ & _ & _ & _ & _ & -> & -> & _).
  destruct Hb as (_ & _ & _ & _ & _ & _ & -> & -> & _). tauto.
Qed.

(** The children of a tile stay in the order of [fartherFirst] once they
    are in it. *)
Lemma Stable_sorted (fs : FrameState) (ts0 : Tileset) (tile : TileId) :
  Stable fs (fun ts => same_tiles Permutation ts0 ts
                       /\ StronglySorted (fartherFirst ts0) (children (getTile ts tile))).
Proof.
  apply Stable_inputs.
  - intros ts ts' Hsame [H Hsorted]. split.
    + etransitivity; [exact H|apply same_tiles_weaken, Hsame].
    + destruct Hsame as [_ Ht]. destruct (Ht tile) as [_ <-]. exact Hsorted.
  - intros ts t [H Hsorted]. split; [etransitivity; [exact H|apply same_tiles_sort]|].
    rewrite getTile_modTile. destruct (decide (tile = t)) as [->|]; [|exact Hsorted].
    fields. apply (StronglySorted_impl (fartherFirst ts)).
    + intros a b. apply (same_fartherFirst Permutation). exact H.
    + apply fartherFirst_sorted.
Qed.

(** ** The body of the main traversal *)

Lemma executeTraversal_body_inversion (fuel : nat) (fs : FrameState) (base maximum : Z)
    (ts ts' : Tileset) (tile : TileId) (stack stack' : list TileId) :
  executeTraversal_body fuel fs base maximum (ts, tile :: stack) = Some (ts', stack') ->
  let ts1 :=
    updateTileAncestorContentLinks
      (with_traversal_stackMaximumLength
         (Nat.max (traversal_stackMaximumLength ts) (length (tile :: stack))) ts) tile fs in
  exists baseTraversal childrenRefine ts2 ts3,
    inBaseTraversal ts1 tile base = Some baseTraversal
    /\ (if canTraverse ts1 tile
        then updateAndPushChildren fuel ts1 tile stack fs = Some (childrenRefine, ts2, stack')
        else childrenRefine = false /\ ts2 = ts1 /\ stack' = stack)
    /\ executeTraversal_select fuel ts2 tile fs baseTraversal
         (negb (childrenRefine && parentRefines ts1 tile) && parentRefines ts1 tile) = Some ts3
    /\ ts' = modTile tile (set_refines (childrenRefine && parentRefines ts1 tile))
               (touchTile (visitTile ts3 tile fs) tile fs).
Proof.
  unfold executeTraversal_body. cbv zeta.
  set (ts1 := updateTileAncestorContentLinks _ tile fs). clearbody ts1.
  destruct (inBaseTraversal ts1 tile base) as [baseTraversal|]; [|discriminate].
  intros H. exists baseTraversal.
  destruct (canTraverse ts1 tile).
  - destruct (updateAndPushChildren fuel ts1 tile stack fs) as [[[cr ts2] stack2]|];
      [|discriminate].
    destruct (executeTraversal_select _ _ _ _ _ _) as [ts3|] eqn:Hs; [|discriminate].
    injection H as <- <-. exists cr, ts2, ts3. auto.
  - destruct (executeTraversal_select _ _ _ _ _ _) as [ts3|] eqn:Hs; [|discriminate].
    injection H as <- <-. exists false, ts1, ts3. auto.
Qed.

Lemma same_tiles_executeTraversal_body_head (fs : FrameState) (ts : Tileset) (tile : TileId)
    (n : nat) :
  same_tiles eq ts
    (updateTileAncestorContentLinks (with_traversal_stackMaximumLength n ts) tile fs).
Proof.
  etransitivity; [|apply same_tiles_updateTileAncestorContentLinks; apply _].
  apply (same_tiles_with _ (with_traversal_stackMaximumLength n)); intros ?; reflexivity.
Qed.

(** ** The children array is sorted in place *)

Lemma updateAndPushChildren_sorted (fuel : nat) (ts ts' : Tileset) (tile : TileId)
    (stack stack' : list TileId) (fs : FrameState) (refines : bool) :
  updateAndPushChildren fuel ts tile stack fs = Some (refines, ts', stack') ->
  same_tiles Permutation ts ts'
  /\ StronglySorted (fartherFirst ts) (children (getTile ts' tile)).
Proof.
  intros Hcall.
  apply (updateAndPushChildren_preserves_sorted fs
           (fun ts' => same_tiles Permutation ts ts'
                       /\ StronglySorted (fartherFirst ts) (children (getTile ts' tile))))
    with (1 := stable_updateTile _ _ (Stable_sorted fs ts tile))
         (2 := stable_loadTile _ _ (Stable_sorted fs ts tile))
         (3 := stable_touchTile _ _ (Stable_sorted fs ts tile))
         (4 := stable_emptyTraversal_stackMaximumLength _ _ (Stable_sorted fs ts tile))
         (5 := stable_wasMinChild _ _ (Stable_sorted fs ts tile))
         (6 := stable_priorityDistance _ _ (Stable_sorted fs ts tile))
         (7 := stable_priorityDistanceHolder _ _ (Stable_sorted fs ts tile))
    in Hcall; [exact Hcall|].
  cbv zeta.
  pose proof (same_tiles_foldl_updateTile Permutation fs (children (getTile ts tile)) ts)
    as Hsame.
  set (ts1 := foldl _ ts _) in *. clearbody ts1.
  split; [etransitivity; [exact Hsame|apply same_tiles_sort]|].
  rewrite getTile_modTile_eq. fields. apply (StronglySorted_impl (fartherFirst ts1)).
  - intros a b. apply (same_fartherFirst Permutation). exact Hsame.
  - apply fartherFirst_sorted.
Qed.

(** ** The entry point *)

Lemma same_tiles_selectTiles_start (ts : Tileset) (fs : FrameState) :
  same_tiles eq ts (selectTiles_start ts fs).
Proof.
  unfold selectTiles_start, heatmap_resetMinMax.
  same_tiles_step ltac:(simple apply same_tiles_updateTile; apply _).
Qed.

(** A call that returns [true] has run the traversal of its mode from
    [selectTiles_start]. *)
Lemma selectTiles_inversion (fuel : nat) (ts ts' : Tileset) (fs : FrameState) :
  selectTiles fuel ts fs = Some (RetTrue, ts') ->
  debugFreezeFrame ts = false
  /\ fs_visible fs (root ts) && fs_inRequestVolume fs (root ts) = true
  /\ _maximumScreenSpaceError ts < fs_screenSpaceErrorWithParentError fs (root ts)
  /\ exists ts1,
       executeTraversal fuel (selectTiles_start ts fs) (root ts)
         (selectTiles_baseScreenSpaceError ts) (_maximumScreenSpaceError ts) fs = Some ts1
       /\ (if skipLevelOfDetail ts then traverseAndSelect fuel ts1 (root ts) fs = Some ts'
           else ts' = ts1).
Proof.
  unfold selectTiles. cbv zeta. fields.
  destruct (debugFreezeFrame ts); [discriminate|].
  rewrite updateTile_visible.
  destruct (fs_visible fs (root ts) && fs_inRequestVolume fs (root ts)); [|discriminate].
  cbn [negb]. unfold Tile_getScreenSpaceError.
  change (_maximumScreenSpaceError (updateTile ?a ?b ?c)) with (_maximumScreenSpaceError a).
  fields.
  destruct (Z.leb_spec (fs_screenSpaceErrorWithParentError fs (root ts))
              (_maximumScreenSpaceError ts)) as [|Hsse]; [discriminate|].
  fold (selectTiles_start ts fs).
  pose proof (same_tiles_selectTiles_start ts fs) as Hsame.
  rewrite (same_skipLevelOfDetail eq _ _ Hsame).
  destruct (same_settings eq _ _ Hsame) as (_ & Hmax & Hbase & _ & Himm & _).
  rewrite Himm.
  unfold executeBaseTraversal, executeSkipTraversal, executeBaseAndSkipTraversal,
    selectTiles_baseScreenSpaceError. cbv zeta. rewrite Hmax, Hbase.
  intros H. split; [reflexivity|]. split; [reflexivity|]. split; [exact Hsse|].
  destruct (skipLevelOfDetail ts); cbn [negb] in *.
  - destruct (immediatelyLoadDesiredLevelOfDetail ts).
    + destruct (executeTraversal _ _ _ _ _ _) as [ts1|]; [|discriminate].
      exists ts1. split; [reflexivity|].
      destruct (traverseAndSelect fuel ts1 (root ts) fs); [|discriminate].
      injection H as <-. reflexivity.
    + destruct (executeTraversal _ _ _ _ _ _) as [ts1|]; [|discriminate].
      exists ts1. split; [reflexivity|].
      destruct (traverseAndSelect fuel ts1 (root ts) fs); [|discriminate].
      injection H as <-. reflexivity.
  - destruct (executeTraversal _ _ _ _ _ _) as [ts1|]; [|discriminate].
    exists ts1. split; [reflexivity|]. injection H as <-. reflexivity.
Qed.

(** ** Stable properties of the fields of a tile *)

Lemma refreshed_updateTile_eq (fs : FrameState) (ts : Tileset) (tile : TileId) :
  refreshed fs (updateTile ts tile fs) tile.
Proof.
  unfold refreshed. rewrite getTile_updateTile.
  destruct (decide (tile = tile)); [|congruence]. fields. auto.
Qed.

Lemma Stable_refreshed (fs : FrameState) (tile : TileId) :
  Stable fs (fun ts => refreshed fs ts tile).
Proof.
  constructor; unfold refreshed; intros ts; intros;
    rewrite ?getTile_updateTile, ?getTile_loadTile, ?getTile_touchTile, ?getTile_selectTile,
      ?getTile_visitTile, ?getTile_updateTileAncestorContentLinks, ?getTile_modTile;
    try match goal with
        | |- context [decide (?a = ?b)] => destruct (decide (a = b)); [subst|assumption]
        end;
    try assumption;
    repeat match goal with
           | |- context [if ?c then _ else _] => destruct c
           | |- context [match ?c with Some _ => _ | None => _ end] => destruct c
           end;
    fields; auto.
Qed.

(** ** The refine check of a REPLACE parent *)

Lemma same_emptyTraversal_stops (R : list TileId -> list TileId -> Prop) (ts ts' : Tileset)
    (root tile : TileId) :
  (forall l l', R l l' -> Permutation l l') ->
  same_tiles R ts ts' ->
  emptyTraversal_stops ts root tile -> emptyTraversal_stops ts' root tile.
Proof.
  intros Hperm Hsame [Hvisits Hstop]. split.
  - induction Hvisits as [root|root child tile Hgo Hin Hvisits IH]; [constructor|].
    apply (visits_child _ root child tile).
    + rewrite (same_hasEmptyContent R ts ts' Hsame), (same_canTraverse R ts ts' Hperm Hsame).
      exact Hgo.
    + rewrite <- (same_children R ts ts' Hperm Hsame root). exact Hin.
    + apply IH. exact Hstop.
  - rewrite (same_hasEmptyContent R ts ts' Hsame), (same_canTraverse R ts ts' Hperm Hsame).
    exact Hstop.
Qed.

Lemma executeEmptyTraversal_spec (fuel : nat) (ts ts' : Tileset) (root : TileId)
    (fs : FrameState) (allDescendantsLoaded : bool) :
  executeEmptyTraversal fuel ts root fs = Some (allDescendantsLoaded, ts') ->
  allDescendantsLoaded = true
  <-> forall tile, emptyTraversal_stops ts root tile ->
                   contentAvailable (getTile ts tile) = true.
Proof.
  unfold executeEmptyTraversal.
  destruct (while _ _ fuel (ts, [root], true)) as [[[ts1 stack1] b1]|] eqn:Hrun;
    [|discriminate].
  intros H. injection H as <- <-.
  apply (executeEmptyTraversal_loop fs ts) in Hrun as [_ Hiff]; [|reflexivity].
  rewrite Hiff. split.
  - intros [_ Hall] tile. apply Hall. left.
  - intros Hall. split; [reflexivity|]. intros s tile Hin. apply list_elem_of_singleton in Hin as ->.
    apply Hall.
Qed.

Lemma refreshed_foldl_updateTile (fs : FrameState) (l : list TileId) (tile : TileId) :
  forall ts,
    tile ∈ l \/ refreshed fs ts tile ->
    refreshed fs (foldl (fun ts child => updateTile ts child fs) ts l) tile.
Proof.
  induction l as [|x l IH]; intros ts [Hin|Hdone]; simpl.
  - inversion Hin.
  - exact Hdone.
  - apply IH. apply elem_of_cons in Hin as [->|Hin]; [right|left; exact Hin].
    apply refreshed_updateTile_eq.
  - apply IH. right. apply (stable_updateTile _ _ (Stable_refreshed fs tile)). exact Hdone.
Qed.

(** When the refine check runs and a child in the request volume holds the
    refinement back, the call answers [false]. *)
Lemma updateAndPushChildren_blocked (fuel : nat) (ts ts' : Tileset) (tile child : TileId)
    (stack stack' : list TileId) (fs : FrameState) (refines : bool) :
  skipLevelOfDetail ts = false ->
  refine (getTile ts tile) = REPLACE ->
  hasEmptyContent_ ts tile = false ->
  child ∈ children (getTile ts tile) ->
  fs_inRequestVolume fs child = true ->
  blocksRefinement ts child ->
  updateAndPushChildren fuel ts tile stack fs = Some (refines, ts', stack') ->
  refines = false.
Proof.
  intros Hskip Hreplace Hnonempty Hchild Hvolume Hblocks Hcall.
  apply updateAndPushChildren_inversion in Hcall. cbv zeta in Hcall.
  assert (Hperm : forall l l' : list TileId, Permutation l l' -> Permutation l l') by auto.
  assert (Heq : forall l l' : list TileId, l = l' -> Permutation l l')
    by (intros l l' ->; reflexivity).
  pose proof (same_tiles_foldl_updateTile Permutation fs (children (getTile ts tile)) ts)
    as Hsame1.
  pose proof (fun c (Hc : c ∈ children (getTile ts tile)) =>
                refreshed_foldl_updateTile fs (children (getTile ts tile)) c ts (or_introl Hc))
    as Hfresh1.
  set (l := children (getTile ts tile)) in *.
  set (ts1 := foldl _ ts l) in *. clearbody ts1.
  set (sorted := Array_sort _ l) in *.
  assert (Hsorted : Permutation l sorted) by apply Array_sort_permutation.
  clearbody sorted.
  set (ts2 := modTile tile (set_children sorted) ts1) in *.
  assert (Hsame2 : same_tiles Permutation ts ts2).
  { etransitivity; [exact Hsame1|]. subst ts2. split; [reflexivity|]. intros j.
    rewrite getTile_modTile. destruct (decide (j = tile)) as [->|]; [|split; reflexivity].
    split; [reflexivity|]. fields.
    rewrite <- (same_children Permutation ts ts1 Hperm Hsame1 tile). exact Hsorted. }
  assert (Hfresh2 : forall c, c ∈ l -> refreshed fs ts2 c).
  { intros c Hc. subst ts2. unfold refreshed. rewrite getTile_modTile.
    destruct (decide (c = tile)) as [->|]; [fields|]; apply Hfresh1; exact Hc. }
  clearbody ts2. clear Hsame1 Hfresh1 ts1.
  rewrite (same_skipLevelOfDetail Permutation ts ts2 Hsame2), Hskip,
    (same_hasEmptyContent Permutation ts ts2 Hsame2), Hnonempty, Hreplace in Hcall.
  cbn in Hcall. destruct Hcall as (st & Hloop & _ & -> & _).
  assert (Hfinal : same_tiles Permutation ts (cl_tileset st)
                   /\ (forall c, c ∈ l -> refreshed fs (cl_tileset st) c)
                   /\ (child ∈ [] ++ sorted -> cl_refines st = false)).
  { apply (updateAndPushChildren_loop_invariant fuel fs true
             (fun done st => same_tiles Permutation ts (cl_tileset st)
                             /\ (forall c, c ∈ l -> refreshed fs (cl_tileset st) c)
                             /\ (child ∈ done -> cl_refines st = false)))
      with (rest := sorted) (done := []) (3 := Hloop).
    - clear st Hloop. intros done c st st' (Hsame & Hfresh & Hdone) Hstep.
      split; [|split].
      + apply (updateAndPushChildren_child_preserves fs (same_tiles Permutation ts))
          with (5 := Hsame) (6 := Hstep);
          first [ exact (stable_updateTile _ _ (Stable_same_tiles fs ts))
                | exact (stable_loadTile _ _ (Stable_same_tiles fs ts))
                | exact (stable_touchTile _ _ (Stable_same_tiles fs ts))
                | exact (stable_emptyTraversal_stackMaximumLength _ _
                           (Stable_same_tiles fs ts)) ].
      + intros c' Hc'.
        apply (updateAndPushChildren_child_preserves fs (fun ts => refreshed fs ts c'))
          with (5 := Hfresh c' Hc') (6 := Hstep);
          first [ exact (stable_updateTile _ _ (Stable_refreshed fs c'))
                | exact (stable_loadTile _ _ (Stable_refreshed fs c'))
                | exact (stable_touchTile _ _ (Stable_refreshed fs c'))
                | exact (stable_emptyTraversal_stackMaximumLength _ _
                           (Stable_refreshed fs c')) ].
      + intros Hin. apply updateAndPushChildren_child_spec in Hstep. cbv zeta in Hstep.
        destruct Hstep as (mid & childRefines & Hmid & _ & _ & _ & _ & _ & Hrefines & Hcheck).
        rewrite Hrefines. apply elem_of_app in Hin as [Hin|Hin];
          [rewrite (Hdone Hin); reflexivity|].
        apply list_elem_of_singleton in Hin as <-.
        destruct (Hfresh child Hchild) as [_ Hvol]. rewrite Hvol, Hvolume in Hcheck.
        rewrite (same_hasEmptyContent Permutation _ _ Hsame),
          (same_contentAvailable Permutation _ _ Hsame) in Hcheck.
        cbn [negb] in Hcheck. unfold blocksRefinement in Hblocks.
        destruct childRefines; [|apply andb_false_r]. exfalso.
        destruct (hasEmptyContent_ ts child); [|destruct Hcheck; congruence].
        destruct Hblocks as (hole & Hstop & Hhole).
        apply executeEmptyTraversal_spec in Hcheck. destruct Hcheck as [Hall _].
        assert (Hmid' : same_tiles Permutation ts mid)
          by (etransitivity; [exact Hsame|apply same_tiles_weaken, Hmid]).
        specialize (Hall eq_refl hole
                      (same_emptyTraversal_stops Permutation ts mid child hole Hperm Hmid' Hstop)).
        rewrite (same_contentAvailable Permutation ts mid Hmid') in Hall. congruence.
    - split; [exact Hsame2|]. split; [exact Hfresh2|]. intros Hin. inversion Hin. }
  destruct Hfinal as (_ & _ & Hfinal). rewrite Hfinal; [destruct (negb _); reflexivity|].
  cbn [app]. rewrite <- Hsorted. exact Hchild.
Qed.

Lemma updateAndPushChildren_hole (fuel : nat) (ts ts' : Tileset) (tile child hole : TileId)
    (stack stack' : list TileId) (fs : FrameState) (refines : bool) :
  skipLevelOfDetail ts = false ->
  refine (getTile ts tile) = REPLACE ->
  hasEmptyContent_ ts tile = false ->
  child ∈ children (getTile ts tile) ->
  fs_inRequestVolume fs child = true ->
  hasEmptyContent_ ts child = true ->
  emptyTraversal_stops ts child hole ->
  contentAvailable (getTile ts hole) = false ->
  updateAndPushChildren fuel ts tile stack fs = Some (refines, ts', stack') ->
  refines = false.
Proof.
  intros Hskip Hreplace Hnonempty Hchild Hvolume Hempty Hstop Hhole.
  apply updateAndPushChildren_blocked with (child := child); try assumption.
  unfold blocksRefinement. rewrite Hempty. eauto.
Qed.

(** ** Termination of the empty traversal *)

Lemma sum_list_with_permutation (size : TileId -> nat) (l l' : list TileId) :
  Permutation l l' -> sum_list_with size l = sum_list_with size l'.
Proof. intros H. rewrite H. reflexivity. Qed.

Lemma sum_list_with_rev (size : TileId -> nat) (l : list TileId) :
  sum_list_with size (rev l) = sum_list_with size l.
Proof. apply sum_list_with_permutation. symmetry. apply Permutation_rev. Qed.

Lemma tree_sizes_same_tiles (R : list TileId -> list TileId -> Prop) (ts ts' : Tileset)
    (size : TileId -> nat) :
  (forall l l', R l l' -> Permutation l l') ->
  same_tiles R ts ts' -> tree_sizes ts size -> tree_sizes ts' size.
Proof.
  intros Hperm Hsame Hsizes tile.
  rewrite <- (sum_list_with_permutation size _ _ (same_children R ts ts' Hperm Hsame tile)).
  apply Hsizes.
Qed.

Lemma executeEmptyTraversal_body_step (fs : FrameState) (ts : Tileset) (tile : TileId)
    (rest : list TileId) (b : bool) :
  exists ts' b',
    executeEmptyTraversal_body fs (ts, tile :: rest, b)
    = Some (ts', (if hasEmptyContent_ ts tile && canTraverse ts tile
                  then rev (children (getTile ts tile)) ++ rest else rest), b').
Proof. unfold executeEmptyTraversal_body. cbv zeta. eexists _, _. reflexivity. Qed.

Lemma executeEmptyTraversal_loop_terminates (fs : FrameState) (ts0 : Tileset)
    (size : TileId -> nat) (fuel : nat) (ts : Tileset) (stack : list TileId) (b : bool) :
  tree_sizes ts0 size ->
  same_tiles eq ts0 ts ->
  (sum_list_with size stack <= fuel)%nat ->
  exists st',
    while (fun st => stack_nonempty (snd (fst st))) (executeEmptyTraversal_body fs)
      fuel (ts, stack, b) = Some st'.
Proof.
  intros Hsizes Hsame Hfuel.
  assert (Heq : forall l l' : list TileId, l = l' -> Permutation l l')
    by (intros l l' ->; reflexivity).
  apply (while_terminates _ _ (fun st => same_tiles eq ts0 (fst (fst st)))
           (fun st => sum_list_with size (snd (fst st))));
    [|exact Hsame|exact Hfuel].
  clear ts stack b Hsame Hfuel. intros [[ts stack] b] Hsame Hcond. cbn [fst snd] in *.
  destruct stack as [|tile rest]; [discriminate|].
  destruct (executeEmptyTraversal_body_step fs ts tile rest b) as (ts' & b' & Hbody).
  eexists. split; [exact Hbody|]. cbn [fst snd]. split.
  - etransitivity; [exact Hsame|].
    exact (same_tiles_executeEmptyTraversal_body eq fs _ _ _ _ _ _ Hbody).
  - pose proof (tree_sizes_same_tiles eq ts0 ts size Heq Hsame Hsizes tile) as Hlt.
    assert (Hpos : (0 < size tile)%nat) by lia.
    destruct (hasEmptyContent_ ts tile && canTraverse ts tile).
    + rewrite sum_list_with_app, sum_list_with_rev. simpl. lia.
    + simpl. lia.
Qed.

Lemma executeEmptyTraversal_terminates (fs : FrameState) (ts : Tileset)
    (size : TileId -> nat) (fuel : nat) (root : TileId) :
  tree_sizes ts size -> (size root <= fuel)%nat ->
  exists b ts', executeEmptyTraversal fuel ts root fs = Some (b, ts').
Proof.
  intros Hsizes Hfuel. unfold executeEmptyTraversal.
  destruct (executeEmptyTraversal_loop_terminates fs ts size fuel ts [root] true Hsizes)
    as ([[ts' stack'] b'] & ->); [reflexivity|simpl; lia|].
  eauto.
Qed.

(** C7.  [executeEmptyTraversal] answers [true] exactly when every tile at
    which its descent stops has available content; on a finite tree it
    does answer.  When the descent from an empty child stops at a tile
    without content, the refine check of a REPLACE parent fails:
    [updateAndPushChildren] answers [false], and the body of the traversal
    leaves [_refines] of the parent at [false]. *)
Theorem executeEmptyTraversal_all_stops_loaded :
  (forall fuel ts root fs allDescendantsLoaded ts',
     executeEmptyTraversal fuel ts root fs = Some (allDescendantsLoaded, ts') ->
     allDescendantsLoaded = true
     <-> forall tile, emptyTraversal_stops ts root tile ->
                      contentAvailable (getTile ts tile) = true)
  /\ (forall fuel ts root fs size,
        tree_sizes ts size -> (size root <= fuel)%nat ->
        exists b ts', executeEmptyTraversal fuel ts root fs = Some (b, ts'))
  /\ (forall fuel ts tile child hole stack fs refines ts' stack',
        skipLevelOfDetail ts = false ->
        refine (getTile ts tile) = REPLACE ->
        hasEmptyContent_ ts tile = false ->
        child ∈ children (getTile ts tile) ->
        fs_inRequestVolume fs child = true ->
        hasEmptyContent_ ts child = true ->
        emptyTraversal_stops ts child hole ->
        contentAvailable (getTile ts hole) = false ->
        updateAndPushChildren fuel ts tile stack fs = Some (refines, ts', stack') ->
        refines = false)
  /\ (forall fuel fs base maximum ts tile child hole stack ts' stack',
        skipLevelOfDetail ts = false ->
        refine (getTile ts tile) = REPLACE ->
        hasEmptyContent_ ts tile = false ->
        child ∈ children (getTile ts tile) ->
        fs_inRequestVolume fs child = true ->
        hasEmptyContent_ ts child = true ->
        emptyTraversal_stops ts child hole ->
        contentAvailable (getTile ts hole) = false ->
        executeTraversal_body fuel fs base maximum (ts, tile :: stack) = Some (ts', stack') ->
        _refines (getTile ts' tile) = false).
Proof.
  split; [|split; [|split]].
  - intros fuel ts root fs b ts'. apply executeEmptyTraversal_spec.
  - intros fuel ts root fs size. apply executeEmptyTraversal_terminates.
  - intros fuel ts tile child hole stack fs refines ts' stack'.
    apply updateAndPushChildren_hole.
  - intros fuel fs base maximum ts tile child hole stack ts' stack'
      Hskip Hreplace Hnonempty Hchild Hvolume Hempty Hstop Hhole Hbody.
    apply executeTraversal_body_inversion in Hbody. cbv zeta in Hbody.
    pose proof (same_tiles_executeTraversal_body_head fs ts tile
                  (Nat.max (traversal_stackMaximumLength ts) (length (tile :: stack))))
      as Hhead.
    set (ts1 := updateTileAncestorContentLinks _ tile fs) in *. clearbody ts1.
    destruct Hbody as (baseTraversal & cr & ts2 & ts3 & _ & Hpush & _ & ->).
    rewrite getTile_modTile_eq. fields.
    assert (Heq : forall l l' : list TileId, l = l' -> Permutation l l')
      by (intros l l' ->; reflexivity).
    destruct (canTraverse ts1 tile).
    + apply (updateAndPushChildren_hole fuel ts1 ts2 tile child hole) in Hpush.
      * rewrite Hpush. reflexivity.
      * rewrite (same_skipLevelOfDetail eq ts ts1 Hhead). exact Hskip.
      * rewrite (same_refine eq ts ts1 Hhead). exact Hreplace.
      * rewrite (same_hasEmptyContent eq ts ts1 Hhead). exact Hnonempty.
      * rewrite <- (same_children eq ts ts1 Heq Hhead). exact Hchild.
      * exact Hvolume.
      * rewrite (same_hasEmptyContent eq ts ts1 Hhead). exact Hempty.
      * exact (same_emptyTraversal_stops eq ts ts1 child hole Heq Hhead Hstop).
      * rewrite (same_contentAvailable eq ts ts1 Hhead). exact Hhole.
    + destruct Hpush as (-> & _). reflexivity.
Qed.

(** ** The priority holder of the children *)

Section FreshChild.
Context (fs : FrameState) (ts0 : Tileset) (child : TileId).

Lemma fresh_child_updateTile (ts : Tileset) (tile : TileId) :
  fresh_child fs ts0 ts child \/ (same_tiles Permutation ts0 ts /\ tile = child) ->
  fresh_child fs ts0 (updateTile ts tile fs) child.
Proof.
  assert (Hperm : forall l l' : list TileId, Permutation l l' -> Permutation l l') by auto.
  intros H.
  assert (Hsame : same_tiles Permutation ts0 ts) by (destruct H as [[? _]|[? _]]; assumption).
  unfold fresh_child.
  split; [exact (stable_updateTile _ _ (Stable_same_tiles fs ts0) ts tile Hsame)|].
  destruct (decide (tile = child)) as [->|Hne].
  - split; [apply refreshed_updateTile_eq|]. rewrite getTile_updateTile.
    destruct (decide (child = child)); [|congruence]. fields.
    split; [|reflexivity]. exact (same_getPriority Permutation ts0 ts Hsame child).
  - destruct H as [(_ & Hfresh & Hpd & Hholder)|[_ ?]]; [|congruence].
    split; [exact (stable_updateTile _ _ (Stable_refreshed fs child) ts tile Hfresh)|].
    rewrite getTile_updateTile. destruct (decide (child = tile)); [congruence|]. auto.
Qed.

Lemma fresh_child_loadTile (ts : Tileset) (tile : TileId) :
  fresh_child fs ts0 ts child -> fresh_child fs ts0 (loadTile ts tile fs) child.
Proof.
  intros (Hsame & Hfresh & Hpd & Hholder). unfold fresh_child.
  split; [exact (stable_loadTile _ _ (Stable_same_tiles fs ts0) ts tile Hsame)|].
  split; [exact (stable_loadTile _ _ (Stable_refreshed fs child) ts tile Hfresh)|].
  rewrite getTile_loadTile. destruct (decide (child = tile)) as [->|]; [|auto].
  destruct (hasUnloadedContent ts tile || contentExpired (getTile ts tile)); auto.
Qed.

Lemma fresh_child_touchTile (ts : Tileset) (tile : TileId) :
  fresh_child fs ts0 ts child -> fresh_child fs ts0 (touchTile ts tile fs) child.
Proof.
  intros (Hsame & Hfresh & Hpd & Hholder). unfold fresh_child.
  split; [exact (stable_touchTile _ _ (Stable_same_tiles fs ts0) ts tile Hsame)|].
  split; [exact (stable_touchTile _ _ (Stable_refreshed fs child) ts tile Hfresh)|].
  rewrite getTile_touchTile. destruct (decide (child = tile)) as [->|]; [|auto].
  destruct (_touchedFrame (getTile ts tile) =? frameNumber fs); auto.
Qed.

Lemma fresh_child_stackMaximumLength (ts : Tileset) (n : nat) :
  fresh_child fs ts0 ts child ->
  fresh_child fs ts0 (with_emptyTraversal_stackMaximumLength n ts) child.
Proof.
  intros (Hsame & Hfresh & Hpd & Hholder). unfold fresh_child.
  split; [exact (stable_emptyTraversal_stackMaximumLength _ _ (Stable_same_tiles fs ts0)
                   ts n Hsame)|].
  auto.
Qed.

Lemma fresh_child_sort (ts : Tileset) (tile : TileId) :
  fresh_child fs ts0 ts child ->
  fresh_child fs ts0
    (modTile tile
       (set_children
          (Array_sort
             (fun a b => sortChildrenByDistanceToCamera (getTile ts a) (getTile ts b))
             (children (getTile ts tile)))) ts) child.
Proof.
  intros (Hsame & Hfresh & Hpd & Hholder). unfold fresh_child.
  split; [exact (stable_sort _ _ (Stable_same_tiles fs ts0) ts tile Hsame)|].
  split; [exact (stable_sort _ _ (Stable_refreshed fs child) ts tile Hfresh)|].
  rewrite getTile_modTile. destruct (decide (child = tile)) as [->|]; auto.
Qed.

Lemma fresh_child_foldl_updateTile (l : list TileId) :
  forall ts,
    fresh_child fs ts0 ts child \/ (same_tiles Permutation ts0 ts /\ child ∈ l) ->
    fresh_child fs ts0 (foldl (fun ts child => updateTile ts child fs) ts l) child.
Proof.
  induction l as [|x l IH]; intros ts H; simpl.
  - destruct H as [H|[_ Hin]]; [exact H|inversion Hin].
  - apply IH. destruct H as [H|[Hsame Hin]].
    + left. apply fresh_child_updateTile. left. exact H.
    + apply elem_of_cons in Hin as [<-|Hin].
      * left. apply fresh_child_updateTile. right. auto.
      * right. split; [|exact Hin].
        exact (stable_updateTile _ _ (Stable_same_tiles fs ts0) ts x Hsame).
Qed.
End FreshChild.

(** The rule of the invariant again, where the step knows the place of
    the child in the array. *)
Lemma updateAndPushChildren_loop_invariant_at (fuel : nat) (fs : FrameState)
    (checkRefines : bool) (all : list TileId) (Inv : list TileId -> ChildrenLoop -> Prop) :
  (forall done child rest st st',
     all = done ++ child :: rest ->
     Inv done st ->
     updateAndPushChildren_child fuel fs checkRefines child (length done) st = Some st' ->
     Inv (done ++ [child]) st') ->
  forall st st',
    Inv [] st ->
    updateAndPushChildren_loop fuel fs checkRefines all 0 st = Some st' ->
    Inv all st'.
Proof.
  intros Hstep.
  assert (Hgen : forall rest done st st',
            all = done ++ rest -> Inv done st ->
            updateAndPushChildren_loop fuel fs checkRefines rest (length done) st = Some st' ->
            Inv all st').
  { intros rest. induction rest as [|child rest IH]; intros done st st' Hall Hinv; simpl.
    - intros H. injection H as <-. rewrite app_nil_r in Hall. subst all. exact Hinv.
    - destruct (updateAndPushChildren_child fuel fs checkRefines child (length done) st)
        as [st1|] eqn:Hchild; [|discriminate].
      intros Hloop. apply (IH (done ++ [child]) st1).
      + rewrite <- app_assoc. exact Hall.
      + eapply Hstep; eassumption.
      + rewrite length_app. simpl. rewrite Nat.add_1_r. exact Hloop. }
  intros st st' Hinv Hloop. exact (Hgen all [] st st' eq_refl Hinv Hloop).
Qed.

Lemma foldl_priorityDistanceHolder_fields (holder : TileId) (l : list TileId) :
  forall ts j,
    let ts' :=
      foldl (fun ts child => modTile child (set_priorityDistanceHolder holder) ts) ts l in
    _priorityDistance (getTile ts' j) = _priorityDistance (getTile ts j)
    /\ (j ∈ l -> _priorityDistanceHolder (getTile ts' j) = holder)
    /\ (_priorityDistanceHolder (getTile ts j) = holder ->
        _priorityDistanceHolder (getTile ts' j) = holder).
Proof.
  induction l as [|x l IH]; intros ts j; cbv zeta; simpl.
  - split; [reflexivity|]. split; [intros H; inversion H|auto].
  - destruct (IH (modTile x (set_priorityDistanceHolder holder) ts) j) as (Hpd & Hin & Hkeep).
    cbv zeta in *. rewrite Hpd.
    assert (Hx : _priorityDistanceHolder
                   (getTile (modTile x (set_priorityDistanceHolder holder) ts) x) = holder)
      by (rewrite getTile_modTile_eq; reflexivity).
    split; [|split].
    + rewrite getTile_modTile. destruct (decide (j = x)) as [->|]; reflexivity.
    + intros Hj. apply elem_of_cons in Hj as [Hj|Hj]; [|auto].
      apply Hkeep. subst j. exact Hx.
    + intros Hj. apply Hkeep. rewrite getTile_modTile.
      destruct (decide (j = x)); [reflexivity|exact Hj].
Qed.

Lemma updateAndPushChildren_link_fields (ts : Tileset) (tile : TileId) (children : list TileId)
    (minPriorityChild : TileId) :
  let ts' := updateAndPushChildren_link ts tile children minPriorityChild in
  exists holder,
    (forall child, child ∈ children -> _priorityDistanceHolder (getTile ts' child) = holder)
    /\ _priorityDistance (getTile ts' holder) = _priorityDistance (getTile ts minPriorityChild)
    /\ (forall j, j <> holder ->
                  _priorityDistance (getTile ts' j) = _priorityDistance (getTile ts j)).
Proof.
  unfold updateAndPushChildren_link. cbv zeta.
  set (ts1 := modTile minPriorityChild (set_wasMinChild true) ts).
  set (holder := if _ || _ then _ else tile). clearbody holder. exists holder.
  set (ts2 := modTile holder _ ts1).
  assert (H1 : forall j, _priorityDistance (getTile ts1 j) = _priorityDistance (getTile ts j)).
  { intros j. subst ts1. rewrite getTile_modTile. destruct (decide (j = _)) as [->|]; reflexivity. }
  split; [|split].
  - intros child Hchild.
    destruct (foldl_priorityDistanceHolder_fields holder children ts2 child) as (_ & Hin & _).
    exact (Hin Hchild).
  - destruct (foldl_priorityDistanceHolder_fields holder children ts2 holder) as (-> & _).
    subst ts2. rewrite getTile_modTile_eq. fields. apply H1.
  - intros j Hj.
    destruct (foldl_priorityDistanceHolder_fields holder children ts2 j) as (-> & _).
    subst ts2. rewrite getTile_modTile_ne by exact Hj. apply H1.
Qed.

Lemma same_checkRefines (R : list TileId -> list TileId -> Prop) (ts ts' : Tileset)
    (tile : TileId) :
  same_tiles R ts ts' -> checkRefines ts' tile = checkRefines ts tile.
Proof.
  intros Hsame. unfold checkRefines.
  rewrite (same_skipLevelOfDetail R ts ts' Hsame), (same_refine R ts ts' Hsame),
    (same_hasEmptyContent R ts ts' Hsame). reflexivity.
Qed.

Lemma isVisible_refreshed (fs : FrameState) (ts : Tileset) (tile : TileId) :
  refreshed fs ts tile -> isVisible ts tile = fs_visible fs tile && fs_inRequestVolume fs tile.
Proof. intros [Hv Hr]. unfold isVisible. rewrite Hv, Hr. reflexivity. Qed.

(** The state of the loop over the children when it has run: every child is
    still as its refresh left it, and the minimum found is the priority of
    the child at [cl_minIndex], below the priority of every child that
    took part in the search. *)
Lemma updateAndPushChildren_minimum (fuel : nat) (ts ts' : Tileset) (tile : TileId)
    (stack stack' : list TileId) (fs : FrameState) (refines : bool) :
  updateAndPushChildren fuel ts tile stack fs = Some (refines, ts', stack') ->
  exists sorted st,
    Permutation (children (getTile ts tile)) sorted
    /\ (forall child, child ∈ sorted -> fresh_child fs ts (cl_tileset st) child)
    /\ (forall child, child ∈ sorted -> inPrioritySearch fs ts tile child = true ->
                      cl_minDistancePriority st <= getPriority ts child)
    /\ match cl_minIndex st with
       | Some minIndex =>
           exists minPriorityChild,
             sorted !! minIndex = Some minPriorityChild
             /\ getPriority ts minPriorityChild = cl_minDistancePriority st
             /\ ts' = updateAndPushChildren_link (cl_tileset st) tile sorted minPriorityChild
       | None => ts' = cl_tileset st
       end.
Proof.
  intros Hcall. apply updateAndPushChildren_inversion in Hcall. cbv zeta in Hcall.
  assert (Hperm : forall l l' : list TileId, Permutation l l' -> Permutation l l') by auto.
  pose proof (same_tiles_foldl_updateTile Permutation fs (children (getTile ts tile)) ts)
    as Hsame1.
  pose proof (fun c (Hc : c ∈ children (getTile ts tile)) =>
                fresh_child_foldl_updateTile fs ts c (children (getTile ts tile)) ts
                  (or_intror (conj (same_tiles_refl Permutation ts) Hc)))
    as Hfresh1.
  pose proof (same_tiles_foldl_updateTile eq fs (children (getTile ts tile)) ts) as Heq1.
  destruct Heq1 as [_ Heq1]. destruct (Heq1 tile) as [_ Hch]. clear Heq1.
  set (l := children (getTile ts tile)) in *.
  set (ts1 := foldl _ ts l) in *. clearbody ts1.
  assert (Hfresh2 : forall c, c ∈ l ->
            fresh_child fs ts
              (modTile tile
                 (set_children
                    (Array_sort
                       (fun a b => sortChildrenByDistanceToCamera (getTile ts1 a) (getTile ts1 b))
                       l)) ts1) c).
  { intros c Hc. rewrite Hch. apply fresh_child_sort, Hfresh1, Hc. }
  assert (Hsame2 : same_tiles Permutation ts
              (modTile tile
                 (set_children
                    (Array_sort
                       (fun a b => sortChildrenByDistanceToCamera (getTile ts1 a) (getTile ts1 b))
                       l)) ts1)).
  { rewrite Hch. etransitivity; [exact Hsame1|apply same_tiles_sort]. }
  set (sorted := Array_sort _ l) in *.
  assert (Hsorted : Permutation l sorted) by apply Array_sort_permutation.
  clearbody sorted.
  set (ts2 := modTile tile (set_children sorted) ts1) in *. clearbody ts2.
  clear Hsame1 Hfresh1 Hch ts1.
  fold (checkRefines ts2 tile) in Hcall.
  replace (negb (skipLevelOfDetail ts2)
           && Cesium3DTileRefine_eqb (refine (getTile ts tile)) REPLACE
           && negb (hasEmptyContent_ ts2 tile)) with (checkRefines ts tile) in Hcall
    by (unfold checkRefines;
        rewrite (same_skipLevelOfDetail Permutation ts ts2 Hsame2),
          (same_hasEmptyContent Permutation ts ts2 Hsame2); reflexivity).
  destruct Hcall as (st & Hloop & _ & _ & Hlink).
  exists sorted, st. split; [exact Hsorted|].
  assert (Hinv : (same_tiles Permutation ts (cl_tileset st)
                  /\ forall c, c ∈ l -> fresh_child fs ts (cl_tileset st) c)
                 /\ (forall c, c ∈ sorted -> inPrioritySearch fs ts tile c = true ->
                               cl_minDistancePriority st <= getPriority ts c)
                 /\ (forall k, cl_minIndex st = Some k ->
                               exists m, sorted !! k = Some m
                                         /\ getPriority ts m = cl_minDistancePriority st)).
  { apply (updateAndPushChildren_loop_invariant_at fuel fs (checkRefines ts tile) sorted
             (fun done st =>
                (same_tiles Permutation ts (cl_tileset st)
                 /\ forall c, c ∈ l -> fresh_child fs ts (cl_tileset st) c)
                /\ (forall c, c ∈ done -> inPrioritySearch fs ts tile c = true ->
                              cl_minDistancePriority st <= getPriority ts c)
                /\ (forall k, cl_minIndex st = Some k ->
                              exists m, sorted !! k = Some m
                                        /\ getPriority ts m = cl_minDistancePriority st)))
      with (3 := Hloop).
    - clear st Hloop Hlink. intros done c rest st st' Hall ([Hsame Hfresh] & Hmin & Hidx) Hstep.
      assert (Hc : c ∈ l).
      { rewrite Hsorted, Hall. apply elem_of_app. right. left. }
      split; [split|].
      + apply (updateAndPushChildren_child_preserves fs (same_tiles Permutation ts))
          with (5 := Hsame) (6 := Hstep);
          first [ exact (stable_updateTile _ _ (Stable_same_tiles fs ts))
                | exact (stable_loadTile _ _ (Stable_same_tiles fs ts))
                | exact (stable_touchTile _ _ (Stable_same_tiles fs ts))
                | exact (stable_emptyTraversal_stackMaximumLength _ _
                           (Stable_same_tiles fs ts)) ].
      + intros c' Hc'.
        apply (updateAndPushChildren_child_preserves fs (fun ts' => fresh_child fs ts ts' c'))
          with (5 := Hfresh c' Hc') (6 := Hstep).
        * intros ts3 t H. apply fresh_child_updateTile. left. exact H.
        * intros ts3 t. apply fresh_child_loadTile.
        * intros ts3 t. apply fresh_child_touchTile.
        * intros ts3 n. apply fresh_child_stackMaximumLength.
      + apply updateAndPushChildren_child_spec in Hstep. cbv zeta in Hstep.
        destruct Hstep as (mid & childRefines & _ & _ & _ & _ & Hidx' & Hmin' & _).
        destruct (Hfresh c Hc) as (_ & Hflags & Hpd & _).
        rewrite (isVisible_refreshed fs _ c Hflags),
          (same_loadSiblings Permutation ts _ Hsame), Hpd in Hidx', Hmin'.
        fold (inPrioritySearch fs ts tile c) in Hidx', Hmin'.
        rewrite Hidx', Hmin'. clear Hidx' Hmin'.
        destruct (Z.ltb_spec (getPriority ts c) (cl_minDistancePriority st)) as [Hlt|Hge].
        * destruct (inPrioritySearch fs ts tile c) eqn:Hsearch; cbn [andb].
          -- split.
             ++ intros c' Hc' Hs'. apply elem_of_app in Hc' as [Hc'|Hc'].
                ** specialize (Hmin c' Hc' Hs'). lia.
                ** apply list_elem_of_singleton in Hc' as ->. lia.
             ++ intros k Hk. injection Hk as <-. exists c. split; [|reflexivity].
                rewrite Hall. rewrite lookup_app_r by lia. rewrite Nat.sub_diag. reflexivity.
          -- split; [|exact Hidx].
             intros c' Hc' Hs'. apply elem_of_app in Hc' as [Hc'|Hc']; [auto|].
             apply list_elem_of_singleton in Hc' as ->. congruence.
        * rewrite andb_false_r. split; [|exact Hidx].
          intros c' Hc' Hs'. apply elem_of_app in Hc' as [Hc'|Hc']; [auto|].
          apply list_elem_of_singleton in Hc' as ->. lia.
    - cbn [cl_tileset cl_minIndex cl_minDistancePriority].
      split; [split; [exact Hsame2|exact Hfresh2]|].
      split; [intros c Hc; inversion Hc|discriminate]. }
  destruct Hinv as ([_ Hfresh] & Hmin & Hidx).
  split; [intros c Hc; apply Hfresh; rewrite Hsorted; exact Hc|].
  split; [exact Hmin|].
  destruct (cl_minIndex st) as [k|]; [|exact Hlink].
  destruct Hlink as (m & Hm & ->). destruct (Hidx k eq_refl) as (m' & Hm' & Hprio).
  exists m. rewrite Hm in Hm'. injection Hm' as <-. auto.
Qed.

(** On return from [updateAndPushChildren] the priority of the holder of
    a child is at most the own priority of that child, for every child
    that took part in the search for the minimum: the visible children,
    and all children under the refine check or [loadSiblings]. *)
Lemma priority_holder_below_when_returned (fuel : nat) (ts ts' : Tileset)
    (tile child : TileId) (stack stack' : list TileId) (fs : FrameState) (refines : bool) :
  updateAndPushChildren fuel ts tile stack fs = Some (refines, ts', stack') ->
  child ∈ children (getTile ts tile) ->
  inPrioritySearch fs ts tile child = true ->
  _priorityDistance (getTile ts' (_priorityDistanceHolder (getTile ts' child)))
  <= _priorityDistance (getTile ts' child).
Proof.
  intros Hcall Hchild Hsearch.
  apply updateAndPushChildren_minimum in Hcall
    as (sorted & st & Hsorted & Hfresh & Hmin & Hlink).
  rewrite Hsorted in Hchild.
  destruct (Hfresh child Hchild) as (_ & _ & Hpd & Hholder).
  destruct (cl_minIndex st) as [k|].
  - destruct Hlink as (m & Hm & Hprio & ->).
    destruct (updateAndPushChildren_link_fields (cl_tileset st) tile sorted m)
      as (holder & Hholders & Hpdholder & Hothers).
    cbv zeta in *. rewrite (Hholders child Hchild), Hpdholder.
    assert (Hm' : m ∈ sorted) by (apply list_elem_of_lookup; eauto).
    destruct (Hfresh m Hm') as (_ & _ & -> & _).
    destruct (decide (child = holder)) as [->|Hne].
    + rewrite Hpdholder. destruct (Hfresh m Hm') as (_ & _ & -> & _). lia.
    + rewrite (Hothers child Hne), Hpd, Hprio. apply Hmin; assumption.
  - subst ts'. rewrite Hholder. lia.
Qed.


(** C8, as stated, fails on [tileset_chain]: tile 1 is refreshed in the
    frame and keeps its own priority 25, while its holder, the root, ends
    with the priority 38 that the call on tile 1 copied up from tile 2. *)
Lemma priority_holder_above_own_priority :
  exists ts',
    selectTiles 3 tileset_chain frame_allVisible = Some (RetTrue, ts')
    /\ 1%nat ∈ visibilityUpdates ts'
    /\ _priorityDistanceHolder (getTile ts' 1%nat) = 0%nat
    /\ _priorityDistance (getTile ts' 0%nat) = 38
    /\ _priorityDistance (getTile ts' 1%nat) = 25
    /\ ~ (_priorityDistance (getTile ts' (_priorityDistanceHolder (getTile ts' 1%nat)))
          <= _priorityDistance (getTile ts' 1%nat)).
Proof.
  eexists. split; [vm_compute; reflexivity|].
  split; [vm_compute; right; left|].
  split; [vm_compute; reflexivity|]. split; [vm_compute; reflexivity|].
  split; [vm_compute; reflexivity|]. vm_compute. intros H. apply H. reflexivity.
Qed.

(** ** Instances on the example tilesets *)

Lemma priority_is_clamped_depth_witness :
  0 <= boundingSphere_radius (getTile tileset_chain 1%nat)
  /\ _priorityDistance (getTile (updateTile tileset_chain 1%nat frame_allVisible) 1%nat) = 25.
Proof.
  split; [vm_compute; discriminate|].
  destruct (priority_is_clamped_depth tileset_chain 1%nat frame_allVisible)
    as (_ & H & _); [vm_compute; discriminate|].
  rewrite H. vm_compute. reflexivity.
Defined.

Lemma executeEmptyTraversal_all_stops_loaded_witness :
  exists ts',
    executeEmptyTraversal 2 tileset_hiddenGrandchild 1%nat frame_hiddenGrandchild
    = Some (false, ts')
    /\ (false = true
        <-> forall tile, emptyTraversal_stops tileset_hiddenGrandchild 1%nat tile ->
                         contentAvailable (getTile tileset_hiddenGrandchild tile) = true).
Proof.
  eexists. split; [vm_compute; reflexivity|].
  eapply (proj1 executeEmptyTraversal_all_stops_loaded 2%nat tileset_hiddenGrandchild 1%nat
            frame_hiddenGrandchild).
  vm_compute. reflexivity.
Defined.


(** ** The output arrays under the basic operations *)

Lemma selectedTiles_updateMinMaxPriority (ts : Tileset) (tile : TileId) :
  _selectedTiles (updateMinMaxPriority ts tile) = _selectedTiles ts.
Proof. unfold updateMinMaxPriority. cbv zeta. fields. case_ifs; reflexivity. Qed.

Lemma loadTile_selectedTiles (ts : Tileset) (tile : TileId) (fs : FrameState) :
  _selectedTiles (loadTile ts tile fs) = _selectedTiles ts.
Proof.
  unfold loadTile. destruct (hasUnloadedContent ts tile || contentExpired (getTile ts tile));
    [|reflexivity].
  cbv zeta. change (_selectedTiles (with_requestedTiles ?l ?a)) with (_selectedTiles a).
  rewrite selectedTiles_updateMinMaxPriority. reflexivity.
Qed.

Lemma touchTile_selectedTiles (ts : Tileset) (tile : TileId) (fs : FrameState) :
  _selectedTiles (touchTile ts tile fs) = _selectedTiles ts.
Proof.
  unfold touchTile. destruct (_touchedFrame (getTile ts tile) =? frameNumber fs); reflexivity.
Qed.

Lemma touchTile_requestedTiles (ts : Tileset) (tile : TileId) (fs : FrameState) :
  _requestedTiles (touchTile ts tile fs) = _requestedTiles ts.
Proof.
  unfold touchTile. destruct (_touchedFrame (getTile ts tile) =? frameNumber fs); reflexivity.
Qed.

Lemma selectTile_selectedTiles (ts : Tileset) (tile : TileId) (fs : FrameState) :
  _selectedTiles (selectTile ts tile fs) =
  if Intersect_eqb (Tile_contentVisibility fs tile) OUTSIDE then _selectedTiles ts
  else _selectedTiles ts ++ [tile].
Proof.
  unfold selectTile. destruct (Intersect_eqb (Tile_contentVisibility fs tile) OUTSIDE);
    [reflexivity|].
  cbv zeta. destruct (featurePropertiesDirty (getTile ts tile)); [reflexivity|].
  destruct (_selectedFrame (getTile ts tile) <? frameNumber fs - 1); reflexivity.
Qed.


Lemma updateTileAncestorContentLinks_selectedTiles (ts : Tileset) (tile : TileId)
    (fs : FrameState) :
  _selectedTiles (updateTileAncestorContentLinks ts tile fs) = _selectedTiles ts.
Proof.
  unfold updateTileAncestorContentLinks. cbv zeta.
  destruct (parent (getTile _ tile)); reflexivity.
Qed.


(** ** What [updateAndPushChildren] keeps of the outputs *)

Lemma unselected_refl (ts : Tileset) : unselected ts ts.
Proof. split; [reflexivity|]. split; auto. Qed.

Lemma unselected_trans (ts1 ts2 ts3 : Tileset) :
  unselected ts1 ts2 -> unselected ts2 ts3 -> unselected ts1 ts3.
Proof.
  intros (Ha & Hb & Hc) (Hd & He & Hf). split; [congruence|].
  split; [intros j; rewrite He; apply Hb|auto].
Qed.

Lemma unselected_modTile (ts : Tileset) (i : TileId) (f : Tile -> Tile) :
  (forall t, _refines (f t) = _refines t) -> unselected ts (modTile i f ts).
Proof.
  intros Hf. split; [reflexivity|]. split; [|auto].
  intros j. apply modTile_field. exact Hf.
Qed.

Lemma unselected_updateTile (fs : FrameState) (ts : Tileset) (tile : TileId) :
  unselected ts (updateTile ts tile fs).
Proof.
  split; [reflexivity|]. split; [|auto]. intros j. rewrite getTile_updateTile.
  destruct (decide (j = tile)) as [->|]; reflexivity.
Qed.

Lemma unselected_loadTile (fs : FrameState) (ts : Tileset) (tile : TileId) :
  unselected ts (loadTile ts tile fs).
Proof.
  split; [apply loadTile_selectedTiles|]. split.
  - intros j. rewrite getTile_loadTile. destruct (decide (j = tile)) as [->|]; [|reflexivity].
    destruct (hasUnloadedContent ts tile || contentExpired (getTile ts tile)); reflexivity.
  - intros c Hc. rewrite loadTile_requestedTiles.
    destruct (hasUnloadedContent ts tile || contentExpired (getTile ts tile)); [|exact Hc].
    apply elem_of_app. left. exact Hc.
Qed.

Lemma unselected_touchTile (fs : FrameState) (ts : Tileset) (tile : TileId) :
  unselected ts (touchTile ts tile fs).
Proof.
  split; [apply touchTile_selectedTiles|]. split.
  - intros j. rewrite getTile_touchTile. destruct (decide (j = tile)) as [->|]; [|reflexivity].
    destruct (_touchedFrame (getTile ts tile) =? frameNumber fs); reflexivity.
  - intros c Hc. rewrite touchTile_requestedTiles. exact Hc.
Qed.


Lemma unselected_updateAndPushChildren (fuel : nat) (ts ts' : Tileset) (tile : TileId)
    (stack stack' : list TileId) (fs : FrameState) (refines : bool) :
  updateAndPushChildren fuel ts tile stack fs = Some (refines, ts', stack') ->
  unselected ts ts'.
Proof.
  apply (updateAndPushChildren_preserves fs (unselected ts)); [..|apply unselected_refl];
    intros; (eapply unselected_trans; [eassumption|]);
    first [ apply unselected_updateTile | apply unselected_loadTile
          | apply unselected_touchTile
          | apply unselected_modTile; reflexivity
          | split; [reflexivity|split; auto] ].
Qed.

(** The stack after the call: the visible children on top of the stack
    before it. *)
Lemma updateAndPushChildren_stack (fuel : nat) (ts ts' : Tileset) (tile : TileId)
    (stack stack' : list TileId) (fs : FrameState) (refines : bool) :
  updateAndPushChildren fuel ts tile stack fs = Some (refines, ts', stack') ->
  exists pushed,
    stack' = pushed ++ stack
    /\ forall c, c ∈ pushed
                 <-> c ∈ children (getTile ts tile)
                     /\ fs_visible fs c && fs_inRequestVolume fs c = true.
Proof.
  intros Hcall.
  pose proof Hcall as Hmin. apply updateAndPushChildren_minimum in Hmin
    as (sorted' & _ & Hsorted' & _).
  apply updateAndPushChildren_inversion in Hcall. cbv zeta in Hcall.
  pose proof (fun c (Hc : c ∈ children (getTile ts tile)) =>
                fresh_child_foldl_updateTile fs ts c (children (getTile ts tile)) ts
                  (or_intror (conj (same_tiles_refl Permutation ts) Hc)))
    as Hfresh1.
  pose proof (same_tiles_foldl_updateTile eq fs (children (getTile ts tile)) ts) as Heq1.
  destruct Heq1 as [_ Heq1]. destruct (Heq1 tile) as [_ Hch]. clear Heq1.
  set (l := children (getTile ts tile)) in *.
  set (ts1 := foldl _ ts l) in *. clearbody ts1.
  assert (Hfresh2 : forall c, c ∈ l ->
            fresh_child fs ts
              (modTile tile
                 (set_children
                    (Array_sort
                       (fun a b => sortChildrenByDistanceToCamera (getTile ts1 a) (getTile ts1 b))
                       l)) ts1) c).
  { intros c Hc. rewrite Hch. apply fresh_child_sort, Hfresh1, Hc. }
  set (sorted := Array_sort _ l) in *.
  assert (Hsorted : Permutation l sorted) by apply Array_sort_permutation.
  clearbody sorted.
  set (ts2 := modTile tile (set_children sorted) ts1) in *. clearbody ts2.
  destruct Hcall as (st & Hloop & -> & _ & _).
  clear Hfresh1 Hch ts1 Hsorted' sorted'.
  match type of Hloop with
  | updateAndPushChildren_loop _ _ ?cr _ _ _ = _ => set (check := cr) in *; clearbody check
  end.
  assert (Hinv : (forall c, c ∈ l -> fresh_child fs ts (cl_tileset st) c)
                 /\ exists pushed,
                      cl_stack st = pushed ++ stack
                      /\ forall c, c ∈ pushed
                                   <-> c ∈ sorted
                                       /\ fs_visible fs c && fs_inRequestVolume fs c = true).
  { apply (updateAndPushChildren_loop_invariant_at fuel fs check sorted
             (fun done st =>
                (forall c, c ∈ l -> fresh_child fs ts (cl_tileset st) c)
                /\ exists pushed,
                     cl_stack st = pushed ++ stack
                     /\ forall c, c ∈ pushed
                                  <-> c ∈ done
                                      /\ fs_visible fs c && fs_inRequestVolume fs c = true))
      with (3 := Hloop).
    - clear st Hloop. intros done c rest st st' Hall (Hfresh & pushed & Hstack & Hpushed) Hstep.
      assert (Hc : c ∈ l).
      { rewrite Hsorted, Hall. apply elem_of_app. right. left. }
      split.
      + intros c' Hc'.
        apply (updateAndPushChildren_child_preserves fs (fun ts' => fresh_child fs ts ts' c'))
          with (5 := Hfresh c' Hc') (6 := Hstep).
        * intros ts3 t H. apply fresh_child_updateTile. left. exact H.
        * intros ts3 t. apply fresh_child_loadTile.
        * intros ts3 t. apply fresh_child_touchTile.
        * intros ts3 n. apply fresh_child_stackMaximumLength.
      + apply updateAndPushChildren_child_spec in Hstep. cbv zeta in Hstep.
        destruct Hstep as (mid & childRefines & _ & _ & Hstack' & _).
        destruct (Hfresh c Hc) as (_ & Hflags & _).
        rewrite (isVisible_refreshed fs _ c Hflags), Hstack in Hstack'.
        destruct (fs_visible fs c && fs_inRequestVolume fs c) eqn:Hvis.
        * exists (c :: pushed). split; [exact Hstack'|]. intros c'. rewrite elem_of_cons.
          rewrite Hpushed, elem_of_app, list_elem_of_singleton. split.
          -- intros [->|[H1 H2]]; auto.
          -- intros [[H1| ->] H2]; auto.
        * exists pushed. split; [exact Hstack'|]. intros c'.
          rewrite Hpushed, elem_of_app, list_elem_of_singleton. split.
          -- intros [H1 H2]; auto.
          -- intros [[H1| ->] H2]; [auto|congruence].
    - cbn [cl_tileset cl_stack]. split; [exact Hfresh2|].
      exists []. split; [reflexivity|]. intros c. split; [intros H; inversion H|].
      intros [H _]. inversion H. }
  destruct Hinv as (_ & pushed & Hstack & Hpushed).
  exists pushed. split; [exact Hstack|]. intros c. rewrite Hpushed, <- Hsorted. reflexivity.
Qed.

(** ** The main traversal in base mode *)

Lemma inBaseTraversal_base (ts : Tileset) (tile : TileId) (base : Z) :
  skipLevelOfDetail ts = false -> inBaseTraversal ts tile base = Some true.
Proof. intros H. unfold inBaseTraversal. rewrite H. reflexivity. Qed.




(** Past its early exits [selectTiles] is the traversal of its mode from
    the state [selectTiles_start]. *)
Lemma selectTiles_traverses (fuel : nat) (ts : Tileset) (fs : FrameState) :
  debugFreezeFrame ts = false ->
  fs_visible fs (root ts) && fs_inRequestVolume fs (root ts) = true ->
  _maximumScreenSpaceError ts < fs_screenSpaceErrorWithParentError fs (root ts) ->
  selectTiles fuel ts fs =
  match executeTraversal fuel (selectTiles_start ts fs) (root ts)
          (selectTiles_baseScreenSpaceError ts) (_maximumScreenSpaceError ts) fs with
  | Some ts1 =>
      if skipLevelOfDetail ts then
        match traverseAndSelect fuel ts1 (root ts) fs with
        | Some ts' => Some (RetTrue, ts')
        | None => None
        end
      else Some (RetTrue, ts1)
  | None => None
  end.
Proof.
  intros Hfreeze Hvisible Hsse.
  unfold selectTiles. cbv zeta. fields. rewrite Hfreeze.
  rewrite updateTile_visible, Hvisible.
  cbn [negb]. unfold Tile_getScreenSpaceError.
  change (_maximumScreenSpaceError (updateTile ?a ?b ?c)) with (_maximumScreenSpaceError a).
  fields.
  destruct (Z.leb_spec (fs_screenSpaceErrorWithParentError fs (root ts))
              (_maximumScreenSpaceError ts)) as [|_]; [lia|].
  fold (selectTiles_start ts fs).
  pose proof (same_tiles_selectTiles_start ts fs) as Hsame.
  rewrite (same_skipLevelOfDetail eq _ _ Hsame).
  destruct (same_settings eq _ _ Hsame) as (_ & Hmax & Hbase & _ & Himm & _).
  rewrite Himm.
  unfold executeBaseTraversal, executeSkipTraversal, executeBaseAndSkipTraversal,
    selectTiles_baseScreenSpaceError. cbv zeta. rewrite Hmax, Hbase.
  destruct (skipLevelOfDetail ts); cbn [negb].
  - destruct (immediatelyLoadDesiredLevelOfDetail ts);
      destruct (executeTraversal _ _ _ _ _ _) as [ts1|]; reflexivity.
  - destruct (executeTraversal _ _ _ _ _ _) as [ts1|]; reflexivity.
Qed.

Lemma stack_nonempty_false {A : Type} (stack : list A) :
  stack_nonempty stack = false -> stack = [].
Proof. destruct stack; [reflexivity|discriminate]. Qed.

Lemma wf_parents_same_tiles (ts ts' : Tileset) :
  same_tiles Permutation ts ts' -> wf_parents ts -> wf_parents ts'.
Proof.
  intros Hsame Hwf p c Hc.
  rewrite (same_parent Permutation ts ts' Hsame). apply Hwf.
  rewrite (same_children Permutation ts ts' (fun l l' H => H) Hsame p). exact Hc.
Qed.

(** ** Termination

    With sizes that decrease from every tile to its children the loops
    end; the fuel has to cover the size of the tile a loop starts from. *)

Lemma sum_list_with_submseteq {A : Type} (f : A -> nat) (l k : list A) :
  l ⊆+ k -> (sum_list_with f l <= sum_list_with f k)%nat.
Proof.
  intros H. apply submseteq_Permutation in H as [rest H].
  rewrite H, sum_list_with_app. lia.
Qed.

Lemma sum_list_with_elem_of {A : Type} (f : A -> nat) (l : list A) (x : A) :
  x ∈ l -> (f x <= sum_list_with f l)%nat.
Proof.
  induction 1 as [x l|x y l _ IH]; cbn [sum_list_with]; lia.
Qed.

(** The tiles that [updateAndPushChildren] pushes are children of the
    tile, each pushed once for each time that the array has it. *)
Lemma updateAndPushChildren_pushed (fuel : nat) (ts ts' : Tileset) (tile : TileId)
    (stack stack' : list TileId) (fs : FrameState) (refines : bool) :
  updateAndPushChildren fuel ts tile stack fs = Some (refines, ts', stack') ->
  exists pushed, stack' = pushed ++ stack /\ pushed ⊆+ children (getTile ts tile).
Proof.
  intros Hcall. apply updateAndPushChildren_inversion in Hcall. cbv zeta in Hcall.
  set (l := children (getTile ts tile)) in *.
  set (ts1 := foldl _ ts l) in *. clearbody ts1.
  set (sorted := Array_sort _ l) in *.
  assert (Hsorted : Permutation l sorted) by apply Array_sort_permutation.
  clearbody sorted.
  set (ts2 := modTile tile (set_children sorted) ts1) in *. clearbody ts2.
  destruct Hcall as (st & Hloop & -> & _ & _).
  match type of Hloop with
  | updateAndPushChildren_loop _ _ ?cr _ _ _ = _ => set (check := cr) in *; clearbody check
  end.
  assert (Hinv : exists pushed, cl_stack st = pushed ++ stack /\ pushed ⊆+ sorted).
  { refine (updateAndPushChildren_loop_invariant fuel fs check
              (fun done st => exists pushed, cl_stack st = pushed ++ stack /\ pushed ⊆+ done)
              _ sorted [] _ st _ Hloop).
    - clear. intros done child st st' (pushed & Hstack & Hsub) Hstep.
      apply updateAndPushChildren_child_spec in Hstep. cbv zeta in Hstep.
      destruct Hstep as (mid & childRefines & _ & _ & Hstack' & _).
      rewrite Hstack in Hstack'.
      destruct (isVisible (cl_tileset st) child).
      + exists (child :: pushed). split; [exact Hstack'|].
        rewrite <- Permutation_cons_append. apply submseteq_skip, Hsub.
      + exists pushed. split; [exact Hstack'|].
        rewrite <- Permutation_cons_append. apply submseteq_cons, Hsub.
    - exists []. split; [reflexivity|]. constructor. }
  destruct Hinv as (pushed & Hstack & Hsub).
  exists pushed. split; [exact Hstack|]. rewrite Hsorted. exact Hsub.
Qed.

Lemma updateAndPushChildren_child_terminates (fuel : nat) (fs : FrameState)
    (checkRefines : bool) (size : TileId -> nat) (child : TileId) (i : nat)
    (st : ChildrenLoop) :
  tree_sizes (cl_tileset st) size -> (size child <= fuel)%nat ->
  exists st', updateAndPushChildren_child fuel fs checkRefines child i st = Some st'.
Proof.
  intros Hsizes Hfuel. unfold updateAndPushChildren_child. cbv zeta.
  assert (Heq : forall l l' : list TileId, l = l' -> Permutation l l')
    by (intros l l' ->; reflexivity).
  match goal with
  | |- context [hasEmptyContent_ (cl_tileset ?s) child] => set (st1 := s)
  end.
  assert (Hsizes1 : tree_sizes (cl_tileset st1) size).
  { subst st1. destruct (isVisible (cl_tileset st) child); [exact Hsizes|].
    destruct (checkRefines || loadSiblings (cl_tileset st)); [|exact Hsizes].
    cbn [cl_tileset].
    apply (tree_sizes_same_tiles eq (cl_tileset st)); [exact Heq| |exact Hsizes].
    etransitivity; [apply same_tiles_loadTile|apply same_tiles_touchTile]; apply _. }
  clearbody st1.
  destruct checkRefines; [|eauto].
  destruct (negb (_inRequestVolume (getTile (cl_tileset st1) child))); [eauto|].
  destruct (hasEmptyContent_ (cl_tileset st1) child); [|eauto].
  destruct (executeEmptyTraversal_terminates fs (cl_tileset st1) size fuel child Hsizes1 Hfuel)
    as (b & ts' & ->).
  eauto.
Qed.

Lemma updateAndPushChildren_loop_terminates (fuel : nat) (fs : FrameState)
    (checkRefines : bool) (size : TileId -> nat) (rest : list TileId) :
  forall done st,
    tree_sizes (cl_tileset st) size ->
    (forall c, c ∈ rest -> (size c <= fuel)%nat) ->
    (forall k, cl_minIndex st = Some k -> (k < length done)%nat) ->
    exists st',
      updateAndPushChildren_loop fuel fs checkRefines rest (length done) st = Some st'
      /\ forall k, cl_minIndex st' = Some k -> (k < length (done ++ rest))%nat.
Proof.
  assert (Heq : forall l l' : list TileId, l = l' -> Permutation l l')
    by (intros l l' ->; reflexivity).
  induction rest as [|child rest IH]; intros done st Hsizes Hfuel Hidx.
  - exists st. split; [reflexivity|]. rewrite app_nil_r. exact Hidx.
  - cbn [updateAndPushChildren_loop].
    destruct (updateAndPushChildren_child_terminates fuel fs checkRefines size child
                (length done) st Hsizes) as [st1 Hstep]; [apply Hfuel; left|].
    rewrite Hstep.
    pose proof Hstep as Hspec. apply updateAndPushChildren_child_spec in Hspec.
    cbv zeta in Hspec.
    destruct Hspec as (mid & childRefines & Hsame1 & Hsame2 & _ & _ & Hidx' & _).
    destruct (IH (done ++ [child]) st1) as (st' & Hloop & Hbound).
    + apply (tree_sizes_same_tiles eq (cl_tileset st)); [exact Heq| |exact Hsizes].
      etransitivity; eassumption.
    + intros c Hc. apply Hfuel. right. exact Hc.
    + intros k. rewrite Hidx', length_app. cbn [length].
      destruct (_ && _); [intros [= <-]; lia|]. intros Hk. apply Hidx in Hk. lia.
    + rewrite length_app in Hloop. cbn [length] in Hloop.
      rewrite Nat.add_1_r in Hloop. exists st'. split; [exact Hloop|].
      rewrite <- app_assoc in Hbound. exact Hbound.
Qed.

Lemma updateAndPushChildren_terminates (fuel : nat) (ts : Tileset) (tile : TileId)
    (stack : list TileId) (fs : FrameState) (size : TileId -> nat) :
  tree_sizes ts size ->
  (forall c, c ∈ children (getTile ts tile) -> (size c <= fuel)%nat) ->
  exists refines ts' stack',
    updateAndPushChildren fuel ts tile stack fs = Some (refines, ts', stack').
Proof.
  intros Hsizes Hfuel. unfold updateAndPushChildren. cbv zeta.
  assert (Hperm : forall l l' : list TileId, Permutation l l' -> Permutation l l') by auto.
  pose proof (same_tiles_foldl_updateTile Permutation fs (children (getTile ts tile)) ts)
    as Hsame1.
  set (l := children (getTile ts tile)) in *.
  set (ts1 := foldl _ ts l) in *.
  assert (Hsame2 : same_tiles Permutation ts
              (modTile tile
                 (set_children
                    (Array_sort
                       (fun a b => sortChildrenByDistanceToCamera (getTile ts1 a) (getTile ts1 b))
                       l)) ts1)).
  { etransitivity; [exact Hsame1|].
    split; [reflexivity|]. intros j. rewrite getTile_modTile.
    destruct (decide (j = tile)) as [->|]; [|split; reflexivity].
    split; [reflexivity|]. fields.
    destruct Hsame1 as [_ Hsame1]. destruct (Hsame1 tile) as [_ Hch]. fold l in Hch.
    rewrite <- Hch. apply Array_sort_permutation. }
  clearbody ts1.
  set (sorted := Array_sort _ l) in *.
  assert (Hsorted : Permutation l sorted) by apply Array_sort_permutation.
  clearbody sorted.
  set (ts2 := modTile tile (set_children sorted) ts1) in *. clearbody ts2.
  match goal with
  | |- context [updateAndPushChildren_loop _ _ ?cr _ _ _] => set (check := cr); clearbody check
  end.
  destruct (updateAndPushChildren_loop_terminates fuel fs check size sorted []
              (mkChildrenLoop ts2 stack true false None Number_MAX_VALUE))
    as (st & Hloop & Hbound).
  - cbn [cl_tileset]. apply (tree_sizes_same_tiles Permutation ts); auto.
  - intros c Hc. apply Hfuel. rewrite Hsorted. exact Hc.
  - discriminate.
  - cbn [length] in Hloop. rewrite Hloop.
    destruct (cl_minIndex st) as [k|]; [|eauto].
    specialize (Hbound k eq_refl). cbn [app] in Hbound.
    destruct (lookup_lt_is_Some_2 sorted k Hbound) as [m ->]. eauto.
Qed.

Lemma selectDescendants_children_pushed (fs : FrameState) (root : TileId)
    (children : list TileId) :
  forall ts stack,
    exists pushed,
      snd (selectDescendants_children fs root children ts stack) = pushed ++ stack
      /\ pushed ⊆+ children.
Proof.
  induction children as [|child rest IH]; intros ts stack.
  - exists []. split; [reflexivity|]. constructor.
  - cbn [selectDescendants_children]. cbv zeta.
    assert (Hskip : forall ts', exists pushed,
              snd (selectDescendants_children fs root rest ts' stack) = pushed ++ stack
              /\ pushed ⊆+ child :: rest).
    { intros ts'. destruct (IH ts' stack) as (pushed & Hstack & Hsub).
      exists pushed. split; [exact Hstack|]. apply submseteq_cons, Hsub. }
    destruct (isVisible ts child); [|apply Hskip].
    destruct (contentAvailable (getTile ts child)); [apply Hskip|].
    destruct (_ <? _); [|apply Hskip].
    destruct (IH ts (child :: stack)) as (pushed & Hstack & Hsub).
    exists (pushed ++ [child]). rewrite <- app_assoc. split; [exact Hstack|].
    rewrite <- Permutation_cons_append. apply submseteq_skip, Hsub.
Qed.

Lemma selectDescendants_terminates (fuel : nat) (ts : Tileset) (root : TileId)
    (fs : FrameState) (size : TileId -> nat) :
  tree_sizes ts size -> (size root <= fuel)%nat ->
  exists ts', selectDescendants fuel ts root fs = Some ts'.
Proof.
  intros Hsizes Hfuel. unfold selectDescendants.
  assert (Hperm : forall l l' : list TileId, Permutation l l' -> Permutation l l') by auto.
  destruct (while_terminates (fun st : Tileset * list TileId => stack_nonempty (snd st))
              (selectDescendants_body fs root)
              (fun st => same_tiles Permutation ts (fst st))
              (fun st => sum_list_with size (snd st))) with (fuel := fuel) (s := (ts, [root]))
    as [[ts' stack'] ->]; [| |cbn [snd sum_list_with]; lia|eauto].
  - intros [ts1 stack1] Hsame Hcond. cbn [fst snd] in *.
    destruct stack1 as [|tile stack1]; [discriminate|].
    unfold selectDescendants_body. cbv zeta.
    set (ts2 := with_descendantTraversal_stackMaximumLength _ ts1).
    assert (Hsame2 : same_tiles Permutation ts ts2).
    { apply (stable_descendantTraversal_stackMaximumLength _ _ (Stable_same_tiles fs ts)).
      exact Hsame. }
    clearbody ts2.
    eexists. split; [reflexivity|]. split.
    + apply (selectDescendants_children_preserves fs _ (Stable_same_tiles fs ts)).
      exact Hsame2.
    + destruct (selectDescendants_children_pushed fs root (children (getTile ts2 tile))
                  ts2 stack1) as (pushed & -> & Hsub).
      apply (sum_list_with_submseteq size) in Hsub.
      pose proof (tree_sizes_same_tiles Permutation ts ts2 size Hperm Hsame2 Hsizes tile).
      rewrite sum_list_with_app. cbn [sum_list_with]. lia.
  - reflexivity.
Qed.

Lemma selectDesiredTile_terminates (fuel : nat) (ts : Tileset) (tile : TileId)
    (fs : FrameState) (size : TileId -> nat) :
  tree_sizes ts size -> (size tile <= fuel)%nat ->
  exists ts', selectDesiredTile fuel ts tile fs = Some ts'.
Proof.
  intros Hsizes Hfuel. unfold selectDesiredTile. cbv zeta.
  destruct (negb (skipLevelOfDetail ts)).
  - destruct (contentAvailable (getTile ts tile)); eauto.
  - destruct (if contentAvailable (getTile ts tile) then _ else _); [eauto|].
    apply (selectDescendants_terminates fuel ts tile fs size Hsizes Hfuel).
Qed.

Lemma executeTraversal_select_terminates (fuel : nat) (ts : Tileset) (tile : TileId)
    (fs : FrameState) (baseTraversal stoppedRefining : bool) (size : TileId -> nat) :
  tree_sizes ts size -> (size tile <= fuel)%nat ->
  exists ts', executeTraversal_select fuel ts tile fs baseTraversal stoppedRefining = Some ts'.
Proof.
  intros Hsizes Hfuel. unfold executeTraversal_select. cbv zeta.
  assert (Hperm : forall l l' : list TileId, Permutation l l' -> Permutation l l') by auto.
  assert (Hload : forall ts1, same_tiles Permutation ts ts1 ->
            exists ts', selectDesiredTile fuel (loadTile ts1 tile fs) tile fs = Some ts').
  { intros ts1 Hsame. apply (selectDesiredTile_terminates _ _ _ _ size); [|exact Hfuel].
    apply (tree_sizes_same_tiles Permutation ts); [exact Hperm| |exact Hsizes].
    apply (stable_loadTile _ _ (Stable_same_tiles fs ts)). exact Hsame. }
  assert (Hselect : exists ts',
            match selectDesiredTile fuel ts tile fs with
            | Some ts1 => Some (loadTile ts1 tile fs)
            | None => None
            end = Some ts').
  { destruct (selectDesiredTile_terminates fuel ts tile fs size Hsizes Hfuel) as [ts1 ->].
    eauto. }
  destruct (hasEmptyContent_ ts tile).
  - destruct stoppedRefining; [|eauto]. apply Hload.
    apply (stable_addEmptyTile _ _ (Stable_same_tiles fs ts)). reflexivity.
  - destruct (Cesium3DTileRefine_eqb (refine (getTile ts tile)) ADD); [exact Hselect|].
    destruct (Cesium3DTileRefine_eqb (refine (getTile ts tile)) REPLACE); [|eauto].
    destruct baseTraversal.
    + destruct stoppedRefining; [|eauto]. apply Hload. reflexivity.
    + destruct stoppedRefining; [exact Hselect|].
      destruct (reachedSkippingThreshold ts tile); eauto.
Qed.

(** After the update of the content links a tile with [_ancestorWithContent]
    has a parent, so [inBaseTraversal] reads no field of [undefined]. *)
Lemma inBaseTraversal_defined (ts : Tileset) (tile : TileId) (fs : FrameState) (base : Z) :
  exists b, inBaseTraversal (updateTileAncestorContentLinks ts tile fs) tile base = Some b.
Proof.
  unfold inBaseTraversal.
  destruct (negb _); [eauto|]. destruct (immediatelyLoadDesiredLevelOfDetail _); [eauto|].
  rewrite getTile_updateTileAncestorContentLinks.
  destruct (decide (tile = tile)) as [_|]; [|congruence].
  destruct (parent (getTile ts tile)) as [p|] eqn:Hp; fields; [|eauto].
  rewrite Hp.
  destruct (if _ || _ then _ else _); [|eauto].
  destruct (_ =? 0); eauto.
Qed.

Lemma executeTraversal_body_terminates (fuel : nat) (fs : FrameState) (base maximum : Z)
    (ts : Tileset) (tile : TileId) (stack : list TileId) (size : TileId -> nat) :
  tree_sizes ts size -> (size tile <= fuel)%nat ->
  exists ts' stack',
    executeTraversal_body fuel fs base maximum (ts, tile :: stack) = Some (ts', stack')
    /\ same_tiles Permutation ts ts'
    /\ (sum_list_with size stack' < sum_list_with size (tile :: stack))%nat.
Proof.
  intros Hsizes Hfuel.
  assert (Hperm : forall l l' : list TileId, Permutation l l' -> Permutation l l') by auto.
  assert (Heq : forall l l' : list TileId, l = l' -> Permutation l l')
    by (intros l l' ->; reflexivity).
  assert (Hsome : exists r, executeTraversal_body fuel fs base maximum (ts, tile :: stack)
                            = Some r).
  { unfold executeTraversal_body. cbv zeta.
    pose proof (same_tiles_executeTraversal_body_head fs ts tile
                  (Nat.max (traversal_stackMaximumLength ts) (length (tile :: stack))))
      as Hhead.
    destruct (inBaseTraversal_defined
                (with_traversal_stackMaximumLength
                   (Nat.max (traversal_stackMaximumLength ts) (length (tile :: stack))) ts)
                tile fs base) as [baseTraversal ->].
    set (ts1 := updateTileAncestorContentLinks _ tile fs) in *. clearbody ts1.
    pose proof (tree_sizes_same_tiles eq ts ts1 size Heq Hhead Hsizes) as Hsizes1.
    destruct (canTraverse ts1 tile).
    - destruct (updateAndPushChildren_terminates fuel ts1 tile stack fs size Hsizes1)
        as (cr & ts2 & stack2 & Hpush).
      + intros c Hc. pose proof (Hsizes1 tile).
        pose proof (sum_list_with_elem_of size _ c Hc). lia.
      + rewrite Hpush.
        destruct (executeTraversal_select_terminates fuel ts2 tile fs baseTraversal
                    (negb (cr && parentRefines ts1 tile) && parentRefines ts1 tile) size)
          as [ts3 ->]; [|exact Hfuel|eauto].
        apply (tree_sizes_same_tiles Permutation ts1); auto.
        apply (same_tiles_updateAndPushChildren _ _ _ _ _ _ _ _ Hpush).
    - destruct (executeTraversal_select_terminates fuel ts1 tile fs baseTraversal
                  (negb false && parentRefines ts1 tile) size Hsizes1 Hfuel)
        as [ts3 ->]. eauto. }
  destruct Hsome as [[ts' stack'] Hbody]. exists ts', stack'.
  split; [exact Hbody|].
  split.
  - apply (executeTraversal_body_preserves fs _ (Stable_same_tiles fs ts) _ _ _ _ _ _ _
             (same_tiles_refl Permutation ts) Hbody).
  - apply executeTraversal_body_inversion in Hbody. cbv zeta in Hbody.
    pose proof (same_tiles_executeTraversal_body_head fs ts tile
                  (Nat.max (traversal_stackMaximumLength ts) (length (tile :: stack))))
      as Hhead.
    set (ts1 := updateTileAncestorContentLinks _ tile fs) in *. clearbody ts1.
    destruct Hbody as (baseTraversal & cr & ts2 & ts3 & _ & Hpush & _).
    cbn [sum_list_with].
    destruct (canTraverse ts1 tile).
    + apply updateAndPushChildren_pushed in Hpush as (pushed & -> & Hsub).
      apply (sum_list_with_submseteq size) in Hsub.
      pose proof (tree_sizes_same_tiles eq ts ts1 size Heq Hhead Hsizes tile).
      rewrite sum_list_with_app. lia.
    + destruct Hpush as (_ & _ & ->). pose proof (Hsizes tile). lia.
Qed.

Lemma executeTraversal_terminates (fuel : nat) (ts : Tileset) (root : TileId)
    (base maximum : Z) (fs : FrameState) (size : TileId -> nat) :
  tree_sizes ts size -> (size root <= fuel)%nat ->
  exists ts', executeTraversal fuel ts root base maximum fs = Some ts'.
Proof.
  intros Hsizes Hfuel. unfold executeTraversal.
  assert (Hperm : forall l l' : list TileId, Permutation l l' -> Permutation l l') by auto.
  destruct (while_terminates (fun st : Tileset * list TileId => stack_nonempty (snd st))
              (executeTraversal_body fuel fs base maximum)
              (fun st => same_tiles Permutation ts (fst st)
                         /\ (sum_list_with size (snd st) <= fuel)%nat)
              (fun st => sum_list_with size (snd st))) with (fuel := fuel) (s := (ts, [root]))
    as [[ts' stack'] ->]; [| |cbn [snd sum_list_with]; lia|eauto].
  - intros [ts1 stack1] [Hsame Hbound] Hcond. cbn [fst snd] in *.
    destruct stack1 as [|tile stack1]; [discriminate|].
    destruct (executeTraversal_body_terminates fuel fs base maximum ts1 tile stack1 size)
      as (ts2 & stack2 & Hbody & Hsame2 & Hless).
    + apply (tree_sizes_same_tiles Permutation ts); auto.
    + cbn [sum_list_with] in Hbound. lia.
    + exists (ts2, stack2). split; [exact Hbody|]. cbn [fst snd].
      split; [|exact Hless]. split; [etransitivity; eassumption|lia].
  - cbn [fst snd sum_list_with]. split; [reflexivity|lia].
Qed.

Lemma selectTiles_start_selectedTiles (ts : Tileset) (fs : FrameState) :
  _selectedTiles (selectTiles_start ts fs) = [].
Proof. reflexivity. Qed.

(** ** The example tilesets as trees *)

(** A property of every tile of a tileset holds when it holds of the tiles
    in the store and of the tile that stands for an absent one. *)
Lemma getTile_forall (P : TileId -> Tile -> Prop) (ts : Tileset) :
  (forall t, P t inhabitant) -> map_Forall P (tiles ts) -> forall t, P t (getTile ts t).
Proof.
  intros Hdefault Hall t. unfold getTile. rewrite lookup_total_alt.
  destruct (tiles ts !! t) as [tile|] eqn:Hlookup; [apply (Hall t), Hlookup|apply Hdefault].
Qed.

Ltac tile_by_tile tac :=
  cbn [tiles list_to_map foldr fst snd];
  repeat (apply map_Forall_insert_2; [tac|]); apply map_Forall_empty.

Ltac children_agree :=
  cbn [children newTile]; intros c Hc;
  repeat (apply elem_of_cons in Hc as [->|Hc]; [vm_compute; reflexivity|]);
  inversion Hc.

Lemma size_example_positive (t : TileId) :
  (sum_list_with size_example (children (inhabitant : Tile)) < size_example t)%nat.
Proof. destruct t as [|[|]]; cbn; lia. Qed.

Lemma tree_sizes_unloadedChild : tree_sizes tileset_unloadedChild size_example.
Proof.
  unfold tree_sizes.
  apply (getTile_forall
           (fun t tile => (sum_list_with size_example (children tile) < size_example t)%nat)).
  - apply size_example_positive.
  - unfold tileset_unloadedChild, newTileset. tile_by_tile ltac:(vm_compute; lia).
Qed.

Lemma wf_parents_unloadedChild : wf_parents tileset_unloadedChild.
Proof.
  intros p.
  apply (getTile_forall
           (fun p tile => forall c, c ∈ children tile ->
                                    parent (getTile tileset_unloadedChild c) = Some p)).
  - intros t c Hc. inversion Hc.
  - unfold tileset_unloadedChild at 1, newTileset. tile_by_tile children_agree.
Qed.


(** ** The selection pass *)

Lemma same_selection_refl (ts : Tileset) : same_selection ts ts.
Proof. split; [apply same_tiles_refl; apply _|reflexivity]. Qed.

Lemma same_selection_trans (ts1 ts2 ts3 : Tileset) :
  same_selection ts1 ts2 -> same_selection ts2 ts3 -> same_selection ts1 ts3.
Proof.
  intros [Ha Hb] [Hc Hd]. split; [eapply same_tiles_trans; [apply _|eassumption..]|].
  intros j. rewrite Hd. apply Hb.
Qed.

Lemma same_selection_with (w : Tileset -> Tileset) :
  (forall ts, settings (w ts) = settings ts) ->
  (forall ts, tiles (w ts) = tiles ts) ->
  forall ts, same_selection ts (w ts).
Proof.
  intros Hs Ht ts. split; [apply same_tiles_with; [apply _|assumption..]|].
  intros j. unfold getTile. rewrite Ht. reflexivity.
Qed.

Lemma same_selection_modTile (ts : Tileset) (i : TileId) (f : Tile -> Tile) :
  (forall t, tile_input (f t) = tile_input t) ->
  (forall t, children (f t) = children t) ->
  (forall t, selection_flags (f t) = selection_flags t) ->
  same_selection ts (modTile i f ts).
Proof.
  intros Hin Hch Hfl. split; [apply same_tiles_modTile; [apply _|assumption..]|].
  intros j. apply (modTile_field selection_flags). exact Hfl.
Qed.

Lemma same_selection_selectTile (fs : FrameState) (ts : Tileset) (tile : TileId) :
  same_selection ts (selectTile ts tile fs).
Proof.
  split; [apply same_tiles_selectTile; apply _|].
  intros j. rewrite getTile_selectTile.
  destruct (decide (j = tile)) as [->|]; [|reflexivity].
  repeat match goal with |- context [if ?c then _ else _] => destruct c end; reflexivity.
Qed.

Section SameSelection.
Context (ts ts' : Tileset).
Hypothesis Hsame : same_selection ts ts'.

Lemma same_selection_flags (j : TileId) :
  _shouldSelect (getTile ts' j) = _shouldSelect (getTile ts j)
  /\ _visible (getTile ts' j) = _visible (getTile ts j)
  /\ _inRequestVolume (getTile ts' j) = _inRequestVolume (getTile ts j).
Proof.
  destruct Hsame as [_ H]. specialize (H j). unfold selection_flags in H.
  injection H as -> -> ->. auto.
Qed.

Lemma same_selection_isVisible (j : TileId) : isVisible ts' j = isVisible ts j.
Proof.
  unfold isVisible. destruct (same_selection_flags j) as (_ & -> & ->). reflexivity.
Qed.

Lemma same_selection_children (j : TileId) :
  children (getTile ts' j) = children (getTile ts j).
Proof. destruct Hsame as [[_ H] _]. destruct (H j) as [_ ->]. reflexivity. Qed.

Lemma same_selection_canTraverse (j : TileId) : canTraverse ts' j = canTraverse ts j.
Proof.
  destruct Hsame as [H _]. apply (same_canTraverse eq); [|exact H].
  intros l l' ->. reflexivity.
Qed.

Lemma same_selection_selectionAncestor (j : TileId) :
  selectionAncestor ts' j = selectionAncestor ts j.
Proof.
  unfold selectionAncestor. destruct (same_selection_flags j) as (-> & _).
  destruct Hsame as [H _]. rewrite (same_refine eq ts ts' H). reflexivity.
Qed.
End SameSelection.

(** The children that [traverseAndSelect] pushes: the visible ones, the
    last of the array on top. *)
Lemma pushVisibleChildren_spec (ts : Tileset) (children : list TileId) :
  forall stack,
    exists pushed,
      pushVisibleChildren ts children stack = pushed ++ stack
      /\ pushed ⊆+ children
      /\ forall c, c ∈ pushed <-> c ∈ children /\ isVisible ts c = true.
Proof.
  induction children as [|child rest IH]; intros stack.
  - exists []. split; [reflexivity|]. split; [constructor|].
    intros c. split; [intros H; inversion H|intros [H _]; inversion H].
  - cbn [pushVisibleChildren]. destruct (isVisible ts child) eqn:Hvisible.
    + destruct (IH (child :: stack)) as (pushed & -> & Hsub & Hin).
      exists (pushed ++ [child]). rewrite <- app_assoc. split; [reflexivity|].
      split; [rewrite <- Permutation_cons_append; apply submseteq_skip, Hsub|].
      intros c. rewrite elem_of_app, list_elem_of_singleton, elem_of_cons, Hin.
      split; [intros [[H1 H2]| ->]; auto|intros [[->|H1] H2]; auto].
    + destruct (IH stack) as (pushed & -> & Hsub & Hin).
      exists pushed. split; [reflexivity|]. split; [apply submseteq_cons, Hsub|].
      intros c. rewrite elem_of_cons, Hin.
      split; [intros [H1 H2]; auto|intros [[->|H1] H2]; [congruence|auto]].
Qed.

Lemma pushVisibleChildren_ext (ts ts' : Tileset) (children : list TileId) :
  (forall c, isVisible ts' c = isVisible ts c) ->
  forall stack, pushVisibleChildren ts' children stack = pushVisibleChildren ts children stack.
Proof.
  intros H. induction children as [|child rest IH]; intros stack; [reflexivity|].
  cbn [pushVisibleChildren]. rewrite H. apply IH.
Qed.

(** The visit of the tile on top of the stack: what it leaves of the
    tileset, of the two stacks, and of the fields [_stackLength] and
    [_selectionDepth]. *)
Lemma traverseAndSelect_visit_spec (fs : FrameState) (st : SelectionLoop) (x : TileId)
    (rest : list TileId) :
  sl_stack st = x :: rest ->
  let ts := sl_tileset st in
  let st' := traverseAndSelect_visit fs st in
  let marked := selectionAncestor ts x in
  same_selection ts (sl_tileset st')
  /\ sl_stack st'
     = (if canTraverse ts x then pushVisibleChildren ts (children (getTile ts x)) rest
        else rest)
  /\ sl_ancestorStack st'
     = (if marked && canTraverse ts x then x :: sl_ancestorStack st else sl_ancestorStack st)
  /\ (forall j,
        _stackLength (getTile (sl_tileset st') j)
        = if decide (j = x) then
            if marked && canTraverse ts x then length rest else _stackLength (getTile ts x)
          else _stackLength (getTile ts j))
  /\ (forall j,
        _selectionDepth (getTile (sl_tileset st') j)
        = if decide (j = x) then
            if marked then length (sl_ancestorStack st) else _selectionDepth (getTile ts x)
          else _selectionDepth (getTile ts j)).
Proof.
  intros Hstack. cbv zeta. unfold traverseAndSelect_visit, selectionAncestor. cbv zeta.
  rewrite Hstack.
  set (ts := sl_tileset st). set (anc := sl_ancestorStack st).
  assert (Hselect : forall ts1,
            same_selection ts ts1 ->
            same_selection ts (selectTile ts1 x fs)
            /\ (forall j, _stackLength (getTile (selectTile ts1 x fs) j)
                          = _stackLength (getTile ts1 j))
            /\ (forall j, _selectionDepth (getTile (selectTile ts1 x fs) j)
                          = _selectionDepth (getTile ts1 j))).
  { intros ts1 H1.
    split; [eapply same_selection_trans; [exact H1|apply same_selection_selectTile]|].
    split; intros j; rewrite getTile_selectTile;
      (destruct (decide (j = x)) as [->|]; [|reflexivity]);
      repeat match goal with |- context [if ?c then _ else _] => destruct c end;
      reflexivity. }
  assert (Hpush : forall ts1, same_selection ts ts1 ->
            pushVisibleChildren ts1 (children (getTile ts x)) rest
            = pushVisibleChildren ts (children (getTile ts x)) rest).
  { intros ts1 H1. apply pushVisibleChildren_ext. apply same_selection_isVisible, H1. }
  destruct (_shouldSelect (getTile ts x)); cbn [andb].
  - destruct (Cesium3DTileRefine_eqb (refine (getTile ts x)) ADD); cbn [negb andb].
    + cbn [sl_tileset sl_stack sl_ancestorStack].
      destruct (Hselect ts (same_selection_refl ts)) as (Hsame & Hlen & Hdepth).
      split; [exact Hsame|]. rewrite (Hpush _ Hsame).
      split; [reflexivity|]. split; [reflexivity|].
      split; intros j; [rewrite Hlen|rewrite Hdepth];
        destruct (decide (j = x)) as [->|]; reflexivity.
    + set (ts1 := modTile x (set_selectionDepth (length anc)) ts).
      assert (H1 : same_selection ts ts1)
        by (apply same_selection_modTile; reflexivity).
      set (ts2 := if (0 <? _selectionDepth (getTile ts1 x))%nat
                  then with_hasMixedContent true ts1 else ts1).
      assert (H2 : same_selection ts ts2 /\ forall j, getTile ts2 j = getTile ts1 j).
      { subst ts2. destruct (0 <? _)%nat; [|auto].
        split; [|reflexivity].
        eapply same_selection_trans; [exact H1|].
        apply (same_selection_with (with_hasMixedContent true)); reflexivity. }
      destruct H2 as [H2 Hget2]. clearbody ts2.
      destruct (canTraverse ts x); cbn [negb].
      * cbn [sl_tileset sl_stack sl_ancestorStack].
        assert (H3 : same_selection ts (modTile x (set_stackLength (length rest)) ts2)).
        { eapply same_selection_trans; [exact H2|].
          apply same_selection_modTile; reflexivity. }
        split; [exact H3|]. rewrite (Hpush _ H3).
        split; [reflexivity|]. split; [reflexivity|].
        split; intros j; rewrite getTile_modTile;
          (destruct (decide (j = x)) as [->|]; [fields; try reflexivity|]);
          rewrite Hget2; subst ts1;
          [rewrite getTile_modTile_ne by assumption; reflexivity
          |rewrite getTile_modTile_eq; reflexivity
          |rewrite getTile_modTile_ne by assumption; reflexivity].
      * cbn [sl_tileset sl_stack sl_ancestorStack].
        destruct (Hselect ts2 H2) as (Hsame & Hlen & Hdepth).
        split; [exact Hsame|]. split; [reflexivity|]. split; [reflexivity|].
        split; intros j; [rewrite Hlen|rewrite Hdepth]; rewrite Hget2; subst ts1;
          rewrite getTile_modTile; destruct (decide (j = x)) as [->|]; reflexivity.
  - cbn [sl_tileset sl_stack sl_ancestorStack].
    split; [apply same_selection_refl|]. split; [reflexivity|]. split; [reflexivity|].
    split; intros j; destruct (decide (j = x)) as [->|]; reflexivity.
Qed.

(** One iteration of the loop of [traverseAndSelect]: either the tile on
    top of the ancestor stack waits for the present length of the stack
    and is selected, or the tile on top of the stack is visited. *)
Lemma traverseAndSelect_body_spec (fs : FrameState) (st st' : SelectionLoop) :
  traverseAndSelect_body fs st = Some st' ->
  let ts := sl_tileset st in
  (exists a rest,
     sl_ancestorStack st = a :: rest
     /\ _stackLength (getTile ts a) = length (sl_stack st)
     /\ same_selection ts (sl_tileset st')
     /\ sl_stack st' = sl_stack st
     /\ sl_ancestorStack st' = rest
     /\ (forall j, _stackLength (getTile (sl_tileset st') j) = _stackLength (getTile ts j))
     /\ (forall j, _selectionDepth (getTile (sl_tileset st') j)
                   = _selectionDepth (getTile ts j)))
  \/ (match sl_ancestorStack st with
      | a :: _ => _stackLength (getTile ts a) <> length (sl_stack st)
      | [] => True
      end
      /\ exists tsm,
           same_selection ts tsm
           /\ (forall j, getTile tsm j = getTile ts j)
           /\ st' = traverseAndSelect_visit fs
                      (mkSelectionLoop tsm (sl_stack st) (sl_ancestorStack st)
                         (sl_lastAncestor st))).
Proof.
  unfold traverseAndSelect_body. cbv zeta.
  set (tsm := with_selectionTraversal_ancestorStackMaximumLength _ _).
  assert (Hm : same_selection (sl_tileset st) tsm
               /\ forall j, getTile tsm j = getTile (sl_tileset st) j).
  { split; [|reflexivity]. subst tsm.
    eapply same_selection_trans;
      [eapply (same_selection_with (with_selectionTraversal_stackMaximumLength _))
      |eapply (same_selection_with (with_selectionTraversal_ancestorStackMaximumLength _))];
      reflexivity. }
  destruct Hm as [Hm Hget]. clearbody tsm.
  cbn [sl_ancestorStack sl_stack sl_lastAncestor].
  destruct (sl_ancestorStack st) as [|a rest] eqn:Hanc.
  - intros H. injection H as <-. right. split; [exact I|]. exists tsm. auto.
  - rewrite Hget. destruct (Nat.eqb_spec (_stackLength (getTile (sl_tileset st) a))
                              (length (sl_stack st))) as [Hlen|Hlen].
    + intros H. injection H as <-. left. exists a, rest.
      cbn [sl_tileset sl_stack sl_ancestorStack].
      split; [reflexivity|]. split; [exact Hlen|].
      set (ts1 := if negb _ then _ else _).
      assert (H1 : same_selection (sl_tileset st) ts1
                   /\ (forall j, _stackLength (getTile ts1 j)
                                 = _stackLength (getTile (sl_tileset st) j))
                   /\ (forall j, _selectionDepth (getTile ts1 j)
                                 = _selectionDepth (getTile (sl_tileset st) j))).
      { subst ts1. destruct (negb _).
        - split; [eapply same_selection_trans; [exact Hm|];
                  apply same_selection_modTile; reflexivity|].
          split; intros j; rewrite <- Hget.
          + apply (modTile_field _stackLength). reflexivity.
          + apply (modTile_field _selectionDepth). reflexivity.
        - split; [exact Hm|]. split; intros j; rewrite Hget; reflexivity. }
      destruct H1 as (H1 & Hlen1 & Hdepth1). clearbody ts1.
      split; [eapply same_selection_trans; [exact H1|apply same_selection_selectTile]|].
      split; [reflexivity|]. split; [reflexivity|].
      split; intros j; [rewrite <- Hlen1|rewrite <- Hdepth1]; rewrite getTile_selectTile;
        (destruct (decide (j = a)) as [->|]; [|reflexivity]);
        repeat match goal with |- context [if ?c then _ else _] => destruct c end;
        reflexivity.
    + intros H. injection H as <-. right. split; [exact Hlen|]. exists tsm. auto.
Qed.

(** *** Lineages *)

Lemma lineage_sizes (ts : Tileset) (size : TileId -> nat) (root x : TileId)
    (l : list TileId) :
  tree_sizes ts size -> lineage ts root x l -> forall a, a ∈ l -> (size x < size a)%nat.
Proof.
  intros Hsizes. induction 1 as [|p c l Hl IH Hc]; intros a Ha; [inversion Ha|].
  pose proof (Hsizes p). pose proof (sum_list_with_elem_of size _ c Hc).
  apply elem_of_cons in Ha as [->|Ha]; [lia|]. specialize (IH a Ha). lia.
Qed.

Lemma lineage_ancestry (ts : Tileset) (root x : TileId) (l : list TileId) :
  wf_parents ts -> parent (getTile ts root) = None ->
  lineage ts root x l -> ancestry ts x l.
Proof.
  intros Hwf Hroot. induction 1 as [|p c l Hl IH Hc].
  - apply ancestry_root, Hroot.
  - apply ancestry_parent; [apply Hwf, Hc|exact IH].
Qed.

Lemma ancestry_functional (ts : Tileset) (x : TileId) (l l' : list TileId) :
  ancestry ts x l -> ancestry ts x l' -> l = l'.
Proof.
  intros H. revert l'. induction H as [x Hx|x p l Hp Hl IH]; intros l' H'.
  - inversion H'; subst; [reflexivity|congruence].
  - inversion H' as [|x' p' l'' Hp' Hl']; subst; [congruence|].
    rewrite Hp in Hp'. injection Hp' as <-. f_equal. apply IH, Hl'.
Qed.

Lemma selection_reaches_first (ts : Tileset) (x t : TileId) :
  selection_reaches ts x t ->
  t = x
  \/ exists c,
       canTraverse ts x = true /\ c ∈ children (getTile ts x) /\ isVisible ts c = true
       /\ selection_reaches ts c t.
Proof.
  induction 1 as [|p c Hp IH Htraverse Hc Hvisible]; [left; reflexivity|].
  right. destruct IH as [->|(c' & H1 & H2 & H3 & H4)].
  - exists c. split; [exact Htraverse|]. split; [exact Hc|]. split; [exact Hvisible|].
    apply reaches_root.
  - exists c'. split; [exact H1|]. split; [exact H2|]. split; [exact H3|].
    eapply reaches_child; eassumption.
Qed.

(** *** The waiting ancestors *)

Lemma waiting_all (ts : Tileset) (n : nat) (ancestorStack : list TileId) :
  Forall (fun a => (_stackLength (getTile ts a) <= n)%nat) ancestorStack ->
  waiting ts n ancestorStack = ancestorStack.
Proof.
  unfold waiting. induction 1 as [|a l Ha Hl IH]; [reflexivity|].
  cbn [List.filter]. destruct (Nat.leb_spec (_stackLength (getTile ts a)) n); [|lia].
  f_equal. exact IH.
Qed.

Lemma waiting_ext (ts ts' : Tileset) (n : nat) (ancestorStack : list TileId) :
  (forall a, a ∈ ancestorStack ->
             _stackLength (getTile ts' a) = _stackLength (getTile ts a)) ->
  waiting ts' n ancestorStack = waiting ts n ancestorStack.
Proof.
  intros H. unfold waiting. apply List.filter_ext_in. intros a Ha.
  rewrite H by (apply list_elem_of_In, Ha). reflexivity.
Qed.

Lemma elem_of_filter_bool {A : Type} (f : A -> bool) (l : list A) (x : A) :
  x ∈ List.filter f l -> x ∈ l.
Proof. rewrite !list_elem_of_In, List.filter_In. tauto. Qed.

Lemma app_eq_cons_split {A : Type} (l1 l2 post : list A) (y : A) :
  forall pre,
    l1 ++ l2 = pre ++ y :: post ->
    (exists post', l1 = pre ++ y :: post' /\ post = post' ++ l2)
    \/ (exists pre', l2 = pre' ++ y :: post /\ pre = l1 ++ pre').
Proof.
  induction l1 as [|a l1 IH]; intros pre Heq.
  - right. exists pre. auto.
  - destruct pre as [|b pre]; cbn [app] in Heq; injection Heq as -> Heq.
    + left. exists l1. auto.
    + destruct (IH pre Heq) as [(post' & -> & ->)|(pre' & -> & ->)].
      * left. exists post'. auto.
      * right. exists pre'. auto.
Qed.

Lemma StronglySorted_impl_elem_of {A : Type} (R R' : A -> A -> Prop) (l : list A) :
  (forall a b, a ∈ l -> b ∈ l -> R a b -> R' a b) ->
  StronglySorted R l -> StronglySorted R' l.
Proof.
  intros Himpl Hsorted. induction Hsorted as [|a l Hl IH Ha]; constructor.
  - apply IH. intros b c Hb Hc. apply Himpl; right; assumption.
  - apply Forall_forall. intros b Hb. apply Himpl; [left|right; exact Hb|].
    rewrite Forall_forall in Ha. apply Ha, Hb.
Qed.

Section SelectionInvariant.
Context (ts0 : Tileset) (root : TileId) (fs : FrameState) (size : TileId -> nat).
Hypothesis Hsizes : tree_sizes ts0 size.

Lemma selection_invariant_start :
  selection_invariant ts0 root (mkSelectionLoop ts0 [root] [] None).
Proof.
  split; cbn [sl_tileset sl_stack sl_ancestorStack].
  - apply same_selection_refl.
  - intros pre x post Heq. exists [].
    destruct pre as [|y [|z pre]]; try discriminate Heq.
    injection Heq as <- <-. split; [apply lineage_root|reflexivity].
  - constructor.
  - constructor.
Qed.

Lemma selection_done_start : selection_done ts0 root (mkSelectionLoop ts0 [root] [] None).
Proof. intros t Ht. right. exists root. split; [left|exact Ht]. Qed.

(** The tile on top of the ancestor stack is selected. *)
Lemma selection_invariant_select (st st' : SelectionLoop) (a : TileId)
    (rest : list TileId) :
  selection_invariant ts0 root st ->
  sl_ancestorStack st = a :: rest ->
  _stackLength (getTile (sl_tileset st) a) = length (sl_stack st) ->
  same_selection (sl_tileset st) (sl_tileset st') ->
  sl_stack st' = sl_stack st ->
  sl_ancestorStack st' = rest ->
  (forall j, _stackLength (getTile (sl_tileset st') j)
             = _stackLength (getTile (sl_tileset st) j)) ->
  (forall j, _selectionDepth (getTile (sl_tileset st') j)
             = _selectionDepth (getTile (sl_tileset st) j)) ->
  selection_invariant ts0 root st'
  /\ (selection_measure size st' < selection_measure size st)%nat
  /\ (selection_done ts0 root st -> selection_done ts0 root st').
Proof.
  intros [Hsame Hstack Hsorted Hbound] Hanc Hlen Hsame' Hstack' Hanc' HL HD.
  split; [split|split].
  - eapply same_selection_trans; eassumption.
  - intros pre x post Heq. rewrite Hstack' in Heq.
    destruct (Hstack pre x post Heq) as (l & Hl & Hfilter).
    exists l. split; [exact Hl|]. rewrite Hfilter, Hanc, Hanc'.
    rewrite (waiting_ext (sl_tileset st) (sl_tileset st')) by (intros; apply HL).
    unfold waiting. cbn [List.filter]. rewrite Hlen, Heq, length_app. cbn [length].
    destruct (Nat.leb_spec (length pre + S (length post)) (length post)); [lia|reflexivity].
  - rewrite Hanc in Hsorted. rewrite Hanc'. inversion Hsorted as [|? ? Hrest _]; subst.
    eapply StronglySorted_impl; [|exact Hrest]. intros b c. cbv beta. rewrite !HL. auto.
  - rewrite Hanc in Hbound. rewrite Hanc', Hstack'. inversion Hbound as [|? ? _ Hrest]; subst.
    eapply Forall_impl; [exact Hrest|]. intros b. cbv beta. rewrite HL. auto.
  - unfold selection_measure. rewrite Hstack', Hanc', Hanc. cbn [length]. lia.
  - intros Hdone t Ht. rewrite Hstack'.
    destruct (Hdone t Ht) as [Hcount|Hlater]; [left|right; exact Hlater].
    intros Hm l Hl. rewrite HD. apply Hcount; assumption.
Qed.
End SelectionInvariant.

Section SelectionVisit.
Context (ts0 : Tileset) (root : TileId) (fs : FrameState) (size : TileId -> nat).
Hypothesis Hsizes : tree_sizes ts0 size.

(** The tile on top of the stack is visited, when no ancestor waits for
    the present length of the stack. *)
Lemma selection_invariant_visit (st : SelectionLoop) (x : TileId) (rest : list TileId) :
  selection_invariant ts0 root st ->
  sl_stack st = x :: rest ->
  Forall (fun a => (_stackLength (getTile (sl_tileset st) a) <= length rest)%nat)
    (sl_ancestorStack st) ->
  selection_invariant ts0 root (traverseAndSelect_visit fs st)
  /\ (selection_measure size (traverseAndSelect_visit fs st) < selection_measure size st)%nat
  /\ (wf_parents ts0 -> parent (getTile ts0 root) = None ->
      selection_done ts0 root st -> selection_done ts0 root (traverseAndSelect_visit fs st)).
Proof.
  intros [Hsame Hstack Hsorted Hbound] Hst Hall.
  pose proof (traverseAndSelect_visit_spec fs st x rest Hst) as Hspec. cbv zeta in Hspec.
  destruct Hspec as (Hsame' & Hstack' & Hanc' & HL & HD).
  set (st' := traverseAndSelect_visit fs st) in *. clearbody st'.
  rewrite (same_selection_canTraverse ts0 _ Hsame x),
    (same_selection_selectionAncestor ts0 _ Hsame x) in *.
  rewrite (same_selection_children ts0 _ Hsame x),
    (pushVisibleChildren_ext ts0 (sl_tileset st)) in Hstack'
    by apply (same_selection_isVisible ts0 _ Hsame).
  set (ts := sl_tileset st) in *. set (anc := sl_ancestorStack st) in *.
  destruct (Hstack [] x rest Hst) as (lx & Hlx & Hfilter).
  rewrite (waiting_all ts (length rest) anc Hall) in Hfilter.
  assert (Hnotin : forall a, a ∈ anc -> a <> x).
  { intros a Ha ->. rewrite <- Hfilter in Ha. apply elem_of_filter_bool in Ha.
    pose proof (lineage_sizes ts0 size root x lx Hsizes Hlx x Ha). lia. }
  assert (Hpushed : exists pushed,
            sl_stack st' = pushed ++ rest
            /\ (sum_list_with size pushed <= sum_list_with size (children (getTile ts0 x)))%nat
            /\ (forall c, c ∈ pushed ->
                          canTraverse ts0 x = true /\ c ∈ children (getTile ts0 x))
            /\ (forall c, canTraverse ts0 x = true -> c ∈ children (getTile ts0 x) ->
                          isVisible ts0 c = true -> c ∈ pushed)).
  { destruct (canTraverse ts0 x).
    - destruct (pushVisibleChildren_spec ts0 (children (getTile ts0 x)) rest)
        as (pushed & Heq & Hsub & Hin).
      exists pushed. split; [congruence|].
      split; [apply sum_list_with_submseteq, Hsub|].
      split; [intros c Hc; split; [reflexivity|apply Hin, Hc]|].
      intros c _ Hc Hv. apply Hin. auto.
    - exists []. split; [exact Hstack'|]. split; [cbn; lia|].
      split; [intros c Hc; inversion Hc|discriminate]. }
  destruct Hpushed as (pushed & Hstack'' & Hsum & Hpushed & Hvisible).
  clear Hstack'.
  assert (HLanc : forall a, a ∈ anc ->
            _stackLength (getTile (sl_tileset st') a) = _stackLength (getTile ts a)).
  { intros a Ha. rewrite HL. destruct (decide (a = x)) as [->|]; [|reflexivity].
    destruct (Hnotin x Ha eq_refl). }
  assert (Hx : wf_parents ts0 -> parent (getTile ts0 root) = None ->
               depth_counts ts0 (sl_tileset st') x).
  { intros Hwf Hroot Hm l Hl. rewrite HD. destruct (decide (x = x)); [|congruence].
    rewrite Hm, <- Hfilter.
    rewrite (ancestry_functional ts0 x l lx Hl (lineage_ancestry ts0 root x lx Hwf Hroot Hlx)).
    reflexivity. }
  remember (selectionAncestor ts0 x && canTraverse ts0 x) as mt eqn:Hmt.
  split; [split|split].
  - eapply same_selection_trans; eassumption.
  - intros pre y post Heq. rewrite Hstack'' in Heq.
    apply app_eq_cons_split in Heq as [(post' & -> & ->)|(pre' & Hrest & ->)].
    + destruct (Hpushed y) as [Htraverse Hy]; [apply elem_of_app; right; left|].
      rewrite Htraverse, andb_true_r in Hmt.
      exists (x :: lx). split; [apply lineage_child; assumption|].
      cbn [List.filter]. rewrite Hfilter, Hanc', <- Hmt, length_app.
      assert (Hrest : waiting (sl_tileset st') (length post' + length rest) anc = anc).
      { apply waiting_all. rewrite Forall_forall in Hall |- *. intros a Ha.
        rewrite (HLanc a Ha). specialize (Hall a Ha). cbv beta in Hall. lia. }
      destruct mt; [|symmetry; exact Hrest].
      unfold waiting. cbn [List.filter]. rewrite HL.
      destruct (decide (x = x)); [|congruence].
      destruct (Nat.leb_spec (length rest) (length post' + length rest)); [|lia].
      f_equal. symmetry. exact Hrest.
    + destruct (Hstack (x :: pre') y post) as (l & Hl & Hfilter').
      { rewrite Hst, Hrest. reflexivity. }
      exists l. split; [exact Hl|]. rewrite Hfilter', Hanc'.
      assert (Hshort : (length post < length rest)%nat).
      { rewrite Hrest, length_app. cbn [length]. lia. }
      destruct mt; [|symmetry; apply waiting_ext, HLanc].
      unfold waiting at 2. cbn [List.filter]. rewrite HL.
      destruct (decide (x = x)); [|congruence].
      destruct (Nat.leb_spec (length rest) (length post)); [lia|].
      symmetry. apply waiting_ext, HLanc.
  - rewrite Hanc'.
    assert (Hold : StronglySorted
                     (fun a a' => (_stackLength (getTile (sl_tileset st') a')
                                   <= _stackLength (getTile (sl_tileset st') a))%nat) anc).
    { eapply StronglySorted_impl_elem_of; [|exact Hsorted].
      intros a b Ha Hb. cbv beta. rewrite (HLanc a Ha), (HLanc b Hb). auto. }
    destruct mt; [|exact Hold].
    constructor; [exact Hold|].
    rewrite Forall_forall in Hall |- *. intros a Ha.
    rewrite (HLanc a Ha), HL. destruct (decide (x = x)); [|congruence].
    apply Hall, Ha.
  - rewrite Hanc', Hstack'', length_app.
    assert (Hold : Forall
                     (fun a => (_stackLength (getTile (sl_tileset st') a)
                                <= length pushed + length rest)%nat) anc).
    { rewrite Forall_forall in Hall |- *. intros a Ha.
      rewrite (HLanc a Ha). specialize (Hall a Ha). cbv beta in Hall. lia. }
    destruct mt; [|exact Hold].
    constructor; [|exact Hold].
    rewrite HL. destruct (decide (x = x)); [lia|congruence].
  - unfold selection_measure. rewrite Hstack'', Hanc', Hst, sum_list_with_app.
    cbn [sum_list_with]. pose proof (Hsizes x).
    fold anc. destruct mt; cbn [length]; lia.
  - intros Hwf Hroot Hdone t Ht. specialize (Hx Hwf Hroot).
    destruct (Hdone t Ht) as [Hcount|(y & Hy & Hyt)].
    + left. destruct (decide (t = x)) as [->|Htx]; [exact Hx|].
      intros Hm l Hl. rewrite HD. destruct (decide (t = x)); [congruence|].
      apply Hcount; assumption.
    + rewrite Hst in Hy. apply elem_of_cons in Hy as [->|Hy].
      * apply selection_reaches_first in Hyt as [->|(c & H1 & H2 & H3 & H4)];
          [left; exact Hx|].
        right. exists c. split; [|exact H4].
        rewrite Hstack''. apply elem_of_app. left. apply Hvisible; assumption.
      * right. exists y. split; [|exact Hyt].
        rewrite Hstack''. apply elem_of_app. right. exact Hy.
Qed.
End SelectionVisit.

Lemma traverseAndSelect_body_total (fs : FrameState) (st : SelectionLoop) :
  exists st', traverseAndSelect_body fs st = Some st'.
Proof.
  unfold traverseAndSelect_body. cbv zeta. cbn [sl_ancestorStack sl_stack].
  destruct (sl_ancestorStack st); [eauto|]. destruct (_ =? _)%nat; eauto.
Qed.

Section SelectionLoop.
Context (ts0 : Tileset) (root : TileId) (fs : FrameState) (size : TileId -> nat).
Hypothesis Hsizes : tree_sizes ts0 size.

(** One iteration keeps the invariant and lowers the measure. *)
Lemma selection_invariant_step (st st' : SelectionLoop) :
  selection_invariant ts0 root st ->
  traverseAndSelect_cond st = true ->
  traverseAndSelect_body fs st = Some st' ->
  selection_invariant ts0 root st'
  /\ (selection_measure size st' < selection_measure size st)%nat
  /\ (wf_parents ts0 -> parent (getTile ts0 root) = None ->
      selection_done ts0 root st -> selection_done ts0 root st').
Proof.
  intros Hinv Hcond Hbody.
  apply traverseAndSelect_body_spec in Hbody. cbv zeta in Hbody.
  destruct Hbody as [(a & rest & Hanc & Hlen & Hsame & Hstack & Hanc' & HL & HD)
                    |(Hhead & tsm & Hsamem & Hgetm & ->)].
  - destruct (selection_invariant_select ts0 root size st st' a rest Hinv Hanc Hlen Hsame
                Hstack Hanc' HL HD) as (H1 & H2 & H3).
    auto.
  - set (stm := mkSelectionLoop tsm (sl_stack st) (sl_ancestorStack st) (sl_lastAncestor st)).
    destruct Hinv as [Hsame Hstack Hsorted Hbound].
    assert (Hinvm : selection_invariant ts0 root stm).
    { split; cbn [sl_tileset sl_stack sl_ancestorStack].
      - eapply same_selection_trans; eassumption.
      - intros pre x post Heq. destruct (Hstack pre x post Heq) as (l & Hl & Hfilter).
        exists l. split; [exact Hl|]. rewrite Hfilter. symmetry. apply waiting_ext.
        intros a _. rewrite Hgetm. reflexivity.
      - eapply StronglySorted_impl; [|exact Hsorted]. intros a b. cbv beta.
        rewrite !Hgetm. auto.
      - eapply Forall_impl; [exact Hbound|]. intros a. cbv beta. rewrite Hgetm. auto. }
    destruct (sl_stack st) as [|x rest] eqn:Hst.
    { exfalso. unfold traverseAndSelect_cond in Hcond. rewrite Hst in Hcond.
      destruct (sl_ancestorStack st) as [|a anc]; [discriminate Hcond|].
      inversion Hbound as [|? ? Ha _]; subst. cbn [length] in Ha, Hhead. lia. }
    assert (Hall : Forall (fun a => (_stackLength (getTile tsm a) <= length rest)%nat)
                     (sl_ancestorStack st)).
    { destruct (sl_ancestorStack st) as [|a anc]; [constructor|].
      inversion Hbound as [|? ? Ha _]; subst. inversion Hsorted as [|? ? _ Hbelow]; subst.
      cbn [length] in Ha, Hhead.
      constructor; [rewrite Hgetm; lia|].
      eapply Forall_impl; [exact Hbelow|]. intros b. cbv beta. rewrite Hgetm. lia. }
    destruct (selection_invariant_visit ts0 root fs size Hsizes stm x rest Hinvm eq_refl Hall)
      as (H1 & H2 & H3).
    split; [exact H1|].
    split.
    { unfold selection_measure in H2 |- *. cbn [sl_stack sl_ancestorStack stm] in H2.
      rewrite Hst. exact H2. }
    intros Hwf Hroot Hdone. apply H3; [exact Hwf|exact Hroot|].
    intros t Ht. destruct (Hdone t Ht) as [Hcount|Hlater].
    + left. intros Hm l Hl. cbn [sl_tileset stm]. rewrite Hgetm. apply Hcount; assumption.
    + right. rewrite Hst in Hlater. exact Hlater.
Qed.

Lemma traverseAndSelect_terminates (fuel : nat) :
  (2 * size root <= fuel)%nat ->
  exists ts', traverseAndSelect fuel ts0 root fs = Some ts'.
Proof.
  intros Hfuel. unfold traverseAndSelect.
  destruct (while_terminates traverseAndSelect_cond (traverseAndSelect_body fs)
              (selection_invariant ts0 root) (selection_measure size))
    with (fuel := fuel) (s := mkSelectionLoop ts0 [root] [] None) as [st' ->]; [| | |eauto].
  - intros st Hinv Hcond.
    destruct (traverseAndSelect_body_total fs st) as [st' Hbody].
    destruct (selection_invariant_step st st' Hinv Hcond Hbody) as (H1 & H2 & _).
    eauto.
  - apply selection_invariant_start.
  - unfold selection_measure. cbn [sl_stack sl_ancestorStack sum_list_with length]. lia.
Qed.

(** When the pass has run, every tile that it reached has its depth. *)
Lemma traverseAndSelect_depths (fuel : nat) (ts' : Tileset) :
  wf_parents ts0 -> parent (getTile ts0 root) = None ->
  traverseAndSelect fuel ts0 root fs = Some ts' ->
  same_selection ts0 ts'
  /\ forall t, selection_reaches ts0 root t -> depth_counts ts0 ts' t.
Proof.
  intros Hwf Hroot Hrun. unfold traverseAndSelect in Hrun.
  destruct (while _ _ fuel _) as [st'|] eqn:Hwhile; [|discriminate].
  injection Hrun as <-.
  apply (while_invariant _ _
           (fun st => selection_invariant ts0 root st /\ selection_done ts0 root st))
    in Hwhile.
  - destruct Hwhile as [[Hinv Hdone] Hcond]. split; [apply Hinv|].
    intros t Ht. destruct (Hdone t Ht) as [Hcount|(x & Hx & _)]; [exact Hcount|].
    unfold traverseAndSelect_cond in Hcond. apply orb_false_elim in Hcond as [Hcond _].
    apply stack_nonempty_false in Hcond. rewrite Hcond in Hx. inversion Hx.
  - intros st st'' [Hinv Hdone] Hcond Hbody.
    destruct (selection_invariant_step st st'' Hinv Hcond Hbody) as (H1 & _ & H3). auto.
  - split; [apply selection_invariant_start|apply selection_done_start].
Qed.
End SelectionLoop.

(** [selectTiles] returns in every mode once the fuel covers twice the
    size of the root. *)
Lemma selectTiles_terminates (fuel : nat) (ts : Tileset) (fs : FrameState)
    (size : TileId -> nat) :
  tree_sizes ts size -> (2 * size (root ts) <= fuel)%nat ->
  exists r ts', selectTiles fuel ts fs = Some (r, ts').
Proof.
  intros Hsizes Hfuel.
  assert (Heq : forall l l' : list TileId, l = l' -> Permutation l l')
    by (intros l l' ->; reflexivity).
  assert (Hperm : forall l l' : list TileId, Permutation l l' -> Permutation l l') by auto.
  destruct (debugFreezeFrame ts) eqn:Hfreeze.
  { unfold selectTiles. cbv zeta. fields. rewrite Hfreeze. eauto. }
  destruct (fs_visible fs (root ts) && fs_inRequestVolume fs (root ts)) eqn:Hvisible.
  2: { unfold selectTiles. cbv zeta. fields. rewrite Hfreeze, updateTile_visible, Hvisible.
       cbn [negb]. eauto. }
  destruct (Z.leb_spec (fs_screenSpaceErrorWithParentError fs (root ts))
              (_maximumScreenSpaceError ts)) as [Hsse|Hsse].
  { unfold selectTiles. cbv zeta. fields. rewrite Hfreeze, updateTile_visible, Hvisible.
    cbn [negb]. unfold Tile_getScreenSpaceError.
    change (_maximumScreenSpaceError (updateTile ?a ?b ?c)) with (_maximumScreenSpaceError a).
    fields.
    destruct (Z.leb_spec (fs_screenSpaceErrorWithParentError fs (root ts))
                (_maximumScreenSpaceError ts)); [eauto|lia]. }
  rewrite selectTiles_traverses by assumption.
  pose proof (same_tiles_selectTiles_start ts fs) as Hsame.
  destruct (executeTraversal_terminates fuel (selectTiles_start ts fs) (root ts)
              (selectTiles_baseScreenSpaceError ts) (_maximumScreenSpaceError ts) fs size)
    as [ts1 Hrun]; [apply (tree_sizes_same_tiles eq ts); auto|lia|].
  rewrite Hrun. destruct (skipLevelOfDetail ts); [|eauto].
  destruct (traverseAndSelect_terminates ts1 (root ts) fs size) with (fuel := fuel)
    as [ts' ->]; [|exact Hfuel|eauto].
  apply (tree_sizes_same_tiles Permutation ts); [exact Hperm| |exact Hsizes].
  etransitivity; [apply same_tiles_weaken, Hsame|].
  apply (executeTraversal_preserves fs _ (Stable_same_tiles fs (selectTiles_start ts fs))
           _ _ _ _ _ _ (same_tiles_refl Permutation _) Hrun).
Qed.

Lemma selection_reaches_same (ts ts' : Tileset) (r t : TileId) :
  same_selection ts ts' -> selection_reaches ts' r t -> selection_reaches ts r t.
Proof.
  intros Hsame. induction 1 as [|p c Hp IH Htraverse Hc Hvisible]; [apply reaches_root|].
  apply (reaches_child ts r p c IH).
  - rewrite <- (same_selection_canTraverse ts ts' Hsame). exact Htraverse.
  - rewrite <- (same_selection_children ts ts' Hsame). exact Hc.
  - rewrite <- (same_selection_isVisible ts ts' Hsame). exact Hvisible.
Qed.

Lemma ancestry_same (R : list TileId -> list TileId -> Prop) (ts ts' : Tileset)
    (t : TileId) (l : list TileId) :
  same_tiles R ts ts' -> ancestry ts' t l -> ancestry ts t l.
Proof.
  intros Hsame. induction 1 as [x Hx|x p l Hp Hl IH].
  - apply ancestry_root. rewrite <- (same_parent R ts ts' Hsame). exact Hx.
  - apply ancestry_parent; [|exact IH]. rewrite <- (same_parent R ts ts' Hsame). exact Hp.
Qed.

(** When [selectTiles] has run under skip-LOD, every marked REPLACE tile
    that the selection pass reached has as [_selectionDepth] the number of
    marked REPLACE tiles among its proper ancestors. *)
Lemma selectTiles_depth_counts (ts : Tileset) (fs : FrameState) (size : TileId -> nat) :
  tree_sizes ts size ->
  wf_parents ts ->
  parent (getTile ts (root ts)) = None ->
  skipLevelOfDetail ts = true ->
  forall fuel ts',
    selectTiles fuel ts fs = Some (RetTrue, ts') ->
    forall t l,
      selection_reaches ts' (root ts) t ->
      selectionAncestor ts' t = true ->
      ancestry ts' t l ->
      _selectionDepth (getTile ts' t) = length (List.filter (selectionAncestor ts') l).
Proof.
  intros Hsizes Hwf Hroot Hskip.
  intros fuel ts' Hrun t l Hreach Hmarked Hl.
  apply selectTiles_inversion in Hrun as (_ & _ & _ & ts1 & Hrun & Hselect).
  rewrite Hskip in Hselect.
  assert (Hperm : forall l l' : list TileId, Permutation l l' -> Permutation l l') by auto.
  assert (Hsame : same_tiles Permutation ts ts1).
  { etransitivity; [apply same_tiles_weaken, same_tiles_selectTiles_start|].
    apply (executeTraversal_preserves fs _ (Stable_same_tiles fs (selectTiles_start ts fs))
             _ _ _ _ _ _ (same_tiles_refl Permutation _) Hrun). }
  destruct (traverseAndSelect_depths ts1 (root ts) fs size) with (fuel := fuel) (ts' := ts')
    as [Hsel Hdepths].
  - apply (tree_sizes_same_tiles Permutation ts); assumption.
  - apply (wf_parents_same_tiles ts); assumption.
  - rewrite (same_parent Permutation ts ts1 Hsame). exact Hroot.
  - exact Hselect.
  - rewrite (Hdepths t).
    + f_equal. apply List.filter_ext. intros a. symmetry.
      apply (same_selection_selectionAncestor ts1 ts' Hsel).
    + apply (selection_reaches_same ts1 ts'); assumption.
    + rewrite <- (same_selection_selectionAncestor ts1 ts' Hsel). exact Hmarked.
    + destruct Hsel as [Hsel _]. apply (ancestry_same eq ts1 ts'); assumption.
Qed.

Lemma tree_sizes_mixedContent : tree_sizes tileset_mixedContent size_example.
Proof.
  unfold tree_sizes.
  apply (getTile_forall
           (fun t tile => (sum_list_with size_example (children tile) < size_example t)%nat)).
  - apply size_example_positive.
  - unfold tileset_mixedContent, newTileset. tile_by_tile ltac:(vm_compute; lia).
Qed.

Lemma wf_parents_mixedContent : wf_parents tileset_mixedContent.
Proof.
  intros p.
  apply (getTile_forall
           (fun p tile => forall c, c ∈ children tile ->
                                    parent (getTile tileset_mixedContent c) = Some p)).
  - intros t c Hc. inversion Hc.
  - unfold tileset_mixedContent at 1, newTileset. tile_by_tile children_agree.
Qed.

(** ** Selected tiles have content *)

Section CarefulTraversal.
Context (fs : FrameState) (P : Tileset -> Prop) (HP : Careful fs P).

Lemma contentAvailable_updateTile_touchTile (ts : Tileset) (tile j : TileId) :
  contentAvailable (getTile (touchTile (updateTile ts tile fs) tile fs) j)
  = contentAvailable (getTile ts j).
Proof.
  apply (same_contentAvailable eq).
  etransitivity; [apply same_tiles_updateTile|apply same_tiles_touchTile]; apply _.
Qed.

Lemma selectDescendants_children_careful (root : TileId) (children : list TileId) :
  forall ts stack,
    P ts -> P (fst (selectDescendants_children fs root children ts stack)).
Proof.
  induction children as [|child rest IH]; intros ts stack Hts; simpl; [exact Hts|].
  destruct (isVisible ts child); [|auto].
  destruct (contentAvailable (getTile ts child)) eqn:Havailable.
  - cbv zeta. apply IH. destruct HP. apply careful_selectTile0; [|auto].
    rewrite contentAvailable_updateTile_touchTile. exact Havailable.
  - destruct (_ <? _); auto.
Qed.

Lemma selectDescendants_careful (fuel : nat) (ts ts' : Tileset) (root : TileId) :
  P ts -> selectDescendants fuel ts root fs = Some ts' -> P ts'.
Proof.
  intros Hts. unfold selectDescendants.
  destruct (while _ _ fuel (ts, [root])) as [[ts1 stack1]|] eqn:Hrun; [|discriminate].
  intros H. injection H as <-.
  apply (while_invariant _ _ (fun st => P (fst st))) in Hrun as [Hinv _];
    [exact Hinv| |exact Hts].
  intros [ts2 stack2] [ts3 stack3] Hinv _. unfold selectDescendants_body.
  destruct stack2 as [|tile rest]; [discriminate|]. intros H. injection H as H.
  cbn [fst] in *.
  match type of H with
  | selectDescendants_children ?fs ?r ?c ?a ?b = _ =>
      pose proof (selectDescendants_children_careful r c a b) as Hgoal
  end.
  rewrite H in Hgoal. apply Hgoal. destruct HP. auto.
Qed.

(** [selectDesiredTile] selects or marks the tile when it has available
    content, and else marks the tile of its link. *)
Lemma selectDesiredTile_careful (fuel : nat) (ts ts' : Tileset) (tile : TileId) :
  link_loaded ts tile ->
  P ts -> selectDesiredTile fuel ts tile fs = Some ts' -> P ts'.
Proof.
  intros Hlink Hts. unfold selectDesiredTile.
  destruct (negb (skipLevelOfDetail ts)).
  - destruct (contentAvailable (getTile ts tile)) eqn:Havailable; intros H;
      injection H as <-; [destruct HP; auto|exact Hts].
  - cbv zeta. destruct (contentAvailable (getTile ts tile)) eqn:Havailable.
    + intros H. injection H as <-. destruct HP. auto.
    + destruct (_ancestorWithContentAvailable (getTile ts tile)) as [a|] eqn:Ha.
      * intros H. injection H as <-. destruct HP. auto.
      * apply selectDescendants_careful. exact Hts.
Qed.
End CarefulTraversal.

(** A property that reads only the selected tiles and the [loaded_view]
    of the tiles is [Careful] when it survives the three writes to them:
    the refresh of a tile, and the selection and the mark of a tile with
    available content. *)
Lemma Careful_view (fs : FrameState) (P : Tileset -> Prop) :
  (forall ts ts',
     (forall j, loaded_view (getTile ts' j) = loaded_view (getTile ts j)) ->
     _selectedTiles ts' = _selectedTiles ts -> P ts -> P ts') ->
  (forall ts tile, P ts -> P (updateTile ts tile fs)) ->
  (forall ts tile,
     contentAvailable (getTile ts tile) = true -> P ts -> P (selectTile ts tile fs)) ->
  (forall ts tile,
     contentAvailable (getTile ts tile) = true ->
     P ts -> P (modTile tile (set_shouldSelect true) ts)) ->
  Careful fs P.
Proof.
  intros Hview Hupdate Hselect Hmark.
  assert (Hmod : forall ts i f,
            (forall t, loaded_view (f t) = loaded_view t) -> P ts -> P (modTile i f ts)).
  { intros ts i f H. apply Hview; [|reflexivity].
    intros j. apply (modTile_field loaded_view). exact H. }
  assert (Hwith : forall (w : Tileset -> Tileset),
            (forall ts, tiles (w ts) = tiles ts) ->
            (forall ts, _selectedTiles (w ts) = _selectedTiles ts) ->
            forall ts, P ts -> P (w ts)).
  { intros w H1 H2 ts. apply Hview; [|apply H2].
    intros j. unfold getTile. rewrite H1. reflexivity. }
  constructor; try assumption; intros;
    first [ apply Hmod; [reflexivity|assumption]
          | match goal with
            | |- P (?w ?v ?ts) => apply (Hwith (w v)); [reflexivity|reflexivity|assumption]
            end
          | idtac ].
  - apply (Hview ts); [|apply loadTile_selectedTiles|assumption].
    intros j. rewrite getTile_loadTile.
    destruct (decide (j = tile)) as [->|]; [|reflexivity]. destruct (_ || _); reflexivity.
  - apply (Hview ts); [|apply touchTile_selectedTiles|assumption].
    intros j. rewrite getTile_touchTile.
    destruct (decide (j = tile)) as [->|]; [|reflexivity]. destruct (_ =? _); reflexivity.
  - apply (Hview ts); [|reflexivity|assumption].
    intros j. rewrite getTile_visitTile.
    destruct (decide (j = tile)) as [->|]; reflexivity.
  - apply (Hview ts); [|reflexivity|assumption]. reflexivity.
Qed.

Lemma loaded_view_updateTile (fs : FrameState) (ts : Tileset) (tile j : TileId) :
  loaded_view (getTile (updateTile ts tile fs) j)
  = if decide (j = tile) then
      (contentAvailable (getTile ts tile), false, fs_visible fs tile,
       fs_inRequestVolume fs tile, _ancestorWithContentAvailable (getTile ts tile))
    else loaded_view (getTile ts j).
Proof.
  rewrite getTile_updateTile. destruct (decide (j = tile)); reflexivity.
Qed.

Lemma loaded_view_selectTile (fs : FrameState) (ts : Tileset) (tile j : TileId) :
  loaded_view (getTile (selectTile ts tile fs) j) = loaded_view (getTile ts j).
Proof.
  rewrite getTile_selectTile. destruct (decide (j = tile)) as [->|]; [|reflexivity].
  repeat match goal with |- context [if ?c then _ else _] => destruct c end; reflexivity.
Qed.

Lemma loaded_view_fields (ts ts' : Tileset) (j : TileId) :
  loaded_view (getTile ts' j) = loaded_view (getTile ts j) ->
  contentAvailable (getTile ts' j) = contentAvailable (getTile ts j)
  /\ _shouldSelect (getTile ts' j) = _shouldSelect (getTile ts j)
  /\ _visible (getTile ts' j) = _visible (getTile ts j)
  /\ _inRequestVolume (getTile ts' j) = _inRequestVolume (getTile ts j)
  /\ _ancestorWithContentAvailable (getTile ts' j)
     = _ancestorWithContentAvailable (getTile ts j).
Proof. unfold loaded_view. intros H. injection H as -> -> -> -> ->. auto 6. Qed.

Lemma updateTile_keeps_content (fs : FrameState) (ts : Tileset) (tile j : TileId) :
  contentAvailable (getTile (updateTile ts tile fs) j) = contentAvailable (getTile ts j)
  /\ _ancestorWithContentAvailable (getTile (updateTile ts tile fs) j)
     = _ancestorWithContentAvailable (getTile ts j).
Proof.
  pose proof (loaded_view_updateTile fs ts tile j) as Hview.
  destruct (decide (j = tile)) as [->|].
  - unfold loaded_view in Hview. injection Hview as -> _ _ _ ->. auto.
  - destruct (loaded_view_fields ts _ j Hview) as (-> & _ & _ & _ & ->). auto.
Qed.

Lemma Careful_selected_loaded (fs : FrameState) : Careful fs selected_loaded.
Proof.
  apply Careful_view; unfold selected_loaded.
  - intros ts ts' Hview Hsel H t. rewrite Hsel.
    destruct (loaded_view_fields ts ts' t (Hview t)) as (-> & _). apply H.
  - intros ts tile H t. rewrite updateTile_selectedTiles.
    destruct (updateTile_keeps_content fs ts tile t) as [-> _]. apply H.
  - intros ts tile Havailable H t.
    destruct (loaded_view_fields ts (selectTile ts tile fs) t (loaded_view_selectTile fs ts tile t))
      as (-> & _).
    rewrite selectTile_selectedTiles. destruct (Intersect_eqb _ _); [apply H|].
    intros Ht. apply elem_of_app in Ht as [Ht|Ht]; [apply H, Ht|].
    apply list_elem_of_singleton in Ht as ->. exact Havailable.
  - intros ts tile Havailable H t Ht.
    rewrite (modTile_field contentAvailable) by reflexivity. apply H, Ht.
Qed.

Lemma Careful_tile_ready (fs : FrameState) (t : TileId) :
  Careful fs (fun ts => tile_ready fs ts t).
Proof.
  apply Careful_view; unfold tile_ready, refreshed, mark_loaded.
  - intros ts ts' Hview _.
    destruct (loaded_view_fields ts ts' t (Hview t)) as (-> & -> & -> & -> & _). auto.
  - intros ts tile.
    pose proof (loaded_view_updateTile fs ts tile t) as Hview.
    destruct (decide (t = tile)) as [->|].
    + unfold loaded_view in Hview. injection Hview as _ -> -> -> _.
      intros _. split; [auto|discriminate].
    + destruct (loaded_view_fields ts _ t Hview) as (-> & -> & -> & -> & _). auto.
  - intros ts tile _.
    destruct (loaded_view_fields ts _ t (loaded_view_selectTile fs ts tile t))
      as (-> & -> & -> & -> & _). auto.
  - intros ts tile Havailable. rewrite getTile_modTile.
    destruct (decide (t = tile)) as [->|]; [|auto]. fields.
    intros [H _]. auto.
Qed.

Lemma Careful_link_loaded (fs : FrameState) (t : TileId) :
  Careful fs (fun ts => link_loaded ts t).
Proof.
  apply Careful_view; unfold link_loaded.
  - intros ts ts' Hview _ H a.
    destruct (loaded_view_fields ts ts' t (Hview t)) as (_ & _ & _ & _ & ->).
    destruct (loaded_view_fields ts ts' a (Hview a)) as (-> & _). apply H.
  - intros ts tile H a.
    destruct (updateTile_keeps_content fs ts tile t) as [_ ->].
    destruct (updateTile_keeps_content fs ts tile a) as [-> _]. apply H.
  - intros ts tile _ H a.
    destruct (loaded_view_fields ts _ t (loaded_view_selectTile fs ts tile t))
      as (_ & _ & _ & _ & ->).
    destruct (loaded_view_fields ts _ a (loaded_view_selectTile fs ts tile a)) as (-> & _).
    apply H.
  - intros ts tile _ H a.
    rewrite (modTile_field _ancestorWithContentAvailable),
      (modTile_field contentAvailable) by reflexivity.
    apply H.
Qed.

Section CarefulBody.
Context (fs : FrameState) (P : Tileset -> Prop) (HP : Careful fs P).

Lemma executeTraversal_select_careful (fuel : nat) (ts ts' : Tileset) (tile : TileId)
    (baseTraversal stoppedRefining : bool) :
  link_loaded ts tile ->
  P ts ->
  executeTraversal_select fuel ts tile fs baseTraversal stoppedRefining = Some ts' -> P ts'.
Proof.
  intros Hlink Hts. unfold executeTraversal_select. cbv zeta.
  assert (Hload : forall ts1, P ts1 -> P (loadTile ts1 tile fs)) by (destruct HP; auto).
  assert (Hempty : forall ts1, P ts1 -> P (addEmptyTile ts1 tile)) by (destruct HP; auto).
  assert (Hselect : forall ts1 ts2,
            link_loaded ts1 tile -> P ts1 ->
            selectDesiredTile fuel ts1 tile fs = Some ts2 -> P ts2)
    by (intros ts1 ts2; apply selectDesiredTile_careful; exact HP).
  assert (Hthen : forall ts1 ts2,
            link_loaded ts1 tile -> P ts1 ->
            match selectDesiredTile fuel ts1 tile fs with
            | Some ts3 => Some (loadTile ts3 tile fs)
            | None => None
            end = Some ts2 -> P ts2).
  { intros ts1 ts2 Hl H1. destruct (selectDesiredTile fuel ts1 tile fs) as [ts3|] eqn:Hs;
      [|discriminate].
    intros H. injection H as <-. eauto. }
  pose proof (Careful_link_loaded fs tile) as [_ Hlink_load _ _ Hlink_empty _ _ _ _ _ _ _ _ _ _].
  repeat match goal with
         | |- (if ?c then _ else _) = _ -> _ => destruct c
         end;
    try (intros H; injection H as <-); eauto 6.
Qed.

Lemma updateAndPushChildren_careful (fuel : nat) (ts ts' : Tileset) (tile : TileId)
    (stack stack' : list TileId) (refines : bool) :
  P ts -> updateAndPushChildren fuel ts tile stack fs = Some (refines, ts', stack') -> P ts'.
Proof. destruct HP. apply updateAndPushChildren_preserves; auto. Qed.
End CarefulBody.

(** The body keeps a [Careful] property that holds once the links of the
    popped tile have been set, when the new link is good. *)
Lemma executeTraversal_body_careful (fs : FrameState) (P : Tileset -> Prop) (fuel : nat)
    (base maximum : Z) (ts ts' : Tileset) (tile : TileId) (stack stack' : list TileId) :
  Careful fs P ->
  executeTraversal_body fuel fs base maximum (ts, tile :: stack) = Some (ts', stack') ->
  let ts1 :=
    updateTileAncestorContentLinks
      (with_traversal_stackMaximumLength
         (Nat.max (traversal_stackMaximumLength ts) (length (tile :: stack))) ts) tile fs in
  link_loaded ts1 tile -> P ts1 -> P ts'.
Proof.
  intros HP Hbody. apply executeTraversal_body_inversion in Hbody. cbv zeta in Hbody |- *.
  set (ts1 := updateTileAncestorContentLinks _ tile fs) in *. clearbody ts1.
  destruct Hbody as (baseTraversal & cr & ts2 & ts3 & _ & Hpush & Hselect & ->).
  intros Hlink H1.
  assert (H2 : link_loaded ts2 tile /\ P ts2).
  { destruct (canTraverse ts1 tile).
    - split.
      + apply (updateAndPushChildren_careful fs _ (Careful_link_loaded fs tile)
                 _ _ _ _ _ _ _ Hlink Hpush).
      + apply (updateAndPushChildren_careful fs P HP _ _ _ _ _ _ _ H1 Hpush).
    - destruct Hpush as (_ & -> & _). auto. }
  destruct H2 as [Hlink2 H2].
  apply (executeTraversal_select_careful fs P HP _ _ _ _ _ _ Hlink2 H2) in Hselect.
  destruct HP. auto.
Qed.

(** The link that [updateTileAncestorContentLinks] gives a tile is good
    when the link of its parent is. *)
Lemma link_loaded_updateTileAncestorContentLinks (fs : FrameState) (ts : Tileset)
    (tile : TileId) :
  (forall p, parent (getTile ts tile) = Some p -> link_loaded ts p) ->
  link_loaded (updateTileAncestorContentLinks ts tile fs) tile.
Proof.
  intros Hparent a.
  assert (Hcontent : forall j,
            contentAvailable (getTile (updateTileAncestorContentLinks ts tile fs) j)
            = contentAvailable (getTile ts j)).
  { intros j. apply (same_contentAvailable eq).
    apply same_tiles_updateTileAncestorContentLinks. apply _. }
  rewrite Hcontent, getTile_updateTileAncestorContentLinks.
  destruct (decide (tile = tile)); [|congruence].
  destruct (parent (getTile ts tile)) as [p|]; fields; [|discriminate].
  destruct (contentAvailable (getTile ts p)) eqn:Hp; [intros [= <-]; exact Hp|].
  destruct (decide (p = tile)); [discriminate|].
  apply (Hparent p eq_refl).
Qed.

(** The writes to the links of one tile leave the other properties. *)
Lemma loaded_view_updateTileAncestorContentLinks (fs : FrameState) (ts : Tileset)
    (tile j : TileId) :
  contentAvailable (getTile (updateTileAncestorContentLinks ts tile fs) j)
  = contentAvailable (getTile ts j)
  /\ _shouldSelect (getTile (updateTileAncestorContentLinks ts tile fs) j)
     = _shouldSelect (getTile ts j)
  /\ _visible (getTile (updateTileAncestorContentLinks ts tile fs) j)
     = _visible (getTile ts j)
  /\ _inRequestVolume (getTile (updateTileAncestorContentLinks ts tile fs) j)
     = _inRequestVolume (getTile ts j)
  /\ (j <> tile ->
      _ancestorWithContentAvailable (getTile (updateTileAncestorContentLinks ts tile fs) j)
      = _ancestorWithContentAvailable (getTile ts j)).
Proof.
  rewrite getTile_updateTileAncestorContentLinks.
  destruct (decide (j = tile)) as [->|]; [|auto 6].
  destruct (parent (getTile ts tile)); fields; repeat split; congruence.
Qed.

Lemma tile_ready_updateTile (fs : FrameState) (ts : Tileset) (tile : TileId) :
  tile_ready fs (updateTile ts tile fs) tile.
Proof.
  pose proof (loaded_view_updateTile fs ts tile tile) as Hview.
  destruct (decide (tile = tile)); [|congruence].
  unfold loaded_view in Hview. injection Hview as _ Hmark Hvisible Hvolume _.
  split; [split; assumption|]. unfold mark_loaded. rewrite Hmark. discriminate.
Qed.

Lemma tile_ready_foldl_updateTile (fs : FrameState) (c : TileId) (l : list TileId) :
  forall ts,
    c ∈ l \/ tile_ready fs ts c ->
    tile_ready fs (foldl (fun ts child => updateTile ts child fs) ts l) c.
Proof.
  induction l as [|a l IH]; intros ts H; cbn [foldl].
  - destruct H as [H|H]; [inversion H|exact H].
  - apply IH. destruct H as [H|H].
    + apply elem_of_cons in H as [->|H]; [right; apply tile_ready_updateTile|left; exact H].
    + right. apply (careful_updateTile _ _ (Careful_tile_ready fs c)). exact H.
Qed.

(** After [updateAndPushChildren] every child of the tile is ready. *)
Lemma updateAndPushChildren_children_ready (fuel : nat) (ts ts' : Tileset) (tile : TileId)
    (stack stack' : list TileId) (fs : FrameState) (refines : bool) :
  updateAndPushChildren fuel ts tile stack fs = Some (refines, ts', stack') ->
  forall c, c ∈ children (getTile ts tile) -> tile_ready fs ts' c.
Proof.
  intros Hcall c Hc.
  destruct (Careful_tile_ready fs c).
  eapply (updateAndPushChildren_preserves_sorted fs (fun ts => tile_ready fs ts c));
    eauto.
  cbv zeta. apply careful_sort0. apply tile_ready_foldl_updateTile. left. exact Hc.
Qed.

Lemma traversal_reaches_first (fs : FrameState) (ts : Tileset) (x t : TileId) :
  traversal_reaches fs ts x t ->
  t = x
  \/ exists c,
       canTraverse ts x = true /\ c ∈ children (getTile ts x)
       /\ fs_visible fs c && fs_inRequestVolume fs c = true
       /\ traversal_reaches fs ts c t.
Proof.
  induction 1 as [|p c Hp IH Htraverse Hc Hvisible]; [left; reflexivity|].
  right. destruct IH as [->|(c' & H1 & H2 & H3 & H4)].
  - exists c. split; [exact Htraverse|]. split; [exact Hc|]. split; [exact Hvisible|].
    apply traversal_root.
  - exists c'. split; [exact H1|]. split; [exact H2|]. split; [exact H3|].
    eapply traversal_child; eassumption.
Qed.

Section Links.
Context (fs : FrameState) (ts : Tileset) (tile : TileId).

Lemma selected_loaded_links :
  selected_loaded ts -> selected_loaded (updateTileAncestorContentLinks ts tile fs).
Proof.
  intros H t. rewrite updateTileAncestorContentLinks_selectedTiles.
  destruct (loaded_view_updateTileAncestorContentLinks fs ts tile t) as (-> & _). apply H.
Qed.

Lemma tile_ready_links (t : TileId) :
  tile_ready fs ts t -> tile_ready fs (updateTileAncestorContentLinks ts tile fs) t.
Proof.
  unfold tile_ready, refreshed, mark_loaded.
  destruct (loaded_view_updateTileAncestorContentLinks fs ts tile t)
    as (-> & -> & -> & -> & _).
  auto.
Qed.

Lemma link_loaded_links (p : TileId) :
  p <> tile ->
  link_loaded ts p -> link_loaded (updateTileAncestorContentLinks ts tile fs) p.
Proof.
  intros Hp H a.
  destruct (loaded_view_updateTileAncestorContentLinks fs ts tile p) as (_ & _ & _ & _ & ->);
    [|exact Hp].
  destruct (loaded_view_updateTileAncestorContentLinks fs ts tile a) as (-> & _). apply H.
Qed.
End Links.

(** One iteration of the main traversal keeps [loaded_invariant]. *)
Lemma loaded_invariant_step (fs : FrameState) (ts0 : Tileset) (root : TileId) (fuel : nat)
    (base maximum : Z) (ts ts' : Tileset) (x : TileId) (rest stack' : list TileId) :
  wf_parents ts0 ->
  loaded_invariant fs ts0 root (ts, x :: rest) ->
  executeTraversal_body fuel fs base maximum (ts, x :: rest) = Some (ts', stack') ->
  loaded_invariant fs ts0 root (ts', stack').
Proof.
  intros Hwf (Hsame & Hsel & Hstack & Hreach) Hbody. cbn [fst snd] in *.
  assert (Hperm : forall l l' : list TileId, Permutation l l' -> Permutation l l') by auto.
  assert (Hsame' : same_tiles Permutation ts0 ts').
  { apply (executeTraversal_body_preserves fs _ (Stable_same_tiles fs ts0) _ _ _ _ _ _ _
             Hsame Hbody). }
  pose proof (executeTraversal_body_careful fs) as Hfwd.
  specialize (fun P HP => Hfwd P fuel base maximum ts ts' x rest stack' HP Hbody).
  cbv zeta in Hfwd.
  apply executeTraversal_body_inversion in Hbody. cbv zeta in Hbody.
  pose proof (same_tiles_executeTraversal_body_head fs ts x
                (Nat.max (traversal_stackMaximumLength ts) (length (x :: rest))))
    as Hhead.
  destruct (Hstack x) as [Hx Hxlink]; [left|].
  assert (Hlink1 : link_loaded
                     (updateTileAncestorContentLinks
                        (with_traversal_stackMaximumLength
                           (Nat.max (traversal_stackMaximumLength ts) (length (x :: rest))) ts)
                        x fs) x).
  { apply link_loaded_updateTileAncestorContentLinks. intros p Hp.
    apply (careful_traversal_stackMaximumLength _ _ (Careful_link_loaded fs p)).
    apply Hxlink. rewrite <- (same_parent Permutation ts0 ts Hsame). exact Hp. }
  assert (Hsel1 : selected_loaded
                    (updateTileAncestorContentLinks
                       (with_traversal_stackMaximumLength
                          (Nat.max (traversal_stackMaximumLength ts) (length (x :: rest))) ts)
                       x fs)).
  { apply selected_loaded_links.
    apply (careful_traversal_stackMaximumLength _ _ (Careful_selected_loaded fs)), Hsel. }
  assert (Hready1 : forall t, tile_ready fs ts t ->
            tile_ready fs
              (updateTileAncestorContentLinks
                 (with_traversal_stackMaximumLength
                    (Nat.max (traversal_stackMaximumLength ts) (length (x :: rest))) ts)
                 x fs) t).
  { intros t Ht. apply tile_ready_links.
    apply (careful_traversal_stackMaximumLength _ _ (Careful_tile_ready fs t)), Ht. }
  assert (Hlinks1 : forall p, p <> x -> link_loaded ts p ->
            link_loaded
              (updateTileAncestorContentLinks
                 (with_traversal_stackMaximumLength
                    (Nat.max (traversal_stackMaximumLength ts) (length (x :: rest))) ts)
                 x fs) p).
  { intros p Hp Hl. apply link_loaded_links; [exact Hp|].
    apply (careful_traversal_stackMaximumLength _ _ (Careful_link_loaded fs p)), Hl. }
  set (ts1 := updateTileAncestorContentLinks _ x fs) in *. clearbody ts1.
  specialize (fun P HP => Hfwd P HP Hlink1).
  destruct Hbody as (baseTraversal & cr & ts2 & ts3 & _ & Hpush & Hselect & ->).
  assert (Hsame1 : same_tiles Permutation ts0 ts1)
    by (etransitivity; [exact Hsame|apply same_tiles_weaken, Hhead]).
  assert (Htraverse : canTraverse ts1 x = canTraverse ts0 x)
    by apply (same_canTraverse Permutation ts0 ts1 Hperm Hsame1).
  pose proof (same_children Permutation ts0 ts1 Hperm Hsame1 x) as Hchildren.
  assert (Hlink2 : link_loaded ts2 x).
  { destruct (canTraverse ts1 x).
    - apply (updateAndPushChildren_careful fs _ (Careful_link_loaded fs x)
               _ _ _ _ _ _ _ Hlink1 Hpush).
    - destruct Hpush as (_ & -> & _). exact Hlink1. }
  assert (Htail : forall P, Careful fs P -> P ts2 ->
            P (modTile x (set_refines (cr && parentRefines ts1 x))
                 (touchTile (visitTile ts3 x fs) x fs))).
  { intros P HP H2.
    apply (executeTraversal_select_careful fs P HP _ _ _ _ _ _ Hlink2 H2) in Hselect.
    destruct HP. auto. }
  set (ts' := modTile x (set_refines _) _) in *. clearbody ts'.
  assert (Hpushed : exists pushed,
            stack' = pushed ++ rest
            /\ (forall c, c ∈ pushed -> c ∈ children (getTile ts0 x) /\ tile_ready fs ts' c)
            /\ (canTraverse ts0 x = true ->
                (forall c, c ∈ children (getTile ts0 x) -> tile_ready fs ts' c)
                /\ (forall c, c ∈ children (getTile ts0 x) ->
                              fs_visible fs c && fs_inRequestVolume fs c = true ->
                              c ∈ pushed))).
  { rewrite <- Htraverse. destruct (canTraverse ts1 x).
    - pose proof (updateAndPushChildren_children_ready _ _ _ _ _ _ _ _ Hpush) as Hready.
      apply updateAndPushChildren_stack in Hpush as (pushed & -> & Hpushed).
      assert (Hall : forall c, c ∈ children (getTile ts0 x) -> tile_ready fs ts' c).
      { intros c Hc. apply (Htail _ (Careful_tile_ready fs c)), Hready.
        rewrite <- Hchildren. exact Hc. }
      exists pushed. split; [reflexivity|].
      split.
      + intros c Hc. apply Hpushed in Hc as [Hc _]. rewrite <- Hchildren in Hc. auto.
      + intros _. split; [exact Hall|]. intros c Hc Hv. apply Hpushed.
        rewrite <- Hchildren. auto.
    - destruct Hpush as (_ & _ & ->). exists [].
      split; [reflexivity|]. split; [intros c Hc; inversion Hc|discriminate]. }
  destruct Hpushed as (pushed & -> & Hpushed & Hexpanded).
  assert (Hxlink' : link_loaded ts' x) by (apply (Hfwd _ (Careful_link_loaded fs x)), Hlink1).
  assert (Hlinks' : forall p, link_loaded ts p -> link_loaded ts' p).
  { intros p Hp. destruct (decide (p = x)) as [->|Hpx]; [exact Hxlink'|].
    apply (Hfwd _ (Careful_link_loaded fs p)), Hlinks1; assumption. }
  assert (Hready' : forall t, tile_ready fs ts t -> tile_ready fs ts' t).
  { intros t Ht. apply (Hfwd _ (Careful_tile_ready fs t)), Hready1, Ht. }
  split; [exact Hsame'|]. cbn [fst snd].
  split; [apply (Hfwd _ (Careful_selected_loaded fs)), Hsel1|].
  split.
  - intros s Hs. apply elem_of_app in Hs as [Hs|Hs].
    + destruct (Hpushed s Hs) as [Hchild Hready]. split; [exact Hready|].
      intros p Hp. rewrite (Hwf x s Hchild) in Hp. injection Hp as <-. exact Hxlink'.
    + destruct (Hstack s) as [Hready Hlinks]; [right; exact Hs|].
      split; [apply Hready', Hready|]. intros p Hp. apply Hlinks', Hlinks, Hp.
  - intros t Ht. destruct (Hreach t Ht) as [[Hready Hdone]|(s & Hs & Hst)].
    + left. split; [apply Hready', Hready|].
      intros Hcan c Hc. apply Hready', Hdone; assumption.
    + apply elem_of_cons in Hs as [->|Hs].
      * apply traversal_reaches_first in Hst as [->|(c & H1 & H2 & H3 & H4)].
        -- left. split; [apply Hready', Hx|].
           intros Hcan c Hc. apply (proj1 (Hexpanded Hcan)), Hc.
        -- right. exists c. split; [|exact H4].
           apply elem_of_app. left. apply (proj2 (Hexpanded H1)); assumption.
      * right. exists s. split; [|exact Hst]. apply elem_of_app. right. exact Hs.
Qed.

(** When the main traversal has run, the selected tiles have content and
    every tile that it reached is ready with its children. *)
Lemma executeTraversal_loaded (fs : FrameState) (ts0 ts' : Tileset) (root : TileId)
    (fuel : nat) (base maximum : Z) :
  wf_parents ts0 ->
  parent (getTile ts0 root) = None ->
  selected_loaded ts0 ->
  tile_ready fs ts0 root ->
  executeTraversal fuel ts0 root base maximum fs = Some ts' ->
  same_tiles Permutation ts0 ts'
  /\ selected_loaded ts'
  /\ forall t, traversal_reaches fs ts0 root t ->
               tile_ready fs ts' t /\ children_ready fs ts0 ts' t.
Proof.
  intros Hwf Hroot Hsel Hready Hrun. unfold executeTraversal in Hrun.
  destruct (while _ _ fuel (ts0, [root])) as [[ts1 stack1]|] eqn:Hwhile; [|discriminate].
  injection Hrun as ->.
  apply (while_invariant _ _ (loaded_invariant fs ts0 root)) in Hwhile.
  - destruct Hwhile as [(Hsame & Hsel' & _ & Hreach) Hcond]. cbn [fst snd] in *.
    apply stack_nonempty_false in Hcond. subst stack1.
    split; [exact Hsame|]. split; [exact Hsel'|].
    intros t Ht. destruct (Hreach t Ht) as [H|(s & Hs & _)]; [exact H|inversion Hs].
  - intros [ts2 stack2] [ts3 stack3] Hinv Hcond Hbody. cbn [snd] in Hcond.
    destruct stack2 as [|x rest]; [discriminate Hcond|].
    apply (loaded_invariant_step fs ts0 root fuel base maximum ts2 ts3 x rest stack3);
      assumption.
  - split; [reflexivity|]. cbn [fst snd]. split; [exact Hsel|].
    split.
    + intros s Hs. apply list_elem_of_singleton in Hs as ->.
      split; [exact Hready|]. intros p Hp. congruence.
    + intros t Ht. right. exists root. split; [left|exact Ht].
Qed.

(** The selection pass reaches only tiles that the main traversal reached. *)
Lemma selection_reaches_traversal (fs : FrameState) (ts0 ts : Tileset) (root t : TileId) :
  same_tiles Permutation ts0 ts ->
  (forall t, traversal_reaches fs ts0 root t ->
             tile_ready fs ts t /\ children_ready fs ts0 ts t) ->
  selection_reaches ts root t -> traversal_reaches fs ts0 root t.
Proof.
  intros Hsame Hreach.
  assert (Hperm : forall l l' : list TileId, Permutation l l' -> Permutation l l') by auto.
  induction 1 as [|p c Hp IH Htraverse Hc Hvisible]; [apply traversal_root|].
  rewrite (same_canTraverse Permutation ts0 ts Hperm Hsame) in Htraverse.
  rewrite <- (same_children Permutation ts0 ts Hperm Hsame p) in Hc.
  apply (traversal_child fs ts0 root p c IH Htraverse Hc).
  destruct (Hreach p IH) as [_ Hdone]. destruct (Hdone Htraverse c Hc) as [Hfresh _].
  rewrite <- (isVisible_refreshed fs ts c Hfresh). exact Hvisible.
Qed.

(** What an iteration of the selection pass adds to the selected tiles is
    a marked tile on top of one of the two stacks. *)
Lemma traverseAndSelect_body_selected (fs : FrameState) (st st' : SelectionLoop) :
  traverseAndSelect_body fs st = Some st' ->
  forall t,
    t ∈ _selectedTiles (sl_tileset st') ->
    t ∈ _selectedTiles (sl_tileset st)
    \/ ((exists rest, sl_stack st = t :: rest /\ _shouldSelect (getTile (sl_tileset st) t) = true)
        \/ exists rest, sl_ancestorStack st = t :: rest).
Proof.
  unfold traverseAndSelect_body. cbv zeta.
  set (tsm := with_selectionTraversal_ancestorStackMaximumLength _ _).
  assert (Hm : _selectedTiles tsm = _selectedTiles (sl_tileset st)
               /\ forall j, getTile tsm j = getTile (sl_tileset st) j)
    by (split; reflexivity).
  destruct Hm as [Hsel Hget]. clearbody tsm.
  cbn [sl_ancestorStack sl_stack sl_lastAncestor].
  assert (Hvisit : forall t,
            t ∈ _selectedTiles
                  (sl_tileset
                     (traverseAndSelect_visit fs
                        (mkSelectionLoop tsm (sl_stack st) (sl_ancestorStack st)
                           (sl_lastAncestor st)))) ->
            t ∈ _selectedTiles (sl_tileset st)
            \/ exists rest, sl_stack st = t :: rest
                            /\ _shouldSelect (getTile (sl_tileset st) t) = true).
  { intros t. unfold traverseAndSelect_visit. cbv zeta.
    cbn [sl_tileset sl_stack sl_ancestorStack sl_lastAncestor].
    destruct (sl_stack st) as [|x rest]; [cbn [sl_tileset]; rewrite Hsel; auto|].
    rewrite Hget.
    destruct (_shouldSelect (getTile (sl_tileset st) x)) eqn:Hmark;
      [|cbn [sl_tileset]; rewrite Hsel; auto].
    assert (Hadd : forall ts1,
              _selectedTiles ts1 = _selectedTiles (sl_tileset st) ->
              t ∈ _selectedTiles (selectTile ts1 x fs) ->
              t ∈ _selectedTiles (sl_tileset st)
              \/ exists rest0, x :: rest = t :: rest0
                                /\ _shouldSelect (getTile (sl_tileset st) t) = true).
    { intros ts1 H1. rewrite selectTile_selectedTiles, H1.
      destruct (Intersect_eqb _ _); [auto|]. intros Ht.
      apply elem_of_app in Ht as [Ht|Ht]; [auto|].
      apply list_elem_of_singleton in Ht as ->. right. exists rest. auto. }
    destruct (Cesium3DTileRefine_eqb _ ADD); [cbn [sl_tileset]; apply Hadd, Hsel|].
    set (ts1 := if (0 <? _)%nat then _ else _).
    assert (H1 : _selectedTiles ts1 = _selectedTiles (sl_tileset st)).
    { subst ts1. destruct (0 <? _)%nat; exact Hsel. }
    clearbody ts1.
    destruct (negb _); cbn [sl_tileset]; [apply Hadd, H1|].
    change (_selectedTiles (modTile ?i ?f ?a)) with (_selectedTiles a). rewrite H1. auto. }
  destruct (sl_ancestorStack st) as [|a rest] eqn:Hanc.
  - intros H. injection H as <-. intros t Ht. destruct (Hvisit t Ht); auto.
  - destruct (_ =? _)%nat.
    + intros H. injection H as <-. cbn [sl_tileset]. intros t.
      rewrite selectTile_selectedTiles.
      set (ts1 := if negb _ then _ else _).
      assert (H1 : _selectedTiles ts1 = _selectedTiles (sl_tileset st)).
      { subst ts1. destruct (negb _); exact Hsel. }
      clearbody ts1. rewrite H1.
      destruct (Intersect_eqb _ _); [auto|]. intros Ht.
      apply elem_of_app in Ht as [Ht|Ht]; [auto|].
      apply list_elem_of_singleton in Ht as ->. right. right. exists rest. reflexivity.
    + intros H. injection H as <-. intros t Ht. destruct (Hvisit t Ht); auto.
Qed.

Lemma traverseAndSelect_visit_empty (fs : FrameState) (st : SelectionLoop) :
  sl_stack st = [] -> traverseAndSelect_visit fs st = st.
Proof. intros H. unfold traverseAndSelect_visit. cbv zeta. rewrite H. reflexivity. Qed.

(** The selection pass selects loaded tiles, when the marks of the tiles
    that it reaches are on loaded tiles. *)
Lemma traverseAndSelect_selected_loaded (fs : FrameState) (ts ts' : Tileset) (root : TileId)
    (fuel : nat) :
  (forall t, selection_reaches ts root t -> mark_loaded ts t) ->
  selected_loaded ts ->
  traverseAndSelect fuel ts root fs = Some ts' ->
  same_selection ts ts' /\ selected_loaded ts'.
Proof.
  intros Hmarks Hsel Hrun. unfold traverseAndSelect in Hrun.
  destruct (while _ _ fuel _) as [st'|] eqn:Hwhile; [|discriminate].
  injection Hrun as <-.
  apply (while_invariant _ _
           (fun st =>
              same_selection ts (sl_tileset st)
              /\ selected_loaded (sl_tileset st)
              /\ (forall x, x ∈ sl_stack st -> selection_reaches ts root x)
              /\ (forall a, a ∈ sl_ancestorStack st ->
                            selection_reaches ts root a
                            /\ _shouldSelect (getTile ts a) = true)))
    in Hwhile.
  - destruct Hwhile as [(H1 & H2 & _) _]. auto.
  - clear st' Hwhile. intros st st' (Hsame & Hsel' & Hstack & Hanc) _ Hbody.
    pose proof (traverseAndSelect_body_selected fs st st' Hbody) as Hadded.
    apply traverseAndSelect_body_spec in Hbody. cbv zeta in Hbody.
    assert (Hstep : same_selection (sl_tileset st) (sl_tileset st')
                    /\ (forall x, x ∈ sl_stack st' -> selection_reaches ts root x)
                    /\ (forall a, a ∈ sl_ancestorStack st' ->
                                  selection_reaches ts root a
                                  /\ _shouldSelect (getTile ts a) = true)).
    { destruct Hbody as [(a & rest & Ha & _ & Hsame' & Hstack' & Hanc' & _)
                        |(_ & tsm & Hsamem & Hgetm & ->)].
      - split; [exact Hsame'|]. rewrite Hstack', Hanc'. split; [exact Hstack|].
        intros b Hb. apply Hanc. rewrite Ha. right. exact Hb.
      - destruct (sl_stack st) as [|x rest] eqn:Hst.
        + rewrite traverseAndSelect_visit_empty by reflexivity.
          cbn [sl_tileset sl_stack sl_ancestorStack]. split; [exact Hsamem|].
          split; [intros x Hx; inversion Hx|exact Hanc].
        + pose proof (traverseAndSelect_visit_spec fs
                        (mkSelectionLoop tsm (x :: rest) (sl_ancestorStack st)
                           (sl_lastAncestor st)) x rest eq_refl) as Hspec.
          cbv zeta in Hspec. cbn [sl_tileset sl_stack sl_ancestorStack] in Hspec.
          destruct Hspec as (Hsame' & Hstack' & Hanc' & _).
          pose proof (same_selection_trans _ _ _ Hsame Hsamem) as Hsame0.
          rewrite (same_selection_canTraverse ts tsm Hsame0),
            (same_selection_selectionAncestor ts tsm Hsame0) in *.
          rewrite (same_selection_children ts tsm Hsame0),
            (pushVisibleChildren_ext ts tsm) in Hstack'
            by apply (same_selection_isVisible ts tsm Hsame0).
          split; [eapply same_selection_trans; eassumption|].
          assert (Hx : selection_reaches ts root x) by (apply Hstack; left).
          split.
          * intros c. rewrite Hstack'. destruct (canTraverse ts x) eqn:Htraverse;
              [|intros Hc; apply Hstack; right; exact Hc].
            destruct (pushVisibleChildren_spec ts (children (getTile ts x)) rest)
              as (pushed & -> & _ & Hpushed).
            intros Hc. apply elem_of_app in Hc as [Hc|Hc]; [|apply Hstack; right; exact Hc].
            apply Hpushed in Hc as [Hc Hv].
            apply (reaches_child ts root x c); assumption.
          * intros a. rewrite Hanc'.
            destruct (selectionAncestor ts x && canTraverse ts x) eqn:Hm; [|apply Hanc].
            intros Ha. apply elem_of_cons in Ha as [->|Ha]; [|apply Hanc, Ha].
            split; [exact Hx|]. unfold selectionAncestor in Hm.
            apply andb_prop in Hm as [Hm _]. apply andb_prop in Hm as [Hm _]. exact Hm. }
    destruct Hstep as (Hsame' & Hstack' & Hanc').
    pose proof (same_selection_trans _ _ _ Hsame Hsame') as Hsame0.
    split; [exact Hsame0|]. split; [|auto].
    intros t Ht.
    assert (Hcontent : forall ts1, same_selection ts ts1 ->
              contentAvailable (getTile ts1 t) = contentAvailable (getTile ts t)).
    { intros ts1 [H1 _]. apply (same_contentAvailable eq ts ts1 H1). }
    rewrite (Hcontent _ Hsame0).
    destruct (Hadded t Ht) as [Hold|[(rest & Hrest & Hm)|(rest & Hrest)]].
    + rewrite <- (Hcontent _ Hsame). apply Hsel', Hold.
    + apply Hmarks; [apply Hstack; rewrite Hrest; left|].
      destruct (same_selection_flags ts _ Hsame t) as (<- & _). exact Hm.
    + destruct (Hanc t) as [Hreached Hm]; [rewrite Hrest; left|].
      apply Hmarks; assumption.
  - cbn [sl_tileset sl_stack sl_ancestorStack].
    split; [apply same_selection_refl|]. split; [exact Hsel|].
    split; [|intros a Ha; inversion Ha].
    intros x Hx. apply list_elem_of_singleton in Hx as ->. apply reaches_root.
Qed.

Lemma tile_ready_selectTiles_start (ts : Tileset) (fs : FrameState) :
  tile_ready fs (selectTiles_start ts fs) (root ts).
Proof.
  assert (Hheatmap : forall n a r, tile_ready fs a r -> tile_ready fs (with_heatmap_resets n a) r)
    by (intros n a r Ha; exact Ha).
  unfold selectTiles_start, heatmap_resetMinMax.
  simple apply Hheatmap. simple apply tile_ready_updateTile.
Qed.

Lemma Careful_mark_loaded (fs : FrameState) (t : TileId) :
  Careful fs (fun ts => mark_loaded ts t).
Proof.
  apply Careful_view; unfold mark_loaded.
  - intros ts ts' Hview _.
    destruct (loaded_view_fields ts ts' t (Hview t)) as (-> & -> & _). auto.
  - intros ts tile.
    pose proof (loaded_view_updateTile fs ts tile t) as Hview.
    destruct (decide (t = tile)) as [->|].
    + unfold loaded_view in Hview. injection Hview as _ -> _ _ _. discriminate.
    + destruct (loaded_view_fields ts _ t Hview) as (-> & -> & _). auto.
  - intros ts tile _.
    destruct (loaded_view_fields ts _ t (loaded_view_selectTile fs ts tile t))
      as (-> & -> & _). auto.
  - intros ts tile Havailable. rewrite getTile_modTile.
    destruct (decide (t = tile)) as [->|]; [|auto]. fields. auto.
Qed.

(** C2.  When [selectTiles] has run its traversal on a tree whose parents
    and children agree, in any mode, every selected tile has available
    content, and so has every marked tile that the selection pass reaches;
    and [selectDesiredTile], called on a tile whose link leads to
    available content, leaves no mark on a tile without.  On a finite
    tree [selectTiles] returns once the fuel covers twice the size of the
    root. *)
Theorem selected_tiles_have_content (ts : Tileset) (fs : FrameState) :
  wf_parents ts ->
  parent (getTile ts (root ts)) = None ->
  (forall fuel ts',
     selectTiles fuel ts fs = Some (RetTrue, ts') ->
     (forall t, t ∈ _selectedTiles ts' -> contentAvailable (getTile ts' t) = true)
     /\ (forall t, selection_reaches ts' (root ts) t ->
                   _shouldSelect (getTile ts' t) = true ->
                   contentAvailable (getTile ts' t) = true))
  /\ (forall fuel ts1 ts2 tile,
        link_loaded ts1 tile ->
        selectDesiredTile fuel ts1 tile fs = Some ts2 ->
        forall t, mark_loaded ts1 t -> mark_loaded ts2 t)
  /\ (forall fuel size,
        tree_sizes ts size -> (2 * size (root ts) <= fuel)%nat ->
        exists r ts', selectTiles fuel ts fs = Some (r, ts')).
Proof.
  intros Hwf Hroot. split.
  2: { split.
       - intros fuel ts1 ts2 tile Hlink Hcall t Ht.
         apply (selectDesiredTile_careful fs _ (Careful_mark_loaded fs t) fuel ts1 ts2 tile);
           assumption.
       - intros fuel size. apply selectTiles_terminates. }
  intros fuel ts' Hrun.
  apply selectTiles_inversion in Hrun as (_ & _ & _ & ts1 & Hrun & Hselect).
  pose proof (same_tiles_selectTiles_start ts fs) as Hstart.
  apply executeTraversal_loaded in Hrun as (Hsame & Hsel & Hreach).
  - assert (Hmarks : forall t, selection_reaches ts1 (root ts) t -> mark_loaded ts1 t).
    { intros t Ht.
      apply (selection_reaches_traversal fs (selectTiles_start ts fs) ts1) in Ht;
        [|assumption..].
      apply Hreach, Ht. }
    destruct (skipLevelOfDetail ts); [|subst ts'; auto].
    destruct (traverseAndSelect_selected_loaded fs ts1 ts' (root ts) fuel Hmarks Hsel Hselect)
      as [Hsame' Hsel'].
    split; [exact Hsel'|]. intros t Ht Hm.
    destruct Hsame' as [Htiles Hflags].
    rewrite (same_contentAvailable eq ts1 ts' Htiles).
    apply Hmarks; [apply (selection_reaches_same ts1 ts'); [split|]; assumption|].
    destruct (same_selection_flags ts1 ts' (conj Htiles Hflags) t) as (<- & _). exact Hm.
  - apply (wf_parents_same_tiles ts); [apply same_tiles_weaken, Hstart|exact Hwf].
  - rewrite (same_parent eq ts _ Hstart). exact Hroot.
  - intros t Ht. rewrite selectTiles_start_selectedTiles in Ht. inversion Ht.
  - apply tile_ready_selectTiles_start.
Qed.

Lemma selected_tiles_have_content_witness :
  exists ts',
    selectTiles 8 tileset_mixedContent frame_allVisible = Some (RetTrue, ts')
    /\ _selectedTiles ts' = [1%nat; 0%nat]
    /\ contentAvailable (getTile ts' 1%nat) = true
    /\ contentAvailable (getTile ts' 0%nat) = true.
Proof.
  eexists. split; [vm_compute; reflexivity|]. split; [vm_compute; reflexivity|].
  split.
  - eapply (proj1 (proj1 (selected_tiles_have_content tileset_mixedContent frame_allVisible
                            wf_parents_mixedContent eq_refl) 8%nat _ _) 1%nat).
    vm_compute. left.
  - eapply (proj1 (proj1 (selected_tiles_have_content tileset_mixedContent frame_allVisible
                            wf_parents_mixedContent eq_refl) 8%nat _ _) 0%nat).
    vm_compute. right. left.
  Unshelve. all: vm_compute; reflexivity.
Defined.

(** C8, as amended.  On return from [updateAndPushChildren] the priority
    of the holder of a child is at most the own priority of that child,
    for every child that took part in the search for the minimum: the
    visible children, and all children under the refine check or
    [loadSiblings]; and the call returns on a finite tree once the fuel
    covers the sizes of the children.  (A child left out of the search
    can lie below the holder, and a later call on a deeper tile rewrites
    the holder.) *)
Theorem priority_holder_below_searched_children (fuel : nat) (ts : Tileset)
    (tile : TileId) (stack : list TileId) (fs : FrameState) (size : TileId -> nat) :
  (forall refines ts' stack' child,
     updateAndPushChildren fuel ts tile stack fs = Some (refines, ts', stack') ->
     child ∈ children (getTile ts tile) ->
     inPrioritySearch fs ts tile child = true ->
     _priorityDistance (getTile ts' (_priorityDistanceHolder (getTile ts' child)))
     <= _priorityDistance (getTile ts' child))
  /\ (tree_sizes ts size ->
      (forall c, c ∈ children (getTile ts tile) -> (size c <= fuel)%nat) ->
      exists refines ts' stack',
        updateAndPushChildren fuel ts tile stack fs = Some (refines, ts', stack')).
Proof.
  split.
  - intros refines ts' stack' child.
    apply (priority_holder_below_when_returned fuel ts ts' tile child stack stack' fs refines).
  - apply updateAndPushChildren_terminates.
Qed.

Lemma priority_holder_below_searched_children_witness :
  exists ts' stack',
    updateAndPushChildren 1 tileset_addChild 0%nat [] frame_allVisible
    = Some (false, ts', stack')
    /\ _priorityDistance (getTile ts' (_priorityDistanceHolder (getTile ts' 1%nat)))
       <= _priorityDistance (getTile ts' 1%nat).
Proof.
  eexists _, _. split; [vm_compute; reflexivity|].
  eapply (proj1 (priority_holder_below_searched_children 1 tileset_addChild 0%nat []
                   frame_allVisible size_example) false).
  - vm_compute. reflexivity.
  - vm_compute. left.
  - vm_compute. reflexivity.
Defined.

(** * Further properties of the traversal *)

(** ** The comparator of the children *)

(** X1.  [sortChildrenByDistanceToCamera] is a consistent comparator: a
    tile compares equal to itself, swapping the arguments flips the sign,
    and "not after" is transitive, also across the tie-break by
    [_centerZDepth] that applies at distance 0 only. *)
Theorem sortChildrenByDistanceToCamera_consistent :
  (forall a, sortChildrenByDistanceToCamera a a = 0)
  /\ (forall a b, sortChildrenByDistanceToCamera a b = - sortChildrenByDistanceToCamera b a)
  /\ (forall a b c,
        sortChildrenByDistanceToCamera a b <= 0 ->
        sortChildrenByDistanceToCamera b c <= 0 ->
        sortChildrenByDistanceToCamera a c <= 0).
Proof.
  unfold sortChildrenByDistanceToCamera. split; [|split].
  - intros a. destruct (_ && _); lia.
  - intros a b.
    destruct (Z.eqb_spec (_distanceToCamera a) 0), (Z.eqb_spec (_distanceToCamera b) 0);
      cbn [andb]; lia.
  - intros a b c.
    destruct (Z.eqb_spec (_distanceToCamera a) 0), (Z.eqb_spec (_distanceToCamera b) 0),
      (Z.eqb_spec (_distanceToCamera c) 0); cbn [andb]; lia.
Qed.

(** ** The TypeError of [inBaseTraversal] *)

(** X2.  [inBaseTraversal] reads [tile.parent._screenSpaceError] of a tile
    without a parent, a TypeError, exactly in the skip-LOD mode without
    [immediatelyLoadDesiredLevelOfDetail] on a tile with a screen space
    error of 0 that has an [_ancestorWithContent] and no parent.  The main
    traversal calls it after [updateTileAncestorContentLinks], which clears
    the link of a tile without a parent: there it never fails. *)
Theorem inBaseTraversal_TypeError :
  (forall ts tile base,
     inBaseTraversal ts tile base = None
     <-> skipLevelOfDetail ts = true
         /\ immediatelyLoadDesiredLevelOfDetail ts = false
         /\ _ancestorWithContent (getTile ts tile) <> None
         /\ _screenSpaceError (getTile ts tile) = 0
         /\ parent (getTile ts tile) = None)
  /\ (forall ts tile fs base,
        inBaseTraversal (updateTileAncestorContentLinks ts tile fs) tile base <> None).
Proof.
  split.
  - intros ts tile base. unfold inBaseTraversal.
    destruct (skipLevelOfDetail ts); cbn [negb]; [|split; [discriminate|intros [H _]; discriminate]].
    destruct (immediatelyLoadDesiredLevelOfDetail ts);
      [split; [discriminate|intros (_ & H & _); discriminate]|].
    destruct (_ancestorWithContent (getTile ts tile)) as [a|];
      [|split; [discriminate|intros (_ & _ & H & _); congruence]].
    destruct (Z.eqb_spec (_screenSpaceError (getTile ts tile)) 0) as [Hsse|Hsse];
      [|split; [discriminate|intros (_ & _ & _ & H & _); congruence]].
    destruct (parent (getTile ts tile)) as [p|];
      [split; [discriminate|intros (_ & _ & _ & _ & H); discriminate]|].
    split; [intros _|reflexivity]. repeat split; [discriminate|exact Hsse].
  - intros ts tile fs base.
    destruct (inBaseTraversal_defined ts tile fs base) as [b ->]. discriminate.
Qed.

(** ** Selecting a tile again *)

Lemma selectTile_selectedTilesToStyle (ts : Tileset) (tile : TileId) (fs : FrameState) :
  _selectedTilesToStyle (selectTile ts tile fs) =
  if Intersect_eqb (Tile_contentVisibility fs tile) OUTSIDE then _selectedTilesToStyle ts
  else if featurePropertiesDirty (getTile ts tile)
          || (_selectedFrame (getTile ts tile) <? frameNumber fs - 1)
       then _selectedTilesToStyle ts ++ [tile]
       else _selectedTilesToStyle ts.
Proof.
  unfold selectTile. destruct (Intersect_eqb (Tile_contentVisibility fs tile) OUTSIDE);
    [reflexivity|].
  cbv zeta. destruct (featurePropertiesDirty (getTile ts tile)); [reflexivity|].
  destruct (_selectedFrame (getTile ts tile) <? frameNumber fs - 1); reflexivity.
Qed.

(** X3.  [selectTile] leaves the tileset alone when the content of the tile
    is outside the view.  Otherwise a second call in the same frame lists
    the tile in [_selectedTiles] once more, but does not put it in
    [_selectedTilesToStyle] again: the first call has cleared the dirty
    flag and set [_selectedFrame] to the frame. *)
Theorem selectTile_twice (ts : Tileset) (tile : TileId) (fs : FrameState) :
  (Tile_contentVisibility fs tile = OUTSIDE -> selectTile ts tile fs = ts)
  /\ (Tile_contentVisibility fs tile <> OUTSIDE ->
      _selectedTiles (selectTile (selectTile ts tile fs) tile fs)
      = _selectedTiles ts ++ [tile; tile]
      /\ _selectedTilesToStyle (selectTile (selectTile ts tile fs) tile fs)
         = _selectedTilesToStyle (selectTile ts tile fs)).
Proof.
  split.
  - intros H. unfold selectTile. rewrite H. reflexivity.
  - intros H.
    assert (Hout : Intersect_eqb (Tile_contentVisibility fs tile) OUTSIDE = false)
      by (destruct (Tile_contentVisibility fs tile); [congruence|reflexivity..]).
    split.
    + rewrite !selectTile_selectedTiles, Hout, <- app_assoc. reflexivity.
    + rewrite (selectTile_selectedTilesToStyle (selectTile ts tile fs)), Hout.
      rewrite getTile_selectTile, Hout. destruct (decide (tile = tile)); [|congruence].
      destruct (featurePropertiesDirty (getTile ts tile)) eqn:Hdirty; fields;
        rewrite ?Hdirty;
        (destruct (Z.ltb_spec (frameNumber fs) (frameNumber fs - 1)); [lia|reflexivity]).
Qed.

Lemma selectTile_twice_witness :
  _selectedTiles (selectTile (selectTile tileset_emptyChild 0%nat frame_allVisible) 0%nat
                    frame_allVisible) = [0%nat; 0%nat]
  /\ _selectedTilesToStyle
       (selectTile (selectTile tileset_emptyChild 0%nat frame_allVisible) 0%nat
          frame_allVisible)
     = _selectedTilesToStyle (selectTile tileset_emptyChild 0%nat frame_allVisible).
Proof.
  apply (proj2 (selectTile_twice tileset_emptyChild 0%nat frame_allVisible)).
  vm_compute. discriminate.
Defined.

(** ** The empty traversal and the camera *)

(** X4.  The answer of [executeEmptyTraversal] does not depend on the
    frame: two runs from the same tile of the same tileset, under any two
    frame states and with any fuel, give the same answer.  (The traversal
    "ignores visibility"; the frame only decides which tiles it loads.) *)
Theorem executeEmptyTraversal_ignores_frame (fuel1 fuel2 : nat) (ts ts1 ts2 : Tileset)
    (root : TileId) (fs1 fs2 : FrameState) (b1 b2 : bool) :
  executeEmptyTraversal fuel1 ts root fs1 = Some (b1, ts1) ->
  executeEmptyTraversal fuel2 ts root fs2 = Some (b2, ts2) ->
  b1 = b2.
Proof.
  intros H1 H2.
  apply executeEmptyTraversal_spec in H1. apply executeEmptyTraversal_spec in H2.
  destruct b1, b2; try reflexivity.
  - symmetry. apply H2, H1. reflexivity.
  - apply H1, H2. reflexivity.
Qed.

Lemma executeEmptyTraversal_ignores_frame_witness :
  exists ts1 ts2,
    executeEmptyTraversal 2 tileset_hiddenGrandchild 1%nat frame_hiddenGrandchild
    = Some (false, ts1)
    /\ executeEmptyTraversal 3 tileset_hiddenGrandchild 1%nat frame_allVisible
       = Some (false, ts2).
Proof.
  assert (H1 : exists b ts1,
             executeEmptyTraversal 2 tileset_hiddenGrandchild 1%nat frame_hiddenGrandchild
             = Some (b, ts1))
    by (eexists _, _; vm_compute; reflexivity).
  assert (H2 : exists ts2,
             executeEmptyTraversal 3 tileset_hiddenGrandchild 1%nat frame_allVisible
             = Some (false, ts2))
    by (eexists; vm_compute; reflexivity).
  destruct H1 as (b & ts1 & H1), H2 as (ts2 & H2).
  exists ts1, ts2.
  rewrite <- (executeEmptyTraversal_ignores_frame _ _ _ _ _ _ _ _ _ _ H1 H2) at 1.
  auto.
Defined.

(** ** What [updateAndPushChildren] pushes and answers *)

Lemma same_tiles_children_eq (ts ts' : Tileset) (j : TileId) :
  same_tiles eq ts ts' -> children (getTile ts' j) = children (getTile ts j).
Proof. intros [_ H]. destruct (H j) as [_ ->]. reflexivity. Qed.

(** The loop over the sorted children: the stack gets the visible children
    in the order of the array, the flag [anyChildrenVisible] says whether
    there is one, and without the refine check [refines] stays [true]. *)
Lemma updateAndPushChildren_visible_children (fuel : nat) (ts ts' : Tileset) (tile : TileId)
    (stack stack' : list TileId) (fs : FrameState) (refines : bool) :
  updateAndPushChildren fuel ts tile stack fs = Some (refines, ts', stack') ->
  let visible := fun c => fs_visible fs c && fs_inRequestVolume fs c in
  stack' = rev (List.filter visible (children (getTile ts' tile))) ++ stack
  /\ (refines = true -> existsb visible (children (getTile ts' tile)) = true)
  /\ (checkRefines ts tile = false ->
      refines = existsb visible (children (getTile ts' tile))).
Proof.
  intros Hcall. cbv zeta.
  assert (Hperm : forall l l' : list TileId, Permutation l l' -> Permutation l l') by auto.
  apply updateAndPushChildren_inversion in Hcall. cbv zeta in Hcall.
  pose proof (same_tiles_foldl_updateTile Permutation fs (children (getTile ts tile)) ts)
    as Hsame1.
  pose proof (fun c (Hc : c ∈ children (getTile ts tile)) =>
                fresh_child_foldl_updateTile fs ts c (children (getTile ts tile)) ts
                  (or_intror (conj (same_tiles_refl Permutation ts) Hc)))
    as Hfresh1.
  pose proof (same_tiles_foldl_updateTile eq fs (children (getTile ts tile)) ts) as Heq1.
  destruct Heq1 as [_ Heq1]. destruct (Heq1 tile) as [_ Hch]. clear Heq1.
  set (l := children (getTile ts tile)) in *.
  set (ts1 := foldl _ ts l) in *. clearbody ts1.
  assert (Hfresh2 : forall c, c ∈ l ->
            fresh_child fs ts
              (modTile tile
                 (set_children
                    (Array_sort
                       (fun a b => sortChildrenByDistanceToCamera (getTile ts1 a) (getTile ts1 b))
                       l)) ts1) c).
  { intros c Hc. rewrite Hch. apply fresh_child_sort, Hfresh1, Hc. }
  assert (Hsame2 : same_tiles Permutation ts
              (modTile tile
                 (set_children
                    (Array_sort
                       (fun a b => sortChildrenByDistanceToCamera (getTile ts1 a) (getTile ts1 b))
                       l)) ts1)).
  { rewrite Hch. etransitivity; [exact Hsame1|apply same_tiles_sort]. }
  set (sorted := Array_sort _ l) in *.
  assert (Hsorted : Permutation l sorted) by apply Array_sort_permutation.
  clearbody sorted.
  assert (Hchildren2 : children (getTile (modTile tile (set_children sorted) ts1) tile) = sorted)
    by (rewrite getTile_modTile_eq; reflexivity).
  set (ts2 := modTile tile (set_children sorted) ts1) in *. clearbody ts2.
  clear Hsame1 Hfresh1 Hch ts1.
  replace (negb (skipLevelOfDetail ts2)
           && Cesium3DTileRefine_eqb (refine (getTile ts tile)) REPLACE
           && negb (hasEmptyContent_ ts2 tile)) with (checkRefines ts tile) in Hcall
    by (unfold checkRefines;
        rewrite (same_skipLevelOfDetail Permutation ts ts2 Hsame2),
          (same_hasEmptyContent Permutation ts ts2 Hsame2); reflexivity).
  destruct Hcall as (st & Hloop & -> & -> & Hlink).
  set (visible := fun c => fs_visible fs c && fs_inRequestVolume fs c).
  assert (Hinv : (forall c, c ∈ l -> fresh_child fs ts (cl_tileset st) c)
                 /\ children (getTile (cl_tileset st) tile) = sorted
                 /\ cl_stack st = rev (List.filter visible sorted) ++ stack
                 /\ cl_anyChildrenVisible st = existsb visible sorted
                 /\ (checkRefines ts tile = false -> cl_refines st = true)).
  { apply (updateAndPushChildren_loop_invariant_at fuel fs (checkRefines ts tile) sorted
             (fun done st =>
                (forall c, c ∈ l -> fresh_child fs ts (cl_tileset st) c)
                /\ children (getTile (cl_tileset st) tile) = sorted
                /\ cl_stack st = rev (List.filter visible done) ++ stack
                /\ cl_anyChildrenVisible st = existsb visible done
                /\ (checkRefines ts tile = false -> cl_refines st = true)))
      with (3 := Hloop).
    - clear st Hloop Hlink.
      intros done c rest st st' Hall (Hfresh & Hchildren & Hstack & Hany & Hrefines) Hstep.
      assert (Hc : c ∈ l).
      { rewrite Hsorted, Hall. apply elem_of_app. right. left. }
      split.
      { intros c' Hc'.
        apply (updateAndPushChildren_child_preserves fs (fun ts' => fresh_child fs ts ts' c'))
          with (5 := Hfresh c' Hc') (6 := Hstep).
        - intros ts3 t H. apply fresh_child_updateTile. left. exact H.
        - intros ts3 t. apply fresh_child_loadTile.
        - intros ts3 t. apply fresh_child_touchTile.
        - intros ts3 n. apply fresh_child_stackMaximumLength. }
      apply updateAndPushChildren_child_spec in Hstep. cbv zeta in Hstep.
      destruct Hstep as (mid & childRefines & Hmid & Hmid' & Hstack' & Hany' & _ & _
                         & Hrefines' & Hcheck).
      destruct (Hfresh c Hc) as (_ & Hflags & _).
      rewrite (isVisible_refreshed fs _ c Hflags) in Hstack', Hany'.
      fold (visible c) in Hstack', Hany'.
      split.
      { rewrite (same_tiles_children_eq mid), (same_tiles_children_eq (cl_tileset st));
          assumption. }
      rewrite List.filter_app, rev_app_distr, existsb_app. cbn [List.filter existsb].
      rewrite Hstack', Hany', Hstack, Hany, Hrefines'.
      destruct (visible c); cbn [rev app orb].
      + split; [reflexivity|]. split; [rewrite orb_true_r; reflexivity|].
        intros Hno. rewrite Hno in Hcheck. destruct Hcheck as [-> _].
        rewrite (Hrefines Hno). reflexivity.
      + split; [reflexivity|]. split; [rewrite orb_false_r; reflexivity|].
        intros Hno. rewrite Hno in Hcheck. destruct Hcheck as [-> _].
        rewrite (Hrefines Hno). reflexivity.
    - cbn [cl_tileset cl_stack cl_anyChildrenVisible cl_refines].
      split; [exact Hfresh2|]. split; [exact Hchildren2|]. auto. }
  destruct Hinv as (_ & Hchildren & Hstack & Hany & Hrefines).
  assert (Hchildren' : children (getTile ts' tile) = sorted).
  { destruct (cl_minIndex st) as [k|]; [|subst ts'; exact Hchildren].
    destruct Hlink as (m & _ & ->).
    apply (updateAndPushChildren_link_preserves (fun s => children (getTile s tile) = sorted));
      [| | |exact Hchildren];
      intros; rewrite (modTile_field children) by reflexivity; assumption. }
  rewrite Hchildren', Hany. split; [exact Hstack|].
  destruct (existsb visible sorted); cbn [negb].
  - split; [reflexivity|]. intros Hno. apply Hrefines, Hno.
  - split; [discriminate|reflexivity].
Qed.

(** X5.  [updateAndPushChildren] pushes exactly the children that the frame
    sees (visible and in the request volume), each once, in the order of
    the sorted children array: the last of them, the nearest, lies on top
    of the stack.  The call returns on a finite tree once the fuel covers
    the sizes of the children. *)
Theorem updateAndPushChildren_pushes_visible_in_order (fuel : nat) (ts : Tileset)
    (tile : TileId) (stack : list TileId) (fs : FrameState) (size : TileId -> nat) :
  (forall refines ts' stack',
     updateAndPushChildren fuel ts tile stack fs = Some (refines, ts', stack') ->
     stack' = rev (List.filter (fun c => fs_visible fs c && fs_inRequestVolume fs c)
                     (children (getTile ts' tile))) ++ stack)
  /\ (tree_sizes ts size ->
      (forall c, c ∈ children (getTile ts tile) -> (size c <= fuel)%nat) ->
      exists refines ts' stack',
        updateAndPushChildren fuel ts tile stack fs = Some (refines, ts', stack')).
Proof.
  split.
  - intros refines ts' stack' Hcall.
    apply (updateAndPushChildren_visible_children _ _ _ _ _ _ _ _ Hcall).
  - apply updateAndPushChildren_terminates.
Qed.

Lemma updateAndPushChildren_pushes_visible_in_order_witness :
  exists ts',
    updateAndPushChildren 1 tileset_addChild 0%nat [7%nat] frame_allVisible
    = Some (false, ts', [1%nat; 2%nat; 7%nat])
    /\ children (getTile ts' 0%nat) = [2%nat; 1%nat].
Proof.
  assert (H : exists r ts' stack',
             updateAndPushChildren 1 tileset_addChild 0%nat [7%nat] frame_allVisible
             = Some (r, ts', stack')
             /\ r = false /\ children (getTile ts' 0%nat) = [2%nat; 1%nat]).
  { eexists _, _, _. split; [vm_compute; reflexivity|]. split; vm_compute; reflexivity. }
  destruct H as (r & ts' & stack' & Hcall & -> & Hchildren).
  exists ts'. split; [|exact Hchildren].
  rewrite Hcall.
  rewrite (proj1 (updateAndPushChildren_pushes_visible_in_order 1 tileset_addChild 0%nat
                    [7%nat] frame_allVisible size_example) _ _ _ Hcall), Hchildren.
  reflexivity.
Defined.

(** The result of the call, when it has returned. *)
Lemma updateAndPushChildren_refines_visible_returned (fuel : nat) (ts ts' : Tileset)
    (tile : TileId) (stack stack' : list TileId) (fs : FrameState) (refines : bool) :
  updateAndPushChildren fuel ts tile stack fs = Some (refines, ts', stack') ->
  (refines = true ->
   exists c, c ∈ children (getTile ts tile)
             /\ fs_visible fs c && fs_inRequestVolume fs c = true)
  /\ (checkRefines ts tile = false ->
      (refines = true
       <-> exists c, c ∈ children (getTile ts tile)
                     /\ fs_visible fs c && fs_inRequestVolume fs c = true)).
Proof.
  intros Hcall.
  pose proof (updateAndPushChildren_visible_children _ _ _ _ _ _ _ _ Hcall) as H.
  cbv zeta in H. destruct H as (_ & Htrue & Hexact).
  assert (Hperm : forall l l' : list TileId, Permutation l l' -> Permutation l l') by auto.
  pose proof (same_children Permutation ts ts' Hperm
                (same_tiles_updateAndPushChildren _ _ _ _ _ _ _ _ Hcall) tile) as Hchildren.
  assert (Hex : existsb (fun c => fs_visible fs c && fs_inRequestVolume fs c)
                  (children (getTile ts' tile)) = true
                <-> exists c, c ∈ children (getTile ts tile)
                              /\ fs_visible fs c && fs_inRequestVolume fs c = true).
  { rewrite existsb_exists. split; intros (c & Hc & Hv); exists c; split; try exact Hv.
    - rewrite Hchildren. apply list_elem_of_In, Hc.
    - apply list_elem_of_In. rewrite <- Hchildren. exact Hc. }
  split.
  - intros Hr. apply Hex, Htrue, Hr.
  - intros Hno. rewrite (Hexact Hno). exact Hex.
Qed.

(** X6.  [updateAndPushChildren] answers [true] only for a tile with a
    child that the frame sees.  Without the refine check (under skip-LOD,
    for an ADD tile, or for a tile with empty content) it answers [true]
    exactly then.  The call returns on a finite tree once the fuel covers
    the sizes of the children. *)
Theorem updateAndPushChildren_refines_visible (fuel : nat) (ts : Tileset)
    (tile : TileId) (stack : list TileId) (fs : FrameState) (size : TileId -> nat) :
  (forall refines ts' stack',
     updateAndPushChildren fuel ts tile stack fs = Some (refines, ts', stack') ->
     (refines = true ->
      exists c, c ∈ children (getTile ts tile)
                /\ fs_visible fs c && fs_inRequestVolume fs c = true)
     /\ (checkRefines ts tile = false ->
         (refines = true
          <-> exists c, c ∈ children (getTile ts tile)
                        /\ fs_visible fs c && fs_inRequestVolume fs c = true)))
  /\ (tree_sizes ts size ->
      (forall c, c ∈ children (getTile ts tile) -> (size c <= fuel)%nat) ->
      exists refines ts' stack',
        updateAndPushChildren fuel ts tile stack fs = Some (refines, ts', stack')).
Proof.
  split.
  - intros refines ts' stack'.
    apply (updateAndPushChildren_refines_visible_returned fuel ts ts' tile stack stack' fs
             refines).
  - apply updateAndPushChildren_terminates.
Qed.

Lemma updateAndPushChildren_refines_visible_witness :
  exists ts' stack',
    updateAndPushChildren 1 tileset_addRoot 0%nat [] frame_allVisible
    = Some (true, ts', stack')
    /\ exists c, c ∈ children (getTile tileset_addRoot 0%nat)
                 /\ fs_visible frame_allVisible c && fs_inRequestVolume frame_allVisible c
                    = true.
Proof.
  assert (H : exists ts' stack',
             updateAndPushChildren 1 tileset_addRoot 0%nat [] frame_allVisible
             = Some (true, ts', stack'))
    by (eexists _, _; vm_compute; reflexivity).
  destruct H as (ts' & stack' & Hcall). exists ts', stack'. split; [exact Hcall|].
  apply (proj1 (proj1 (updateAndPushChildren_refines_visible 1 tileset_addRoot 0%nat []
                         frame_allVisible size_example) _ _ _ Hcall)).
  reflexivity.
Defined.

(** X7.  [updateAndPushChildren], with the empty traversals of its refine
    check, selects nothing and changes no [_refines] flag, and every
    request made before the call is still in [_requestedTiles] after it. *)
Theorem updateAndPushChildren_selects_nothing (fuel : nat) (ts ts' : Tileset)
    (tile : TileId) (stack stack' : list TileId) (fs : FrameState) (refines : bool) :
  updateAndPushChildren fuel ts tile stack fs = Some (refines, ts', stack') ->
  _selectedTiles ts' = _selectedTiles ts
  /\ (forall j, _refines (getTile ts' j) = _refines (getTile ts j))
  /\ (forall c, c ∈ _requestedTiles ts -> c ∈ _requestedTiles ts').
Proof. intros Hcall. apply (unselected_updateAndPushChildren _ _ _ _ _ _ _ _ Hcall). Qed.

Lemma updateAndPushChildren_selects_nothing_witness :
  exists ts' stack',
    updateAndPushChildren 1 tileset_addChild 0%nat [] frame_allVisible
    = Some (false, ts', stack')
    /\ _selectedTiles ts' = _selectedTiles tileset_addChild.
Proof.
  assert (H : exists ts' stack',
             updateAndPushChildren 1 tileset_addChild 0%nat [] frame_allVisible
             = Some (false, ts', stack'))
    by (eexists _, _; vm_compute; reflexivity).
  destruct H as (ts' & stack' & Hcall). exists ts', stack'. split; [exact Hcall|].
  apply (updateAndPushChildren_selects_nothing _ _ _ _ _ _ _ _ Hcall).
Defined.

(** ** The touches of a frame *)

Lemma touched_once_same (fs : FrameState) (ts0 ts ts' : Tileset) :
  same_touches ts ts' -> touched_once fs ts0 ts -> touched_once fs ts0 ts'.
Proof.
  intros [Hc Ht] (touched & H1 & H2 & H3 & H4). exists touched.
  rewrite Hc. split; [exact H1|]. split; [exact H2|]. split; [exact H3|].
  intros t. rewrite Ht. apply H4.
Qed.

Lemma touched_once_touchTile (fs : FrameState) (ts0 ts : Tileset) (tile : TileId) :
  touched_once fs ts0 ts -> touched_once fs ts0 (touchTile ts tile fs).
Proof.
  intros (touched & H1 & H2 & H3 & H4).
  destruct (Z.eqb_spec (_touchedFrame (getTile ts tile)) (frameNumber fs)) as [Heq|Hne].
  - unfold touchTile. rewrite (proj2 (Z.eqb_eq _ _) Heq). exists touched. auto.
  - assert (Hnew : (tile ∉ touched) /\ _touchedFrame (getTile ts0 tile) <> frameNumber fs).
    { split; intros H; apply Hne, H4; auto. }
    exists (touched ++ [tile]). rewrite touchTile_cache_touched.
    rewrite (proj2 (Z.eqb_neq _ _) Hne), H1, app_assoc. split; [reflexivity|].
    split.
    { apply NoDup_app. split; [exact H2|]. split; [|apply NoDup_singleton].
      intros t Ht Hin. apply list_elem_of_singleton in Hin as ->. exact (proj1 Hnew Ht). }
    split.
    { intros t Hin. apply elem_of_app in Hin as [Hin|Hin]; [apply H3, Hin|].
      apply list_elem_of_singleton in Hin as ->. apply Hnew. }
    intros t. rewrite getTile_touchTile, elem_of_app, list_elem_of_singleton.
    destruct (decide (t = tile)) as [->|Ht].
    + rewrite (proj2 (Z.eqb_neq _ _) Hne). fields. tauto.
    + rewrite H4. tauto.
Qed.

(** The goals [proj (op ts) = proj ts] for a field of the tileset and
    [proj (getTile (op ts) j) = proj (getTile ts j)] for a field of a tile
    that the operation [op] does not write. *)
Ltac tileset_field_kept :=
  unfold updateTile, touchTile, cache_touch, loadTile, updateMinMaxPriority, selectTile,
    visitTile, addEmptyTile, updateTileAncestorContentLinks, heatmap_resetMinMax;
  cbv zeta; case_ifs;
  repeat match goal with
         | |- context [match ?c with Some _ => _ | None => _ end] => destruct c
         end;
  reflexivity.

Ltac tile_field_kept :=
  let j := fresh "j" in
  intros j;
  rewrite ?getTile_updateTile, ?getTile_loadTile, ?getTile_touchTile, ?getTile_selectTile,
    ?getTile_visitTile, ?getTile_updateTileAncestorContentLinks, ?getTile_modTile;
  try match goal with
      | |- context [decide (?a = ?b)] => destruct (decide (a = b)); [subst|reflexivity]
      end;
  repeat match goal with
         | |- context [if ?c then _ else _] => destruct c
         | |- context [match ?c with Some _ => _ | None => _ end] => destruct c
         end;
  fields; reflexivity.

Lemma Stable_touched_once (fs : FrameState) (ts0 : Tileset) :
  Stable fs (touched_once fs ts0).
Proof.
  constructor; intros ts; intros;
    first [ apply touched_once_touchTile; assumption
          | eapply touched_once_same; [|eassumption]; split;
            [tileset_field_kept|tile_field_kept] ].
Qed.

(** X8.  Over a whole call of [selectTiles] the cache is touched at most
    once for a tile, however many passes reach it, and never for a tile
    that already carries the number of the frame in [_touchedFrame]: the
    touches of the call are distinct tiles, and afterwards exactly they and
    the tiles touched before carry the frame number. *)
Theorem selectTiles_touches_once (fuel : nat) (ts ts' : Tileset) (fs : FrameState)
    (ret : ReturnValue) :
  selectTiles fuel ts fs = Some (ret, ts') ->
  exists touched,
    _cache_touched ts' = _cache_touched ts ++ touched
    /\ NoDup touched
    /\ (forall t, t ∈ touched -> _touchedFrame (getTile ts t) <> frameNumber fs)
    /\ (forall t, _touchedFrame (getTile ts' t) = frameNumber fs
                  <-> t ∈ touched \/ _touchedFrame (getTile ts t) = frameNumber fs).
Proof.
  intros Hcall.
  apply (selectTiles_preserves fs _ (Stable_touched_once fs ts) _ _ _ _) with (2 := Hcall).
  exists []. rewrite app_nil_r. split; [reflexivity|]. split; [constructor|].
  split; [intros t Ht; inversion Ht|]. intros t. split; [auto|].
  intros [Ht|Ht]; [inversion Ht|exact Ht].
Qed.

Lemma selectTiles_touches_once_witness :
  exists ts',
    selectTiles 8 tileset_mixedContent frame_allVisible = Some (RetTrue, ts')
    /\ _cache_touched ts' = [0%nat; 1%nat; 2%nat]
    /\ exists touched,
         _cache_touched ts' = _cache_touched tileset_mixedContent ++ touched
         /\ NoDup touched.
Proof.
  assert (H : exists ts',
             selectTiles 8 tileset_mixedContent frame_allVisible = Some (RetTrue, ts')
             /\ _cache_touched ts' = [0%nat; 1%nat; 2%nat]).
  { eexists. split; vm_compute; reflexivity. }
  destruct H as (ts' & Hcall & Htouched). exists ts'. split; [exact Hcall|].
  split; [exact Htouched|].
  destruct (selectTiles_touches_once _ _ _ _ _ Hcall) as (touched & H1 & H2 & _).
  exists touched. auto.
Defined.

(** ** The requests of a frame *)

Lemma requests_invariant_same (fs : FrameState) (ts ts' : Tileset) :
  same_tiles Permutation ts ts' ->
  same_requests ts ts' -> requests_invariant fs ts -> requests_invariant fs ts'.
Proof.
  intros Hsame (H1 & H2 & H3 & H4) H t.
  rewrite H1, H2, H3, H4, (same_depth Permutation ts ts' Hsame),
    (same_hasUnloadedContent Permutation ts ts' Hsame),
    (same_contentExpired Permutation ts ts' Hsame).
  apply H.
Qed.

(** A request widens the range of levels of the tileset to the depth of
    the requested tile. *)
Lemma loadTile_levels (ts : Tileset) (tile : TileId) (fs : FrameState) :
  hasUnloadedContent ts tile || contentExpired (getTile ts tile) = true ->
  _minPriority_level (loadTile ts tile fs)
  = Z.min (_depth (getTile ts tile)) (_minPriority_level ts)
  /\ _maxPriority_level (loadTile ts tile fs)
     = Z.max (_depth (getTile ts tile)) (_maxPriority_level ts).
Proof.
  intros Hcond. unfold loadTile. rewrite Hcond. unfold updateMinMaxPriority. cbv zeta.
  rewrite !getTile_modTile_eq. fields. case_ifs; fields; split; reflexivity.
Qed.

Lemma requests_invariant_loadTile (fs : FrameState) (ts : Tileset) (tile : TileId) :
  requests_invariant fs ts -> requests_invariant fs (loadTile ts tile fs).
Proof.
  intros H.
  pose proof (same_tiles_loadTile Permutation fs ts tile) as Hsame.
  destruct (hasUnloadedContent ts tile || contentExpired (getTile ts tile)) eqn:Hcond.
  - intros t. destruct (loadTile_levels ts tile fs Hcond) as [-> ->].
    rewrite loadTile_requestedTiles, (same_depth Permutation ts _ Hsame),
      (same_hasUnloadedContent Permutation ts _ Hsame),
      (same_contentExpired Permutation ts _ Hsame), getTile_loadTile, Hcond.
    intros Hin. apply elem_of_app in Hin as [Hin|Hin].
    + destruct (H t Hin) as (H1 & H2 & H3).
      split; [destruct (decide (t = tile)) as [->|]; [reflexivity|exact H1]|].
      split; [lia|exact H3].
    + apply list_elem_of_singleton in Hin as ->.
      destruct (decide (tile = tile)); [|congruence].
      split; [reflexivity|]. split; [lia|exact Hcond].
  - unfold loadTile. rewrite Hcond. exact H.
Qed.

Lemma Stable_requests_invariant (fs : FrameState) : Stable fs (requests_invariant fs).
Proof.
  constructor; intros ts; intros;
    first [ apply requests_invariant_loadTile; assumption
          | eapply requests_invariant_same; [| |eassumption];
            [ first [ apply (stable_updateTile _ _ (Stable_same_tiles fs ts))
                    | apply (stable_touchTile _ _ (Stable_same_tiles fs ts))
                    | apply (stable_selectTile _ _ (Stable_same_tiles fs ts))
                    | apply (stable_visitTile _ _ (Stable_same_tiles fs ts))
                    | apply (stable_addEmptyTile _ _ (Stable_same_tiles fs ts))
                    | apply (stable_updateTileAncestorContentLinks _ _
                               (Stable_same_tiles fs ts))
                    | apply same_tiles_sort
                    | apply same_tiles_modTile; [apply _|reflexivity|reflexivity]
                    | apply same_tiles_with; [apply _|reflexivity|reflexivity] ];
              try reflexivity
            | split; [|split; [|split]]; try tileset_field_kept; tile_field_kept ]
          | intros t Ht; inversion Ht ].
Qed.

(** [selectTiles] empties [_requestedTiles] before anything else. *)
Lemma selectTiles_clears_requests (fuel : nat) (ts : Tileset) (fs : FrameState) :
  selectTiles fuel (with_requestedTiles [] ts) fs = selectTiles fuel ts fs.
Proof.
  assert (E : with_requestedTiles [] (with_requestedTiles [] ts) = with_requestedTiles [] ts)
    by (destruct ts; reflexivity).
  unfold selectTiles. cbv zeta. rewrite E. reflexivity.
Qed.

Lemma selectTiles_requests_invariant (fuel : nat) (ts ts' : Tileset) (fs : FrameState)
    (ret : ReturnValue) :
  selectTiles fuel ts fs = Some (ret, ts') -> requests_invariant fs ts'.
Proof.
  rewrite <- selectTiles_clears_requests.
  apply (selectTiles_preserves fs _ (Stable_requests_invariant fs)).
  intros t Ht. inversion Ht.
Qed.

(** X9.  After [selectTiles], every tile of [_requestedTiles] has content
    that is unloaded (and neither empty nor a tileset) or expired, and
    carries the number of the frame in [_requestedFrame]: a tile whose
    content is loaded and current is never requested, and no request of an
    earlier frame is left in the array. *)
Theorem selectTiles_requests_unloaded (fuel : nat) (ts ts' : Tileset) (fs : FrameState)
    (ret : ReturnValue) :
  selectTiles fuel ts fs = Some (ret, ts') ->
  forall t,
    t ∈ _requestedTiles ts' ->
    hasUnloadedContent ts t || contentExpired (getTile ts t) = true
    /\ _requestedFrame (getTile ts' t) = frameNumber fs.
Proof.
  intros Hcall t Ht.
  pose proof (selectTiles_preserves fs _ (Stable_same_tiles fs ts) _ _ _ _
                (same_tiles_refl Permutation ts) Hcall) as Hsame.
  destruct (selectTiles_requests_invariant _ _ _ _ _ Hcall t Ht) as (H1 & _ & H3).
  rewrite (same_hasUnloadedContent Permutation ts ts' Hsame),
    (same_contentExpired Permutation ts ts' Hsame) in H3. auto.
Qed.

Lemma selectTiles_requests_unloaded_witness :
  exists ts',
    selectTiles 4 tileset_unloadedChild frame_allVisible = Some (RetTrue, ts')
    /\ _requestedTiles ts' = [2%nat]
    /\ hasUnloadedContent tileset_unloadedChild 2%nat
       || contentExpired (getTile tileset_unloadedChild 2%nat) = true
    /\ _requestedFrame (getTile ts' 2%nat) = frameNumber frame_allVisible.
Proof.
  assert (H : exists ts',
             selectTiles 4 tileset_unloadedChild frame_allVisible = Some (RetTrue, ts')
             /\ _requestedTiles ts' = [2%nat]).
  { eexists. split; vm_compute; reflexivity. }
  destruct H as (ts' & Hcall & Hrequested). exists ts'. split; [exact Hcall|].
  split; [exact Hrequested|].
  apply (selectTiles_requests_unloaded _ _ _ _ _ Hcall). rewrite Hrequested. left.
Defined.

(** X10.  After [selectTiles], the range of levels of the tileset,
    [_minPriority.level] to [_maxPriority.level], contains the depth of
    every tile of [_requestedTiles]. *)
Theorem selectTiles_level_range (fuel : nat) (ts ts' : Tileset) (fs : FrameState)
    (ret : ReturnValue) :
  selectTiles fuel ts fs = Some (ret, ts') ->
  forall t,
    t ∈ _requestedTiles ts' ->
    _minPriority_level ts' <= _depth (getTile ts t) <= _maxPriority_level ts'.
Proof.
  intros Hcall t Ht.
  pose proof (selectTiles_preserves fs _ (Stable_same_tiles fs ts) _ _ _ _
                (same_tiles_refl Permutation ts) Hcall) as Hsame.
  destruct (selectTiles_requests_invariant _ _ _ _ _ Hcall t Ht) as (_ & H2 & _).
  rewrite (same_depth Permutation ts ts' Hsame) in H2. exact H2.
Qed.

Lemma selectTiles_level_range_witness :
  exists ts',
    selectTiles 2 tileset_hiddenGrandchild frame_hiddenGrandchild = Some (RetTrue, ts')
    /\ 2%nat ∈ _requestedTiles ts'
    /\ _minPriority_level ts' <= 2 <= _maxPriority_level ts'.
Proof.
  assert (H : exists ts',
             selectTiles 2 tileset_hiddenGrandchild frame_hiddenGrandchild
             = Some (RetTrue, ts')
             /\ _requestedTiles ts' = [2%nat; 2%nat]).
  { eexists. split; vm_compute; reflexivity. }
  destruct H as (ts' & Hcall & Hrequested). exists ts'. split; [exact Hcall|].
  assert (Hin : 2%nat ∈ _requestedTiles ts') by (rewrite Hrequested; left).
  split; [exact Hin|].
  assert (Hdepth : _depth (getTile tileset_hiddenGrandchild 2%nat) = 2)
    by (vm_compute; reflexivity).
  rewrite <- Hdepth. apply (selectTiles_level_range _ _ _ _ _ Hcall 2%nat Hin).
Defined.

(** ** What one round of the main traversal keeps *)

Lemma Popped_Round (fs : FrameState) (x : TileId) (P : Tileset -> Prop) :
  Popped fs x P -> Round fs x P.
Proof. intros HP. destruct HP. constructor; intros; auto. Qed.

Section DispatchWrites.
Context (fs : FrameState) (x : TileId) (P : Tileset -> Prop) (HP : Dispatch fs x P).

Lemma selectDescendants_children_dispatch (root : TileId) (children : list TileId) :
  forall ts stack,
    P ts -> P (fst (selectDescendants_children fs root children ts stack)).
Proof.
  induction children as [|child rest IH]; intros ts stack Hts; simpl; [exact Hts|].
  destruct (isVisible ts child); [|auto].
  destruct (contentAvailable (getTile ts child)).
  - cbv zeta. apply IH. destruct HP. auto.
  - destruct (_ <? _); auto.
Qed.

Lemma selectDescendants_dispatch (fuel : nat) (ts ts' : Tileset) (root : TileId) :
  P ts -> selectDescendants fuel ts root fs = Some ts' -> P ts'.
Proof.
  intros Hts. unfold selectDescendants.
  destruct (while _ _ fuel (ts, [root])) as [[ts1 stack1]|] eqn:Hrun; [|discriminate].
  intros H. injection H as <-.
  apply (while_invariant _ _ (fun st => P (fst st))) in Hrun as [Hinv _];
    [exact Hinv| |exact Hts].
  intros [ts2 stack2] [ts3 stack3] Hinv _. unfold selectDescendants_body.
  destruct stack2 as [|tile rest]; [discriminate|]. intros H. injection H as H.
  cbn [fst] in *.
  match type of H with
  | selectDescendants_children ?fs ?r ?c ?a ?b = _ =>
      pose proof (selectDescendants_children_dispatch r c a b) as Hgoal
  end.
  rewrite H in Hgoal. apply Hgoal. destruct HP. auto.
Qed.

Lemma selectDesiredTile_dispatch (fuel : nat) (ts ts' : Tileset) :
  P ts -> selectDesiredTile fuel ts x fs = Some ts' -> P ts'.
Proof.
  intros Hts. unfold selectDesiredTile.
  destruct (negb (skipLevelOfDetail ts)).
  - destruct (contentAvailable (getTile ts x)); intros H; injection H as <-;
      [destruct HP; auto|exact Hts].
  - cbv zeta.
    destruct (contentAvailable (getTile ts x)).
    + intros H. injection H as <-. apply (dispatch_shouldSelect _ _ _ HP); auto.
    + destruct (_ancestorWithContentAvailable (getTile ts x)) as [loadedTile|] eqn:Hlink.
      * intros H. injection H as <-. apply (dispatch_shouldSelect _ _ _ HP); auto.
      * apply selectDescendants_dispatch. exact Hts.
Qed.

(** After the popped tile has been added to the empty tiles. *)
Lemma executeTraversal_select_dispatch_after (fuel : nat) (ts ts' : Tileset)
    (baseTraversal stoppedRefining : bool) :
  P (if hasEmptyContent_ ts x then addEmptyTile ts x else ts) ->
  executeTraversal_select fuel ts x fs baseTraversal stoppedRefining = Some ts' -> P ts'.
Proof.
  unfold executeTraversal_select. cbv zeta.
  assert (Hload : forall ts1, P ts1 -> P (loadTile ts1 x fs)) by (destruct HP; auto).
  assert (Hselect : forall ts1 ts2, P ts1 -> selectDesiredTile fuel ts1 x fs = Some ts2 ->
                                    P ts2)
    by (intros ts1 ts2; apply selectDesiredTile_dispatch).
  assert (Hthen : forall ts1 ts2,
            P ts1 ->
            match selectDesiredTile fuel ts1 x fs with
            | Some ts3 => Some (loadTile ts3 x fs)
            | None => None
            end = Some ts2 -> P ts2).
  { intros ts1 ts2 H1. destruct (selectDesiredTile fuel ts1 x fs) as [ts3|] eqn:Hs;
      [|discriminate].
    intros H. injection H as <-. eauto. }
  destruct (hasEmptyContent_ ts x); intros Hts;
    repeat match goal with
           | |- (if ?c then _ else _) = _ -> _ => destruct c
           end;
    try (intros H; injection H as <-); eauto.
Qed.

Lemma updateAndPushChildren_dispatch (fuel : nat) (ts ts' : Tileset) (tile : TileId)
    (stack stack' : list TileId) (refines : bool) :
  P ts -> updateAndPushChildren fuel ts tile stack fs = Some (refines, ts', stack') -> P ts'.
Proof. destruct HP. apply updateAndPushChildren_preserves; auto. Qed.
End DispatchWrites.

Lemma Round_Dispatch (fs : FrameState) (x : TileId) (P : Tileset -> Prop) :
  Round fs x P -> Dispatch fs x P.
Proof. intros HP. destruct HP. constructor; intros; auto. Qed.

Section RoundWrites.
Context (fs : FrameState) (x : TileId) (P : Tileset -> Prop) (HP : Round fs x P).

Lemma selectDesiredTile_round (fuel : nat) (ts ts' : Tileset) :
  P ts -> selectDesiredTile fuel ts x fs = Some ts' -> P ts'.
Proof. apply (selectDesiredTile_dispatch fs x P (Round_Dispatch fs x P HP)). Qed.

(** After the popped tile has been added to the empty tiles. *)
Lemma executeTraversal_select_round_after (fuel : nat) (ts ts' : Tileset)
    (baseTraversal stoppedRefining : bool) :
  P (if hasEmptyContent_ ts x then addEmptyTile ts x else ts) ->
  executeTraversal_select fuel ts x fs baseTraversal stoppedRefining = Some ts' -> P ts'.
Proof. apply (executeTraversal_select_dispatch_after fs x P (Round_Dispatch fs x P HP)). Qed.

Lemma executeTraversal_select_round (fuel : nat) (ts ts' : Tileset)
    (baseTraversal stoppedRefining : bool) :
  P ts ->
  executeTraversal_select fuel ts x fs baseTraversal stoppedRefining = Some ts' -> P ts'.
Proof.
  intros Hts. apply executeTraversal_select_round_after.
  destruct (hasEmptyContent_ ts x) eqn:Hempty; [|exact Hts].
  apply (round_addEmptyTile _ _ _ HP); assumption.
Qed.

Lemma updateAndPushChildren_round (fuel : nat) (ts ts' : Tileset) (tile : TileId)
    (stack stack' : list TileId) (refines : bool) :
  P ts -> updateAndPushChildren fuel ts tile stack fs = Some (refines, ts', stack') -> P ts'.
Proof. apply (updateAndPushChildren_dispatch fs x P (Round_Dispatch fs x P HP)). Qed.

(** The round up to the dispatch on the content of the popped tile. *)
Lemma executeTraversal_body_round_head (fuel : nat) (base maximum : Z) (ts ts' : Tileset)
    (stack stack' : list TileId) :
  P ts ->
  executeTraversal_body fuel fs base maximum (ts, x :: stack) = Some (ts', stack') ->
  exists ts2 ts3 baseTraversal stoppedRefining refines,
    P ts2
    /\ same_tiles Permutation ts ts2
    /\ (skipLevelOfDetail ts = false -> baseTraversal = true)
    /\ executeTraversal_select fuel ts2 x fs baseTraversal stoppedRefining = Some ts3
    /\ ts' = modTile x (set_refines refines) (touchTile (visitTile ts3 x fs) x fs).
Proof.
  intros Hts Hbody. apply executeTraversal_body_inversion in Hbody. cbv zeta in Hbody.
  pose proof (same_tiles_executeTraversal_body_head fs ts x
                (Nat.max (traversal_stackMaximumLength ts) (length (x :: stack))))
    as Hhead.
  assert (H1 : P (updateTileAncestorContentLinks
                    (with_traversal_stackMaximumLength
                       (Nat.max (traversal_stackMaximumLength ts) (length (x :: stack))) ts)
                    x fs)) by (destruct HP; auto).
  set (ts1 := updateTileAncestorContentLinks _ x fs) in *. clearbody ts1.
  destruct Hbody as (baseTraversal & cr & ts2 & ts3 & Hbase & Hpush & Hselect & ->).
  exists ts2, ts3, baseTraversal. eexists _, _.
  split; [|split; [|split; [|split; [exact Hselect|reflexivity]]]].
  - destruct (canTraverse ts1 x).
    + exact (updateAndPushChildren_round _ _ _ _ _ _ _ H1 Hpush).
    + destruct Hpush as (_ & -> & _). exact H1.
  - etransitivity; [apply same_tiles_weaken, Hhead|].
    destruct (canTraverse ts1 x).
    + exact (same_tiles_updateAndPushChildren _ _ _ _ _ _ _ _ Hpush).
    + destruct Hpush as (_ & -> & _). reflexivity.
  - intros Hskip. rewrite inBaseTraversal_base in Hbase; [congruence|].
    rewrite (same_skipLevelOfDetail eq ts ts1 Hhead). exact Hskip.
Qed.

Lemma executeTraversal_body_round (fuel : nat) (base maximum : Z) (ts ts' : Tileset)
    (stack stack' : list TileId) :
  P ts ->
  executeTraversal_body fuel fs base maximum (ts, x :: stack) = Some (ts', stack') -> P ts'.
Proof.
  intros Hts Hbody.
  destruct (executeTraversal_body_round_head _ _ _ _ _ _ _ Hts Hbody)
    as (ts2 & ts3 & b & s & r & H2 & _ & _ & Hselect & ->).
  apply (executeTraversal_select_round _ _ _ _ _ H2) in Hselect. destruct HP. auto.
Qed.
End RoundWrites.

(** The same for the properties that survive the selection and the mark of
    any tile. *)
Section PoppedTile.
Context (fs : FrameState) (x : TileId) (P : Tileset -> Prop) (HP : Popped fs x P).

Lemma selectDesiredTile_popped (fuel : nat) (ts ts' : Tileset) :
  P ts -> selectDesiredTile fuel ts x fs = Some ts' -> P ts'.
Proof. apply selectDesiredTile_round, Popped_Round, HP. Qed.

Lemma executeTraversal_select_popped_after (fuel : nat) (ts ts' : Tileset)
    (baseTraversal stoppedRefining : bool) :
  P (if hasEmptyContent_ ts x then addEmptyTile ts x else ts) ->
  executeTraversal_select fuel ts x fs baseTraversal stoppedRefining = Some ts' -> P ts'.
Proof. apply executeTraversal_select_round_after, Popped_Round, HP. Qed.

Lemma executeTraversal_body_popped_head (fuel : nat) (base maximum : Z) (ts ts' : Tileset)
    (stack stack' : list TileId) :
  P ts ->
  executeTraversal_body fuel fs base maximum (ts, x :: stack) = Some (ts', stack') ->
  exists ts2 ts3 baseTraversal stoppedRefining refines,
    P ts2
    /\ same_tiles Permutation ts ts2
    /\ (skipLevelOfDetail ts = false -> baseTraversal = true)
    /\ executeTraversal_select fuel ts2 x fs baseTraversal stoppedRefining = Some ts3
    /\ ts' = modTile x (set_refines refines) (touchTile (visitTile ts3 x fs) x fs).
Proof. apply executeTraversal_body_round_head, Popped_Round, HP. Qed.

Lemma executeTraversal_body_popped (fuel : nat) (base maximum : Z) (ts ts' : Tileset)
    (stack stack' : list TileId) :
  P ts ->
  executeTraversal_body fuel fs base maximum (ts, x :: stack) = Some (ts', stack') -> P ts'.
Proof. apply executeTraversal_body_round, Popped_Round, HP. Qed.
End PoppedTile.

(** What every round keeps, the whole traversal keeps. *)
Lemma executeTraversal_popped_run (fs : FrameState) (P : Tileset -> Prop) :
  (forall x, Popped fs x P) ->
  forall fuel ts ts' root base maximum,
    P ts -> executeTraversal fuel ts root base maximum fs = Some ts' -> P ts'.
Proof.
  intros HP fuel ts ts' root base maximum Hts. unfold executeTraversal.
  destruct (while _ _ fuel (ts, [root])) as [[ts1 stack1]|] eqn:Hrun; [|discriminate].
  intros H. injection H as <-.
  apply (while_invariant _ _ (fun st => P (fst st))) in Hrun as [Hinv _];
    [exact Hinv| |exact Hts].
  intros [ts2 stack2] [ts3 stack3] Hinv Hcond Hbody. cbn [fst snd] in *.
  destruct stack2 as [|x rest]; [discriminate Hcond|].
  exact (executeTraversal_body_popped fs x P (HP x) _ _ _ _ _ _ _ Hinv Hbody).
Qed.

Lemma Popped_impl (fs : FrameState) (x : TileId) (P : Tileset -> Prop) (C : Prop) :
  Popped fs x P -> Popped fs x (fun ts => C -> P ts).
Proof. intros HP. destruct HP. constructor; intros; eauto. Qed.

Lemma Stable_Popped (fs : FrameState) (x : TileId) (P : Tileset -> Prop) :
  Stable fs P -> Popped fs x P.
Proof. intros HP. destruct HP. constructor; intros; auto. Qed.

(** The dispatch on the content loads the popped tile in every case but
    that of a REPLACE tile with content outside of the base traversal. *)
Lemma executeTraversal_select_loads (fs : FrameState) (x : TileId)
    (P' P : Tileset -> Prop) (fuel : nat) (ts ts' : Tileset)
    (baseTraversal stoppedRefining : bool) :
  Popped fs x P' -> Popped fs x P ->
  (forall ts1, P' ts1 -> P (loadTile ts1 x fs)) ->
  P' ts ->
  hasEmptyContent_ ts x = true \/ refine (getTile ts x) = ADD \/ baseTraversal = true ->
  executeTraversal_select fuel ts x fs baseTraversal stoppedRefining = Some ts' -> P ts'.
Proof.
  intros HP' HP Hload Hts Hcase. unfold executeTraversal_select. cbv zeta.
  destruct (hasEmptyContent_ ts x) eqn:Hempty.
  - assert (H1 : P (loadTile (addEmptyTile ts x) x fs)).
    { apply Hload, (popped_addEmptyTile _ _ _ HP'); assumption. }
    destruct stoppedRefining; [|intros H; injection H as <-; exact H1].
    apply (selectDesiredTile_popped fs x P HP), H1.
  - destruct (refine (getTile ts x)) eqn:Hrefine; cbn [Cesium3DTileRefine_eqb].
    + destruct (selectDesiredTile fuel ts x fs) as [ts3|] eqn:Hs; [|discriminate].
      intros H. injection H as <-.
      apply Hload, (selectDesiredTile_popped fs x P' HP' _ _ _ Hts Hs).
    + destruct Hcase as [H|[H|H]]; [discriminate H|discriminate H|subst baseTraversal].
      destruct stoppedRefining; [|intros H; injection H as <-; apply Hload, Hts].
      apply (selectDesiredTile_popped fs x P HP), Hload, Hts.
Qed.
(** ** The tiles that the main traversal pops *)

(** A round of the main traversal pushes the children of the popped tile
    that the frame sees, when the tile can be traversed, and nothing else. *)
Lemma executeTraversal_body_stack (fuel : nat) (fs : FrameState) (base maximum : Z)
    (ts0 ts ts' : Tileset) (x : TileId) (rest stack' : list TileId) :
  same_tiles Permutation ts0 ts ->
  executeTraversal_body fuel fs base maximum (ts, x :: rest) = Some (ts', stack') ->
  exists pushed,
    stack' = pushed ++ rest
    /\ forall c, c ∈ pushed
                 <-> canTraverse ts0 x = true /\ c ∈ children (getTile ts0 x)
                     /\ fs_visible fs c && fs_inRequestVolume fs c = true.
Proof.
  intros Hsame Hbody.
  assert (Hperm : forall l l' : list TileId, Permutation l l' -> Permutation l l') by auto.
  apply executeTraversal_body_inversion in Hbody. cbv zeta in Hbody.
  pose proof (same_tiles_executeTraversal_body_head fs ts x
                (Nat.max (traversal_stackMaximumLength ts) (length (x :: rest))))
    as Hhead.
  set (ts1 := updateTileAncestorContentLinks _ x fs) in *. clearbody ts1.
  assert (Hsame1 : same_tiles Permutation ts0 ts1)
    by (etransitivity; [exact Hsame|apply same_tiles_weaken, Hhead]).
  destruct Hbody as (_ & cr & ts2 & _ & _ & Hpush & _).
  rewrite (same_canTraverse Permutation ts0 ts1 Hperm Hsame1) in Hpush.
  pose proof (same_children Permutation ts0 ts1 Hperm Hsame1 x) as Hchildren.
  destruct (canTraverse ts0 x).
  - apply updateAndPushChildren_stack in Hpush as (pushed & -> & Hpushed).
    exists pushed. split; [reflexivity|]. intros c. rewrite Hpushed, <- Hchildren. tauto.
  - destruct Hpush as (_ & _ & ->). exists []. split; [reflexivity|].
    intros c. split; [intros H; inversion H|intros [H _]; discriminate H].
Qed.

(** Every tile on the stack of the main traversal is one that it reaches. *)
Lemma executeTraversal_stack_reached (fuel : nat) (fs : FrameState) (base maximum : Z)
    (ts0 ts ts' : Tileset) (root x : TileId) (rest stack' : list TileId) :
  same_tiles Permutation ts0 ts ->
  (forall s, s ∈ x :: rest -> traversal_reaches fs ts0 root s) ->
  executeTraversal_body fuel fs base maximum (ts, x :: rest) = Some (ts', stack') ->
  forall s, s ∈ stack' -> traversal_reaches fs ts0 root s.
Proof.
  intros Hsame Hstack Hbody s Hs.
  destruct (executeTraversal_body_stack _ _ _ _ _ _ _ _ _ _ Hsame Hbody)
    as (pushed & -> & Hpushed).
  apply elem_of_app in Hs as [Hs|Hs].
  - apply Hpushed in Hs as (H1 & H2 & H3).
    apply (traversal_child fs ts0 root x s); [apply Hstack; left|assumption..].
  - apply Hstack. right. exact Hs.
Qed.

Section Coverage.
Context (fs : FrameState) (ts0 : Tileset) (root : TileId).

(** A property [Q] that a round establishes for the tile it pops, and that
    no round takes from a tile, holds in the end for every tile that the
    traversal reaches. *)
Lemma executeTraversal_covers (Q : Tileset -> TileId -> Prop) (fuel : nat)
    (base maximum : Z) (ts' : Tileset) :
  (forall x t, Popped fs x (fun ts => Q ts t)) ->
  (forall ts ts1 x rest stack1,
     same_tiles Permutation ts0 ts ->
     executeTraversal_body fuel fs base maximum (ts, x :: rest) = Some (ts1, stack1) ->
     Q ts1 x) ->
  executeTraversal fuel ts0 root base maximum fs = Some ts' ->
  forall t, traversal_reaches fs ts0 root t -> Q ts' t.
Proof.
  intros Hkeep Hpop Hrun. unfold executeTraversal in Hrun.
  destruct (while _ _ fuel (ts0, [root])) as [[ts1 stack1]|] eqn:Hwhile; [|discriminate].
  injection Hrun as ->.
  apply (while_invariant _ _
           (fun st => same_tiles Permutation ts0 (fst st)
                      /\ forall t, traversal_reaches fs ts0 root t ->
                                   Q (fst st) t
                                   \/ exists s, s ∈ snd st /\ traversal_reaches fs ts0 s t))
    in Hwhile.
  - destruct Hwhile as [[_ Hreach] Hcond]. cbn [fst snd] in *.
    apply stack_nonempty_false in Hcond. subst stack1.
    intros t Ht. destruct (Hreach t Ht) as [H|(s & Hs & _)]; [exact H|inversion Hs].
  - intros [ts2 stack2] [ts3 stack3] [Hsame Hreach] Hcond Hbody. cbn [fst snd] in *.
    destruct stack2 as [|x rest]; [discriminate Hcond|].
    split.
    { apply (executeTraversal_body_preserves fs _ (Stable_same_tiles fs ts0) _ _ _ _ _ _ _
               Hsame Hbody). }
    destruct (executeTraversal_body_stack _ _ _ _ _ _ _ _ _ _ Hsame Hbody)
      as (pushed & Hstack & Hpushed).
    intros t Ht. destruct (Hreach t Ht) as [H|(s & Hs & Hst)].
    + left. exact (executeTraversal_body_popped fs x _ (Hkeep x t) _ _ _ _ _ _ _ H Hbody).
    + apply elem_of_cons in Hs as [->|Hs].
      * apply traversal_reaches_first in Hst as [->|(c & H1 & H2 & H3 & H4)].
        -- left. exact (Hpop _ _ _ _ _ Hsame Hbody).
        -- right. exists c. split; [|exact H4].
           rewrite Hstack. apply elem_of_app. left. apply Hpushed. auto.
      * right. exists s. split; [|exact Hst]. rewrite Hstack. apply elem_of_app. right.
        exact Hs.
  - split; [reflexivity|]. cbn [fst snd]. intros t Ht. right. exists root.
    split; [left|exact Ht].
Qed.

(** A mark [N] that a round gives to no tile but the one it pops, and to
    that one only under the condition [G], is in the end on no other tiles
    than those that had it and those that the traversal reaches. *)
Lemma executeTraversal_only_reached (N : Tileset -> TileId -> Prop) (G : TileId -> Prop)
    (fuel : nat) (base maximum : Z) (ts' : Tileset) :
  (forall x t (A : Prop), t <> x -> Popped fs x (fun ts => N ts t -> A)) ->
  (forall ts ts1 x rest stack1,
     same_tiles Permutation ts0 ts ->
     executeTraversal_body fuel fs base maximum (ts, x :: rest) = Some (ts1, stack1) ->
     N ts1 x -> N ts x \/ G x) ->
  executeTraversal fuel ts0 root base maximum fs = Some ts' ->
  forall t, N ts' t -> N ts0 t \/ (traversal_reaches fs ts0 root t /\ G t).
Proof.
  intros Hother Hself Hrun. unfold executeTraversal in Hrun.
  destruct (while _ _ fuel (ts0, [root])) as [[ts1 stack1]|] eqn:Hwhile; [|discriminate].
  injection Hrun as ->.
  apply (while_invariant _ _
           (fun st => same_tiles Permutation ts0 (fst st)
                      /\ (forall s, s ∈ snd st -> traversal_reaches fs ts0 root s)
                      /\ forall t, N (fst st) t ->
                                   N ts0 t \/ (traversal_reaches fs ts0 root t /\ G t)))
    in Hwhile.
  - destruct Hwhile as [(_ & _ & H) _]. exact H.
  - intros [ts2 stack2] [ts3 stack3] (Hsame & Hstack & Hmarks) Hcond Hbody.
    cbn [fst snd] in *.
    destruct stack2 as [|x rest]; [discriminate Hcond|].
    split.
    { apply (executeTraversal_body_preserves fs _ (Stable_same_tiles fs ts0) _ _ _ _ _ _ _
               Hsame Hbody). }
    split.
    { exact (executeTraversal_stack_reached _ _ _ _ _ _ _ _ _ _ _ Hsame Hstack Hbody). }
    intros t. destruct (decide (t = x)) as [->|Htx].
    + intros Ht. destruct (Hself _ _ _ _ _ Hsame Hbody Ht) as [H|H]; [apply Hmarks, H|].
      right. split; [apply Hstack; left|exact H].
    + exact (executeTraversal_body_popped fs x _ (Hother x t _ Htx) _ _ _ _ _ _ _
               (Hmarks t) Hbody).
  - split; [reflexivity|]. cbn [fst snd]. split.
    + intros s Hs. apply list_elem_of_singleton in Hs as ->. apply traversal_root.
    + intros t Ht. left. exact Ht.
Qed.
End Coverage.
(** ** Instances: visits, empty tiles and requests *)

Lemma Popped_True (fs : FrameState) (x : TileId) : Popped fs x (fun _ => True).
Proof. constructor; auto. Qed.

Lemma visitedFrame_kept (fs : FrameState) (x t : TileId) (A : Prop) :
  t <> x -> Popped fs x (fun ts => _visitedFrame (getTile ts t) = frameNumber fs -> A).
Proof.
  intros Htx. constructor; intros ts; intros; cbv beta in *;
    match goal with
    | H : _ -> A, H' : _visitedFrame _ = _ |- A => apply H; rewrite <- H'; symmetry
    end;
    rewrite ?getTile_updateTile, ?getTile_loadTile, ?getTile_touchTile, ?getTile_selectTile,
      ?getTile_visitTile, ?getTile_updateTileAncestorContentLinks, ?getTile_modTile;
    try match goal with
        | |- context [decide (?a = ?b)] =>
            destruct (decide (a = b)); [subst; try congruence|reflexivity]
        end;
    repeat match goal with
           | |- context [if ?c then _ else _] => destruct c
           | |- context [match ?c with Some _ => _ | None => _ end] => destruct c
           end;
    fields; reflexivity.
Qed.

Lemma visited_touched_kept (fs : FrameState) (x t : TileId) :
  Popped fs x (fun ts => _visitedFrame (getTile ts t) = frameNumber fs
                         /\ _touchedFrame (getTile ts t) = frameNumber fs).
Proof.
  constructor; intros ts; intros; cbv beta in *;
    match goal with H : _ /\ _ |- _ => destruct H as [H1 H2] end;
    rewrite ?getTile_updateTile, ?getTile_loadTile, ?getTile_touchTile, ?getTile_selectTile,
      ?getTile_visitTile, ?getTile_updateTileAncestorContentLinks, ?getTile_modTile;
    try match goal with
        | |- context [decide (?a = ?b)] =>
            destruct (decide (a = b)); [subst|split; assumption]
        end;
    repeat match goal with
           | |- context [if ?c then _ else _] => destruct c
           | |- context [match ?c with Some _ => _ | None => _ end] => destruct c
           end;
    fields; split; first [assumption|reflexivity].
Qed.

(** The end of a round visits and touches the popped tile. *)
Lemma executeTraversal_body_visits (fuel : nat) (fs : FrameState) (base maximum : Z)
    (ts ts' : Tileset) (x : TileId) (rest stack' : list TileId) :
  executeTraversal_body fuel fs base maximum (ts, x :: rest) = Some (ts', stack') ->
  _visitedFrame (getTile ts' x) = frameNumber fs
  /\ _touchedFrame (getTile ts' x) = frameNumber fs.
Proof.
  intros Hbody.
  destruct (executeTraversal_body_popped_head fs x _ (Popped_True fs x) _ _ _ _ _ _ _ I Hbody)
    as (ts2 & ts3 & b & s & r & _ & _ & _ & _ & ->).
  rewrite getTile_modTile_eq, getTile_touchTile, getTile_visitTile.
  destruct (decide (x = x)); [|congruence]. fields.
  destruct (Z.eqb_spec (_touchedFrame (getTile ts3 x)) (frameNumber fs)); fields; auto.
Qed.

(** Once a tile carries the frame number in [_visitedFrame], it keeps it. *)
Lemma Stable_visitedFrame (fs : FrameState) (t : TileId) :
  Stable fs (fun ts => _visitedFrame (getTile ts t) = frameNumber fs).
Proof.
  constructor; intros ts; intros; cbv beta in *;
    rewrite ?getTile_updateTile, ?getTile_loadTile, ?getTile_touchTile, ?getTile_selectTile,
      ?getTile_visitTile, ?getTile_updateTileAncestorContentLinks, ?getTile_modTile;
    try match goal with
        | |- context [decide (?a = ?b)] =>
            destruct (decide (a = b)); [subst|assumption]
        end;
    try assumption;
    repeat match goal with
           | |- context [if ?c then _ else _] => destruct c
           | |- context [match ?c with Some _ => _ | None => _ end] => destruct c
           end;
    fields; first [assumption|reflexivity].
Qed.

(** The result of the call, when it has returned. *)
Lemma executeTraversal_visits_reached_returned (fuel : nat) (ts ts' : Tileset) (root : TileId)
    (base maximum : Z) (fs : FrameState) :
  executeTraversal fuel ts root base maximum fs = Some ts' ->
  (forall t, _visitedFrame (getTile ts' t) = frameNumber fs
             <-> traversal_reaches fs ts root t
                 \/ _visitedFrame (getTile ts t) = frameNumber fs)
  /\ (forall t, traversal_reaches fs ts root t ->
                _touchedFrame (getTile ts' t) = frameNumber fs).
Proof.
  intros Hrun.
  pose proof (executeTraversal_covers fs ts root
                (fun ts t => _visitedFrame (getTile ts t) = frameNumber fs
                             /\ _touchedFrame (getTile ts t) = frameNumber fs)
                fuel base maximum ts'
                (fun x t => visited_touched_kept fs x t)
                (fun ts1 ts2 x rest stack1 _ Hbody =>
                   executeTraversal_body_visits _ _ _ _ _ _ _ _ _ Hbody)
                Hrun) as Hcovers.
  pose proof (executeTraversal_only_reached fs ts root
                (fun ts t => _visitedFrame (getTile ts t) = frameNumber fs)
                (fun _ => True) fuel base maximum ts'
                (fun x t A Htx => visitedFrame_kept fs x t A Htx)
                (fun _ _ _ _ _ _ _ _ => or_intror I)
                Hrun) as Honly.
  cbv beta in *. split.
  - intros t. split.
    + intros Ht. destruct (Honly t Ht) as [H|[H _]]; auto.
    + intros [Ht|Ht]; [apply Hcovers, Ht|].
      apply (executeTraversal_preserves fs _
               (Stable_visitedFrame fs t) _ _ _ _ _ _ Ht Hrun).
  - intros t Ht. apply Hcovers, Ht.
Qed.

(** X11.  [executeTraversal] visits exactly the tiles that it reaches from
    the root, going down from a tile that can be traversed to those of its
    children that the frame sees: after the call these tiles, and beside
    them only tiles that carried the frame number before, have the number
    of the frame in [_visitedFrame]; the tiles it reaches are also
    touched.  The call returns on a finite tree once the fuel covers the
    size of the root. *)
Theorem executeTraversal_visits_reached (fuel : nat) (ts : Tileset) (root : TileId)
    (base maximum : Z) (fs : FrameState) (size : TileId -> nat) :
  (forall ts',
     executeTraversal fuel ts root base maximum fs = Some ts' ->
     (forall t, _visitedFrame (getTile ts' t) = frameNumber fs
                <-> traversal_reaches fs ts root t
                    \/ _visitedFrame (getTile ts t) = frameNumber fs)
     /\ (forall t, traversal_reaches fs ts root t ->
                   _touchedFrame (getTile ts' t) = frameNumber fs))
  /\ (tree_sizes ts size -> (size root <= fuel)%nat ->
      exists ts', executeTraversal fuel ts root base maximum fs = Some ts').
Proof.
  split.
  - intros ts'. apply (executeTraversal_visits_reached_returned fuel ts ts' root base maximum fs).
  - apply executeTraversal_terminates.
Qed.

Lemma executeTraversal_visits_reached_witness :
  exists ts',
    executeTraversal 4 (selectTiles_start tileset_unloadedChild frame_allVisible) 0%nat
      16 16 frame_allVisible = Some ts'
    /\ _visitedFrame (getTile ts' 1%nat) = frameNumber frame_allVisible
    /\ _touchedFrame (getTile ts' 1%nat) = frameNumber frame_allVisible.
Proof.
  assert (H : exists ts',
             executeTraversal 4 (selectTiles_start tileset_unloadedChild frame_allVisible)
               0%nat 16 16 frame_allVisible = Some ts')
    by (eexists; vm_compute; reflexivity).
  destruct H as (ts' & Hrun). exists ts'. split; [exact Hrun|].
  assert (Hreach : traversal_reaches frame_allVisible
                     (selectTiles_start tileset_unloadedChild frame_allVisible) 0%nat 1%nat).
  { apply (traversal_child _ _ _ 0%nat 1%nat); [apply traversal_root|..].
    - vm_compute. reflexivity.
    - assert (Hc : children (getTile (selectTiles_start tileset_unloadedChild
                                        frame_allVisible) 0%nat) = [1%nat; 2%nat])
        by (vm_compute; reflexivity).
      rewrite Hc. left.
    - vm_compute. reflexivity. }
  destruct (proj1 (executeTraversal_visits_reached 4
                     (selectTiles_start tileset_unloadedChild frame_allVisible) 0%nat
                     16 16 frame_allVisible size_example) ts' Hrun) as [Hvisited Htouched].
  split; [apply Hvisited; left; exact Hreach|apply Htouched, Hreach].
Defined.

(** *** Empty tiles *)

Lemma emptyTiles_kept (fs : FrameState) (x t : TileId) (A : Prop) :
  t <> x -> Popped fs x (fun ts => t ∈ _emptyTiles ts -> A).
Proof.
  intros Htx. constructor; intros ts; intros; cbv beta in *;
    match goal with
    | H : _ -> A, H' : t ∈ _ |- A => apply H; revert H'
    end;
    try (unfold addEmptyTile; fields; rewrite elem_of_app, list_elem_of_singleton;
         intros [?|?]; [assumption|congruence]);
    match goal with
    | |- t ∈ ?l -> t ∈ ?l' => assert (E : l = l'); [|rewrite E; auto]
    end;
    tileset_field_kept.
Qed.

Lemma emptyTiles_grow (fs : FrameState) (x t : TileId) :
  Popped fs x (fun ts => t ∈ _emptyTiles ts).
Proof.
  constructor; intros ts; intros; cbv beta in *;
    try (unfold addEmptyTile; fields; rewrite elem_of_app; left; assumption);
    match goal with
    | H : t ∈ ?l' |- t ∈ ?l => assert (E : l = l'); [|rewrite E; assumption]
    end;
    tileset_field_kept.
Qed.

(** A tile without empty content is not added to the empty tiles. *)
Lemma emptyTiles_kept_content (fs : FrameState) (ts0 : Tileset) (x t : TileId) (A : Prop) :
  hasEmptyContent_ ts0 x = false ->
  Popped fs x (fun ts => same_tiles Permutation ts0 ts /\ (t ∈ _emptyTiles ts -> A)).
Proof.
  intros Hcontent. constructor; intros ts; intros; cbv beta in *;
    match goal with
    | H : _ /\ _ |- _ => destruct H as [Hsame H]
    end;
    try match goal with
        | Hguard : hasEmptyContent_ ts x = true |- _ =>
            rewrite (same_hasEmptyContent Permutation ts0 ts Hsame) in Hguard; congruence
        end;
    (split;
     [ first [ apply (stable_updateTile _ _ (Stable_same_tiles fs ts0))
             | apply (stable_loadTile _ _ (Stable_same_tiles fs ts0))
             | apply (stable_touchTile _ _ (Stable_same_tiles fs ts0))
             | apply (stable_selectTile _ _ (Stable_same_tiles fs ts0))
             | apply (stable_visitTile _ _ (Stable_same_tiles fs ts0))
             | apply (stable_updateTileAncestorContentLinks _ _ (Stable_same_tiles fs ts0))
             | apply (stable_sort _ _ (Stable_same_tiles fs ts0))
             | apply (stable_wasMinChild _ _ (Stable_same_tiles fs ts0))
             | apply (stable_priorityDistance _ _ (Stable_same_tiles fs ts0))
             | apply (stable_priorityDistanceHolder _ _ (Stable_same_tiles fs ts0))
             | apply (stable_shouldSelect _ _ (Stable_same_tiles fs ts0))
             | apply (stable_refines _ _ (Stable_same_tiles fs ts0))
             | apply (stable_traversal_stackMaximumLength _ _ (Stable_same_tiles fs ts0))
             | apply (stable_emptyTraversal_stackMaximumLength _ _ (Stable_same_tiles fs ts0))
             | apply (stable_descendantTraversal_stackMaximumLength _ _
                        (Stable_same_tiles fs ts0)) ];
       exact Hsame
     | intros H'; apply H; revert H';
       match goal with
       | |- t ∈ ?l -> t ∈ ?l' => assert (E : l = l'); [|rewrite E; auto]
       end;
       tileset_field_kept ]).
Qed.

(** A round adds the popped tile to the empty tiles when it has empty
    content. *)
Lemma executeTraversal_body_adds_empty (fuel : nat) (fs : FrameState) (base maximum : Z)
    (ts0 ts ts' : Tileset) (x : TileId) (rest stack' : list TileId) :
  same_tiles Permutation ts0 ts ->
  executeTraversal_body fuel fs base maximum (ts, x :: rest) = Some (ts', stack') ->
  hasEmptyContent_ ts0 x = true -> x ∈ _emptyTiles ts'.
Proof.
  intros Hsame Hbody Hempty.
  destruct (executeTraversal_body_popped_head fs x _ (Popped_True fs x) _ _ _ _ _ _ _ I Hbody)
    as (ts2 & ts3 & b & s & r & _ & Hsame2 & _ & Hselect & ->).
  apply (executeTraversal_select_popped_after fs x _ (emptyTiles_grow fs x x)) in Hselect.
  - destruct (emptyTiles_grow fs x x). auto.
  - rewrite (same_hasEmptyContent Permutation ts ts2 Hsame2),
      (same_hasEmptyContent Permutation ts0 ts Hsame), Hempty.
    unfold addEmptyTile. fields. apply elem_of_app. right. left.
Qed.

(** The result of the call, when it has returned. *)
Lemma executeTraversal_emptyTiles_returned (fuel : nat) (ts ts' : Tileset) (root : TileId)
    (base maximum : Z) (fs : FrameState) :
  executeTraversal fuel ts root base maximum fs = Some ts' ->
  forall t, t ∈ _emptyTiles ts'
            <-> t ∈ _emptyTiles ts
                \/ (traversal_reaches fs ts root t /\ hasEmptyContent_ ts t = true).
Proof.
  intros Hrun t. split.
  - revert t.
    apply (executeTraversal_only_reached fs ts root (fun ts t => t ∈ _emptyTiles ts)
             (fun t => hasEmptyContent_ ts t = true) fuel base maximum ts');
      [|clear Hrun|exact Hrun].
    + intros x t A Htx. apply emptyTiles_kept, Htx.
    + intros ts1 ts2 x rest stack1 Hsame Hbody Hin.
      destruct (hasEmptyContent_ ts x) eqn:Hempty; [right; reflexivity|left].
      apply (executeTraversal_body_popped fs x _
               (emptyTiles_kept_content fs ts x x (x ∈ _emptyTiles ts1) Hempty)
               _ _ _ _ _ _ _ (conj Hsame (fun H => H)) Hbody).
      exact Hin.
  - intros [Hbefore|[Hreach Hempty]].
    + apply (executeTraversal_popped_run fs (fun ts => t ∈ _emptyTiles ts)
               (fun x => emptyTiles_grow fs x t) _ _ _ _ _ _ Hbefore Hrun).
    + apply (executeTraversal_covers fs ts root
               (fun ts1 t => hasEmptyContent_ ts t = true -> t ∈ _emptyTiles ts1)
               fuel base maximum ts'); [| |exact Hrun|exact Hreach|exact Hempty].
      * intros x t'. apply Popped_impl, emptyTiles_grow.
      * intros ts1 ts2 x rest stack1 Hsame Hbody Hc.
        exact (executeTraversal_body_adds_empty _ _ _ _ _ _ _ _ _ _ Hsame Hbody Hc).
Qed.

(** X12.  After [executeTraversal], the array [_emptyTiles] holds what it
    held before and, beside that, exactly the tiles with empty content or
    with tileset content that the traversal reaches.  The call returns on
    a finite tree once the fuel covers the size of the root. *)
Theorem executeTraversal_emptyTiles (fuel : nat) (ts : Tileset) (root : TileId)
    (base maximum : Z) (fs : FrameState) (size : TileId -> nat) :
  (forall ts',
     executeTraversal fuel ts root base maximum fs = Some ts' ->
     forall t, t ∈ _emptyTiles ts'
               <-> t ∈ _emptyTiles ts
                   \/ (traversal_reaches fs ts root t /\ hasEmptyContent_ ts t = true))
  /\ (tree_sizes ts size -> (size root <= fuel)%nat ->
      exists ts', executeTraversal fuel ts root base maximum fs = Some ts').
Proof.
  split.
  - intros ts'. apply (executeTraversal_emptyTiles_returned fuel ts ts' root base maximum fs).
  - apply executeTraversal_terminates.
Qed.

Lemma executeTraversal_emptyTiles_witness :
  exists ts',
    executeTraversal 4 (selectTiles_start tileset_emptyChild frame_allVisible) 0%nat
      16 16 frame_allVisible = Some ts'
    /\ 1%nat ∈ _emptyTiles ts'.
Proof.
  assert (H : exists ts',
             executeTraversal 4 (selectTiles_start tileset_emptyChild frame_allVisible)
               0%nat 16 16 frame_allVisible = Some ts')
    by (eexists; vm_compute; reflexivity).
  destruct H as (ts' & Hrun). exists ts'. split; [exact Hrun|].
  apply (proj1 (executeTraversal_emptyTiles 4
                  (selectTiles_start tileset_emptyChild frame_allVisible) 0%nat 16 16
                  frame_allVisible size_example) ts' Hrun).
  right. split.
  - apply (traversal_child _ _ _ 0%nat 1%nat); [apply traversal_root|..].
    + vm_compute. reflexivity.
    + assert (Hc : children (getTile (selectTiles_start tileset_emptyChild
                                        frame_allVisible) 0%nat) = [1%nat])
        by (vm_compute; reflexivity).
      rewrite Hc. left.
    + vm_compute. reflexivity.
  - vm_compute. reflexivity.
Defined.

(** *** Requests *)

Lemma requestedTiles_grow (fs : FrameState) (x t : TileId) :
  Popped fs x (fun ts => t ∈ _requestedTiles ts).
Proof.
  constructor; intros ts; intros; cbv beta in *;
    try (rewrite loadTile_requestedTiles; case_ifs; [apply elem_of_app; left|]; assumption);
    match goal with
    | H : t ∈ ?l' |- t ∈ ?l => assert (E : l = l'); [|rewrite E; assumption]
    end;
    tileset_field_kept.
Qed.

(** A round requests the popped tile when its content is unloaded or
    expired, in every case but that of a REPLACE tile with content under
    skip-LOD. *)
Lemma executeTraversal_body_requests (fuel : nat) (fs : FrameState) (base maximum : Z)
    (ts0 ts ts' : Tileset) (x : TileId) (rest stack' : list TileId) :
  same_tiles Permutation ts0 ts ->
  executeTraversal_body fuel fs base maximum (ts, x :: rest) = Some (ts', stack') ->
  skipLevelOfDetail ts0 = false \/ hasEmptyContent_ ts0 x = true
  \/ refine (getTile ts0 x) = ADD ->
  hasUnloadedContent ts0 x || contentExpired (getTile ts0 x) = true ->
  x ∈ _requestedTiles ts'.
Proof.
  intros Hsame Hbody Hcase Hcond.
  destruct (executeTraversal_body_popped_head fs x _
              (Stable_Popped fs x _ (Stable_same_tiles fs ts0)) _ _ _ _ _ _ _ Hsame Hbody)
    as (ts2 & ts3 & b & s & r & Hsame2 & _ & Hbase & Hselect & ->).
  apply (executeTraversal_select_loads fs x (same_tiles Permutation ts0)
           (fun ts => x ∈ _requestedTiles ts)) in Hselect.
  - destruct (requestedTiles_grow fs x x). auto.
  - apply Stable_Popped, Stable_same_tiles.
  - apply requestedTiles_grow.
  - intros ts1 Hsame1. rewrite loadTile_requestedTiles,
      (same_hasUnloadedContent Permutation ts0 ts1 Hsame1),
      (same_contentExpired Permutation ts0 ts1 Hsame1), Hcond.
    apply elem_of_app. right. left.
  - exact Hsame2.
  - rewrite (same_hasEmptyContent Permutation ts0 ts2 Hsame2),
      (same_refine Permutation ts0 ts2 Hsame2).
    rewrite (same_skipLevelOfDetail Permutation ts0 ts Hsame) in Hbase.
    destruct Hcase as [H|[H|H]]; auto.
Qed.

(** The result of the call, when it has returned. *)
Lemma executeTraversal_requests_reached_returned (fuel : nat) (ts ts' : Tileset) (root : TileId)
    (base maximum : Z) (fs : FrameState) (t : TileId) :
  executeTraversal fuel ts root base maximum fs = Some ts' ->
  traversal_reaches fs ts root t ->
  skipLevelOfDetail ts = false \/ hasEmptyContent_ ts t = true
  \/ refine (getTile ts t) = ADD ->
  hasUnloadedContent ts t || contentExpired (getTile ts t) = true ->
  t ∈ _requestedTiles ts'.
Proof.
  intros Hrun Hreach Hcase Hcond.
  apply (executeTraversal_covers fs ts root
           (fun ts1 t =>
              (skipLevelOfDetail ts = false \/ hasEmptyContent_ ts t = true
               \/ refine (getTile ts t) = ADD)
              /\ hasUnloadedContent ts t || contentExpired (getTile ts t) = true ->
              t ∈ _requestedTiles ts1)
           fuel base maximum ts'); [| |exact Hrun|exact Hreach|auto].
  - intros x t'. apply Popped_impl, requestedTiles_grow.
  - intros ts1 ts2 x rest stack1 Hsame Hbody [H1 H2].
    exact (executeTraversal_body_requests _ _ _ _ _ _ _ _ _ _ Hsame Hbody H1 H2).
Qed.

(** X13.  When skip-LOD is off, [executeTraversal] requests every tile
    with unloaded or expired content that it reaches; under skip-LOD it
    does so for the ADD tiles and for the tiles with empty or tileset
    content.  The call returns on a finite tree once the fuel covers the
    size of the root. *)
Theorem executeTraversal_requests_reached (fuel : nat) (ts : Tileset) (root : TileId)
    (base maximum : Z) (fs : FrameState) (size : TileId -> nat) :
  (forall ts' t,
     executeTraversal fuel ts root base maximum fs = Some ts' ->
     traversal_reaches fs ts root t ->
     skipLevelOfDetail ts = false \/ hasEmptyContent_ ts t = true
     \/ refine (getTile ts t) = ADD ->
     hasUnloadedContent ts t || contentExpired (getTile ts t) = true ->
     t ∈ _requestedTiles ts')
  /\ (tree_sizes ts size -> (size root <= fuel)%nat ->
      exists ts', executeTraversal fuel ts root base maximum fs = Some ts').
Proof.
  split.
  - intros ts' t.
    apply (executeTraversal_requests_reached_returned fuel ts ts' root base maximum fs t).
  - apply executeTraversal_terminates.
Qed.

Lemma executeTraversal_requests_reached_witness :
  exists ts',
    executeTraversal 4 (selectTiles_start tileset_unloadedChild frame_allVisible) 0%nat
      16 16 frame_allVisible = Some ts'
    /\ 2%nat ∈ _requestedTiles ts'.
Proof.
  assert (H : exists ts',
             executeTraversal 4 (selectTiles_start tileset_unloadedChild frame_allVisible)
               0%nat 16 16 frame_allVisible = Some ts')
    by (eexists; vm_compute; reflexivity).
  destruct H as (ts' & Hrun). exists ts'. split; [exact Hrun|].
  apply (proj1 (executeTraversal_requests_reached 4
                  (selectTiles_start tileset_unloadedChild frame_allVisible) 0%nat 16 16
                  frame_allVisible size_example) ts' 2%nat Hrun).
  - apply (traversal_child _ _ _ 0%nat 2%nat); [apply traversal_root|..].
    + vm_compute. reflexivity.
    + assert (Hc : children (getTile (selectTiles_start tileset_unloadedChild
                                        frame_allVisible) 0%nat) = [1%nat; 2%nat])
        by (vm_compute; reflexivity).
      rewrite Hc. right. left.
    + vm_compute. reflexivity.
  - left. vm_compute. reflexivity.
  - vm_compute. reflexivity.
Defined.

(** ** The tiles that the selection pass selects *)

(** What a round of the selection pass adds to the selected tiles: the
    waiting ancestor that it pops, or the marked tile that it pops from
    the stack unless this is a REPLACE tile that goes to the ancestor
    stack. *)
Lemma traverseAndSelect_body_selects (fs : FrameState) (st st' : SelectionLoop) :
  traverseAndSelect_body fs st = Some st' ->
  let ts := sl_tileset st in
  (exists a rest,
     sl_ancestorStack st = a :: rest
     /\ _stackLength (getTile ts a) = length (sl_stack st)
     /\ _selectedTiles (sl_tileset st') = _selectedTiles (selectTile ts a fs))
  \/ (match sl_ancestorStack st with
      | a :: _ => _stackLength (getTile ts a) <> length (sl_stack st)
      | [] => True
      end
      /\ match sl_stack st with
         | [] => _selectedTiles (sl_tileset st') = _selectedTiles ts
         | x :: _ =>
             _selectedTiles (sl_tileset st')
             = if _shouldSelect (getTile ts x)
                  && (Cesium3DTileRefine_eqb (refine (getTile ts x)) ADD
                      || negb (canTraverse ts x))
               then _selectedTiles (selectTile ts x fs) else _selectedTiles ts
         end).
Proof.
  unfold traverseAndSelect_body. cbv zeta.
  set (tsm := with_selectionTraversal_ancestorStackMaximumLength _ _).
  assert (Hm : _selectedTiles tsm = _selectedTiles (sl_tileset st)
               /\ (forall j, getTile tsm j = getTile (sl_tileset st) j)
               /\ forall j, canTraverse tsm j = canTraverse (sl_tileset st) j)
    by (split; [|split]; reflexivity).
  destruct Hm as (Hsel & Hget & Htraverse). clearbody tsm.
  cbn [sl_ancestorStack sl_stack sl_lastAncestor].
  assert (Hselect : forall ts1 x,
            _selectedTiles ts1 = _selectedTiles (sl_tileset st) ->
            _selectedTiles (selectTile ts1 x fs)
            = _selectedTiles (selectTile (sl_tileset st) x fs)).
  { intros ts1 x H1. rewrite !selectTile_selectedTiles, H1. reflexivity. }
  assert (Hvisit : match sl_stack st with
                   | [] =>
                       _selectedTiles
                         (sl_tileset
                            (traverseAndSelect_visit fs
                               (mkSelectionLoop tsm (sl_stack st) (sl_ancestorStack st)
                                  (sl_lastAncestor st))))
                       = _selectedTiles (sl_tileset st)
                   | x :: _ =>
                       _selectedTiles
                         (sl_tileset
                            (traverseAndSelect_visit fs
                               (mkSelectionLoop tsm (sl_stack st) (sl_ancestorStack st)
                                  (sl_lastAncestor st))))
                       = if _shouldSelect (getTile (sl_tileset st) x)
                            && (Cesium3DTileRefine_eqb (refine (getTile (sl_tileset st) x)) ADD
                                || negb (canTraverse (sl_tileset st) x))
                         then _selectedTiles (selectTile (sl_tileset st) x fs)
                         else _selectedTiles (sl_tileset st)
                   end).
  { unfold traverseAndSelect_visit. cbv zeta.
    cbn [sl_tileset sl_stack sl_ancestorStack sl_lastAncestor].
    destruct (sl_stack st) as [|x rest]; [cbn [sl_tileset]; exact Hsel|].
    rewrite Hget, Htraverse.
    destruct (_shouldSelect (getTile (sl_tileset st) x)); cbn [andb];
      [|cbn [sl_tileset]; exact Hsel].
    destruct (Cesium3DTileRefine_eqb _ ADD); cbn [orb];
      [cbn [sl_tileset]; apply Hselect, Hsel|].
    set (ts1 := if (0 <? _)%nat then _ else _).
    assert (H1 : _selectedTiles ts1 = _selectedTiles (sl_tileset st)).
    { subst ts1. destruct (0 <? _)%nat; exact Hsel. }
    clearbody ts1.
    destruct (negb _); cbn [sl_tileset]; [apply Hselect, H1|].
    change (_selectedTiles (modTile ?i ?f ?a)) with (_selectedTiles a). exact H1. }
  destruct (sl_ancestorStack st) as [|a rest] eqn:Hanc.
  - intros H. injection H as <-. right. split; [exact I|exact Hvisit].
  - rewrite Hget.
    destruct (Nat.eqb_spec (_stackLength (getTile (sl_tileset st) a))
                (length (sl_stack st))) as [Hlen|Hlen].
    + intros H. injection H as <-. left. exists a, rest.
      split; [reflexivity|]. split; [exact Hlen|]. cbn [sl_tileset].
      apply Hselect. destruct (negb _); exact Hsel.
    + intros H. injection H as <-. right. split; [exact Hlen|exact Hvisit].
Qed.

(** A round of the selection pass, read in the tileset [ts] in which the
    pass started: it pops a waiting ancestor and selects it, or finds the
    stack empty, or pops a tile [x] from the stack, pushes its visible
    children when it can be traversed, and selects [x] or lets it wait on
    the ancestor stack when it is marked. *)
Lemma traverseAndSelect_body_effect (fs : FrameState) (ts : Tileset)
    (st st' : SelectionLoop) :
  same_selection ts (sl_tileset st) ->
  traverseAndSelect_body fs st = Some st' ->
  same_selection ts (sl_tileset st')
  /\ ((exists a rest,
         sl_ancestorStack st = a :: rest
         /\ sl_stack st' = sl_stack st
         /\ sl_ancestorStack st' = rest
         /\ _selectedTiles (sl_tileset st') = _selectedTiles (selectTile (sl_tileset st) a fs)
         /\ _stackLength (getTile (sl_tileset st) a) = length (sl_stack st)
         /\ forall j, _stackLength (getTile (sl_tileset st') j)
                      = _stackLength (getTile (sl_tileset st) j))
      \/ (sl_stack st = []
          /\ sl_stack st' = []
          /\ sl_ancestorStack st' = sl_ancestorStack st
          /\ _selectedTiles (sl_tileset st') = _selectedTiles (sl_tileset st))
      \/ (exists x rest pushed,
            sl_stack st = x :: rest
            /\ sl_stack st' = pushed ++ rest
            /\ (forall c, c ∈ pushed
                          <-> canTraverse ts x = true /\ c ∈ children (getTile ts x)
                              /\ isVisible ts c = true)
            /\ sl_ancestorStack st'
               = (if selectionAncestor ts x && canTraverse ts x
                  then x :: sl_ancestorStack st else sl_ancestorStack st)
            /\ _selectedTiles (sl_tileset st')
               = (if _shouldSelect (getTile ts x)
                     && (Cesium3DTileRefine_eqb (refine (getTile ts x)) ADD
                         || negb (canTraverse ts x))
                  then _selectedTiles (selectTile (sl_tileset st) x fs)
                  else _selectedTiles (sl_tileset st))
            /\ match sl_ancestorStack st with
               | a :: _ => _stackLength (getTile (sl_tileset st) a) <> length (sl_stack st)
               | [] => True
               end
            /\ forall j,
                 _stackLength (getTile (sl_tileset st') j)
                 = if decide (j = x) then
                     if selectionAncestor ts x && canTraverse ts x then length rest
                     else _stackLength (getTile (sl_tileset st) x)
                   else _stackLength (getTile (sl_tileset st) j))).
Proof.
  intros Hsame Hbody.
  pose proof (traverseAndSelect_body_selects fs st st' Hbody) as Hselects.
  apply traverseAndSelect_body_spec in Hbody. cbv zeta in Hbody, Hselects.
  destruct Hbody as [(a & rest & Ha & Hlen & Hsame' & Hstack' & Hanc' & HL & _)
                    |(Hlen & tsm & Hsamem & Hgetm & ->)].
  - split; [eapply same_selection_trans; eassumption|]. left. exists a, rest.
    split; [exact Ha|]. split; [exact Hstack'|]. split; [exact Hanc'|].
    split; [|split; [exact Hlen|exact HL]].
    destruct Hselects as [(a' & rest' & Ha' & _ & Hsel)|[Hne _]].
    + rewrite Ha in Ha'. injection Ha' as <- <-. exact Hsel.
    + rewrite Ha in Hne. contradiction.
  - assert (Hsel : match sl_stack st with
                   | [] =>
                       _selectedTiles
                         (sl_tileset
                            (traverseAndSelect_visit fs
                               (mkSelectionLoop tsm (sl_stack st) (sl_ancestorStack st)
                                  (sl_lastAncestor st))))
                       = _selectedTiles (sl_tileset st)
                   | x :: _ =>
                       _selectedTiles
                         (sl_tileset
                            (traverseAndSelect_visit fs
                               (mkSelectionLoop tsm (sl_stack st) (sl_ancestorStack st)
                                  (sl_lastAncestor st))))
                       = if _shouldSelect (getTile (sl_tileset st) x)
                            && (Cesium3DTileRefine_eqb (refine (getTile (sl_tileset st) x)) ADD
                                || negb (canTraverse (sl_tileset st) x))
                         then _selectedTiles (selectTile (sl_tileset st) x fs)
                         else _selectedTiles (sl_tileset st)
                   end).
    { destruct Hselects as [(a & rest & Ha & Hlen' & _)|[_ H]]; [|exact H].
      rewrite Ha in Hlen. contradiction. }
    clear Hselects.
    destruct (sl_stack st) as [|x rest] eqn:Hst.
    + rewrite traverseAndSelect_visit_empty in * by reflexivity.
      cbn [sl_tileset sl_stack sl_ancestorStack] in *.
      split; [eapply same_selection_trans; eassumption|]. right. left. auto.
    + pose proof (traverseAndSelect_visit_spec fs
                    (mkSelectionLoop tsm (x :: rest) (sl_ancestorStack st)
                       (sl_lastAncestor st)) x rest eq_refl) as Hspec.
      cbv zeta in Hspec. cbn [sl_tileset sl_stack sl_ancestorStack] in Hspec.
      destruct Hspec as (Hsame' & Hstack' & Hanc' & HL & _).
      pose proof (same_selection_trans _ _ _ Hsame Hsamem) as Hsame0.
      rewrite (same_selection_canTraverse ts tsm Hsame0),
        (same_selection_selectionAncestor ts tsm Hsame0) in *.
      rewrite (same_selection_children ts tsm Hsame0),
        (pushVisibleChildren_ext ts tsm) in Hstack'
        by apply (same_selection_isVisible ts tsm Hsame0).
      assert (HL' : forall j,
                _stackLength
                  (getTile
                     (sl_tileset
                        (traverseAndSelect_visit fs
                           (mkSelectionLoop tsm (x :: rest) (sl_ancestorStack st)
                              (sl_lastAncestor st)))) j)
                = if decide (j = x) then
                    if selectionAncestor ts x && canTraverse ts x then length rest
                    else _stackLength (getTile (sl_tileset st) x)
                  else _stackLength (getTile (sl_tileset st) j)).
      { intros j. rewrite HL, !Hgetm. reflexivity. }
      clear HL.
      rewrite (same_selection_canTraverse ts _ Hsame) in Hsel.
      destruct (same_selection_flags ts _ Hsame x) as (Hmark & _).
      rewrite Hmark in Hsel.
      destruct Hsame as [Hinputs Hflags].
      rewrite (same_refine eq ts _ Hinputs) in Hsel.
      split; [eapply same_selection_trans; [|exact Hsame']; exact Hsame0|].
      right. right.
      destruct (canTraverse ts x) eqn:Htraverse.
      * destruct (pushVisibleChildren_spec ts (children (getTile ts x)) rest)
          as (pushed & Hpush & _ & Hpushed).
        exists x, rest, pushed. split; [reflexivity|].
        split; [rewrite Hstack'; exact Hpush|].
        rewrite ?Htraverse.
        split; [intros c; rewrite Hpushed; tauto|]. split; [exact Hanc'|].
        split; [exact Hsel|]. split; [exact Hlen|exact HL'].
      * exists x, rest, []. split; [reflexivity|]. split; [exact Hstack'|].
        rewrite ?Htraverse.
        split; [|split; [exact Hanc'|split; [exact Hsel|split; [exact Hlen|exact HL']]]].
        intros c. split; [intros H; inversion H|intros [H _]; discriminate H].
Qed.

(** The selection pass adds to the selected tiles exactly the marked tiles
    that it reaches and whose content is not outside the view. *)
Lemma traverseAndSelect_selected_tiles (fuel : nat) (ts ts' : Tileset) (root : TileId)
    (fs : FrameState) :
  traverseAndSelect fuel ts root fs = Some ts' ->
  forall t,
    t ∈ _selectedTiles ts'
    <-> t ∈ _selectedTiles ts
        \/ (selection_reaches ts root t
            /\ _shouldSelect (getTile ts t) = true
            /\ Tile_contentVisibility fs t <> OUTSIDE).
Proof.
  intros Hrun. unfold traverseAndSelect in Hrun.
  destruct (while _ _ fuel _) as [st'|] eqn:Hwhile; [|discriminate].
  injection Hrun as <-.
  set (sel := fun t => selection_reaches ts root t
                       /\ _shouldSelect (getTile ts t) = true
                       /\ Tile_contentVisibility fs t <> OUTSIDE).
  assert (Hselect : forall ts1 a t,
            t ∈ _selectedTiles (selectTile ts1 a fs)
            <-> t ∈ _selectedTiles ts1 \/ (t = a /\ Tile_contentVisibility fs a <> OUTSIDE)).
  { intros ts1 a t. rewrite selectTile_selectedTiles.
    destruct (Tile_contentVisibility fs a); cbn [Intersect_eqb];
      rewrite ?elem_of_app, ?list_elem_of_singleton.
    - split; [auto|]. intros [H|[_ H]]; [exact H|congruence].
    - split; (intros [H|H]; [left; exact H|right]); [split; [exact H|discriminate]|apply H].
    - split; (intros [H|H]; [left; exact H|right]); [split; [exact H|discriminate]|apply H]. }
  apply (while_invariant _ _
           (fun st =>
              same_selection ts (sl_tileset st)
              /\ (forall x, x ∈ sl_stack st -> selection_reaches ts root x)
              /\ (forall a, a ∈ sl_ancestorStack st ->
                            selection_reaches ts root a
                            /\ _shouldSelect (getTile ts a) = true)
              /\ (forall t, t ∈ _selectedTiles (sl_tileset st) ->
                            t ∈ _selectedTiles ts \/ sel t)
              /\ (forall t, t ∈ _selectedTiles ts -> t ∈ _selectedTiles (sl_tileset st))
              /\ (forall t, sel t ->
                            t ∈ _selectedTiles (sl_tileset st)
                            \/ t ∈ sl_ancestorStack st
                            \/ exists x, x ∈ sl_stack st /\ selection_reaches ts x t)))
    in Hwhile.
  - destruct Hwhile as [(_ & _ & _ & Hsound & Hold & Hcomplete) Hcond].
    unfold traverseAndSelect_cond in Hcond. apply orb_false_elim in Hcond as [H1 H2].
    apply stack_nonempty_false in H1, H2.
    intros t. split; [apply Hsound|]. intros [Ht|Ht]; [apply Hold, Ht|].
    destruct (Hcomplete t Ht) as [H|[H|(x & H & _)]]; [exact H|..].
    + rewrite H2 in H. inversion H.
    + rewrite H1 in H. inversion H.
  - clear st' Hwhile.
    intros st st' (Hsame & Hstack & Hanc & Hsound & Hold & Hcomplete) _ Hbody.
    destruct (traverseAndSelect_body_effect fs ts st st' Hsame Hbody) as [Hsame' Hcases].
    split; [exact Hsame'|].
    destruct Hcases as [(a & rest & Ha & Hstack' & Hanc' & Hsel & _)
                       |[(Hempty & Hstack' & Hanc' & Hsel)
                        |(x & rest & pushed & Hx & Hstack' & Hpushed & Hanc' & Hsel & _)]].
    + destruct (Hanc a) as [Hreach Hmark]; [rewrite Ha; left|].
      rewrite Hstack', Hanc'. split; [exact Hstack|].
      split; [intros b Hb; apply Hanc; rewrite Ha; right; exact Hb|].
      split; [|split].
      * intros t. rewrite Hsel, Hselect. intros [Ht|[-> Ht]]; [apply Hsound, Ht|].
        right. split; [exact Hreach|]. split; [exact Hmark|exact Ht].
      * intros t Ht. rewrite Hsel, Hselect. left. apply Hold, Ht.
      * intros t Ht. rewrite Hsel, Hselect.
        destruct (Hcomplete t Ht) as [H|[H|H]]; [auto| |auto].
        rewrite Ha in H. apply elem_of_cons in H as [->|H]; [|auto].
        left. right. split; [reflexivity|apply Ht].
    + rewrite Hstack', Hanc', Hsel. rewrite Hempty in Hstack, Hcomplete. auto 7.
    + assert (Hreach : selection_reaches ts root x) by (apply Hstack; rewrite Hx; left).
      split.
      { intros c. rewrite Hstack'. intros Hc. apply elem_of_app in Hc as [Hc|Hc].
        - apply Hpushed in Hc as (H1 & H2 & H3).
          apply (reaches_child ts root x c); assumption.
        - apply Hstack. rewrite Hx. right. exact Hc. }
      split.
      { intros a. rewrite Hanc'.
        destruct (selectionAncestor ts x && canTraverse ts x) eqn:Hm; [|apply Hanc].
        intros Ha. apply elem_of_cons in Ha as [->|Ha]; [|apply Hanc, Ha].
        split; [exact Hreach|]. unfold selectionAncestor in Hm.
        apply andb_prop in Hm as [Hm _]. apply andb_prop in Hm as [Hm _]. exact Hm. }
      assert (Hgrow : forall t, t ∈ _selectedTiles (sl_tileset st) ->
                                t ∈ _selectedTiles (sl_tileset st')).
      { intros t Ht. rewrite Hsel. destruct (_shouldSelect (getTile ts x) && _);
          [apply Hselect; left|]; exact Ht. }
      split; [|split].
      * intros t. rewrite Hsel.
        destruct (_shouldSelect (getTile ts x)) eqn:Hmark; cbn [andb]; [|apply Hsound].
        destruct (_ || _); [|apply Hsound].
        rewrite Hselect. intros [Ht|[-> Ht]]; [apply Hsound, Ht|].
        right. split; [exact Hreach|]. split; [exact Hmark|exact Ht].
      * intros t Ht. apply Hgrow, Hold, Ht.
      * intros t Ht. destruct (Hcomplete t Ht) as [H|[H|(s & Hs & Hst)]].
        -- left. apply Hgrow, H.
        -- right. left. rewrite Hanc'. destruct (selectionAncestor ts x && _); [right|]; exact H.
        -- rewrite Hx in Hs. apply elem_of_cons in Hs as [->|Hs].
           ++ apply selection_reaches_first in Hst as [->|(c & H1 & H2 & H3 & H4)].
              ** destruct Ht as (_ & Hmark & Hvisible).
                 rewrite Hsel, Hanc'. unfold selectionAncestor. rewrite Hmark. cbn [andb].
                 destruct (Cesium3DTileRefine_eqb (refine (getTile ts x)) ADD);
                   cbn [orb negb andb].
                 --- left. apply Hselect. right. auto.
                 --- destruct (canTraverse ts x); cbn [negb].
                     +++ right. left. left.
                     +++ left. apply Hselect. right. auto.
              ** right. right. exists c. split; [|exact H4].
                 rewrite Hstack'. apply elem_of_app. left. apply Hpushed. auto.
           ++ right. right. exists s. split; [|exact Hst].
              rewrite Hstack'. apply elem_of_app. right. exact Hs.
  - cbn [sl_tileset sl_stack sl_ancestorStack].
    split; [apply same_selection_refl|].
    split; [intros x Hx; apply list_elem_of_singleton in Hx as ->; apply reaches_root|].
    split; [intros a Ha; inversion Ha|]. split; [auto|]. split; [auto|].
    intros t Ht. right. right. exists root. split; [left|apply Ht].
Qed.

(** X14.  [traverseAndSelect] selects exactly the marked tiles that it
    reaches and whose content is not outside the view: after the call
    [_selectedTiles] holds what it held before and, beside that, exactly
    the tiles with [_shouldSelect] that the pass reaches from the root
    through tiles that can be traversed and visible children, and whose
    content visibility is not OUTSIDE.  The call returns on a finite tree
    once the fuel covers twice the size of the root. *)
Theorem traverseAndSelect_selects_marked (fuel : nat) (ts : Tileset) (root : TileId)
    (fs : FrameState) (size : TileId -> nat) :
  (forall ts',
     traverseAndSelect fuel ts root fs = Some ts' ->
     forall t,
       t ∈ _selectedTiles ts'
       <-> t ∈ _selectedTiles ts
           \/ (selection_reaches ts root t
               /\ _shouldSelect (getTile ts t) = true
               /\ Tile_contentVisibility fs t <> OUTSIDE))
  /\ (tree_sizes ts size -> (2 * size root <= fuel)%nat ->
      exists ts', traverseAndSelect fuel ts root fs = Some ts').
Proof.
  split.
  - intros ts'. apply traverseAndSelect_selected_tiles.
  - intros Hsizes. apply (traverseAndSelect_terminates ts root fs size Hsizes).
Qed.

Lemma traverseAndSelect_selects_marked_witness :
  exists ts1 ts',
    executeTraversal 8 (selectTiles_start tileset_mixedContent frame_allVisible) 0%nat
      Number_MAX_VALUE 16 frame_allVisible = Some ts1
    /\ traverseAndSelect 8 ts1 0%nat frame_allVisible = Some ts'
    /\ 1%nat ∈ _selectedTiles ts'.
Proof.
  assert (H : exists ts1,
             executeTraversal 8 (selectTiles_start tileset_mixedContent frame_allVisible)
               0%nat Number_MAX_VALUE 16 frame_allVisible = Some ts1
             /\ canTraverse ts1 0%nat = true
             /\ children (getTile ts1 0%nat) = [2%nat; 1%nat]
             /\ isVisible ts1 1%nat = true
             /\ _shouldSelect (getTile ts1 1%nat) = true
             /\ exists ts', traverseAndSelect 8 ts1 0%nat frame_allVisible = Some ts').
  { eexists. split; [vm_compute; reflexivity|].
    repeat (split; [vm_compute; reflexivity|]). eexists. vm_compute. reflexivity. }
  destruct H as (ts1 & Hrun & Htraverse & Hchildren & Hvisible & Hmark & ts' & Hselect).
  exists ts1, ts'. split; [exact Hrun|]. split; [exact Hselect|].
  apply (proj1 (traverseAndSelect_selects_marked 8 ts1 0%nat frame_allVisible size_example)
           ts' Hselect).
  right. split; [|split; [exact Hmark|discriminate]].
  apply (reaches_child _ _ 0%nat 1%nat); [apply reaches_root|exact Htraverse| |exact Hvisible].
  rewrite Hchildren. right. left.
Defined.

(** ** The entry point *)

(** The three early exits of [selectTiles]: a frozen frame, a root that
    the frame does not see, and a root that meets the screen space error. *)
Lemma selectTiles_early_exit (fuel : nat) (ts : Tileset) (fs : FrameState) :
  debugFreezeFrame ts = true
  \/ fs_visible fs (root ts) && fs_inRequestVolume fs (root ts) = false
  \/ fs_screenSpaceErrorWithParentError fs (root ts) <= _maximumScreenSpaceError ts ->
  selectTiles fuel ts fs
  = Some (RetUndefined,
          if debugFreezeFrame ts then with_requestedTiles [] ts
          else updateTile
                 (with_hasMixedContent false
                    (with_emptyTiles []
                       (with_selectedTilesToStyle []
                          (with_selectedTiles [] (with_requestedTiles [] ts)))))
                 (root ts) fs).
Proof.
  intros Hexit. unfold selectTiles. cbv zeta. fields.
  destruct (debugFreezeFrame ts); [reflexivity|].
  rewrite updateTile_visible.
  destruct (fs_visible fs (root ts) && fs_inRequestVolume fs (root ts)); [|reflexivity].
  cbn [negb]. unfold Tile_getScreenSpaceError.
  change (_maximumScreenSpaceError (updateTile ?a ?b ?c)) with (_maximumScreenSpaceError a).
  fields.
  destruct (Z.leb_spec (fs_screenSpaceErrorWithParentError fs (root ts))
              (_maximumScreenSpaceError ts)) as [|Hsse]; [reflexivity|].
  destruct Hexit as [H|[H|H]]; [discriminate H|discriminate H|lia].
Qed.

(** X15.  On a finite tree, given fuel for twice the size of the root,
    [selectTiles] returns: no loop runs on and no [parent] of an undefined
    tile is read.  It returns [true] exactly when the frame is not frozen,
    the frame sees the root, and the screen space error of the root under
    the geometric error of its parent is above the maximum; otherwise it
    returns [undefined] with empty requests, without a visit or a touch of
    the cache, and with the selection of the last frame when the frame is
    frozen, with an empty selection when it is not. *)
Theorem selectTiles_returns (fuel : nat) (ts : Tileset) (fs : FrameState)
    (size : TileId -> nat) :
  tree_sizes ts size -> (2 * size (root ts) <= fuel)%nat ->
  exists r ts',
    selectTiles fuel ts fs = Some (r, ts')
    /\ (r = RetTrue
        <-> debugFreezeFrame ts = false
            /\ fs_visible fs (root ts) && fs_inRequestVolume fs (root ts) = true
            /\ _maximumScreenSpaceError ts < fs_screenSpaceErrorWithParentError fs (root ts))
    /\ (r = RetUndefined ->
        _requestedTiles ts' = []
        /\ _selectedTiles ts' = (if debugFreezeFrame ts then _selectedTiles ts else [])
        /\ _statistics_visited ts' = _statistics_visited ts
        /\ _cache_touched ts' = _cache_touched ts).
Proof.
  intros Hsizes Hfuel.
  destruct (debugFreezeFrame ts) eqn:Hfreeze;
    [|destruct (fs_visible fs (root ts) && fs_inRequestVolume fs (root ts)) eqn:Hvisible;
      [destruct (Z.leb_spec (fs_screenSpaceErrorWithParentError fs (root ts))
                   (_maximumScreenSpaceError ts)) as [Hsse|Hsse]|]].
  - eexists _, _. split; [apply selectTiles_early_exit; auto|]. rewrite Hfreeze.
    split; [split; [discriminate|intros [H _]; discriminate H]|]. auto.
  - eexists _, _. split; [apply selectTiles_early_exit; auto|]. rewrite Hfreeze.
    split; [split; [discriminate|intros (_ & _ & H); lia]|]. auto.
  - destruct (selectTiles_terminates fuel ts fs size Hsizes Hfuel) as (r & ts' & Hrun).
    exists r, ts'. split; [exact Hrun|].
    assert (Hr : r = RetTrue).
    { rewrite selectTiles_traverses in Hrun by assumption.
      destruct (executeTraversal _ _ _ _ _ _); [|discriminate].
      destruct (skipLevelOfDetail ts); [destruct (traverseAndSelect _ _ _ _)|];
        congruence. }
    rewrite Hr. split; [tauto|discriminate].
  - eexists _, _. split; [apply selectTiles_early_exit; auto|]. rewrite Hfreeze.
    split; [split; [discriminate|intros (_ & H & _); discriminate H]|]. auto.
Qed.

Lemma selectTiles_returns_witness :
  exists r ts', selectTiles 8 tileset_unloadedChild frame_allVisible = Some (r, ts').
Proof.
  destruct (selectTiles_returns 8 tileset_unloadedChild frame_allVisible size_example)
    as (r & ts' & Hrun & _).
  - apply tree_sizes_unloadedChild.
  - vm_compute. lia.
  - exists r, ts'. exact Hrun.
Defined.

(** ** The range of priorities *)

(** X16.  [updateMinMaxPriority] only widens the ranges of the tileset:
    afterwards the range of distances reaches down to the priority
    distance of the tile and up to that of its priority holder, the range
    of levels contains the depth of the tile, and no bound has moved
    inwards.  [minDistanceTile] changes only to the tile, and then the
    tile holds the new minimum. *)
Theorem updateMinMaxPriority_widens (ts : Tileset) (tile : TileId) :
  let t := getTile ts tile in
  let ts' := updateMinMaxPriority ts tile in
  (_minPriority_distance ts' <= _priorityDistance t
   /\ _priorityDistance (getTile ts (_priorityDistanceHolder t)) <= _maxPriority_distance ts'
   /\ _minPriority_level ts' <= _depth t <= _maxPriority_level ts')
  /\ (_minPriority_distance ts' <= _minPriority_distance ts
      /\ _maxPriority_distance ts <= _maxPriority_distance ts'
      /\ _minPriority_level ts' <= _minPriority_level ts
      /\ _maxPriority_level ts <= _maxPriority_level ts')
  /\ (_minPriority_minDistanceTile ts' = _minPriority_minDistanceTile ts
      \/ (_minPriority_minDistanceTile ts' = Some tile
          /\ _minPriority_distance ts' = _priorityDistance t
          /\ _priorityDistance t < _minPriority_distance ts)).
Proof.
  cbv zeta. unfold updateMinMaxPriority. cbv zeta. fields.
  destruct (Z.ltb_spec (_priorityDistance (getTile ts tile)) (_minPriority_distance ts));
    fields;
    match goal with
    | |- context [if ?c then _ else _] => destruct c
    end;
    fields; repeat split; try lia; auto.
Qed.

(** ** The descendants that stand in for an unloaded tile *)

(** The [for] loop of [selectDescendants] over the children of a popped
    tile: it selects children with available content, and pushes children
    without it that are less than [descendantSelectionDepth] levels below
    the root. *)
Lemma selectDescendants_children_effect (fs : FrameState) (ts0 : Tileset) (root : TileId)
    (children : list TileId) :
  forall ts stack,
    same_tiles eq ts0 ts ->
    same_tiles eq ts0 (fst (selectDescendants_children fs root children ts stack))
    /\ (forall s, s ∈ snd (selectDescendants_children fs root children ts stack) ->
                  s ∈ stack
                  \/ (s ∈ children
                      /\ _depth (getTile ts0 s) - _depth (getTile ts0 root)
                         < descendantSelectionDepth
                      /\ contentAvailable (getTile ts0 s) = false))
    /\ (forall t, t ∈ _selectedTiles
                        (fst (selectDescendants_children fs root children ts stack)) ->
                  t ∈ _selectedTiles ts
                  \/ (t ∈ children
                      /\ contentAvailable (getTile ts0 t) = true
                      /\ Tile_contentVisibility fs t <> OUTSIDE)).
Proof.
  induction children as [|child rest IH]; intros ts stack Hsame.
  - cbn [selectDescendants_children fst snd]. auto.
  - cbn [selectDescendants_children]. cbv zeta.
    assert (Hskip : forall stack',
              (forall s, s ∈ stack' ->
                         s ∈ stack
                         \/ (s ∈ child :: rest
                             /\ _depth (getTile ts0 s) - _depth (getTile ts0 root)
                                < descendantSelectionDepth
                             /\ contentAvailable (getTile ts0 s) = false)) ->
              same_tiles eq ts0 (fst (selectDescendants_children fs root rest ts stack'))
              /\ (forall s, s ∈ snd (selectDescendants_children fs root rest ts stack') ->
                            s ∈ stack
                            \/ (s ∈ child :: rest
                                /\ _depth (getTile ts0 s) - _depth (getTile ts0 root)
                                   < descendantSelectionDepth
                                /\ contentAvailable (getTile ts0 s) = false))
              /\ (forall t, t ∈ _selectedTiles
                                  (fst (selectDescendants_children fs root rest ts stack')) ->
                            t ∈ _selectedTiles ts
                            \/ (t ∈ child :: rest
                                /\ contentAvailable (getTile ts0 t) = true
                                /\ Tile_contentVisibility fs t <> OUTSIDE))).
    { intros stack' Hstack'. destruct (IH ts stack' Hsame) as (H1 & H2 & H3).
      split; [exact H1|]. split.
      - intros s Hs. destruct (H2 s Hs) as [H|(Ha & Hb & Hc)]; [apply Hstack', H|].
        right. split; [right; exact Ha|auto].
      - intros t Ht. destruct (H3 t Ht) as [H|(Ha & Hb & Hc)]; [left; exact H|].
        right. split; [right; exact Ha|auto]. }
    destruct (isVisible ts child); [|apply Hskip; auto].
    rewrite (same_contentAvailable eq ts0 ts Hsame), (same_depth eq ts0 ts Hsame),
      (same_depth eq ts0 ts Hsame root).
    destruct (contentAvailable (getTile ts0 child)) eqn:Havailable.
    + assert (Hsame' : same_tiles eq ts0
                         (selectTile (touchTile (updateTile ts child fs) child fs) child fs)).
      { etransitivity; [exact Hsame|].
        etransitivity; [apply same_tiles_updateTile; apply _|].
        etransitivity; [apply same_tiles_touchTile; apply _|].
        apply same_tiles_selectTile; apply _. }
      destruct (IH _ stack Hsame') as (H1 & H2 & H3).
      split; [exact H1|]. split.
      * intros s Hs. destruct (H2 s Hs) as [H|(Ha & Hb & Hc)]; [left; exact H|].
        right. split; [right; exact Ha|auto].
      * intros t Ht. destruct (H3 t Ht) as [H|(Ha & Hb & Hc)].
        -- rewrite selectTile_selectedTiles, touchTile_selectedTiles,
             updateTile_selectedTiles in H.
           destruct (Tile_contentVisibility fs child) eqn:Hv; cbn [Intersect_eqb] in H;
             [left; exact H|..];
             (apply elem_of_app in H as [H|H]; [left; exact H|];
              apply list_elem_of_singleton in H as ->; right;
              split; [left|split; [exact Havailable|rewrite Hv; discriminate]]).
        -- right. split; [right; exact Ha|auto].
    + destruct (Z.ltb_spec (_depth (getTile ts0 child) - _depth (getTile ts0 root))
                  descendantSelectionDepth) as [Hnear|Hfar].
      * apply Hskip. intros s Hs. apply elem_of_cons in Hs as [->|Hs]; [|left; exact Hs].
        right. split; [left|auto].
      * apply Hskip. auto.
Qed.

Lemma lineage_depth (ts : Tileset) (root t : TileId) (l : list TileId) :
  (forall p c, c ∈ children (getTile ts p) ->
               _depth (getTile ts c) = _depth (getTile ts p) + 1) ->
  lineage ts root t l ->
  _depth (getTile ts t) = _depth (getTile ts root) + Z.of_nat (length l).
Proof.
  intros Hlevels. induction 1 as [|p c l Hp IH Hc]; [cbn [length]; lia|].
  rewrite (Hlevels p c Hc), IH. cbn [length]. lia.
Qed.

(** X17.  [selectDescendants] selects only descendants of its root that
    have available content, not outside the view, and whose parent is the
    root or a tile without available content less than two levels below
    the root; where a child is one level below its parent, every tile it
    selects is one or two levels below the root. *)
Theorem selectDescendants_selects_near (fuel : nat) (ts ts' : Tileset) (root : TileId)
    (fs : FrameState) :
  selectDescendants fuel ts root fs = Some ts' ->
  forall t,
    t ∈ _selectedTiles ts' ->
    t ∈ _selectedTiles ts
    \/ (contentAvailable (getTile ts t) = true
        /\ Tile_contentVisibility fs t <> OUTSIDE
        /\ (exists p l,
              lineage ts root t (p :: l)
              /\ (p = root
                  \/ (_depth (getTile ts p) - _depth (getTile ts root) < 2
                      /\ contentAvailable (getTile ts p) = false)))
        /\ ((forall p c, c ∈ children (getTile ts p) ->
                         _depth (getTile ts c) = _depth (getTile ts p) + 1) ->
            1 <= _depth (getTile ts t) - _depth (getTile ts root) <= 2)).
Proof.
  intros Hrun. unfold selectDescendants in Hrun.
  destruct (while _ _ fuel (ts, [root])) as [[ts1 stack1]|] eqn:Hwhile; [|discriminate].
  injection Hrun as ->.
  set (near := fun p => p = root
                        \/ (_depth (getTile ts p) - _depth (getTile ts root) < 2
                            /\ contentAvailable (getTile ts p) = false)).
  set (sel := fun t => contentAvailable (getTile ts t) = true
                       /\ Tile_contentVisibility fs t <> OUTSIDE
                       /\ exists p l, lineage ts root t (p :: l) /\ near p).
  assert (Hdepth : forall t, sel t ->
            (forall p c, c ∈ children (getTile ts p) ->
                         _depth (getTile ts c) = _depth (getTile ts p) + 1) ->
            1 <= _depth (getTile ts t) - _depth (getTile ts root) <= 2).
  { intros t (_ & _ & p & l & Hline & Hnear) Hlevels.
    pose proof (lineage_depth ts root t _ Hlevels Hline) as Ht.
    inversion Hline as [|p' c l' Hp Hc]; subst.
    pose proof (lineage_depth ts root p _ Hlevels Hp) as Hp'.
    rewrite (Hlevels p t Hc). destruct Hnear as [->|[Hnear _]]; lia. }
  assert (Hgoal : forall t, t ∈ _selectedTiles ts' -> t ∈ _selectedTiles ts \/ sel t).
  2: { intros t Ht. destruct (Hgoal t Ht) as [H|H]; [left; exact H|right].
       pose proof (Hdepth t H) as Hd. destruct H as (H1 & H2 & H3). auto. }
  clear Hdepth.
  apply (while_invariant _ _
           (fun st => same_tiles eq ts (fst st)
                      /\ (forall s, s ∈ snd st -> near s /\ exists l, lineage ts root s l)
                      /\ forall t, t ∈ _selectedTiles (fst st) ->
                                   t ∈ _selectedTiles ts \/ sel t))
    in Hwhile.
  - destruct Hwhile as [(_ & _ & H) _]. exact H.
  - clear ts' stack1 Hwhile.
    intros [ts2 stack2] [ts3 stack3] (Hsame & Hstack & Hsel) _ Hbody. cbn [fst snd] in *.
    unfold selectDescendants_body in Hbody. destruct stack2 as [|x rest]; [discriminate|].
    injection Hbody as Hbody.
    match type of Hbody with
    | selectDescendants_children _ _ (children (getTile ?a x)) _ _ = _ =>
        assert (Hsamem : same_tiles eq ts a)
          by (etransitivity; [exact Hsame|];
              apply (same_tiles_with _ (with_descendantTraversal_stackMaximumLength _));
              intros ?; reflexivity);
        pose proof (selectDescendants_children_effect fs ts root
                      (children (getTile a x)) a rest Hsamem) as Heffect;
        pose proof (same_tiles_children_eq ts a x Hsamem) as Hchildren
    end.
    rewrite Hbody in Heffect. cbn [fst snd] in Heffect.
    destruct Heffect as (Hsame3 & Hstack3 & Hsel3).
    rewrite Hchildren in Hstack3, Hsel3.
    destruct (Hstack x) as [Hx [lx Hlx]]; [left|].
    split; [exact Hsame3|]. split.
    + intros s Hs. destruct (Hstack3 s Hs) as [H|(Ha & Hb & Hc)];
        [apply Hstack; right; exact H|].
      split; [right; split; assumption|].
      exists (x :: lx). apply lineage_child; assumption.
    + intros t Ht. destruct (Hsel3 t Ht) as [H|(Ha & Hb & Hc)]; [apply Hsel, H|].
      right. split; [exact Hb|]. split; [exact Hc|].
      exists x, lx. split; [apply lineage_child; assumption|exact Hx].
  - cbn [fst snd]. split; [reflexivity|]. split; [|auto].
    intros s Hs. apply list_elem_of_singleton in Hs as ->.
    split; [left; reflexivity|exists []; apply lineage_root].
Qed.

Lemma selectDescendants_selects_near_witness :
  exists ts',
    selectDescendants 4
      (updateTile (updateTile tileset_unloadedChild 1%nat frame_allVisible) 2%nat
         frame_allVisible) 0%nat frame_allVisible = Some ts'
    /\ _selectedTiles ts' = [1%nat]
    /\ contentAvailable (getTile tileset_unloadedChild 1%nat) = true.
Proof.
  assert (H : exists ts',
             selectDescendants 4
               (updateTile (updateTile tileset_unloadedChild 1%nat frame_allVisible) 2%nat
                  frame_allVisible) 0%nat frame_allVisible = Some ts'
             /\ _selectedTiles ts' = [1%nat]).
  { eexists. split; vm_compute; reflexivity. }
  destruct H as (ts' & Hrun & Hselected). exists ts'. split; [exact Hrun|].
  split; [exact Hselected|].
  destruct (selectDescendants_selects_near _ _ _ _ _ Hrun 1%nat) as [H|(H & _)].
  - rewrite Hselected. left.
  - inversion H.
  - vm_compute. vm_compute in H. exact H.
Defined.

(** ** Descendants are selected before their ancestors *)

Section SelectionOrder.
Context (ts : Tileset) (root : TileId) (fs : FrameState) (size : TileId -> nat).
Hypothesis Hsizes : tree_sizes ts size.

(** When a tile is popped from the stack, every waiting ancestor waits
    for a length below the stack, and the tile is none of them. *)
Lemma selection_invariant_top (st : SelectionLoop) (x : TileId) (rest : list TileId) :
  selection_invariant ts root st ->
  sl_stack st = x :: rest ->
  match sl_ancestorStack st with
  | a :: _ => _stackLength (getTile (sl_tileset st) a) <> length (sl_stack st)
  | [] => True
  end ->
  Forall (fun a => (_stackLength (getTile (sl_tileset st) a) <= length rest)%nat)
    (sl_ancestorStack st)
  /\ x ∉ sl_ancestorStack st.
Proof.
  intros [Hsame Hstack Hsorted Hbound] Hx Htop.
  assert (Hall : Forall (fun a => (_stackLength (getTile (sl_tileset st) a)
                                   <= length rest)%nat) (sl_ancestorStack st)).
  { destruct (sl_ancestorStack st) as [|a0 anc]; [constructor|].
    rewrite Hx in Htop, Hbound. cbn [length] in Htop, Hbound.
    inversion Hbound as [|? ? H0 _]; subst.
    inversion Hsorted as [|? ? _ Hbelow]; subst.
    constructor; [lia|].
    eapply Forall_impl; [exact Hbelow|]. cbv beta. intros a Ha. lia. }
  split; [exact Hall|]. intros Hin.
  destruct (Hstack [] x rest Hx) as (l & Hl & Hfilter).
  rewrite (waiting_all _ _ _ Hall) in Hfilter. rewrite <- Hfilter in Hin.
  apply elem_of_filter_bool in Hin.
  pose proof (lineage_sizes ts size root x l Hsizes Hl x Hin). lia.
Qed.

Lemma ancestors_last_snoc (new : list TileId) (z : TileId) :
  ancestors_last ts fs new ->
  (selectionAncestor ts z = true -> canTraverse ts z = true ->
   forall d, selection_descendant ts fs z d -> d ∈ new) ->
  ancestors_last ts fs (new ++ [z]).
Proof.
  intros Hold Hz l1 a l2 Heq Ha Htraverse d Hd.
  apply app_eq_cons_split in Heq as [(post' & -> & _)|(pre' & Heq & ->)].
  - exact (Hold _ _ _ eq_refl Ha Htraverse d Hd).
  - destruct pre' as [|b [|c pre']]; try discriminate Heq.
    cbn [app] in Heq. injection Heq as -> _. rewrite app_nil_r. auto.
Qed.

Lemma selection_order_step (st st' : SelectionLoop) (new : list TileId) :
  selection_invariant ts root st ->
  _selectedTiles (sl_tileset st) = _selectedTiles ts ++ new ->
  ancestors_last ts fs new ->
  descendants_pending ts fs st new ->
  traverseAndSelect_body fs st = Some st' ->
  exists new',
    _selectedTiles (sl_tileset st') = _selectedTiles ts ++ new'
    /\ ancestors_last ts fs new'
    /\ descendants_pending ts fs st' new'.
Proof.
  intros Hinv Hnew Hlast Hpending Hbody.
  assert (Hselect : forall a,
            _selectedTiles (selectTile (sl_tileset st) a fs)
            = _selectedTiles ts
              ++ (if Intersect_eqb (Tile_contentVisibility fs a) OUTSIDE then new
                  else new ++ [a])).
  { intros a. rewrite selectTile_selectedTiles, Hnew.
    destruct (Intersect_eqb _ _); [reflexivity|]. rewrite app_assoc. reflexivity. }
  assert (Hvisible : forall a, Tile_contentVisibility fs a <> OUTSIDE ->
                               Intersect_eqb (Tile_contentVisibility fs a) OUTSIDE = false).
  { intros a. destruct (Tile_contentVisibility fs a); [congruence|reflexivity..]. }
  destruct (traverseAndSelect_body_effect fs ts st st' (inv_same _ _ _ Hinv) Hbody)
    as [_ Hcases].
  destruct Hcases as [(a0 & anc & Ha0 & Hstack' & Hanc' & Hsel & Hlen & HL)
                     |[(Hempty & Hstack' & Hanc' & Hsel)
                      |(x & rest & pushed & Hx & Hstack' & Hpushed & Hanc' & Hsel
                        & Htop & HL)]].
  - (* the waiting ancestor a0 is selected *)
    assert (Hdone : forall d, selection_descendant ts fs a0 d -> d ∈ new).
    { intros d Hd. destruct (Hpending [] a0 anc Ha0 d Hd)
        as [H|[H|(pre & y & post & Hy & Hle & _)]]; [exact H|inversion H|].
      rewrite Hlen, Hy, length_app in Hle. cbn [length] in Hle. lia. }
    exists (if Intersect_eqb (Tile_contentVisibility fs a0) OUTSIDE then new
            else new ++ [a0]).
    split; [rewrite Hsel; apply Hselect|].
    split.
    + destruct (Intersect_eqb _ _); [exact Hlast|].
      apply ancestors_last_snoc; [exact Hlast|]. intros _ _. exact Hdone.
    + intros a_pre a a_post Heq d Hd. rewrite Hanc' in Heq.
      destruct (Hpending (a0 :: a_pre) a a_post) with (d := d)
        as [H|[H|(pre & y & post & Hy & Hle & Hreach)]];
        [rewrite Ha0, Heq; reflexivity|exact Hd|..].
      * left. destruct (Intersect_eqb _ _); [exact H|apply elem_of_app; left; exact H].
      * apply elem_of_cons in H as [->|H]; [|right; left; exact H].
        left. rewrite Hvisible by apply Hd. apply elem_of_app. right. left.
      * right. right. exists pre, y, post. rewrite Hstack', HL. auto.
  - (* the stack is empty *)
    exists new. split; [rewrite Hsel; exact Hnew|]. split; [exact Hlast|].
    intros a_pre a a_post Heq d Hd. rewrite Hanc' in Heq.
    destruct (Hpending a_pre a a_post Heq d Hd) as [H|[H|(pre & y & post & Hy & _)]];
      [auto|auto|].
    rewrite Hempty in Hy. destruct pre; discriminate Hy.
  - (* the tile x is popped from the stack *)
    rewrite Hx in Htop.
    destruct (selection_invariant_top st x rest Hinv Hx) as [Hall Hfresh];
      [rewrite Hx; exact Htop|].
    set (selected := _shouldSelect (getTile ts x)
                     && (Cesium3DTileRefine_eqb (refine (getTile ts x)) ADD
                         || negb (canTraverse ts x))) in *.
    set (waits := selectionAncestor ts x && canTraverse ts x) in *.
    assert (Hexclusive : selected = true -> waits = false).
    { subst selected waits. unfold selectionAncestor.
      destruct (_shouldSelect (getTile ts x)), (Cesium3DTileRefine_eqb _ ADD),
        (canTraverse ts x); cbn; congruence. }
    assert (Hmarked : _shouldSelect (getTile ts x) = true ->
                      selected = true \/ waits = true).
    { subst selected waits. unfold selectionAncestor. intros ->.
      destruct (Cesium3DTileRefine_eqb _ ADD), (canTraverse ts x); cbn; auto. }
    set (new' := if selected && negb (Intersect_eqb (Tile_contentVisibility fs x) OUTSIDE)
                 then new ++ [x] else new).
    assert (Hgrow : forall d, d ∈ new -> d ∈ new').
    { intros d Hd. subst new'. destruct (selected && _); [apply elem_of_app; left|]; exact Hd. }
    assert (Hself : forall d, d = x -> _shouldSelect (getTile ts d) = true ->
                              Tile_contentVisibility fs d <> OUTSIDE ->
                              (waits = true /\ selected = false) \/ d ∈ new').
    { intros d -> Hm Hv. destruct (Hmarked Hm) as [Hs|Hw].
      - right. subst new'. rewrite Hs, (Hvisible x Hv). cbn [negb andb].
        apply elem_of_app. right. left.
      - left. split; [exact Hw|]. destruct selected; [|reflexivity].
        rewrite Hexclusive in Hw by reflexivity. discriminate Hw. }
    assert (Hchild : forall m d,
              (m <= length rest)%nat ->
              selection_reaches ts x d -> d <> x ->
              exists pre y post,
                sl_stack st' = pre ++ y :: post /\ (m <= length post)%nat
                /\ selection_reaches ts y d).
    { intros m d Hm Hreach Hne.
      apply selection_reaches_first in Hreach as [->|(c & H1 & H2 & H3 & H4)];
        [congruence|].
      assert (Hc : c ∈ pushed) by (apply Hpushed; auto).
      apply list_elem_of_split in Hc as (p1 & p2 & ->).
      exists p1, c, (p2 ++ rest). rewrite Hstack', <- app_assoc. cbn [app].
      split; [reflexivity|]. split; [rewrite length_app; lia|exact H4]. }
    assert (Hbelow : forall m pre y post,
              x :: rest = pre ++ y :: post -> pre <> [] ->
              (m <= length post)%nat ->
              exists pre', sl_stack st' = pre' ++ y :: post).
    { intros m pre y post Heq Hpre _. destruct pre as [|b pre]; [congruence|].
      cbn [app] in Heq. injection Heq as _ ->.
      exists (pushed ++ pre). rewrite Hstack', <- app_assoc. reflexivity. }
    exists new'. split; [|split].
    + rewrite Hsel. subst new'. destruct selected; cbn [andb]; [|exact Hnew].
      rewrite Hselect. destruct (Intersect_eqb _ _); reflexivity.
    + subst new'. destruct selected eqn:Hs; cbn [andb]; [|exact Hlast].
      destruct (Intersect_eqb _ _); cbn [negb]; [exact Hlast|].
      apply ancestors_last_snoc; [exact Hlast|]. intros Ha Htraverse.
      specialize (Hexclusive eq_refl). subst waits.
      rewrite Ha, Htraverse in Hexclusive. discriminate Hexclusive.
    + intros a_pre a a_post Heq d Hd. rewrite Hanc' in Heq.
      assert (Hold : forall a_pre0,
                sl_ancestorStack st = a_pre0 ++ a :: a_post ->
                (waits = true -> x ∈ a_pre) ->
                (forall e, e ∈ a_pre0 -> e ∈ a_pre) ->
                d ∈ new' \/ d ∈ a_pre
                \/ exists pre y post,
                     sl_stack st' = pre ++ y :: post
                     /\ (_stackLength (getTile (sl_tileset st') a) <= length post)%nat
                     /\ selection_reaches ts y d).
      { intros a_pre0 Heq0 Hwaits Hsub.
        assert (Ha : a ∈ sl_ancestorStack st)
          by (rewrite Heq0; apply elem_of_app; right; left).
        assert (Hax : a <> x) by (intros ->; exact (Hfresh Ha)).
        assert (Hm : (_stackLength (getTile (sl_tileset st) a) <= length rest)%nat)
          by (rewrite Forall_forall in Hall; apply Hall, Ha).
        rewrite HL. destruct (decide (a = x)) as [|_]; [contradiction|].
        destruct (Hpending a_pre0 a a_post Heq0 d Hd)
          as [H|[H|(pre & y & post & Hy & Hle & Hreach)]]; [auto|auto|].
        rewrite Hx in Hy. destruct pre as [|b pre].
        - cbn [app] in Hy. injection Hy as <- <-.
          destruct (decide (d = x)) as [Hdx|Hdx].
          + destruct Hd as (_ & _ & Hmark & Hv).
            destruct (Hself d Hdx Hmark Hv) as [[Hw _]|H]; [|auto].
            right. left. rewrite Hdx. apply Hwaits, Hw.
          + right. right. apply Hchild; assumption.
        - destruct (Hbelow _ (b :: pre) y post Hy ltac:(discriminate) Hle) as (pre' & Hpre').
          right. right. exists pre', y, post. auto. }
      destruct waits eqn:Hw.
      * destruct a_pre as [|b a_pre]; cbn [app] in Heq; injection Heq as -> Heq.
        -- (* the ancestor is the tile that was just pushed *)
           right. right. rewrite HL. destruct (decide (a = a)); [|congruence].
           destruct Hd as (Hreach & Hne & _). apply Hchild; [lia|exact Hreach|exact Hne].
        -- apply (Hold a_pre Heq); [intros _; left|intros e He; right; exact He].
      * apply (Hold a_pre Heq); [discriminate|auto].
Qed.
End SelectionOrder.

(** X18.  On a finite tree, [traverseAndSelect] pushes descendants before
    their ancestors: in what the pass appends to [_selectedTiles], a marked
    REPLACE tile that can be traversed stands behind every tile that the
    pass reaches below it and selects. *)
Theorem traverseAndSelect_descendants_first (fuel : nat) (ts ts' : Tileset) (root : TileId)
    (fs : FrameState) (size : TileId -> nat) :
  tree_sizes ts size ->
  traverseAndSelect fuel ts root fs = Some ts' ->
  exists new,
    _selectedTiles ts' = _selectedTiles ts ++ new
    /\ forall l1 a l2,
         new = l1 ++ a :: l2 ->
         selectionAncestor ts a = true -> canTraverse ts a = true ->
         forall d,
           selection_reaches ts a d -> d <> a ->
           _shouldSelect (getTile ts d) = true ->
           Tile_contentVisibility fs d <> OUTSIDE ->
           d ∈ l1.
Proof.
  intros Hsizes Hrun. unfold traverseAndSelect in Hrun.
  destruct (while _ _ fuel _) as [st'|] eqn:Hwhile; [|discriminate].
  injection Hrun as <-.
  apply (while_invariant _ _
           (fun st =>
              selection_invariant ts root st
              /\ exists new,
                   _selectedTiles (sl_tileset st) = _selectedTiles ts ++ new
                   /\ ancestors_last ts fs new
                   /\ descendants_pending ts fs st new))
    in Hwhile.
  - destruct Hwhile as [(_ & new & Hnew & Hlast & _) _]. exists new.
    split; [exact Hnew|]. intros l1 a l2 Heq Ha Htraverse d H1 H2 H3 H4.
    apply (Hlast l1 a l2 Heq Ha Htraverse d). repeat split; assumption.
  - clear st' Hwhile. intros st st' (Hinv & new & Hnew & Hlast & Hpending) Hcond Hbody.
    split.
    + apply (selection_invariant_step ts root fs size Hsizes st st' Hinv Hcond Hbody).
    + exact (selection_order_step ts root fs size Hsizes st st' new Hinv Hnew Hlast
               Hpending Hbody).
  - split; [apply selection_invariant_start|].
    exists []. cbn [sl_tileset sl_stack sl_ancestorStack].
    split; [rewrite app_nil_r; reflexivity|]. split.
    + intros l1 a l2 Heq. destruct l1; discriminate Heq.
    + intros a_pre a a_post Heq. destruct a_pre; discriminate Heq.
Qed.

Lemma traverseAndSelect_descendants_first_witness :
  exists ts1 ts',
    executeTraversal 8 (selectTiles_start tileset_mixedContent frame_allVisible) 0%nat
      Number_MAX_VALUE 16 frame_allVisible = Some ts1
    /\ traverseAndSelect 8 ts1 0%nat frame_allVisible = Some ts'
    /\ _selectedTiles ts' = [1%nat; 0%nat]
    /\ exists new, _selectedTiles ts' = _selectedTiles ts1 ++ new.
Proof.
  assert (H : exists ts1,
             executeTraversal 8 (selectTiles_start tileset_mixedContent frame_allVisible)
               0%nat Number_MAX_VALUE 16 frame_allVisible = Some ts1
             /\ exists ts', traverseAndSelect 8 ts1 0%nat frame_allVisible = Some ts'
                            /\ _selectedTiles ts' = [1%nat; 0%nat]).
  { eexists. split; [vm_compute; reflexivity|]. eexists. split; vm_compute; reflexivity. }
  destruct H as (ts1 & Hrun & ts' & Hselect & Hselected).
  exists ts1, ts'. split; [exact Hrun|]. split; [exact Hselect|]. split; [exact Hselected|].
  assert (Hsizes : tree_sizes ts1 size_example).
  { apply (tree_sizes_same_tiles Permutation tileset_mixedContent); [auto| |].
    - apply (executeTraversal_preserves frame_allVisible _
               (Stable_same_tiles frame_allVisible tileset_mixedContent) _ _ _ _ _ _
               (same_tiles_weaken _ _ (same_tiles_selectTiles_start _ _)) Hrun).
    - apply tree_sizes_mixedContent. }
  destruct (traverseAndSelect_descendants_first _ _ _ _ _ _ Hsizes Hselect)
    as (new & Hnew & _).
  exists new. exact Hnew.
Defined.


Lemma Popped_forall {A : Type} (fs : FrameState) (x : TileId) (R : A -> Tileset -> Prop) :
  (forall a, Popped fs x (R a)) -> Popped fs x (fun ts => forall a, R a ts).
Proof.
  intros HR. constructor; intros; cbv beta in *;
    match goal with |- R ?e _ => destruct (HR e); eauto end.
Qed.

(** ** Selected tiles are touched *)

(** In a round, the selected tiles are touched but for the popped tile,
    which is touched at the end of the round. *)
Lemma Round_selected_touched (fs : FrameState) (x : TileId) :
  Round fs x (fun ts => forall t, t ∈ _selectedTiles ts ->
                                  t = x \/ _touchedFrame (getTile ts t) = frameNumber fs).
Proof.
  assert (Hkeep : forall ts ts' : Tileset,
            _selectedTiles ts' = _selectedTiles ts ->
            (forall j, _touchedFrame (getTile ts j) = frameNumber fs ->
                       _touchedFrame (getTile ts' j) = frameNumber fs) ->
            (forall t, t ∈ _selectedTiles ts ->
                       t = x \/ _touchedFrame (getTile ts t) = frameNumber fs) ->
            forall t, t ∈ _selectedTiles ts' ->
                      t = x \/ _touchedFrame (getTile ts' t) = frameNumber fs).
  { intros ts ts' Hsel Htouched H t Ht. rewrite Hsel in Ht.
    destruct (H t Ht) as [->|H']; auto. }
  assert (Hselect : forall ts tile,
            tile = x \/ _touchedFrame (getTile ts tile) = frameNumber fs ->
            (forall t, t ∈ _selectedTiles ts ->
                       t = x \/ _touchedFrame (getTile ts t) = frameNumber fs) ->
            forall t, t ∈ _selectedTiles (selectTile ts tile fs) ->
                      t = x \/ _touchedFrame (getTile (selectTile ts tile fs) t)
                               = frameNumber fs).
  { intros ts tile Htile H t.
    assert (E : forall j, _touchedFrame (getTile (selectTile ts tile fs) j)
                          = _touchedFrame (getTile ts j)) by tile_field_kept.
    rewrite E, selectTile_selectedTiles.
    destruct (Intersect_eqb _ _); [apply H|].
    intros Ht. apply elem_of_app in Ht as [Ht|Ht]; [apply H, Ht|].
    apply list_elem_of_singleton in Ht as ->. exact Htile. }
  constructor; intros ts; intros;
    match goal with Ht : ?t ∈ _selectedTiles _ |- _ => revert t Ht end;
    first [ apply Hselect; [left; reflexivity|assumption]
          | apply Hselect; [right|assumption];
            rewrite getTile_touchTile; destruct (decide (child = child)); [|congruence];
            destruct (Z.eqb_spec (_touchedFrame (getTile (updateTile ts child fs) child))
                        (frameNumber fs)); [assumption|reflexivity]
          | eapply Hkeep; [| |eassumption];
            [ tileset_field_kept
            | intros j;
              rewrite ?getTile_updateTile, ?getTile_loadTile, ?getTile_touchTile,
                ?getTile_visitTile, ?getTile_updateTileAncestorContentLinks, ?getTile_modTile;
              try match goal with
                  | |- context [decide (?a = ?b)] =>
                      destruct (decide (a = b)); [subst|auto]
                  end;
              repeat match goal with
                     | |- context [if ?c then _ else _] => destruct c
                     | |- context [match ?c with Some _ => _ | None => _ end] => destruct c
                     end;
              fields; auto ] ].
Qed.

(** The main traversal keeps the selected tiles touched. *)
Lemma executeTraversal_selected_touched (fuel : nat) (ts ts' : Tileset) (root : TileId)
    (base maximum : Z) (fs : FrameState) :
  (forall t, t ∈ _selectedTiles ts -> _touchedFrame (getTile ts t) = frameNumber fs) ->
  executeTraversal fuel ts root base maximum fs = Some ts' ->
  forall t, t ∈ _selectedTiles ts' -> _touchedFrame (getTile ts' t) = frameNumber fs.
Proof.
  intros Hts Hrun. unfold executeTraversal in Hrun.
  destruct (while _ _ fuel (ts, [root])) as [[ts1 stack1]|] eqn:Hwhile; [|discriminate].
  injection Hrun as ->.
  apply (while_invariant _ _
           (fun st => forall t, t ∈ _selectedTiles (fst st) ->
                                _touchedFrame (getTile (fst st) t) = frameNumber fs))
    in Hwhile as [H _]; [exact H| |exact Hts].
  clear. intros [ts2 stack2] [ts3 stack3] Hinv Hcond Hbody. cbn [fst snd] in *.
  destruct stack2 as [|x rest]; [discriminate Hcond|].
  intros t Ht.
  pose proof (executeTraversal_body_round fs x _ (Round_selected_touched fs x)
                _ _ _ _ _ _ _ (fun t Ht => or_intror (Hinv t Ht)) Hbody t Ht) as [->|H];
    [|exact H].
  apply (executeTraversal_body_visits _ _ _ _ _ _ _ _ _ Hbody).
Qed.

(** When the main traversal has run, the children of every tile that it
    reached and traversed are as the frame shows them. *)
Lemma executeTraversal_children_refreshed (fuel : nat) (ts ts' : Tileset) (root : TileId)
    (base maximum : Z) (fs : FrameState) :
  executeTraversal fuel ts root base maximum fs = Some ts' ->
  forall t, traversal_reaches fs ts root t ->
            canTraverse ts t = true ->
            forall c, c ∈ children (getTile ts t) -> refreshed fs ts' c.
Proof.
  intros Hrun.
  assert (Hperm : forall l l' : list TileId, Permutation l l' -> Permutation l l') by auto.
  apply (executeTraversal_covers fs ts root
           (fun ts1 t => canTraverse ts t = true ->
                         forall c, c ∈ children (getTile ts t) -> refreshed fs ts1 c)
           fuel base maximum ts'); [| |exact Hrun].
  - intros x t. apply Popped_impl.
    apply (Popped_forall fs x (fun c ts1 => c ∈ children (getTile ts t) -> refreshed fs ts1 c)).
    intros c. apply Popped_impl, Stable_Popped, Stable_refreshed.
  - intros ts1 ts2 x rest stack1 Hsame Hbody Htraverse c Hc.
    apply executeTraversal_body_inversion in Hbody. cbv zeta in Hbody.
    pose proof (same_tiles_executeTraversal_body_head fs ts1 x
                  (Nat.max (traversal_stackMaximumLength ts1) (length (x :: rest))))
      as Hhead.
    set (ts1' := updateTileAncestorContentLinks _ x fs) in *. clearbody ts1'.
    assert (Hsame1 : same_tiles Permutation ts ts1')
      by (etransitivity; [exact Hsame|apply same_tiles_weaken, Hhead]).
    destruct Hbody as (baseTraversal & cr & ts3 & ts4 & _ & Hpush & Hselect & ->).
    rewrite (same_canTraverse Permutation ts ts1' Hperm Hsame1), Htraverse in Hpush.
    assert (H3 : refreshed fs ts3 c).
    { apply (updateAndPushChildren_children_ready _ _ _ _ _ _ _ _ Hpush).
      rewrite <- (same_children Permutation ts ts1' Hperm Hsame1 x). exact Hc. }
    pose proof (Stable_refreshed fs c) as HS.
    apply (executeTraversal_select_preserves fs _ HS _ _ _ _ _ _ H3) in Hselect.
    destruct HS. auto.
Qed.

(** The selection pass reaches only tiles that the main traversal
    reached, when the children of those are as the frame shows them. *)
Lemma selection_reaches_refreshed (fs : FrameState) (ts0 ts : Tileset) (root t : TileId) :
  same_tiles Permutation ts0 ts ->
  (forall t, traversal_reaches fs ts0 root t ->
             canTraverse ts0 t = true ->
             forall c, c ∈ children (getTile ts0 t) -> refreshed fs ts c) ->
  selection_reaches ts root t -> traversal_reaches fs ts0 root t.
Proof.
  intros Hsame Hreach.
  assert (Hperm : forall l l' : list TileId, Permutation l l' -> Permutation l l') by auto.
  induction 1 as [|p c Hp IH Htraverse Hc Hvisible]; [apply traversal_root|].
  rewrite (same_canTraverse Permutation ts0 ts Hperm Hsame) in Htraverse.
  rewrite <- (same_children Permutation ts0 ts Hperm Hsame p) in Hc.
  apply (traversal_child fs ts0 root p c IH Htraverse Hc).
  rewrite <- (isVisible_refreshed fs ts c (Hreach p IH Htraverse c Hc)). exact Hvisible.
Qed.

Lemma Stable_touchedFrame (fs : FrameState) (t : TileId) :
  Stable fs (fun ts => _touchedFrame (getTile ts t) = frameNumber fs).
Proof.
  constructor; intros ts; intros; cbv beta in *;
    rewrite ?getTile_updateTile, ?getTile_loadTile, ?getTile_touchTile, ?getTile_selectTile,
      ?getTile_visitTile, ?getTile_updateTileAncestorContentLinks, ?getTile_modTile;
    try match goal with
        | |- context [decide (?a = ?b)] =>
            destruct (decide (a = b)); [subst|assumption]
        end;
    try assumption;
    repeat match goal with
           | |- context [if ?c then _ else _] => destruct c
           | |- context [match ?c with Some _ => _ | None => _ end] => destruct c
           end;
    fields; first [assumption|reflexivity].
Qed.

(** X19.  Every tile that [selectTiles] selects in a frame is touched in
    that frame: when the call returns [true], each tile of
    [_selectedTiles] carries the number of the frame in [_touchedFrame],
    whether the main traversal selected it, or [selectDescendants], or the
    selection pass of the skip-LOD modes. *)
Theorem selected_tiles_are_touched (fuel : nat) (ts ts' : Tileset) (fs : FrameState) :
  selectTiles fuel ts fs = Some (RetTrue, ts') ->
  forall t, t ∈ _selectedTiles ts' -> _touchedFrame (getTile ts' t) = frameNumber fs.
Proof.
  intros Hrun.
  apply selectTiles_inversion in Hrun as (_ & _ & _ & ts1 & Hmain & Hpass).
  assert (Hstart : forall t, t ∈ _selectedTiles (selectTiles_start ts fs) ->
                             _touchedFrame (getTile (selectTiles_start ts fs) t)
                             = frameNumber fs).
  { intros t. rewrite selectTiles_start_selectedTiles. intros Ht. inversion Ht. }
  pose proof (executeTraversal_selected_touched _ _ _ _ _ _ _ Hstart Hmain) as Hmain'.
  destruct (skipLevelOfDetail ts); [|subst ts'; exact Hmain'].
  intros t Ht.
  apply (traverseAndSelect_selected_tiles _ _ _ _ _ Hpass) in Ht as [Ht|(Hreach & _)].
  - apply (traverseAndSelect_preserves fs _ (Stable_touchedFrame fs t) _ _ _ _
             (Hmain' t Ht) Hpass).
  - apply (traverseAndSelect_preserves fs _ (Stable_touchedFrame fs t) _ _ _ _)
      with (2 := Hpass).
    assert (Hsame : same_tiles Permutation (selectTiles_start ts fs) ts1).
    { apply (executeTraversal_preserves fs _ (Stable_same_tiles fs _) _ _ _ _ _ _
               (same_tiles_refl Permutation _) Hmain). }
    apply (selection_reaches_refreshed fs (selectTiles_start ts fs)) in Hreach;
      [|exact Hsame|exact (executeTraversal_children_refreshed _ _ _ _ _ _ _ Hmain)].
    apply (executeTraversal_covers fs (selectTiles_start ts fs) (root ts)
             (fun ts t => _visitedFrame (getTile ts t) = frameNumber fs
                          /\ _touchedFrame (getTile ts t) = frameNumber fs)
             fuel _ _ ts1
             (fun x t => visited_touched_kept fs x t)
             (fun ts2 ts3 x rest stack1 _ Hbody =>
                executeTraversal_body_visits _ _ _ _ _ _ _ _ _ Hbody)
             Hmain t Hreach).
Qed.

Lemma selected_tiles_are_touched_witness :
  exists ts',
    selectTiles 8 tileset_mixedContent frame_allVisible = Some (RetTrue, ts')
    /\ _selectedTiles ts' = [1%nat; 0%nat]
    /\ _touchedFrame (getTile ts' 1%nat) = frameNumber frame_allVisible.
Proof.
  assert (H : exists ts',
             selectTiles 8 tileset_mixedContent frame_allVisible = Some (RetTrue, ts')
             /\ _selectedTiles ts' = [1%nat; 0%nat]).
  { eexists. split; vm_compute; reflexivity. }
  destruct H as (ts' & Hrun & Hselected). exists ts'. split; [exact Hrun|].
  split; [exact Hselected|].
  apply (selected_tiles_are_touched _ _ _ _ Hrun). rewrite Hselected. left.
Defined.


(** ** The frontier of the main traversal *)

Lemma NoDup_submseteq_l {A : Type} (l k : list A) : l ⊆+ k -> NoDup k -> NoDup l.
Proof.
  intros Hsub Hk. apply submseteq_sublist_r in Hsub as (l' & Hperm & Hsub).
  rewrite Hperm. eapply sublist_NoDup; eassumption.
Qed.

Section Frontier.
Context (fs : FrameState) (ts0 : Tileset) (root : TileId).
Hypothesis Hwf : wf_parents ts0.
Hypothesis Hroot : parent (getTile ts0 root) = None.
Hypothesis Hchildren : forall t, NoDup (children (getTile ts0 t)).

(** The tile on top of the stack is new, is not its own parent, and no
    popped tile is a child of it. *)
Lemma frontier_top (done : list TileId) (ts : Tileset) (x : TileId) (rest : list TileId) :
  frontier fs ts0 root done (ts, x :: rest) ->
  (x ∉ done)
  /\ parent (getTile ts0 x) <> Some x
  /\ forall t, t ∈ done -> parent (getTile ts0 t) <> Some x.
Proof.
  intros [_ _ _ Hstack Hdone _ _]. cbn [fst snd] in *.
  destruct (Hstack x) as [Hx Hxparent]; [left|].
  split; [exact Hx|]. split.
  - intros H. destruct Hxparent as [->|(p & Hp & Hin)]; [congruence|].
    rewrite H in Hp. injection Hp as <-. contradiction.
  - intros t Ht H. destruct (Hdone t Ht) as [->|(p & Hp & Hin)]; [congruence|].
    rewrite H in Hp. injection Hp as <-. contradiction.
Qed.

Lemma frontier_step (fuel : nat) (base maximum : Z) (done : list TileId)
    (ts ts' : Tileset) (x : TileId) (rest stack' : list TileId) :
  frontier fs ts0 root done (ts, x :: rest) ->
  executeTraversal_body fuel fs base maximum (ts, x :: rest) = Some (ts', stack') ->
  frontier fs ts0 root (x :: done) (ts', stack').
Proof.
  intros Hinv Hbody. destruct (frontier_top _ _ _ _ Hinv) as (Hx & Hself & Hnochild).
  destruct Hinv as [Hsame Hpopped Hnodup Hstack Hdone Hsound Hcomplete].
  cbn [fst snd] in *.
  assert (Hperm : forall l l' : list TileId, Permutation l l' -> Permutation l l') by auto.
  destruct (Hstack x) as [_ Hxparent]; [left|].
  pose proof Hbody as Hpushed.
  apply (executeTraversal_body_stack fuel fs base maximum ts0) in Hpushed
    as (pushed & Hstack' & Hpushed);
    [|exact Hsame].
  assert (Hchild : forall c, c ∈ pushed -> parent (getTile ts0 c) = Some x).
  { intros c Hc. apply Hpushed in Hc as (_ & Hc & _). apply (Hwf x c Hc). }
  assert (Hpushed_NoDup : NoDup pushed).
  { pose proof Hbody as Hinv. apply executeTraversal_body_inversion in Hinv.
    cbv zeta in Hinv.
    pose proof (same_tiles_executeTraversal_body_head fs ts x
                  (Nat.max (traversal_stackMaximumLength ts) (length (x :: rest))))
      as Hhead.
    set (ts1 := updateTileAncestorContentLinks _ x fs) in *. clearbody ts1.
    destruct Hinv as (_ & cr & ts2 & _ & _ & Hpush & _).
    destruct (canTraverse ts1 x).
    - apply updateAndPushChildren_pushed in Hpush as (pushed' & Heq & Hsub).
      rewrite Hstack' in Heq. apply app_inv_tail in Heq. subst pushed'.
      apply (NoDup_submseteq_l _ _ Hsub).
      assert (Hsame1 : same_tiles Permutation ts0 ts1)
        by (etransitivity; [exact Hsame|apply same_tiles_weaken, Hhead]).
      rewrite <- (same_children Permutation ts0 ts1 Hperm Hsame1 x). apply Hchildren.
    - destruct Hpush as (_ & _ & Heq). rewrite Hstack' in Heq.
      assert (pushed = []) as -> by (apply (app_inv_tail rest); exact Heq).
      constructor. }
  split; cbn [fst snd].
  - apply (executeTraversal_body_preserves fs _ (Stable_same_tiles fs ts0) _ _ _ _ _ _ _
             Hsame Hbody).
  - apply NoDup_cons. split; assumption.
  - rewrite Hstack'. apply NoDup_app. split; [exact Hpushed_NoDup|].
    split; [|apply NoDup_cons in Hnodup; apply Hnodup].
    intros c Hc Hin. destruct (Hstack c) as [_ [->|(p & Hp & Hpin)]]; [right; exact Hin|..].
    + rewrite (Hchild _ Hc) in Hroot. discriminate Hroot.
    + rewrite (Hchild _ Hc) in Hp. injection Hp as <-. contradiction.
  - intros s. rewrite Hstack'. intros Hs. apply elem_of_app in Hs as [Hs|Hs].
    + pose proof (Hchild s Hs) as Hp. split.
      * intros Hin. apply elem_of_cons in Hin as [->|Hin]; [exact (Hself Hp)|].
        exact (Hnochild s Hin Hp).
      * right. exists x. split; [exact Hp|left].
    + destruct (Hstack s) as [Hnot Hp]; [right; exact Hs|]. split.
      * intros Hin. apply elem_of_cons in Hin as [->|Hin]; [|contradiction].
        apply NoDup_cons in Hnodup. apply Hnodup, Hs.
      * destruct Hp as [->|(p & Hp & Hin)]; [left; reflexivity|].
        right. exists p. split; [exact Hp|right; exact Hin].
  - intros t Ht. apply elem_of_cons in Ht as [->|Ht].
    + destruct Hxparent as [->|(p & Hp & Hin)]; [left; reflexivity|].
      right. exists p. split; [exact Hp|right; exact Hin].
    + destruct (Hdone t Ht) as [->|(p & Hp & Hin)]; [left; reflexivity|].
      right. exists p. split; [exact Hp|right; exact Hin].
  - intros t [Ht|Ht].
    + apply elem_of_cons in Ht as [->|Ht]; apply Hsound; [right; left|left; exact Ht].
    + rewrite Hstack' in Ht. apply elem_of_app in Ht as [Ht|Ht].
      * apply Hpushed in Ht as (H1 & H2 & H3).
        apply (traversal_child fs ts0 root x t); [|assumption..].
        apply Hsound. right. left.
      * apply Hsound. right. right. exact Ht.
  - intros t Ht. destruct (Hcomplete t Ht) as [H|(s & Hs & Hst)]; [left; right; exact H|].
    apply elem_of_cons in Hs as [->|Hs].
    + apply traversal_reaches_first in Hst as [->|(c & H1 & H2 & H3 & H4)]; [left; left|].
      right. exists c. split; [|exact H4].
      rewrite Hstack'. apply elem_of_app. left. apply Hpushed. auto.
    + right. exists s. split; [|exact Hst]. rewrite Hstack'. apply elem_of_app. right.
      exact Hs.
Qed.

(** The loop: a property [I] of the popped tiles and the tileset that every
    round keeps holds in the end, when the popped tiles are exactly those
    that the traversal reaches, each popped once. *)
Lemma executeTraversal_frontier (I : list TileId -> Tileset -> Prop) (fuel : nat)
    (ts ts' : Tileset) (base maximum : Z) :
  same_tiles Permutation ts0 ts ->
  I [] ts ->
  (forall done ts1 ts2 x rest stack2,
     frontier fs ts0 root done (ts1, x :: rest) ->
     I done ts1 ->
     executeTraversal_body fuel fs base maximum (ts1, x :: rest) = Some (ts2, stack2) ->
     I (x :: done) ts2) ->
  executeTraversal fuel ts root base maximum fs = Some ts' ->
  exists done,
    frontier fs ts0 root done (ts', [])
    /\ I done ts'
    /\ forall t, t ∈ done <-> traversal_reaches fs ts0 root t.
Proof.
  intros Hsame Hstart Hstep Hrun. unfold executeTraversal in Hrun.
  destruct (while _ _ fuel (ts, [root])) as [[ts1 stack1]|] eqn:Hwhile; [|discriminate].
  injection Hrun as ->.
  apply (while_invariant _ _
           (fun st => exists done, frontier fs ts0 root done st /\ I done (fst st)))
    in Hwhile.
  - destruct Hwhile as [(done & Hinv & HI) Hcond]. cbn [fst snd] in *.
    apply stack_nonempty_false in Hcond. subst stack1. exists done.
    split; [exact Hinv|]. split; [exact HI|].
    intros t. split.
    + intros Ht. apply (frontier_sound _ _ _ _ _ Hinv). left. exact Ht.
    + intros Ht. destruct (frontier_complete _ _ _ _ _ Hinv t Ht) as [H|(s & Hs & _)];
        [exact H|inversion Hs].
  - intros [ts2 stack2] [ts3 stack3] (done & Hinv & HI) Hcond Hbody. cbn [fst snd] in *.
    destruct stack2 as [|x rest]; [discriminate Hcond|].
    exists (x :: done). split; [exact (frontier_step _ _ _ _ _ _ _ _ _ Hinv Hbody)|].
    exact (Hstep _ _ _ _ _ _ Hinv HI Hbody).
  - exists []. split; [|exact Hstart]. split; cbn [fst snd].
    + exact Hsame.
    + constructor.
    + apply NoDup_singleton.
    + intros s Hs. apply list_elem_of_singleton in Hs as ->.
      split; [intros H; inversion H|left; reflexivity].
    + intros t Ht. inversion Ht.
    + intros t [Ht|Ht]; [inversion Ht|]. apply list_elem_of_singleton in Ht as ->.
      apply traversal_root.
    + intros t Ht. right. exists root. split; [left|exact Ht].
Qed.

(** A tile that the traversal reaches has a line of ancestors up to the
    root. *)
Lemma traversal_reaches_ancestry (t : TileId) :
  traversal_reaches fs ts0 root t -> exists l, ancestry ts0 t l.
Proof.
  induction 1 as [|p c _ [l Hl] _ Hc _].
  - exists []. apply ancestry_root, Hroot.
  - exists (p :: l). apply ancestry_parent; [apply (Hwf p c Hc)|exact Hl].
Qed.

(** The parent of a popped tile has been popped. *)
Lemma frontier_parent (done : list TileId) (st : Tileset * list TileId) (t p : TileId) :
  frontier fs ts0 root done st -> t ∈ done -> parent (getTile ts0 t) = Some p -> p ∈ done.
Proof.
  intros Hinv Ht Hp. destruct (frontier_done _ _ _ _ _ Hinv t Ht) as [->|(p' & Hp' & Hin)];
    [congruence|].
  rewrite Hp in Hp'. injection Hp' as <-. exact Hin.
Qed.
End Frontier.
(** ** The base traversal selects a cut *)

Lemma parentRefines_same (ts ts' : Tileset) (x : TileId) :
  same_tiles Permutation ts ts' ->
  (forall j, _refines (getTile ts' j) = _refines (getTile ts j)) ->
  parentRefines ts' x = parentRefines ts x.
Proof.
  intros Hsame Hflags. unfold parentRefines.
  rewrite (same_parent Permutation ts ts' Hsame). destruct (parent (getTile ts x)); auto.
Qed.

(** The dispatch on the content in base mode: it selects the popped tile
    once or not at all, and a tile that is not an ADD tile only when it has
    stopped refining. *)
Lemma executeTraversal_select_base (fuel : nat) (ts ts' : Tileset) (x : TileId)
    (fs : FrameState) (stoppedRefining : bool) :
  skipLevelOfDetail ts = false ->
  executeTraversal_select fuel ts x fs true stoppedRefining = Some ts' ->
  (forall j, _refines (getTile ts' j) = _refines (getTile ts j))
  /\ exists l,
       _selectedTiles ts' = _selectedTiles ts ++ l
       /\ (l = []
           \/ (l = [x] /\ (refine (getTile ts x) = REPLACE -> stoppedRefining = true))).
Proof.
  intros Hskip.
  assert (Hload : forall ts1,
            (forall j, _refines (getTile (loadTile ts1 x fs) j) = _refines (getTile ts1 j))
            /\ _selectedTiles (loadTile ts1 x fs) = _selectedTiles ts1
            /\ skipLevelOfDetail (loadTile ts1 x fs) = skipLevelOfDetail ts1).
  { intros ts1. split; [tile_field_kept|]. split; [apply loadTile_selectedTiles|].
    apply (same_skipLevelOfDetail eq), same_tiles_loadTile. apply _. }
  assert (Hempty : forall ts1,
            (forall j, _refines (getTile (addEmptyTile ts1 x) j) = _refines (getTile ts1 j))
            /\ _selectedTiles (addEmptyTile ts1 x) = _selectedTiles ts1
            /\ skipLevelOfDetail (addEmptyTile ts1 x) = skipLevelOfDetail ts1)
    by (intros ts1; split; [|split]; reflexivity).
  assert (Hselect : forall ts1 ts2 (C : Prop),
            skipLevelOfDetail ts1 = false ->
            selectDesiredTile fuel ts1 x fs = Some ts2 ->
            C ->
            (forall j, _refines (getTile ts2 j) = _refines (getTile ts1 j))
            /\ exists l,
                 _selectedTiles ts2 = _selectedTiles ts1 ++ l
                 /\ (l = [] \/ (l = [x] /\ C))).
  { intros ts1 ts2 C H1. unfold selectDesiredTile. rewrite H1. cbn [negb].
    destruct (contentAvailable (getTile ts1 x)); intros H HC; injection H as <-;
      [|split; [reflexivity|]; exists []; rewrite app_nil_r; auto].
    split; [tile_field_kept|]. rewrite selectTile_selectedTiles.
    destruct (Intersect_eqb _ _); [exists []; rewrite app_nil_r; auto|].
    exists [x]. auto. }
  assert (Hnone : forall ts1 (C : Prop),
            exists l : list TileId,
              _selectedTiles ts1 = _selectedTiles ts1 ++ l /\ (l = [] \/ (l = [x] /\ C)))
    by (intros ts1 C; exists []; rewrite app_nil_r; auto).
  unfold executeTraversal_select. cbv zeta.
  destruct (hasEmptyContent_ ts x).
  - destruct (Hempty ts) as (E1 & E2 & E3).
    destruct (Hload (addEmptyTile ts x)) as (L1 & L2 & L3).
    destruct stoppedRefining.
    + intros H. apply (Hselect _ _ (refine (getTile ts x) = REPLACE -> true = true)) in H;
        [|congruence|auto].
      destruct H as [H1 H2]. split; [intros j; rewrite H1, L1, E1; reflexivity|].
      rewrite <- E2, <- L2. exact H2.
    + intros H. injection H as <-. split; [intros j; rewrite L1, E1; reflexivity|].
      rewrite L2, E2. apply Hnone.
  - destruct (refine (getTile ts x)) eqn:Hrefine; cbn [Cesium3DTileRefine_eqb].
    + destruct (selectDesiredTile fuel ts x fs) as [ts3|] eqn:Hs; [|discriminate].
      intros H. injection H as <-.
      apply (Hselect _ _ (ADD = REPLACE -> stoppedRefining = true)) in Hs;
        [|exact Hskip|discriminate].
      destruct Hs as [H1 H2]. destruct (Hload ts3) as (L1 & L2 & _).
      split; [intros j; rewrite L1, H1; reflexivity|]. rewrite L2. exact H2.
    + destruct (Hload ts) as (L1 & L2 & L3). destruct stoppedRefining.
      * intros H. apply (Hselect _ _ (REPLACE = REPLACE -> true = true)) in H;
          [|congruence|auto].
        destruct H as [H1 H2]. split; [intros j; rewrite H1, L1; reflexivity|].
        rewrite <- L2. exact H2.
      * intros H. injection H as <-. split; [exact L1|]. rewrite L2. apply Hnone.
Qed.

(** A round of the base traversal: the flag [_refines] of the popped tile
    says that its children refine and that its parent refines; no other
    flag changes; and the round selects the popped tile once or not at
    all, a REPLACE tile only when it has stopped refining under a parent
    that refines. *)
Lemma executeTraversal_body_base (fuel : nat) (fs : FrameState) (base maximum : Z)
    (ts ts' : Tileset) (x : TileId) (rest stack' : list TileId) :
  skipLevelOfDetail ts = false ->
  executeTraversal_body fuel fs base maximum (ts, x :: rest) = Some (ts', stack') ->
  (_refines (getTile ts' x) = true -> parentRefines ts x = true)
  /\ (forall j, j <> x -> _refines (getTile ts' j) = _refines (getTile ts j))
  /\ exists l,
       _selectedTiles ts' = _selectedTiles ts ++ l
       /\ (l = []
           \/ (l = [x]
               /\ (refine (getTile ts x) = REPLACE ->
                   _refines (getTile ts' x) = false /\ parentRefines ts x = true))).
Proof.
  intros Hskip Hbody.
  assert (Hperm : forall l l' : list TileId, Permutation l l' -> Permutation l l') by auto.
  apply executeTraversal_body_inversion in Hbody. cbv zeta in Hbody.
  pose proof (same_tiles_executeTraversal_body_head fs ts x
                (Nat.max (traversal_stackMaximumLength ts) (length (x :: rest))))
    as Hhead.
  assert (Hflags1 : forall j,
            _refines (getTile (updateTileAncestorContentLinks
                                 (with_traversal_stackMaximumLength
                                    (Nat.max (traversal_stackMaximumLength ts)
                                       (length (x :: rest))) ts) x fs) j)
            = _refines (getTile ts j)) by tile_field_kept.
  assert (Hsel1 : _selectedTiles (updateTileAncestorContentLinks
                                    (with_traversal_stackMaximumLength
                                       (Nat.max (traversal_stackMaximumLength ts)
                                          (length (x :: rest))) ts) x fs)
                  = _selectedTiles ts)
    by (rewrite updateTileAncestorContentLinks_selectedTiles; reflexivity).
  set (ts1 := updateTileAncestorContentLinks _ x fs) in *. clearbody ts1.
  destruct Hbody as (baseTraversal & cr & ts2 & ts3 & Hbase & Hpush & Hselect & ->).
  rewrite inBaseTraversal_base in Hbase
    by (rewrite (same_skipLevelOfDetail eq ts ts1 Hhead); exact Hskip).
  injection Hbase as <-.
  rewrite (parentRefines_same ts ts1 x (same_tiles_weaken _ _ Hhead) Hflags1) in *.
  assert (H2 : same_tiles Permutation ts ts2
               /\ _selectedTiles ts2 = _selectedTiles ts
               /\ forall j, _refines (getTile ts2 j) = _refines (getTile ts j)).
  { destruct (canTraverse ts1 x).
    - pose proof (same_tiles_updateAndPushChildren _ _ _ _ _ _ _ _ Hpush) as Hsame.
      apply unselected_updateAndPushChildren in Hpush as (Ha & Hb & _).
      split; [etransitivity; [apply same_tiles_weaken, Hhead|exact Hsame]|].
      split; [congruence|]. intros j. rewrite Hb. apply Hflags1.
    - destruct Hpush as (_ & -> & _).
      split; [apply same_tiles_weaken, Hhead|]. auto. }
  destruct H2 as (Hsame2 & Hsel2 & Hflags2).
  apply executeTraversal_select_base in Hselect
    as [Hflags3 Hsel3]; [|rewrite (same_skipLevelOfDetail Permutation ts ts2 Hsame2); exact Hskip].
  assert (Hflags' : forall j,
            _refines (getTile (modTile x (set_refines (cr && parentRefines ts x))
                                 (touchTile (visitTile ts3 x fs) x fs)) j)
            = if decide (j = x) then cr && parentRefines ts x
              else _refines (getTile ts j)).
  { intros j. rewrite getTile_modTile. destruct (decide (j = x)) as [->|Hj]; [reflexivity|].
    rewrite getTile_touchTile. destruct (decide (j = x)); [contradiction|].
    rewrite getTile_visitTile. destruct (decide (j = x)); [contradiction|].
    rewrite Hflags3. apply Hflags2. }
  split; [|split].
  - rewrite Hflags'. destruct (decide (x = x)); [|congruence].
    intros H. apply andb_prop in H. apply H.
  - intros j Hj. rewrite Hflags'. destruct (decide (j = x)); [contradiction|reflexivity].
  - change (_selectedTiles (modTile ?i ?f ?a)) with (_selectedTiles a).
    rewrite touchTile_selectedTiles.
    change (_selectedTiles (visitTile ?a ?i ?f)) with (_selectedTiles a).
    destruct Hsel3 as (l & Hl & Hcases). exists l. rewrite <- Hsel2. split; [exact Hl|].
    destruct Hcases as [->|[-> H]]; [left; reflexivity|].
    right. split; [reflexivity|]. intros Hreplace.
    rewrite (same_refine Permutation ts ts2 Hsame2) in H. specialize (H Hreplace).
    rewrite Hflags'. destruct (decide (x = x)); [|congruence].
    destruct (cr && parentRefines ts x), (parentRefines ts x); cbn in H; try discriminate;
      auto.
Qed.

Section Cut.
Context (fs : FrameState) (ts0 : Tileset) (root : TileId).
Hypothesis Hbase : skipLevelOfDetail ts0 = false.
Hypothesis Hwf : wf_parents ts0.
Hypothesis Hroot : parent (getTile ts0 root) = None.
Hypothesis Hchildren : forall t, NoDup (children (getTile ts0 t)).

Lemma cut_invariant_step (fuel : nat) (base maximum : Z) (done : list TileId)
    (ts ts' : Tileset) (x : TileId) (rest stack' : list TileId) :
  frontier fs ts0 root done (ts, x :: rest) ->
  cut_invariant ts0 done ts ->
  executeTraversal_body fuel fs base maximum (ts, x :: rest) = Some (ts', stack') ->
  cut_invariant ts0 (x :: done) ts'.
Proof.
  intros Hinv [Honce Hrefines Hselected] Hbody.
  destruct (frontier_top fs ts0 root Hroot _ _ _ _ Hinv) as (Hx & Hself & Hnochild).
  pose proof (frontier_same _ _ _ _ _ Hinv) as Hsame. cbn [fst] in Hsame.
  pose proof Hbase as Hbase'.
  rewrite <- (same_skipLevelOfDetail Permutation ts0 ts Hsame) in Hbase'.
  destruct (executeTraversal_body_base _ _ _ _ _ _ _ _ _ Hbase' Hbody)
    as (Hflag & Hflags & l & Hl & Hcases).
  assert (Hsel : forall t, t ∈ _selectedTiles ts' ->
                           t ∈ _selectedTiles ts
                           \/ (t = x
                               /\ (refine (getTile ts x) = REPLACE ->
                                   _refines (getTile ts' x) = false
                                   /\ parentRefines ts x = true))).
  { intros t. rewrite Hl, elem_of_app.
    destruct Hcases as [->|[-> H]]; intros [Ht|Ht]; auto; [inversion Ht|].
    apply list_elem_of_singleton in Ht as ->. auto. }
  assert (Hparent : parentRefines ts x = true ->
                    forall p, parent (getTile ts0 x) = Some p ->
                              _refines (getTile ts' p) = true).
  { unfold parentRefines. rewrite (same_parent Permutation ts0 ts Hsame).
    intros H p Hp. rewrite Hp in H. rewrite Hflags; [exact H|].
    intros ->. apply Hself, Hp. }
  split.
  - rewrite Hl. destruct Hcases as [->|[-> _]]; [rewrite app_nil_r; exact Honce|].
    apply NoDup_app. split; [exact Honce|]. split; [|apply NoDup_singleton].
    intros t Ht Hin. apply list_elem_of_singleton in Hin as ->.
    apply Hx, (Hselected x Ht).
  - intros t p Ht Hp. apply elem_of_cons in Ht as [->|Ht].
    + intros H. apply Hparent; [apply Hflag, H|exact Hp].
    + assert (Htx : t <> x) by (intros ->; contradiction).
      assert (Hpx : p <> x) by (intros ->; exact (Hnochild t Ht Hp)).
      rewrite !Hflags by assumption. apply Hrefines; assumption.
  - intros t Ht. destruct (Hsel t Ht) as [Hold|[-> Hnew]].
    + destruct (Hselected t Hold) as [Hin Hcut]. split; [right; exact Hin|].
      assert (Htx : t <> x) by (intros ->; contradiction).
      intros Hreplace. destruct (Hcut Hreplace) as [H1 H2].
      split; [rewrite Hflags by exact Htx; exact H1|].
      intros p Hp. rewrite Hflags; [apply H2, Hp|].
      intros ->. exact (Hnochild t Hin Hp).
    + split; [left|]. intros Hreplace.
      rewrite (same_refine Permutation ts0 ts Hsame) in Hnew.
      destruct (Hnew Hreplace) as [H1 H2]. split; [exact H1|apply Hparent, H2].
Qed.

(** Above a tile under a parent that refines, every ancestor refines. *)
Lemma cut_invariant_ancestors (done : list TileId) (st : Tileset * list TileId) :
  frontier fs ts0 root done st ->
  cut_invariant ts0 done (fst st) ->
  forall d l,
    ancestry ts0 d l ->
    d ∈ done ->
    (forall p, parent (getTile ts0 d) = Some p -> _refines (getTile (fst st) p) = true) ->
    forall a, a ∈ l -> _refines (getTile (fst st) a) = true.
Proof.
  intros Hinv [_ Hrefines _]. induction 1 as [d Hd|d p l Hp Hl IH]; intros Hin Hup a Ha;
    [inversion Ha|].
  pose proof (frontier_parent fs ts0 root Hroot _ _ _ _ Hinv Hin Hp) as Hpin.
  apply elem_of_cons in Ha as [->|Ha]; [apply Hup, Hp|].
  apply IH; [exact Hpin| |exact Ha].
  intros q Hq. apply (Hrefines p q Hpin Hq), Hup, Hp.
Qed.

Lemma executeTraversal_cut (fuel : nat) (ts ts' : Tileset) (base maximum : Z) :
  same_tiles Permutation ts0 ts ->
  _selectedTiles ts = [] ->
  executeTraversal fuel ts root base maximum fs = Some ts' ->
  exists done, frontier fs ts0 root done (ts', []) /\ cut_invariant ts0 done ts'.
Proof.
  intros Hsame Hempty Hrun.
  destruct (executeTraversal_frontier fs ts0 root Hwf Hroot Hchildren (cut_invariant ts0)
              fuel ts ts' base maximum Hsame) as (done & Hinv & Hcut & _).
  - split.
    + rewrite Hempty. constructor.
    + intros t p Ht. inversion Ht.
    + intros t. rewrite Hempty. intros Ht. inversion Ht.
  - intros done ts1 ts2 x rest stack2. apply cut_invariant_step.
  - exact Hrun.
  - exists done. split; assumption.
Qed.
End Cut.

(** X20.  The base traversal selects a cut of the REPLACE tiles.  In base
    mode, on a tree whose parent links agree with the children arrays,
    whose root has no parent and whose children arrays hold no tile twice:
    a REPLACE tile that [selectTiles] selects has stopped refining
    ([_refines] is [false]) while each of its ancestors refines; so no
    selected REPLACE tile is an ancestor of another one. *)
Theorem base_traversal_selects_a_cut (fuel : nat) (ts ts' : Tileset) (fs : FrameState) :
  skipLevelOfDetail ts = false ->
  wf_parents ts ->
  parent (getTile ts (root ts)) = None ->
  (forall t, NoDup (children (getTile ts t))) ->
  selectTiles fuel ts fs = Some (RetTrue, ts') ->
  forall d l,
    d ∈ _selectedTiles ts' ->
    refine (getTile ts d) = REPLACE ->
    ancestry ts d l ->
    _refines (getTile ts' d) = false
    /\ (forall a, a ∈ l -> _refines (getTile ts' a) = true)
    /\ (forall a, a ∈ l -> refine (getTile ts a) = REPLACE -> a ∉ _selectedTiles ts').
Proof.
  intros Hbase Hwf Hroot Hchildren Hrun d l Hd Hreplace Hl.
  apply selectTiles_inversion in Hrun as (_ & _ & _ & ts1 & Hmain & Hpass).
  rewrite Hbase in Hpass. subst ts1.
  destruct (executeTraversal_cut fs ts (root ts) Hbase Hwf Hroot Hchildren _ _ _ _ _
              (same_tiles_weaken _ _ (same_tiles_selectTiles_start ts fs))
              (selectTiles_start_selectedTiles ts fs) Hmain) as (done & Hinv & Hcut).
  pose proof (cut_selected _ _ _ Hcut) as Hselected.
  destruct (Hselected d Hd) as [Hdone Hstop]. destruct (Hstop Hreplace) as [Hstopped Hup].
  pose proof (cut_invariant_ancestors fs ts (root ts) Hroot done _ Hinv Hcut d l Hl Hdone
                Hup) as Hall.
  cbn [fst] in Hall.
  split; [exact Hstopped|]. split; [exact Hall|].
  intros a Ha Hareplace Hin.
  destruct (Hselected a Hin) as [_ Hacut]. destruct (Hacut Hareplace) as [Hastop _].
  rewrite (Hall a Ha) in Hastop. discriminate Hastop.
Qed.

Lemma tree_sizes_threeLevels : tree_sizes tileset_threeLevels size_threeLevels.
Proof.
  unfold tree_sizes.
  apply (getTile_forall
           (fun t tile => (sum_list_with size_threeLevels (children tile)
                           < size_threeLevels t)%nat)).
  - intros t. cbn. destruct t as [|[|t]]; cbn; lia.
  - unfold tileset_threeLevels, newTileset. tile_by_tile ltac:(vm_compute; lia).
Qed.

Lemma wf_parents_threeLevels : wf_parents tileset_threeLevels.
Proof.
  intros p.
  apply (getTile_forall
           (fun p tile => forall c, c ∈ children tile ->
                                    parent (getTile tileset_threeLevels c) = Some p)).
  - intros t c Hc. inversion Hc.
  - unfold tileset_threeLevels at 1, newTileset. tile_by_tile children_agree.
Qed.

Lemma NoDup_children_threeLevels :
  forall t, NoDup (children (getTile tileset_threeLevels t)).
Proof.
  apply (getTile_forall (fun _ tile => NoDup (children tile))).
  - intros _. constructor.
  - unfold tileset_threeLevels, newTileset.
    tile_by_tile ltac:(
      cbn [children newTile];
      repeat (apply NoDup_cons_2;
        [intros Hin; repeat (apply elem_of_cons in Hin as [Hin|Hin]; [discriminate Hin|]);
         inversion Hin|]);
      apply NoDup_nil_2).
Qed.

Lemma NoDup_children_unloadedChild :
  forall t, NoDup (children (getTile tileset_unloadedChild t)).
Proof.
  apply (getTile_forall (fun _ tile => NoDup (children tile))).
  - intros _. constructor.
  - unfold tileset_unloadedChild, newTileset.
    tile_by_tile ltac:(
      cbn [children newTile];
      repeat (apply NoDup_cons_2;
        [intros Hin; repeat (apply elem_of_cons in Hin as [Hin|Hin]; [discriminate Hin|]);
         inversion Hin|]);
      apply NoDup_nil_2).
Qed.

Lemma base_traversal_selects_a_cut_witness :
  exists ts',
    selectTiles 5 tileset_threeLevels frame_allVisible = Some (RetTrue, ts')
    /\ _selectedTiles ts' = [3%nat; 4%nat; 2%nat]
    /\ _refines (getTile ts' 3%nat) = false
    /\ (forall a, a ∈ [1%nat; 0%nat] -> _refines (getTile ts' a) = true)
    /\ (forall a, a ∈ [1%nat; 0%nat] ->
                  refine (getTile tileset_threeLevels a) = REPLACE ->
                  a ∉ _selectedTiles ts').
Proof.
  assert (H : exists ts',
             selectTiles 5 tileset_threeLevels frame_allVisible = Some (RetTrue, ts')
             /\ _selectedTiles ts' = [3%nat; 4%nat; 2%nat]).
  { eexists. split; vm_compute; reflexivity. }
  destruct H as (ts' & Hrun & Hselected). exists ts'. split; [exact Hrun|].
  split; [exact Hselected|].
  apply (base_traversal_selects_a_cut 5 tileset_threeLevels ts' frame_allVisible
           ltac:(reflexivity) wf_parents_threeLevels ltac:(reflexivity)
           NoDup_children_threeLevels Hrun 3%nat [1%nat; 0%nat]).
  - rewrite Hselected. left.
  - reflexivity.
  - apply ancestry_parent; [reflexivity|].
    apply ancestry_parent; [reflexivity|].
    apply ancestry_root. reflexivity.
Defined.

(** X23.  In base mode no tile is selected twice.  With skipLevelOfDetail
    off, on a tree whose parent links agree with the children arrays,
    whose root has no parent and whose children arrays hold no tile twice:
    after [selectTiles] the array [_selectedTiles] holds no tile twice,
    and every tile in it is one that the traversal reaches from the
    root. *)
Theorem base_traversal_selects_once (fuel : nat) (ts ts' : Tileset) (fs : FrameState) :
  skipLevelOfDetail ts = false ->
  wf_parents ts ->
  parent (getTile ts (root ts)) = None ->
  (forall t, NoDup (children (getTile ts t))) ->
  selectTiles fuel ts fs = Some (RetTrue, ts') ->
  NoDup (_selectedTiles ts')
  /\ forall t, t ∈ _selectedTiles ts' -> traversal_reaches fs ts (root ts) t.
Proof.
  intros Hbase Hwf Hroot Hchildren Hrun.
  apply selectTiles_inversion in Hrun as (_ & _ & _ & ts1 & Hmain & Hpass).
  rewrite Hbase in Hpass. subst ts1.
  destruct (executeTraversal_cut fs ts (root ts) Hbase Hwf Hroot Hchildren _ _ _ _ _
              (same_tiles_weaken _ _ (same_tiles_selectTiles_start ts fs))
              (selectTiles_start_selectedTiles ts fs) Hmain) as (done & Hinv & Hcut).
  split; [exact (cut_selected_once _ _ _ Hcut)|].
  intros t Ht. apply (frontier_sound _ _ _ _ _ Hinv). left.
  apply (cut_selected _ _ _ Hcut t Ht).
Qed.

Lemma base_traversal_selects_once_witness :
  exists ts',
    selectTiles 5 tileset_threeLevels frame_allVisible = Some (RetTrue, ts')
    /\ _selectedTiles ts' = [3%nat; 4%nat; 2%nat]
    /\ NoDup (_selectedTiles ts')
    /\ forall t, t ∈ _selectedTiles ts' ->
                 traversal_reaches frame_allVisible tileset_threeLevels
                   (root tileset_threeLevels) t.
Proof.
  assert (H : exists ts',
             selectTiles 5 tileset_threeLevels frame_allVisible = Some (RetTrue, ts')
             /\ _selectedTiles ts' = [3%nat; 4%nat; 2%nat]).
  { eexists. split; vm_compute; reflexivity. }
  destruct H as (ts' & Hrun & Hselected). exists ts'. split; [exact Hrun|].
  split; [exact Hselected|].
  exact (base_traversal_selects_once 5 tileset_threeLevels ts' frame_allVisible
           ltac:(reflexivity) wf_parents_threeLevels ltac:(reflexivity)
           NoDup_children_threeLevels Hrun).
Defined.

(** ** The links to the nearest loaded ancestor *)

(** Between the link of the popped tile and its visit, a round writes no
    link to an ancestor with available content. *)
Lemma Dispatch_link (fs : FrameState) (x j : TileId) (v : option TileId) :
  Dispatch fs x (fun ts => _ancestorWithContentAvailable (getTile ts j) = v).
Proof.
  constructor; intros ts; intros;
    match goal with
    | H : _ = v |- _ => rewrite <- H; clear H
    end;
    try match goal with
        | |- context [selectTile (touchTile ?a ?c ?f) _ _] =>
            generalize (touchTile a c f); intro
        end;
    revert j; tile_field_kept.
Qed.

(** A round links the tile that it pops through its parent, and writes no
    other link. *)
Lemma executeTraversal_body_links (fuel : nat) (fs : FrameState) (base maximum : Z)
    (ts ts' : Tileset) (x : TileId) (rest stack' : list TileId) :
  parent (getTile ts x) <> Some x ->
  executeTraversal_body fuel fs base maximum (ts, x :: rest) = Some (ts', stack') ->
  (forall j, j <> x ->
             _ancestorWithContentAvailable (getTile ts' j)
             = _ancestorWithContentAvailable (getTile ts j))
  /\ _ancestorWithContentAvailable (getTile ts' x) = link_through ts ts x.
Proof.
  intros Hself Hbody.
  apply executeTraversal_body_inversion in Hbody. cbv zeta in Hbody.
  set (ts0 := with_traversal_stackMaximumLength _ ts) in Hbody.
  assert (Hhead : forall j,
            _ancestorWithContentAvailable
              (getTile (updateTileAncestorContentLinks ts0 x fs) j)
            = if decide (j = x) then link_through ts ts x
              else _ancestorWithContentAvailable (getTile ts j)).
  { intros j. rewrite getTile_updateTileAncestorContentLinks.
    destruct (decide (j = x)) as [->|_]; [|reflexivity].
    unfold link_through. change (getTile ts0) with (getTile ts).
    destruct (parent (getTile ts x)) as [p|] eqn:Hp; fields; [|reflexivity].
    destruct (contentAvailable (getTile ts p)); [reflexivity|].
    destruct (decide (p = x)) as [->|_]; [congruence|reflexivity]. }
  set (ts1 := updateTileAncestorContentLinks ts0 x fs) in *. clearbody ts1.
  destruct Hbody as (b & cr & ts2 & ts3 & _ & Hpush & Hselect & ->).
  assert (Hkept : forall j,
            _ancestorWithContentAvailable
              (getTile (modTile x (set_refines (cr && parentRefines ts1 x))
                          (touchTile (visitTile ts3 x fs) x fs)) j)
            = _ancestorWithContentAvailable (getTile ts1 j)).
  { intros j.
    pose proof (Dispatch_link fs x j (_ancestorWithContentAvailable (getTile ts1 j))) as HP.
    assert (H2 : _ancestorWithContentAvailable (getTile ts2 j)
                 = _ancestorWithContentAvailable (getTile ts1 j)).
    { destruct (canTraverse ts1 x).
      - exact (updateAndPushChildren_dispatch fs x _ HP _ _ _ _ _ _ _ eq_refl Hpush).
      - destruct Hpush as (_ & -> & _). reflexivity. }
    apply (executeTraversal_select_dispatch_after fs x _ HP) in Hselect;
      [|destruct (hasEmptyContent_ ts2 x); exact H2].
    rewrite <- Hselect. rewrite getTile_modTile.
    destruct (decide (j = x)) as [->|_]; fields;
      rewrite getTile_touchTile;
      match goal with
      | |- context [decide (?a = ?b)] => destruct (decide (a = b))
      end;
      try match goal with
          | |- context [if ?c then _ else _] => destruct c
          end;
      fields; rewrite getTile_visitTile;
      match goal with
      | |- context [decide (?a = ?b)] => destruct (decide (a = b))
      end;
      fields; congruence. }
  split.
  - intros j Hj. rewrite Hkept, Hhead. destruct (decide (j = x)); [contradiction|reflexivity].
  - rewrite Hkept, Hhead. destruct (decide (x = x)); [reflexivity|congruence].
Qed.

Lemma link_through_same (ts0 ts ts' : Tileset) (t : TileId) :
  (forall p, parent (getTile ts0 t) = Some p ->
             _ancestorWithContentAvailable (getTile ts' p)
             = _ancestorWithContentAvailable (getTile ts p)) ->
  link_through ts0 ts' t = link_through ts0 ts t.
Proof.
  intros H. unfold link_through. destruct (parent (getTile ts0 t)) as [p|]; [|reflexivity].
  rewrite (H p eq_refl). reflexivity.
Qed.

(** The result of the call, when it has returned. *)
Lemma executeTraversal_links_nearest_available_returned (fuel : nat) (ts ts' : Tileset)
    (root : TileId) (base maximum : Z) (fs : FrameState) :
  wf_parents ts ->
  parent (getTile ts root) = None ->
  (forall t, NoDup (children (getTile ts t))) ->
  executeTraversal fuel ts root base maximum fs = Some ts' ->
  forall t,
    traversal_reaches fs ts root t ->
    exists l,
      ancestry ts t l
      /\ _ancestorWithContentAvailable (getTile ts' t)
         = find (fun a => contentAvailable (getTile ts a)) l.
Proof.
  intros Hwf Hroot Hchildren Hrun.
  destruct (executeTraversal_frontier fs ts root Hwf Hroot Hchildren
              (fun done ts1 =>
                 forall t, t ∈ done ->
                           _ancestorWithContentAvailable (getTile ts1 t)
                           = link_through ts ts1 t)
              fuel ts ts' base maximum) as (done & Hinv & Hlinks & Hdone).
  - reflexivity.
  - intros t Ht. inversion Ht.
  - intros done ts1 ts2 x rest stack2 Hinv Hlinks Hbody.
    destruct (frontier_top fs ts root Hroot _ _ _ _ Hinv) as (Hx & Hself & Hnochild).
    pose proof (frontier_same _ _ _ _ _ Hinv) as Hsame. cbn [fst] in Hsame.
    rewrite <- (same_parent Permutation ts ts1 Hsame) in Hself.
    destruct (executeTraversal_body_links _ _ _ _ _ _ _ _ _ Hself Hbody)
      as (Hothers & Hlink).
    rewrite (same_parent Permutation ts ts1 Hsame) in Hself.
    intros t Ht. apply elem_of_cons in Ht as [->|Ht].
    + rewrite Hlink. unfold link_through.
      rewrite (same_parent Permutation ts ts1 Hsame).
      destruct (parent (getTile ts x)) as [p|] eqn:Hp; [|reflexivity].
      rewrite (same_contentAvailable Permutation ts ts1 Hsame).
      destruct (contentAvailable (getTile ts p)); [reflexivity|].
      symmetry. apply Hothers. intros ->. exact (Hself eq_refl).
    + assert (Htx : t <> x) by (intros ->; contradiction).
      rewrite (Hothers t Htx), (Hlinks t Ht). symmetry. apply link_through_same.
      intros p Hp. apply Hothers. intros ->. exact (Hnochild t Ht Hp).
  - exact Hrun.
  - intros t Ht. destruct (traversal_reaches_ancestry fs ts root Hwf Hroot t Ht) as [l Hl].
    exists l. split; [exact Hl|].
    apply Hdone in Ht. clear Hdone. induction Hl as [t Hp|t p l Hp Hl IH].
    + rewrite (Hlinks t Ht). unfold link_through. rewrite Hp. reflexivity.
    + rewrite (Hlinks t Ht). unfold link_through. rewrite Hp. cbn [find].
      destruct (contentAvailable (getTile ts p)); [reflexivity|].
      apply IH. exact (frontier_parent fs ts root Hroot _ _ _ _ Hinv Ht Hp).
Qed.

(** X21.  The main traversal links every tile it reaches to its nearest
    ancestor with available content.  On a tree whose parent links agree
    with the children arrays, whose root has no parent and whose children
    arrays hold no tile twice: after [executeTraversal], the field
    [_ancestorWithContentAvailable] of a reached tile is the first tile
    with [contentAvailable] on the way from its parent up to the root, and
    undefined when there is none.  The call returns on a finite tree once
    the fuel covers the size of the root. *)
Theorem executeTraversal_links_nearest_available (fuel : nat) (ts : Tileset)
    (root : TileId) (base maximum : Z) (fs : FrameState) (size : TileId -> nat) :
  wf_parents ts ->
  parent (getTile ts root) = None ->
  (forall t, NoDup (children (getTile ts t))) ->
  (forall ts',
     executeTraversal fuel ts root base maximum fs = Some ts' ->
     forall t,
       traversal_reaches fs ts root t ->
       exists l,
         ancestry ts t l
         /\ _ancestorWithContentAvailable (getTile ts' t)
            = find (fun a => contentAvailable (getTile ts a)) l)
  /\ (tree_sizes ts size -> (size root <= fuel)%nat ->
      exists ts', executeTraversal fuel ts root base maximum fs = Some ts').
Proof.
  intros Hwf Hroot Hnodup. split.
  - intros ts'.
    apply (executeTraversal_links_nearest_available_returned fuel ts ts' root base maximum fs
             Hwf Hroot Hnodup).
  - apply executeTraversal_terminates.
Qed.

Lemma executeTraversal_links_nearest_available_witness :
  exists ts',
    executeTraversal 4 tileset_unloadedChild 0%nat 16 16 frame_allVisible = Some ts'
    /\ _ancestorWithContentAvailable (getTile ts' 1%nat) = Some 0%nat.
Proof.
  assert (H : exists ts',
             executeTraversal 4 tileset_unloadedChild 0%nat 16 16 frame_allVisible
             = Some ts')
    by (eexists; vm_compute; reflexivity).
  destruct H as (ts' & Hrun). exists ts'. split; [exact Hrun|].
  assert (Hreach : traversal_reaches frame_allVisible tileset_unloadedChild 0%nat 1%nat).
  { apply (traversal_child _ _ _ 0%nat 1%nat); [apply traversal_root|..].
    - vm_compute. reflexivity.
    - assert (Hc : children (getTile tileset_unloadedChild 0%nat) = [1%nat; 2%nat])
        by (vm_compute; reflexivity).
      rewrite Hc. left.
    - vm_compute. reflexivity. }
  destruct (proj1 (executeTraversal_links_nearest_available 4 tileset_unloadedChild 0%nat
                     16 16 frame_allVisible size_example wf_parents_unloadedChild
                     ltac:(reflexivity) NoDup_children_unloadedChild)
              ts' Hrun 1%nat Hreach) as (l & Hl & Hlink).
  rewrite Hlink. inversion Hl as [t Hp|t p l' Hp Hl']; subst.
  - vm_compute in Hp. discriminate Hp.
  - assert (Hparent : parent (getTile tileset_unloadedChild 1%nat) = Some 0%nat)
      by (vm_compute; reflexivity).
    rewrite Hparent in Hp. injection Hp as <-. reflexivity.
Defined.

(** ** Every reached tile is popped once *)

Lemma Dispatch_counts (fs : FrameState) (x : TileId) (visited : Z) (empty : list TileId) :
  Dispatch fs x (fun ts => _statistics_visited ts = visited /\ _emptyTiles ts = empty).
Proof.
  constructor; intros ts; intros;
    match goal with
    | H : _ /\ _ |- _ => destruct H as [<- <-]
    end;
    try match goal with
        | |- context [selectTile (touchTile ?a ?c ?f) _ _] =>
            generalize (touchTile a c f); intro
        end;
    split; tileset_field_kept.
Qed.

(** A round counts one visit, and adds the popped tile to the empty tiles
    when its content is empty. *)
Lemma executeTraversal_body_counts (fuel : nat) (fs : FrameState) (base maximum : Z)
    (ts ts' : Tileset) (x : TileId) (rest stack' : list TileId) :
  executeTraversal_body fuel fs base maximum (ts, x :: rest) = Some (ts', stack') ->
  _statistics_visited ts' = _statistics_visited ts + 1
  /\ _emptyTiles ts' = _emptyTiles ts ++ (if hasEmptyContent_ ts x then [x] else []).
Proof.
  intros Hbody.
  apply executeTraversal_body_inversion in Hbody. cbv zeta in Hbody.
  pose proof (same_tiles_executeTraversal_body_head fs ts x
                (Nat.max (traversal_stackMaximumLength ts) (length (x :: rest))))
    as Hhead.
  assert (H1 : _statistics_visited
                 (updateTileAncestorContentLinks
                    (with_traversal_stackMaximumLength
                       (Nat.max (traversal_stackMaximumLength ts) (length (x :: rest))) ts)
                    x fs) = _statistics_visited ts
               /\ _emptyTiles
                    (updateTileAncestorContentLinks
                       (with_traversal_stackMaximumLength
                          (Nat.max (traversal_stackMaximumLength ts) (length (x :: rest)))
                          ts) x fs) = _emptyTiles ts)
    by (split; tileset_field_kept).
  set (ts1 := updateTileAncestorContentLinks _ x fs) in *. clearbody ts1.
  destruct Hbody as (b & cr & ts2 & ts3 & _ & Hpush & Hselect & ->).
  assert (H2 : (_statistics_visited ts2 = _statistics_visited ts
                /\ _emptyTiles ts2 = _emptyTiles ts)
               /\ same_tiles Permutation ts ts2).
  { destruct (canTraverse ts1 x).
    - split.
      + exact (updateAndPushChildren_dispatch fs x _ (Dispatch_counts fs x _ _)
                 _ _ _ _ _ _ _ H1 Hpush).
      + etransitivity; [apply same_tiles_weaken, Hhead|].
        exact (same_tiles_updateAndPushChildren _ _ _ _ _ _ _ _ Hpush).
    - destruct Hpush as (_ & -> & _). split; [exact H1|apply same_tiles_weaken, Hhead]. }
  destruct H2 as [[Hvisited Hempty] Hsame].
  apply (executeTraversal_select_dispatch_after fs x _
           (Dispatch_counts fs x (_statistics_visited ts)
              (_emptyTiles ts ++ (if hasEmptyContent_ ts x then [x] else []))))
    in Hselect.
  - destruct Hselect as [H3 H4]. split.
    + rewrite <- H3. tileset_field_kept.
    + rewrite <- H4. tileset_field_kept.
  - rewrite (same_hasEmptyContent Permutation ts ts2 Hsame).
    destruct (hasEmptyContent_ ts x).
    + split; [exact Hvisited|]. unfold addEmptyTile. cbn. rewrite Hempty. reflexivity.
    + rewrite app_nil_r. split; assumption.
Qed.

(** The result of the call, when it has returned. *)
Lemma executeTraversal_pops_once_returned (fuel : nat) (ts ts' : Tileset) (root : TileId)
    (base maximum : Z) (fs : FrameState) :
  wf_parents ts ->
  parent (getTile ts root) = None ->
  (forall t, NoDup (children (getTile ts t))) ->
  executeTraversal fuel ts root base maximum fs = Some ts' ->
  exists popped,
    NoDup popped
    /\ (forall t, t ∈ popped <-> traversal_reaches fs ts root t)
    /\ _statistics_visited ts' = _statistics_visited ts + Z.of_nat (length popped)
    /\ _emptyTiles ts' = _emptyTiles ts ++ List.filter (hasEmptyContent_ ts) popped.
Proof.
  intros Hwf Hroot Hchildren Hrun.
  destruct (executeTraversal_frontier fs ts root Hwf Hroot Hchildren
              (fun done ts1 =>
                 _statistics_visited ts1
                 = _statistics_visited ts + Z.of_nat (length (reverse done))
                 /\ _emptyTiles ts1
                    = _emptyTiles ts ++ List.filter (hasEmptyContent_ ts) (reverse done))
              fuel ts ts' base maximum) as (done & Hinv & [Hvisited Hempty] & Hdone).
  - reflexivity.
  - split; [cbn; lia|]. cbn. rewrite app_nil_r. reflexivity.
  - intros done ts1 ts2 x rest stack2 Hinv [Hvisited Hempty] Hbody.
    pose proof (frontier_same _ _ _ _ _ Hinv) as Hsame. cbn [fst] in Hsame.
    destruct (executeTraversal_body_counts _ _ _ _ _ _ _ _ _ Hbody) as [H1 H2].
    rewrite reverse_cons. split.
    + rewrite H1, Hvisited, length_app. cbn [length]. lia.
    + rewrite H2, Hempty, List.filter_app, (same_hasEmptyContent Permutation ts ts1 Hsame).
      cbn [List.filter]. rewrite app_assoc. reflexivity.
  - exact Hrun.
  - exists (reverse done). split; [|split; [|split]].
    + rewrite reverse_Permutation. apply (frontier_popped_once _ _ _ _ _ Hinv).
    + intros t. rewrite elem_of_reverse. apply Hdone.
    + exact Hvisited.
    + exact Hempty.
Qed.

(** X22.  On a tree the main traversal pops every tile that it reaches
    exactly once.  With parent links that agree with the children arrays,
    a root without parent and children arrays that hold no tile twice:
    there is a list without repetition of exactly the reached tiles such
    that [executeTraversal] raises the counter [_statistics.visited] by
    its length and appends to [_emptyTiles] those of its tiles that have
    empty or tileset content, in this order.  The call returns on a finite
    tree once the fuel covers the size of the root. *)
Theorem executeTraversal_pops_once (fuel : nat) (ts : Tileset) (root : TileId)
    (base maximum : Z) (fs : FrameState) (size : TileId -> nat) :
  wf_parents ts ->
  parent (getTile ts root) = None ->
  (forall t, NoDup (children (getTile ts t))) ->
  (forall ts',
     executeTraversal fuel ts root base maximum fs = Some ts' ->
     exists popped,
       NoDup popped
       /\ (forall t, t ∈ popped <-> traversal_reaches fs ts root t)
       /\ _statistics_visited ts' = _statistics_visited ts + Z.of_nat (length popped)
       /\ _emptyTiles ts' = _emptyTiles ts ++ List.filter (hasEmptyContent_ ts) popped)
  /\ (tree_sizes ts size -> (size root <= fuel)%nat ->
      exists ts', executeTraversal fuel ts root base maximum fs = Some ts').
Proof.
  intros Hwf Hroot Hnodup. split.
  - intros ts'.
    apply (executeTraversal_pops_once_returned fuel ts ts' root base maximum fs
             Hwf Hroot Hnodup).
  - apply executeTraversal_terminates.
Qed.

Lemma executeTraversal_pops_once_witness :
  exists ts',
    executeTraversal 4 tileset_unloadedChild 0%nat 16 16 frame_allVisible = Some ts'
    /\ exists popped,
         NoDup popped
         /\ (forall t, t ∈ popped
                       <-> traversal_reaches frame_allVisible tileset_unloadedChild 0%nat t)
         /\ _statistics_visited ts'
            = _statistics_visited tileset_unloadedChild + Z.of_nat (length popped)
         /\ _emptyTiles ts'
            = _emptyTiles tileset_unloadedChild
              ++ List.filter (hasEmptyContent_ tileset_unloadedChild) popped.
Proof.
  assert (H : exists ts',
             executeTraversal 4 tileset_unloadedChild 0%nat 16 16 frame_allVisible
             = Some ts')
    by (eexists; vm_compute; reflexivity).
  destruct H as (ts' & Hrun). exists ts'. split; [exact Hrun|].
  exact (proj1 (executeTraversal_pops_once 4 tileset_unloadedChild 0%nat 16 16
                  frame_allVisible size_example wf_parents_unloadedChild ltac:(reflexivity)
                  NoDup_children_unloadedChild) ts' Hrun).
Defined.


(** ** The refine check of a REPLACE tile *)

Lemma same_tiles_Permutation_sym (ts ts' : Tileset) :
  same_tiles Permutation ts ts' -> same_tiles Permutation ts' ts.
Proof.
  intros [Hsettings Htiles]. split; [symmetry; exact Hsettings|].
  intros j. destruct (Htiles j) as [Hinput Hperm]. split; symmetry; assumption.
Qed.

Lemma child_refines_same (ts ts' : Tileset) (fs : FrameState) (child : TileId) :
  same_tiles Permutation ts ts' -> child_refines ts fs child -> child_refines ts' fs child.
Proof.
  assert (Hperm : forall l l' : list TileId, Permutation l l' -> Permutation l l') by auto.
  intros Hsame [Hvolume Hcontent]. split; [exact Hvolume|].
  rewrite (same_hasEmptyContent Permutation ts ts' Hsame).
  destruct (hasEmptyContent_ ts child).
  - intros tile Hstop. rewrite (same_contentAvailable Permutation ts ts' Hsame).
    apply Hcontent.
    exact (same_emptyTraversal_stops Permutation ts' ts child tile Hperm
             (same_tiles_Permutation_sym _ _ Hsame) Hstop).
  - rewrite (same_contentAvailable Permutation ts ts' Hsame). exact Hcontent.
Qed.


(** The answer of [updateAndPushChildren] under the refine check. *)
Lemma updateAndPushChildren_checked (fuel : nat) (ts ts' : Tileset)
    (tile : TileId) (stack stack' : list TileId) (fs : FrameState) (refines : bool) :
  checkRefines ts tile = true ->
  updateAndPushChildren fuel ts tile stack fs = Some (refines, ts', stack') ->
  refines = true
  <-> (exists c, c ∈ children (getTile ts tile)
                 /\ fs_visible fs c && fs_inRequestVolume fs c = true)
      /\ forall c, c ∈ children (getTile ts tile) -> child_refines ts fs c.
Proof.
  intros Hcheck Hcall.
  apply updateAndPushChildren_inversion in Hcall. cbv zeta in Hcall.
  assert (Hperm : forall l l' : list TileId, Permutation l l' -> Permutation l l') by auto.
  pose proof (same_tiles_foldl_updateTile Permutation fs (children (getTile ts tile)) ts)
    as Hsame1.
  pose proof (fun c (Hc : c ∈ children (getTile ts tile)) =>
                refreshed_foldl_updateTile fs (children (getTile ts tile)) c ts (or_introl Hc))
    as Hfresh1.
  set (l := children (getTile ts tile)) in *.
  set (ts1 := foldl _ ts l) in *. clearbody ts1.
  set (sorted := Array_sort _ l) in *.
  assert (Hsorted : Permutation l sorted) by apply Array_sort_permutation.
  clearbody sorted.
  set (ts2 := modTile tile (set_children sorted) ts1) in *.
  assert (Hsame2 : same_tiles Permutation ts ts2).
  { etransitivity; [exact Hsame1|]. subst ts2. split; [reflexivity|]. intros j.
    rewrite getTile_modTile. destruct (decide (j = tile)) as [->|]; [|split; reflexivity].
    split; [reflexivity|]. fields.
    rewrite <- (same_children Permutation ts ts1 Hperm Hsame1 tile). exact Hsorted. }
  assert (Hfresh2 : forall c, c ∈ l -> refreshed fs ts2 c).
  { intros c Hc. subst ts2. unfold refreshed. rewrite getTile_modTile.
    destruct (decide (c = tile)) as [->|]; [fields|]; apply Hfresh1; exact Hc. }
  clearbody ts2. clear Hsame1 Hfresh1 ts1.
  replace (negb (skipLevelOfDetail ts2)
           && Cesium3DTileRefine_eqb (refine (getTile ts tile)) REPLACE
           && negb (hasEmptyContent_ ts2 tile)) with true in Hcall
    by (rewrite <- Hcheck; unfold checkRefines;
        rewrite (same_skipLevelOfDetail Permutation ts ts2 Hsame2),
          (same_hasEmptyContent Permutation ts ts2 Hsame2); reflexivity).
  destruct Hcall as (st & Hloop & _ & -> & _).
  set (visible := fun c => fs_visible fs c && fs_inRequestVolume fs c).
  assert (Hfinal : same_tiles Permutation ts (cl_tileset st)
                   /\ (forall c, c ∈ l -> refreshed fs (cl_tileset st) c)
                   /\ cl_anyChildrenVisible st = existsb visible ([] ++ sorted)
                   /\ (cl_refines st = true
                       <-> forall c, c ∈ [] ++ sorted -> child_refines ts fs c)).
  { apply (updateAndPushChildren_loop_invariant_at fuel fs true sorted
             (fun done st =>
                same_tiles Permutation ts (cl_tileset st)
                /\ (forall c, c ∈ l -> refreshed fs (cl_tileset st) c)
                /\ cl_anyChildrenVisible st = existsb visible done
                /\ (cl_refines st = true <-> forall c, c ∈ done -> child_refines ts fs c)))
      with (3 := Hloop).
    - clear st Hloop. intros done c rest st st' Hall (Hsame & Hfresh & Hany & Hdone) Hstep.
      assert (Hc : c ∈ l).
      { rewrite Hsorted, Hall. apply elem_of_app. right. left. }
      split; [|split].
      + apply (updateAndPushChildren_child_preserves fs (same_tiles Permutation ts))
          with (5 := Hsame) (6 := Hstep);
          first [ exact (stable_updateTile _ _ (Stable_same_tiles fs ts))
                | exact (stable_loadTile _ _ (Stable_same_tiles fs ts))
                | exact (stable_touchTile _ _ (Stable_same_tiles fs ts))
                | exact (stable_emptyTraversal_stackMaximumLength _ _
                           (Stable_same_tiles fs ts)) ].
      + intros c' Hc'.
        apply (updateAndPushChildren_child_preserves fs (fun ts => refreshed fs ts c'))
          with (5 := Hfresh c' Hc') (6 := Hstep);
          first [ exact (stable_updateTile _ _ (Stable_refreshed fs c'))
                | exact (stable_loadTile _ _ (Stable_refreshed fs c'))
                | exact (stable_touchTile _ _ (Stable_refreshed fs c'))
                | exact (stable_emptyTraversal_stackMaximumLength _ _
                           (Stable_refreshed fs c')) ].
      + apply updateAndPushChildren_child_spec in Hstep. cbv zeta in Hstep.
        destruct Hstep as (mid & cr & Hmid & _ & _ & Hany' & _ & _ & Hrefines & Hchild).
        rewrite (isVisible_refreshed fs _ c (Hfresh c Hc)) in Hany'.
        split.
        { rewrite Hany', Hany, existsb_app. cbn [existsb]. rewrite orb_false_r.
          apply orb_comm. }
        assert (Hcr : cr = true <-> child_refines ts fs c).
        { destruct (Hfresh c Hc) as [_ Hvol]. rewrite Hvol in Hchild.
          rewrite (same_hasEmptyContent Permutation _ _ Hsame),
            (same_contentAvailable Permutation _ _ Hsame) in Hchild.
          unfold child_refines.
          destruct (fs_inRequestVolume fs c); cbn [negb] in Hchild;
            [|subst cr; split; [discriminate|intros [H _]; discriminate H]].
          destruct (hasEmptyContent_ ts c).
          - apply executeEmptyTraversal_spec in Hchild. rewrite Hchild.
            assert (Hmid' : same_tiles Permutation ts mid)
              by (etransitivity; [exact Hsame|apply same_tiles_weaken, Hmid]).
            split.
            + intros Hall'. split; [reflexivity|]. intros t Hstop.
              rewrite <- (same_contentAvailable Permutation ts mid Hmid').
              apply Hall'.
              exact (same_emptyTraversal_stops Permutation ts mid c t Hperm Hmid' Hstop).
            + intros [_ Hall'] t Hstop.
              rewrite (same_contentAvailable Permutation ts mid Hmid').
              apply Hall'.
              exact (same_emptyTraversal_stops Permutation mid ts c t Hperm
                       (same_tiles_Permutation_sym _ _ Hmid') Hstop).
          - destruct Hchild as [-> _]. split; [intros H; split; [reflexivity|exact H]|].
            intros [_ H]. exact H. }
        rewrite Hrefines, andb_true_iff, Hdone, Hcr. split.
        * intros [H1 H2] c' Hc'. apply elem_of_app in Hc' as [Hc'|Hc']; [apply H1, Hc'|].
          apply list_elem_of_singleton in Hc' as ->. exact H2.
        * intros H. split; [intros c' Hc'|]; apply H, elem_of_app; [left; exact Hc'|].
          right. left.
    - cbn [cl_tileset cl_anyChildrenVisible cl_refines existsb].
      split; [exact Hsame2|]. split; [exact Hfresh2|]. split; [reflexivity|].
      split; [intros _ c Hc; inversion Hc|reflexivity]. }
  destruct Hfinal as (_ & _ & Hany & Hrefines). cbn [app] in Hany, Hrefines.
  assert (Hex : existsb visible sorted = true
                <-> exists c, c ∈ l /\ fs_visible fs c && fs_inRequestVolume fs c = true).
  { rewrite existsb_exists. split; intros (c & Hc & Hv); exists c; split; try exact Hv.
    - rewrite Hsorted. apply list_elem_of_In, Hc.
    - apply list_elem_of_In. rewrite <- Hsorted. exact Hc. }
  rewrite Hany. destruct (existsb visible sorted); cbn [negb].
  - rewrite Hrefines. split.
    + intros H. split; [apply Hex; reflexivity|]. intros c Hc. apply H.
      rewrite <- Hsorted. exact Hc.
    + intros [_ H] c Hc. apply H. rewrite Hsorted. exact Hc.
  - split; [discriminate|]. intros [H _]. apply Hex in H. discriminate H.
Qed.

(** X24.  Under the refine check (skipLevelOfDetail off, a REPLACE tile
    with content of its own) [updateAndPushChildren] answers [true]
    exactly when the frame sees a child of the tile and every child, seen
    or not, is in the request volume and has available content or, when
    it is empty, has available content at every tile where the descent of
    the empty traversal from it stops.  The call returns on a finite tree
    once the fuel covers the sizes of the children. *)
Theorem updateAndPushChildren_refines_when_loaded (fuel : nat) (ts : Tileset)
    (tile : TileId) (stack : list TileId) (fs : FrameState) (size : TileId -> nat) :
  checkRefines ts tile = true ->
  (forall refines ts' stack',
     updateAndPushChildren fuel ts tile stack fs = Some (refines, ts', stack') ->
     refines = true
     <-> (exists c, c ∈ children (getTile ts tile)
                    /\ fs_visible fs c && fs_inRequestVolume fs c = true)
         /\ forall c, c ∈ children (getTile ts tile) -> child_refines ts fs c)
  /\ (tree_sizes ts size ->
      (forall c, c ∈ children (getTile ts tile) -> (size c <= fuel)%nat) ->
      exists refines ts' stack',
        updateAndPushChildren fuel ts tile stack fs = Some (refines, ts', stack')).
Proof.
  intros Hcheck. split.
  - intros refines ts' stack'.
    apply (updateAndPushChildren_checked fuel ts ts' tile stack stack' fs refines Hcheck).
  - apply updateAndPushChildren_terminates.
Qed.

Lemma updateAndPushChildren_refines_when_loaded_witness :
  exists ts' stack',
    updateAndPushChildren 1 tileset_chain 0%nat [] frame_allVisible
    = Some (true, ts', stack')
    /\ child_refines tileset_chain frame_allVisible 1%nat.
Proof.
  assert (H : exists ts' stack',
             updateAndPushChildren 1 tileset_chain 0%nat [] frame_allVisible
             = Some (true, ts', stack'))
    by (eexists _, _; vm_compute; reflexivity).
  destruct H as (ts' & stack' & Hcall). exists ts', stack'. split; [exact Hcall|].
  assert (Hchildren : children (getTile tileset_chain 0%nat) = [1%nat])
    by (vm_compute; reflexivity).
  apply (proj1 (proj1 (updateAndPushChildren_refines_when_loaded 1 tileset_chain 0%nat []
                         frame_allVisible size_example ltac:(vm_compute; reflexivity))
                  true ts' stack' Hcall) eq_refl).
  rewrite Hchildren. left.
Defined.

(** A round sets [_refines] of the tile that it pops only when the tile
    can be traversed, its parent refines and [updateAndPushChildren]
    answers [true]: the frame sees a child and, under the refine check,
    every child passes it. *)
Lemma executeTraversal_body_refines (fuel : nat) (fs : FrameState) (base maximum : Z)
    (ts ts' : Tileset) (x : TileId) (rest stack' : list TileId) :
  executeTraversal_body fuel fs base maximum (ts, x :: rest) = Some (ts', stack') ->
  _refines (getTile ts' x) = true ->
  canTraverse ts x = true
  /\ (exists c, c ∈ children (getTile ts x)
                /\ fs_visible fs c && fs_inRequestVolume fs c = true)
  /\ (checkRefines ts x = true ->
      forall c, c ∈ children (getTile ts x) -> child_refines ts fs c).
Proof.
  intros Hbody.
  assert (Heq : forall l l' : list TileId, l = l' -> Permutation l l')
    by (intros l l' ->; reflexivity).
  assert (Hperm : forall l l' : list TileId, Permutation l l' -> Permutation l l') by auto.
  apply executeTraversal_body_inversion in Hbody. cbv zeta in Hbody.
  pose proof (same_tiles_executeTraversal_body_head fs ts x
                (Nat.max (traversal_stackMaximumLength ts) (length (x :: rest))))
    as Hhead.
  set (ts1 := updateTileAncestorContentLinks _ x fs) in *. clearbody ts1.
  destruct Hbody as (b & cr & ts2 & ts3 & _ & Hpush & _ & ->).
  rewrite getTile_modTile_eq. fields. intros Hrefines.
  apply andb_prop in Hrefines as [-> _].
  rewrite (same_canTraverse eq ts ts1 Heq Hhead) in Hpush.
  destruct (canTraverse ts x); [|destruct Hpush as (H & _); discriminate H].
  split; [reflexivity|].
  pose proof (same_children eq ts ts1 Heq Hhead x) as Hchildren.
  split.
  - pose proof (same_children Permutation ts1 ts2 Hperm
                  (same_tiles_updateAndPushChildren _ _ _ _ _ _ _ _ Hpush) x) as Hsorted.
    apply updateAndPushChildren_visible_children in Hpush. cbv zeta in Hpush.
    destruct Hpush as (_ & Hvisible & _). specialize (Hvisible eq_refl).
    apply existsb_exists in Hvisible as (c & Hc & Hv). exists c. split; [|exact Hv].
    apply list_elem_of_In in Hc. rewrite Hchildren, Hsorted. exact Hc.
  - intros Hcheck c Hc.
    rewrite <- (same_checkRefines eq ts ts1 x Hhead) in Hcheck.
    apply (updateAndPushChildren_checked _ _ _ _ _ _ _ _ Hcheck) in Hpush.
    destruct Hpush as [Hpush _]. destruct (Hpush eq_refl) as [_ Hall].
    apply (child_refines_same ts1 ts fs c).
    + apply same_tiles_Permutation_sym, same_tiles_weaken, Hhead.
    + apply Hall. rewrite <- Hchildren. exact Hc.
Qed.

(** X25.  In base mode a tile refines only when its children are loaded.
    With skipLevelOfDetail off, on a tree whose parent links agree with
    the children arrays, whose root has no parent and whose children
    arrays hold no tile twice: a tile that the traversal of [selectTiles]
    reaches and leaves with [_refines] set can be traversed, the frame
    sees one of its children, its parent has [_refines] set too, and when
    it is a REPLACE tile with content of its own, each of its children is
    in the request volume and has available content or, when empty, has
    available content wherever the empty traversal from it stops. *)
Theorem base_traversal_refines_when_loaded (fuel : nat) (ts ts' : Tileset)
    (fs : FrameState) :
  skipLevelOfDetail ts = false ->
  wf_parents ts ->
  parent (getTile ts (root ts)) = None ->
  (forall t, NoDup (children (getTile ts t))) ->
  selectTiles fuel ts fs = Some (RetTrue, ts') ->
  forall t,
    traversal_reaches fs ts (root ts) t ->
    _refines (getTile ts' t) = true ->
    canTraverse ts t = true
    /\ (exists c, c ∈ children (getTile ts t)
                  /\ fs_visible fs c && fs_inRequestVolume fs c = true)
    /\ (forall p, parent (getTile ts t) = Some p -> _refines (getTile ts' p) = true)
    /\ (refine (getTile ts t) = REPLACE ->
        hasEmptyContent_ ts t = false ->
        forall c, c ∈ children (getTile ts t) -> child_refines ts fs c).
Proof.
  intros Hbase Hwf Hroot Hchildren Hrun.
  apply selectTiles_inversion in Hrun as (_ & _ & _ & ts1 & Hmain & Hpass).
  rewrite Hbase in Hpass. subst ts1.
  assert (Hperm : forall l l' : list TileId, Permutation l l' -> Permutation l l') by auto.
  destruct (executeTraversal_frontier fs ts (root ts) Hwf Hroot Hchildren
              (fun done ts1 =>
                 cut_invariant ts done ts1
                 /\ forall t,
                      t ∈ done ->
                      _refines (getTile ts1 t) = true ->
                      canTraverse ts t = true
                      /\ (exists c, c ∈ children (getTile ts t)
                                    /\ fs_visible fs c && fs_inRequestVolume fs c = true)
                      /\ (checkRefines ts t = true ->
                          forall c, c ∈ children (getTile ts t) -> child_refines ts fs c))
              fuel (selectTiles_start ts fs) ts' (selectTiles_baseScreenSpaceError ts)
              (_maximumScreenSpaceError ts)
              (same_tiles_weaken _ _ (same_tiles_selectTiles_start ts fs)))
    as (done & Hinv & [Hcut Hloaded] & Hdone).
  - split.
    + split.
      * rewrite selectTiles_start_selectedTiles. constructor.
      * intros t p Ht. inversion Ht.
      * intros t. rewrite selectTiles_start_selectedTiles. intros Ht. inversion Ht.
    + intros t Ht. inversion Ht.
  - intros done ts1 ts2 x rest stack2 Hinv [Hcut Hloaded] Hbody.
    split; [exact (cut_invariant_step fs ts (root ts) Hbase Hroot _ _ _ _ _ _ _ _ _
                     Hinv Hcut Hbody)|].
    destruct (frontier_top fs ts (root ts) Hroot _ _ _ _ Hinv) as (Hx & _ & _).
    pose proof (frontier_same _ _ _ _ _ Hinv) as Hsame. cbn [fst] in Hsame.
    pose proof Hbase as Hbase1.
    rewrite <- (same_skipLevelOfDetail Permutation ts ts1 Hsame) in Hbase1.
    destruct (executeTraversal_body_base _ _ _ _ _ _ _ _ _ Hbase1 Hbody)
      as (_ & Hflags & _).
    intros t Ht Hrefines. apply elem_of_cons in Ht as [->|Ht].
    + destruct (executeTraversal_body_refines _ _ _ _ _ _ _ _ _ Hbody Hrefines)
        as (Htraverse & (c & Hc & Hv) & Hall).
      rewrite (same_canTraverse Permutation ts ts1 Hperm Hsame) in Htraverse.
      split; [exact Htraverse|]. split.
      * exists c. split; [|exact Hv].
        rewrite (same_children Permutation ts ts1 Hperm Hsame x). exact Hc.
      * intros Hcheck c' Hc'.
        apply (child_refines_same ts1 ts fs c'
                 (same_tiles_Permutation_sym _ _ Hsame)).
        apply Hall; [rewrite (same_checkRefines Permutation ts ts1 x Hsame); exact Hcheck|].
        rewrite <- (same_children Permutation ts ts1 Hperm Hsame x). exact Hc'.
    + apply Hloaded; [exact Ht|]. rewrite <- Hflags; [exact Hrefines|].
      intros ->. contradiction.
  - exact Hmain.
  - intros t Ht Hrefines. apply Hdone in Ht.
    destruct (Hloaded t Ht Hrefines) as (H1 & H2 & H3).
    split; [exact H1|]. split; [exact H2|]. split.
    + intros p Hp. exact (cut_refines _ _ _ Hcut t p Ht Hp Hrefines).
    + intros Hreplace Hcontent. apply H3. unfold checkRefines.
      rewrite Hbase, Hreplace, Hcontent. reflexivity.
Qed.

Lemma wf_parents_chain : wf_parents tileset_chain.
Proof.
  intros p.
  apply (getTile_forall
           (fun p tile => forall c, c ∈ children tile ->
                                    parent (getTile tileset_chain c) = Some p)).
  - intros t c Hc. inversion Hc.
  - unfold tileset_chain at 1, newTileset. tile_by_tile children_agree.
Qed.

Lemma NoDup_children_chain : forall t, NoDup (children (getTile tileset_chain t)).
Proof.
  apply (getTile_forall (fun _ tile => NoDup (children tile))).
  - intros _. constructor.
  - unfold tileset_chain, newTileset.
    tile_by_tile ltac:(
      cbn [children newTile];
      repeat (apply NoDup_cons_2;
        [intros Hin; repeat (apply elem_of_cons in Hin as [Hin|Hin]; [discriminate Hin|]);
         inversion Hin|]);
      apply NoDup_nil_2).
Qed.

Lemma base_traversal_refines_when_loaded_witness :
  exists ts',
    selectTiles 6 tileset_chain frame_allVisible = Some (RetTrue, ts')
    /\ child_refines tileset_chain frame_allVisible 1%nat.
Proof.
  assert (H : exists ts',
             selectTiles 6 tileset_chain frame_allVisible = Some (RetTrue, ts')
             /\ _refines (getTile ts' 0%nat) = true)
    by (eexists; split; vm_compute; reflexivity).
  destruct H as (ts' & Hrun & Hrefines). exists ts'. split; [exact Hrun|].
  assert (Hchildren : children (getTile tileset_chain 0%nat) = [1%nat])
    by (vm_compute; reflexivity).
  apply (base_traversal_refines_when_loaded 6 tileset_chain ts' frame_allVisible
           ltac:(reflexivity) wf_parents_chain ltac:(reflexivity)
           NoDup_children_chain Hrun 0%nat (traversal_root _ _ _) Hrefines);
    [reflexivity|reflexivity|].
  rewrite Hchildren. left.
Defined.


(** ** Mixed content *)

Lemma selectTile_hasMixedContent (ts : Tileset) (tile : TileId) (fs : FrameState) :
  _hasMixedContent (selectTile ts tile fs) = _hasMixedContent ts.
Proof. tileset_field_kept. Qed.

Ltac mixed_flag :=
  repeat first
    [ rewrite selectTile_hasMixedContent
    | progress change (_hasMixedContent (modTile ?i ?f ?a)) with (_hasMixedContent a)
    | progress change (_hasMixedContent (with_hasMixedContent ?b ?a)) with b ].

(** One iteration of the selection pass sets [_hasMixedContent] when it
    visits a marked REPLACE tile while an ancestor waits, and never takes
    it back. *)
Lemma traverseAndSelect_body_hasMixedContent (fs : FrameState) (st st' : SelectionLoop) :
  traverseAndSelect_body fs st = Some st' ->
  let ts := sl_tileset st in
  let visits :=
    match sl_ancestorStack st with
    | a :: _ => negb (_stackLength (getTile ts a) =? length (sl_stack st))%nat
    | [] => true
    end in
  _hasMixedContent (sl_tileset st')
  = _hasMixedContent ts
    || (visits
        && match sl_stack st with
           | x :: _ => selectionAncestor ts x && (0 <? length (sl_ancestorStack st))%nat
           | [] => false
           end).
Proof.
  unfold traverseAndSelect_body. cbv zeta.
  set (tsm := with_selectionTraversal_ancestorStackMaximumLength _ _).
  assert (Hget : forall j, getTile tsm j = getTile (sl_tileset st) j) by reflexivity.
  assert (Hmixed : _hasMixedContent tsm = _hasMixedContent (sl_tileset st)) by reflexivity.
  clearbody tsm. cbn [sl_ancestorStack sl_stack sl_lastAncestor].
  assert (Hvisit : _hasMixedContent
                     (sl_tileset
                        (traverseAndSelect_visit fs
                           (mkSelectionLoop tsm (sl_stack st) (sl_ancestorStack st)
                              (sl_lastAncestor st))))
                   = _hasMixedContent (sl_tileset st)
                     || match sl_stack st with
                        | x :: _ =>
                            selectionAncestor (sl_tileset st) x
                            && (0 <? length (sl_ancestorStack st))%nat
                        | [] => false
                        end).
  { unfold traverseAndSelect_visit. cbv zeta. cbn [sl_tileset sl_stack sl_ancestorStack].
    destruct (sl_stack st) as [|x rest]; [cbn [sl_tileset]; rewrite Hmixed, orb_false_r;
                                          reflexivity|].
    unfold selectionAncestor. rewrite !Hget.
    destruct (_shouldSelect (getTile (sl_tileset st) x)); cbn [andb];
      [|cbn [sl_tileset]; rewrite Hmixed, orb_false_r; reflexivity].
    destruct (Cesium3DTileRefine_eqb (refine (getTile (sl_tileset st) x)) ADD); cbn [negb andb].
    - cbn [sl_tileset]. rewrite selectTile_hasMixedContent, Hmixed, orb_false_r.
      reflexivity.
    - rewrite getTile_modTile_eq. fields.
      destruct (0 <? length (sl_ancestorStack st))%nat;
        destruct (negb (canTraverse tsm x)); cbn [sl_tileset];
        mixed_flag; rewrite ?Hmixed, ?orb_true_r, ?orb_false_r; reflexivity. }
  destruct (sl_ancestorStack st) as [|a rest] eqn:Hanc.
  - intros H. injection H as <-. rewrite Hvisit. cbn [andb]. reflexivity.
  - rewrite Hget. destruct (_ =? _)%nat; cbn [negb andb].
    + intros H. injection H as <-. cbn [sl_tileset].
      rewrite selectTile_hasMixedContent, orb_false_r.
      destruct (negb _); exact Hmixed.
    + intros H. injection H as <-. exact Hvisit.
Qed.

Section MixedContent.
Context (ts0 : Tileset) (root : TileId) (fs : FrameState) (size : TileId -> nat).
Hypothesis Hsizes : tree_sizes ts0 size.
Hypothesis Hwf : wf_parents ts0.
Hypothesis Hroot : parent (getTile ts0 root) = None.

Lemma mixed_invariant_step (st st' : SelectionLoop) :
  mixed_invariant ts0 root st ->
  traverseAndSelect_cond st = true ->
  traverseAndSelect_body fs st = Some st' ->
  mixed_invariant ts0 root st'.
Proof.
  intros [Hinv Hstack Hsound Hkept Hcomplete] Hcond Hbody.
  destruct (selection_invariant_step ts0 root fs size Hsizes st st' Hinv Hcond Hbody)
    as (Hinv' & _ & _).
  pose proof (traverseAndSelect_body_hasMixedContent fs st st' Hbody) as Hflag.
  cbv zeta in Hflag.
  pose proof (inv_same _ _ _ Hinv) as Hsame.
  destruct (traverseAndSelect_body_effect fs ts0 st st' Hsame Hbody) as [_ Hcases].
  destruct Hcases as [(a & anc & Hanc & Hstack' & _ & _ & Hlen & _)
                     |[(Hempty & Hstack' & _)
                      |(x & rest & pushed & Hst & Hstack' & Hpushed & _ & _ & Hhead & _)]].
  - rewrite Hanc, Hlen, Nat.eqb_refl in Hflag. cbn [negb andb] in Hflag.
    rewrite orb_false_r in Hflag.
    split; [exact Hinv'|rewrite Hstack'; exact Hstack|rewrite Hflag; exact Hsound
           |rewrite Hflag; exact Hkept|].
    intros t l Ht Hm Hl Hne. rewrite Hflag, Hstack'. apply (Hcomplete t l); assumption.
  - rewrite Hempty, andb_false_r, orb_false_r in Hflag.
    split; [exact Hinv'| |rewrite Hflag; exact Hsound|rewrite Hflag; exact Hkept|].
    + intros x. rewrite Hstack'. intros Hx. inversion Hx.
    + intros t l Ht Hm Hl Hne. rewrite Hflag.
      destruct (Hcomplete t l Ht Hm Hl Hne) as [H|(s & Hs & _)]; [left; exact H|].
      rewrite Hempty in Hs. inversion Hs.
  - assert (Hvisits : match sl_ancestorStack st with
                      | a :: _ => negb (_stackLength (getTile (sl_tileset st) a)
                                        =? length (sl_stack st))%nat
                      | [] => true
                      end = true).
    { destruct (sl_ancestorStack st) as [|a anc]; [reflexivity|].
      apply negb_true_iff, Nat.eqb_neq. exact Hhead. }
    rewrite Hvisits, Hst in Hflag. cbn [andb] in Hflag.
    rewrite (same_selection_selectionAncestor ts0 _ Hsame x) in Hflag.
    assert (Hall : Forall (fun a => (_stackLength (getTile (sl_tileset st) a)
                                     <= length rest)%nat) (sl_ancestorStack st)).
    { pose proof (inv_bound _ _ _ Hinv) as Hbound. pose proof (inv_sorted _ _ _ Hinv) as Hsorted.
      rewrite Hst in Hbound, Hhead.
      destruct (sl_ancestorStack st) as [|a anc]; [constructor|].
      inversion Hbound as [|? ? Ha _]; subst. inversion Hsorted as [|? ? _ Hbelow]; subst.
      cbn [length] in Ha, Hhead.
      constructor; [lia|].
      eapply Forall_impl; [exact Hbelow|]. intros b. cbv beta. lia. }
    destruct (inv_stack _ _ _ Hinv [] x rest Hst) as (lx & Hlx & Hfilter).
    rewrite (waiting_all _ _ _ Hall) in Hfilter.
    assert (Hx : selection_reaches ts0 root x) by (apply Hstack; rewrite Hst; left).
    assert (Hdepth : (0 <? length (sl_ancestorStack st))%nat = true
                     <-> List.filter (selectionAncestor ts0) lx <> []).
    { rewrite Hfilter. destruct (sl_ancestorStack st); cbn [length Nat.ltb Nat.leb].
      - split; [discriminate|congruence].
      - split; [discriminate|reflexivity]. }
    split; [exact Hinv'| | | |].
    + intros c. rewrite Hstack'. intros Hc. apply elem_of_app in Hc as [Hc|Hc].
      * apply Hpushed in Hc as (H1 & H2 & H3). apply (reaches_child ts0 root x c); assumption.
      * apply Hstack. rewrite Hst. right. exact Hc.
    + rewrite Hflag. intros H. apply orb_prop in H as [H|H]; [apply Hsound, H|].
      apply andb_prop in H as [Hm Hpos]. right. exists x, lx.
      split; [exact Hx|]. split; [exact Hm|]. split; [exact Hlx|apply Hdepth, Hpos].
    + intros H. rewrite Hflag, (Hkept H). reflexivity.
    + intros t l Ht Hm Hl Hne. rewrite Hflag.
      destruct (Hcomplete t l Ht Hm Hl Hne) as [H|(s & Hs & Hst')];
        [left; rewrite H; reflexivity|].
      rewrite Hst in Hs. apply elem_of_cons in Hs as [->|Hs].
      * apply selection_reaches_first in Hst' as [->|(c & H1 & H2 & H3 & H4)].
        -- left. rewrite Hm, (proj2 Hdepth), orb_true_r; [reflexivity|].
           rewrite (ancestry_functional ts0 x lx l
                      (lineage_ancestry ts0 root x lx Hwf Hroot Hlx)
                      (lineage_ancestry ts0 root x l Hwf Hroot Hl)).
           exact Hne.
        -- right. exists c. split; [|exact H4]. rewrite Hstack'. apply elem_of_app. left.
           apply Hpushed. auto.
      * right. exists s. split; [|exact Hst']. rewrite Hstack'. apply elem_of_app. right.
        exact Hs.
Qed.

(** When the selection pass has run, the flag [_hasMixedContent] is set
    exactly when it was set before or the pass has come to a marked
    REPLACE tile below another one. *)
Lemma traverseAndSelect_mixed (fuel : nat) (ts' : Tileset) :
  traverseAndSelect fuel ts0 root fs = Some ts' ->
  same_selection ts0 ts'
  /\ (_hasMixedContent ts' = true
      <-> _hasMixedContent ts0 = true \/ selection_mixed ts0 root).
Proof.
  intros Hrun. unfold traverseAndSelect in Hrun.
  destruct (while _ _ fuel _) as [st'|] eqn:Hwhile; [|discriminate].
  injection Hrun as <-.
  apply (while_invariant _ _ (mixed_invariant ts0 root)) in Hwhile.
  - destruct Hwhile as [[Hinv Hstack Hsound Hkept Hcomplete] Hcond].
    split; [apply Hinv|]. split; [exact Hsound|].
    intros [H|(t & l & Ht & Hm & Hl & Hne)]; [exact (Hkept H)|].
    destruct (Hcomplete t l Ht Hm Hl Hne) as [H|(s & Hs & _)]; [exact H|].
    unfold traverseAndSelect_cond in Hcond. apply orb_false_elim in Hcond as [Hcond _].
    apply stack_nonempty_false in Hcond. rewrite Hcond in Hs. inversion Hs.
  - intros st st'' Hinv Hcond Hbody. exact (mixed_invariant_step st st'' Hinv Hcond Hbody).
  - split; cbn [sl_tileset sl_stack].
    + apply selection_invariant_start.
    + intros x Hx. apply list_elem_of_singleton in Hx as ->. apply reaches_root.
    + auto.
    + auto.
    + intros t l Ht _ _ _. right. exists root. split; [left|exact Ht].
Qed.
End MixedContent.

Lemma selection_reaches_lineage (ts : Tileset) (root t : TileId) :
  selection_reaches ts root t -> exists l, lineage ts root t l.
Proof.
  induction 1 as [|p c _ [l Hl] _ Hc _]; [exists []; apply lineage_root|].
  exists (p :: l). apply lineage_child; assumption.
Qed.

Lemma filter_nonempty {A : Type} (f : A -> bool) (l : list A) :
  List.filter f l <> [] <-> exists a, a ∈ l /\ f a = true.
Proof.
  induction l as [|x l IH]; cbn [List.filter].
  - split; [congruence|]. intros (a & Ha & _). inversion Ha.
  - destruct (f x) eqn:Hx.
    + split; [|discriminate]. intros _. exists x. split; [left|exact Hx].
    + rewrite IH. split; intros (a & Ha & Hfa); exists a; (split; [|exact Hfa]).
      * right. exact Ha.
      * apply elem_of_cons in Ha as [->|Ha]; [congruence|exact Ha].
Qed.

Lemma hasMixedContent_kept (fs : FrameState) (x : TileId) (b : bool) :
  Popped fs x (fun ts => _hasMixedContent ts = b).
Proof.
  constructor; intros ts; intros;
    match goal with
    | H : _ = b |- _ => rewrite <- H; clear H
    end;
    tileset_field_kept.
Qed.

(** The result of the call, when it has returned. *)
Lemma selectTiles_mixed_content_returned (fuel : nat) (ts ts' : Tileset) (fs : FrameState)
    (size : TileId -> nat) :
  tree_sizes ts size ->
  wf_parents ts ->
  parent (getTile ts (root ts)) = None ->
  skipLevelOfDetail ts = true ->
  selectTiles fuel ts fs = Some (RetTrue, ts') ->
  _hasMixedContent ts' = true
  <-> exists t l a,
        selection_reaches ts' (root ts) t
        /\ selectionAncestor ts' t = true
        /\ ancestry ts' t l
        /\ a ∈ l
        /\ selectionAncestor ts' a = true.
Proof.
  intros Hsizes Hwf Hroot Hskip Hrun.
  apply selectTiles_inversion in Hrun as (_ & _ & _ & ts1 & Hrun & Hselect).
  rewrite Hskip in Hselect.
  assert (Hperm : forall l l' : list TileId, Permutation l l' -> Permutation l l') by auto.
  assert (Hsame : same_tiles Permutation ts ts1).
  { etransitivity; [apply same_tiles_weaken, same_tiles_selectTiles_start|].
    apply (executeTraversal_preserves fs _ (Stable_same_tiles fs (selectTiles_start ts fs))
             _ _ _ _ _ _ (same_tiles_refl Permutation _) Hrun). }
  assert (Hclear : _hasMixedContent ts1 = false).
  { apply (executeTraversal_popped_run fs _ (fun x => hasMixedContent_kept fs x false)
             _ _ _ _ _ _) with (2 := Hrun).
    reflexivity. }
  assert (Hwf1 : wf_parents ts1) by (apply (wf_parents_same_tiles ts); assumption).
  assert (Hroot1 : parent (getTile ts1 (root ts)) = None)
    by (rewrite (same_parent Permutation ts ts1 Hsame); exact Hroot).
  destruct (traverseAndSelect_mixed ts1 (root ts) fs size
              (tree_sizes_same_tiles Permutation ts ts1 size Hperm Hsame Hsizes)
              Hwf1 Hroot1 fuel ts' Hselect) as [Hsel Hmixed].
  rewrite Hmixed, Hclear. clear Hmixed.
  assert (Hmarked : forall a, selectionAncestor ts' a = selectionAncestor ts1 a)
    by (intros a; apply (same_selection_selectionAncestor ts1 ts' Hsel)).
  assert (Hparent : forall j, parent (getTile ts' j) = parent (getTile ts1 j))
    by (intros j; apply (same_parent eq ts1 ts'), Hsel).
  assert (Hancestry : forall t l, ancestry ts1 t l -> ancestry ts' t l).
  { intros t l. induction 1 as [x Hx|x p l Hp Hl IH].
    - apply ancestry_root. rewrite Hparent. exact Hx.
    - apply ancestry_parent; [rewrite Hparent; exact Hp|exact IH]. }
  assert (Hreach : forall t, selection_reaches ts1 (root ts) t ->
                             selection_reaches ts' (root ts) t).
  { intros t. induction 1 as [|p c Hp IH Htraverse Hc Hvisible]; [apply reaches_root|].
    apply (reaches_child ts' _ p c IH).
    - rewrite (same_selection_canTraverse ts1 ts' Hsel). exact Htraverse.
    - rewrite (same_selection_children ts1 ts' Hsel). exact Hc.
    - rewrite (same_selection_isVisible ts1 ts' Hsel). exact Hvisible. }
  split.
  - intros [H|(t & l & Ht & Hm & Hl & Hne)]; [discriminate H|].
    apply filter_nonempty in Hne as (a & Ha & Hma).
    exists t, l, a. rewrite !Hmarked.
    split; [apply Hreach, Ht|]. split; [exact Hm|].
    split; [apply Hancestry, (lineage_ancestry ts1 (root ts) t l Hwf1 Hroot1 Hl)|].
    split; assumption.
  - intros (t & l & a & Ht & Hm & Hl & Ha & Hma). right.
    rewrite Hmarked in Hm, Hma.
    apply (selection_reaches_same ts1 ts' _ _ Hsel) in Ht.
    destruct (selection_reaches_lineage ts1 (root ts) t Ht) as [l' Hl'].
    exists t, l'. split; [exact Ht|]. split; [exact Hm|]. split; [exact Hl'|].
    apply filter_nonempty. exists a. split; [|exact Hma].
    rewrite (ancestry_functional ts1 t l' l
               (lineage_ancestry ts1 (root ts) t l' Hwf1 Hroot1 Hl')
               (ancestry_same eq ts1 ts' t l (proj1 Hsel) Hl)).
    exact Ha.
Qed.

(** [selectTiles] returns [true] past its early exits. *)
Lemma selectTiles_returns_true (fuel : nat) (ts : Tileset) (fs : FrameState)
    (size : TileId -> nat) :
  tree_sizes ts size -> (2 * size (root ts) <= fuel)%nat ->
  debugFreezeFrame ts = false ->
  fs_visible fs (root ts) && fs_inRequestVolume fs (root ts) = true ->
  _maximumScreenSpaceError ts < fs_screenSpaceErrorWithParentError fs (root ts) ->
  exists ts', selectTiles fuel ts fs = Some (RetTrue, ts').
Proof.
  intros Hsizes Hfuel Hfreeze Hvisible Hsse.
  destruct (selectTiles_terminates fuel ts fs size Hsizes Hfuel) as (r & ts' & Hrun).
  exists ts'. rewrite Hrun. rewrite selectTiles_traverses in Hrun by assumption.
  destruct (executeTraversal _ _ _ _ _ _); [|discriminate].
  destruct (skipLevelOfDetail ts); [destruct (traverseAndSelect _ _ _ _)|]; congruence.
Qed.

(** X26.  Under skip-LOD, on a finite tree whose parent links agree with
    the children arrays and whose root has no parent: when [selectTiles]
    has run, [_hasMixedContent] is set exactly when the selection pass has
    come to a marked REPLACE tile that has a marked REPLACE tile among its
    proper ancestors.  The call returns [true] once the fuel covers twice
    the size of the root, when the frame is not frozen and sees the root
    with a screen space error above the maximum. *)
Theorem selectTiles_mixed_content (fuel : nat) (ts : Tileset) (fs : FrameState)
    (size : TileId -> nat) :
  tree_sizes ts size ->
  wf_parents ts ->
  parent (getTile ts (root ts)) = None ->
  skipLevelOfDetail ts = true ->
  (forall ts',
     selectTiles fuel ts fs = Some (RetTrue, ts') ->
     _hasMixedContent ts' = true
     <-> exists t l a,
           selection_reaches ts' (root ts) t
           /\ selectionAncestor ts' t = true
           /\ ancestry ts' t l
           /\ a ∈ l
           /\ selectionAncestor ts' a = true)
  /\ ((2 * size (root ts) <= fuel)%nat ->
      debugFreezeFrame ts = false ->
      fs_visible fs (root ts) && fs_inRequestVolume fs (root ts) = true ->
      _maximumScreenSpaceError ts < fs_screenSpaceErrorWithParentError fs (root ts) ->
      exists ts', selectTiles fuel ts fs = Some (RetTrue, ts')).
Proof.
  intros Hsizes Hwf Hroot Hskip. split.
  - intros ts'.
    apply (selectTiles_mixed_content_returned fuel ts ts' fs size Hsizes Hwf Hroot Hskip).
  - apply (selectTiles_returns_true fuel ts fs size Hsizes).
Qed.

Lemma selectTiles_mixed_content_witness :
  exists ts',
    selectTiles 8 tileset_mixedContent frame_allVisible = Some (RetTrue, ts')
    /\ exists t l a,
         selection_reaches ts' (root tileset_mixedContent) t
         /\ selectionAncestor ts' t = true
         /\ ancestry ts' t l
         /\ a ∈ l
         /\ selectionAncestor ts' a = true.
Proof.
  assert (H : exists ts',
             selectTiles 8 tileset_mixedContent frame_allVisible = Some (RetTrue, ts')
             /\ _hasMixedContent ts' = true)
    by (eexists; split; vm_compute; reflexivity).
  destruct H as (ts' & Hrun & Hmixed). exists ts'. split; [exact Hrun|].
  apply (proj1 (selectTiles_mixed_content 8 tileset_mixedContent frame_allVisible
                  size_example tree_sizes_mixedContent wf_parents_mixedContent eq_refl
                  eq_refl) ts' Hrun).
  exact Hmixed.
Defined.


(** ** The final resolution *)

Lemma selectTile_finalResolution (ts : Tileset) (tile j : TileId) (fs : FrameState) :
  _finalResolution (getTile (selectTile ts tile fs) j) = _finalResolution (getTile ts j).
Proof. revert j. tile_field_kept. Qed.

(** One iteration of the selection pass: when it pops a waiting ancestor,
    it clears the flag [_finalResolution] of the ancestor unless that is
    the last ancestor; when it visits a marked REPLACE tile, the tile
    becomes the last ancestor. *)
Lemma traverseAndSelect_body_resolution (fs : FrameState) (st st' : SelectionLoop) :
  traverseAndSelect_body fs st = Some st' ->
  let ts := sl_tileset st in
  (exists a rest,
     sl_ancestorStack st = a :: rest
     /\ _stackLength (getTile ts a) = length (sl_stack st)
     /\ sl_ancestorStack st' = rest
     /\ sl_lastAncestor st' = sl_lastAncestor st
     /\ forall j,
          _finalResolution (getTile (sl_tileset st') j)
          = if decide (j = a) then
              if decide (sl_lastAncestor st = Some a) then _finalResolution (getTile ts a)
              else false
            else _finalResolution (getTile ts j))
  \/ (match sl_ancestorStack st with
      | a :: _ => _stackLength (getTile ts a) <> length (sl_stack st)
      | [] => True
      end
      /\ sl_lastAncestor st'
         = match sl_stack st with
           | x :: _ => if selectionAncestor ts x then Some x else sl_lastAncestor st
           | [] => sl_lastAncestor st
           end
      /\ forall j, _finalResolution (getTile (sl_tileset st') j)
                   = _finalResolution (getTile ts j)).
Proof.
  unfold traverseAndSelect_body. cbv zeta.
  set (tsm := with_selectionTraversal_ancestorStackMaximumLength _ _).
  assert (Hget : forall j, getTile tsm j = getTile (sl_tileset st) j) by reflexivity.
  clearbody tsm. cbn [sl_ancestorStack sl_stack sl_lastAncestor].
  assert (Hvisit : let st1 := traverseAndSelect_visit fs
                                (mkSelectionLoop tsm (sl_stack st) (sl_ancestorStack st)
                                   (sl_lastAncestor st)) in
                   sl_lastAncestor st1
                   = match sl_stack st with
                     | x :: _ =>
                         if selectionAncestor (sl_tileset st) x then Some x
                         else sl_lastAncestor st
                     | [] => sl_lastAncestor st
                     end
                   /\ forall j, _finalResolution (getTile (sl_tileset st1) j)
                                = _finalResolution (getTile (sl_tileset st) j)).
  { cbv zeta. unfold traverseAndSelect_visit. cbv zeta.
    cbn [sl_tileset sl_stack sl_ancestorStack sl_lastAncestor].
    destruct (sl_stack st) as [|x rest];
      [cbn [sl_tileset sl_lastAncestor]; split; [reflexivity|intros j; rewrite Hget; reflexivity]|].
    unfold selectionAncestor. rewrite !Hget.
    destruct (_shouldSelect (getTile (sl_tileset st) x)); cbn [andb];
      [|cbn [sl_tileset sl_lastAncestor]; split; [reflexivity|intros j; rewrite Hget; reflexivity]].
    destruct (Cesium3DTileRefine_eqb (refine (getTile (sl_tileset st) x)) ADD);
      cbn [negb andb].
    - cbn [sl_tileset sl_lastAncestor]. split; [reflexivity|].
      intros j. rewrite selectTile_finalResolution. rewrite Hget. reflexivity.
    - rewrite getTile_modTile_eq. fields.
      destruct (0 <? length (sl_ancestorStack st))%nat;
        destruct (negb (canTraverse tsm x)); cbn [sl_tileset sl_lastAncestor];
        (split; [reflexivity|]); intros j;
        repeat first
          [ rewrite selectTile_finalResolution
          | progress change (getTile (with_hasMixedContent ?b ?a) ?i) with (getTile a i)
          | rewrite getTile_modTile ];
        repeat match goal with
               | |- context [decide (?a = ?b)] => destruct (decide (a = b)); [subst|]
               end;
        fields; rewrite ?Hget; reflexivity. }
  cbv zeta in Hvisit.
  destruct (sl_ancestorStack st) as [|a rest] eqn:Hanc.
  - intros H. injection H as <-. right. split; [exact I|]. exact Hvisit.
  - rewrite Hget. destruct (Nat.eqb_spec (_stackLength (getTile (sl_tileset st) a))
                              (length (sl_stack st))) as [Hlen|Hlen].
    + intros H. injection H as <-. left. exists a, rest.
      cbn [sl_tileset sl_lastAncestor].
      cbn [sl_ancestorStack].
      split; [reflexivity|]. split; [exact Hlen|]. split; [reflexivity|].
      split; [reflexivity|].
      intros j. rewrite selectTile_finalResolution.
      destruct (decide (sl_lastAncestor st = Some a)) as [Hlast|Hlast].
      * rewrite bool_decide_eq_true_2 by (symmetry; exact Hlast). cbn [negb].
        rewrite Hget. destruct (decide (j = a)) as [->|]; reflexivity.
      * rewrite bool_decide_eq_false_2 by (intros H; apply Hlast; symmetry; exact H).
        cbn [negb]. rewrite getTile_modTile.
        destruct (decide (j = a)) as [->|]; [reflexivity|rewrite Hget; reflexivity].
    + intros H. injection H as <-. right. split; [exact Hlen|]. exact Hvisit.
Qed.

(** On a tree, a tile that the pass reaches is reached from each of the
    tiles above it. *)
Lemma selection_reaches_through (ts : Tileset) (root x : TileId) :
  wf_parents ts -> parent (getTile ts root) = None ->
  selection_reaches ts root x ->
  forall l a, lineage ts root x l -> a ∈ l -> selection_reaches ts a x.
Proof.
  intros Hwf Hroot. induction 1 as [|p c Hp IH Htraverse Hc Hvisible]; intros l a Hl Ha.
  - apply (lineage_ancestry ts root root l Hwf Hroot) in Hl.
    inversion Hl; subst; [inversion Ha|congruence].
  - destruct (selection_reaches_lineage ts root p Hp) as [lp Hlp].
    assert (Heq : l = p :: lp).
    { apply (ancestry_functional ts c).
      - exact (lineage_ancestry ts root c l Hwf Hroot Hl).
      - apply (lineage_ancestry ts root c (p :: lp) Hwf Hroot).
        apply lineage_child; assumption. }
    subst l. apply elem_of_cons in Ha as [->|Ha].
    + apply (reaches_child ts p p c); [apply reaches_root|assumption..].
    + apply (reaches_child ts a p c); [exact (IH lp a Hlp Ha)|assumption..].
Qed.

Section Resolution.
Context (ts0 : Tileset) (root : TileId) (fs : FrameState) (size : TileId -> nat).
Hypothesis Hsizes : tree_sizes ts0 size.
Hypothesis Hwf : wf_parents ts0.
Hypothesis Hroot : parent (getTile ts0 root) = None.

Lemma resolution_invariant_step (st st' : SelectionLoop) :
  resolution_invariant ts0 root st ->
  traverseAndSelect_cond st = true ->
  traverseAndSelect_body fs st = Some st' ->
  resolution_invariant ts0 root st'.
Proof.
  intros [Hinv Hstack Hwaiting Hsound Hkept Hlast Hcomplete] Hcond Hbody.
  destruct (selection_invariant_step ts0 root fs size Hsizes st st' Hinv Hcond Hbody)
    as (Hinv' & _ & _).
  pose proof (inv_same _ _ _ Hinv) as Hsame.
  destruct (traverseAndSelect_body_effect fs ts0 st st' Hsame Hbody) as [_ Hcases].
  pose proof (traverseAndSelect_body_resolution fs st st' Hbody) as Hres. cbv zeta in Hres.
  destruct Hcases as [(a0 & anc & Ha0 & Hstack' & Hanc' & _ & Hlen & HL)
                     |[(Hempty & Hstack' & Hanc' & _)
                      |(x & rest & pushed & Hx & Hstack' & Hpushed & Hanc' & _
                        & Htop & HL)]].
  - (* the waiting ancestor a0 is popped *)
    destruct Hres as [(a1 & anc1 & Ha1 & _ & _ & Hlast' & Hflags)|(Hne & _)];
      [|rewrite Ha0 in Hne; contradiction].
    rewrite Ha0 in Ha1. injection Ha1 as <- <-.
    assert (Hcleared : forall j, _finalResolution (getTile (sl_tileset st) j) = false ->
                                 _finalResolution (getTile (sl_tileset st') j) = false).
    { intros j Hj. rewrite Hflags. destruct (decide (j = a0)) as [->|]; [|exact Hj].
      destruct (decide _); [exact Hj|reflexivity]. }
    split; [exact Hinv'|rewrite Hstack'; exact Hstack| | | | |].
    + intros a Ha. apply Hwaiting. rewrite Ha0, <- Hanc'. right. exact Ha.
    + intros a. rewrite Hflags. destruct (decide (a = a0)) as [->|]; [|apply Hsound].
      destruct (decide (sl_lastAncestor st = Some a0)) as [|Hne]; [apply Hsound|].
      intros _. right.
      destruct (Hwaiting a0) as (H1 & H2 & H3); [rewrite Ha0; left|].
      split; [exact H1|]. split; [exact H2|]. split; [exact H3|].
      apply Hlast; [rewrite Ha0; left|exact Hne].
    + intros a Ha. apply Hcleared, Hkept, Ha.
    + intros a Ha. rewrite Hlast'. apply Hlast. rewrite Ha0, <- Hanc'. right. exact Ha.
    + intros a t H1 H2 H3 H4 H5 H6.
      destruct (Hcomplete a t H1 H2 H3 H4 H5 H6) as [H|[[Ha Hprogress]|H]].
      * left. apply Hcleared, H.
      * rewrite Ha0 in Ha. 
        assert (Hpop : a = a0 ->
                       _finalResolution (getTile (sl_tileset st') a) = false).
        { intros ->. rewrite Hflags. destruct (decide (a0 = a0)); [|congruence].
          destruct (decide (sl_lastAncestor st = Some a0)) as [Heq|]; [|reflexivity].
          destruct Hprogress as [Hne|(pre & y & post & Hy & Hle & _)]; [contradiction|].
          rewrite Hlen, Hy, length_app in Hle. cbn [length] in Hle. lia. }
        destruct (decide (a = a0)) as [Heq|Hne]; [left; exact (Hpop Heq)|].
        apply elem_of_cons in Ha as [Ha|Ha]; [contradiction|].
        right. left. rewrite Hanc'. split; [exact Ha|].
        rewrite Hlast', Hstack', HL. exact Hprogress.
      * right. right. rewrite Hstack'. exact H.
  - (* the stack is empty *)
    destruct Hres as [(a1 & anc1 & Ha1 & _ & Hpop & _)|(_ & Hlast' & Hflags)].
    { exfalso. rewrite Hanc', Ha1 in Hpop.
      assert (Hl : length (a1 :: anc1) = length anc1) by (rewrite Hpop; reflexivity).
      cbn [length] in Hl. lia. }
    rewrite Hempty in Hlast'.
    split; [exact Hinv'| | | | | |].
    + intros x. rewrite Hstack'. intros H. inversion H.
    + intros a. rewrite Hanc'. apply Hwaiting.
    + intros a. rewrite Hflags. apply Hsound.
    + intros a. rewrite Hflags. apply Hkept.
    + intros a. rewrite Hanc', Hlast'. apply Hlast.
    + intros a t H1 H2 H3 H4 H5 H6. rewrite Hflags, Hanc', Hlast', Hstack'.
      destruct (Hcomplete a t H1 H2 H3 H4 H5 H6)
        as [H|[[Ha [Hne|(pre & y & post & Hy & _)]]|(s & Hs & _)]]; [auto|auto|..].
      * rewrite Hempty in Hy. destruct pre; discriminate Hy.
      * rewrite Hempty in Hs. inversion Hs.
  - (* the tile x is popped from the stack *)
    destruct Hres as [(a1 & anc1 & Ha1 & Hlen1 & _)|(_ & Hlast' & Hflags)];
      [rewrite Ha1 in Htop; contradiction|].
    rewrite Hx in Hlast'. rewrite (same_selection_selectionAncestor ts0 _ Hsame x) in Hlast'.
    pose proof Htop as Htop'. 
    destruct (selection_invariant_top ts0 root size Hsizes st x rest Hinv Hx Htop')
      as [Hall Hfresh].
    destruct (inv_stack _ _ _ Hinv [] x rest Hx) as (lx & Hlx & Hfilter).
    rewrite (waiting_all _ _ _ Hall) in Hfilter.
    assert (Hreachx : selection_reaches ts0 root x) by (apply Hstack; rewrite Hx; left).
    assert (Hbelow : forall a, a ∈ sl_ancestorStack st ->
                               selection_reaches ts0 a x /\ a <> x).
    { intros a Ha. split; [|intros ->; exact (Hfresh Ha)].
      rewrite <- Hfilter in Ha. apply elem_of_filter_bool in Ha.
      exact (selection_reaches_through ts0 root x Hwf Hroot Hreachx lx a Hlx Ha). }
    assert (Hsame_len : forall a, a <> x ->
              _stackLength (getTile (sl_tileset st') a)
              = _stackLength (getTile (sl_tileset st) a)).
    { intros a Hne. rewrite HL. destruct (decide (a = x)); [contradiction|reflexivity]. }
    assert (Hchild : forall m d,
              (m <= length rest)%nat ->
              selection_reaches ts0 x d -> d <> x ->
              exists pre y post,
                sl_stack st' = pre ++ y :: post /\ (m <= length post)%nat
                /\ selection_reaches ts0 y d).
    { intros m d Hm Hreach Hne.
      apply selection_reaches_first in Hreach as [->|(c & H1 & H2 & H3 & H4)];
        [congruence|].
      assert (Hc : c ∈ pushed) by (apply Hpushed; auto).
      apply list_elem_of_split in Hc as (p1 & p2 & ->).
      exists p1, c, (p2 ++ rest). rewrite Hstack', <- app_assoc. cbn [app].
      split; [reflexivity|]. split; [rewrite length_app; lia|exact H4]. }
    split; [exact Hinv'| | | | | |].
    + intros c. rewrite Hstack'. intros Hc. apply elem_of_app in Hc as [Hc|Hc].
      * apply Hpushed in Hc as (H1 & H2 & H3). apply (reaches_child ts0 root x c); assumption.
      * apply Hstack. rewrite Hx. right. exact Hc.
    + intros a. rewrite Hanc'.
      destruct (selectionAncestor ts0 x && canTraverse ts0 x) eqn:Hw; [|apply Hwaiting].
      intros Ha. apply elem_of_cons in Ha as [->|Ha]; [|apply Hwaiting, Ha].
      apply andb_prop in Hw as [H1 H2]. auto.
    + intros a. rewrite Hflags. apply Hsound.
    + intros a. rewrite Hflags. apply Hkept.
    + intros a. rewrite Hanc', Hlast'. intros Ha Hne.
      assert (Hold : a ∈ sl_ancestorStack st ->
                exists t, selection_reaches ts0 a t /\ t <> a
                          /\ selectionAncestor ts0 t = true).
      { intros Hin. destruct (selectionAncestor ts0 x) eqn:Hm; [|apply Hlast; assumption].
        exists x. destruct (Hbelow a Hin) as [H1 H2]. split; [exact H1|].
        split; [congruence|exact Hm]. }
      destruct (selectionAncestor ts0 x && canTraverse ts0 x) eqn:Hw; [|apply Hold, Ha].
      apply elem_of_cons in Ha as [->|Ha]; [|apply Hold, Ha].
      apply andb_prop in Hw as [H1 _]. rewrite H1 in Hne. congruence.
    + intros a t H1 H2 H3 H4 H5 H6. rewrite Hflags, Hanc', Hlast', Hstack'.
      destruct (Hcomplete a t H1 H2 H3 H4 H5 H6)
        as [H|[[Ha Hprogress]|(s & Hs & Hsa)]]; [left; exact H|..].
      * right. left.
        assert (Hax : a <> x) by (intros ->; exact (Hfresh Ha)).
        split.
        { destruct (selectionAncestor ts0 x && canTraverse ts0 x); [right|]; exact Ha. }
        rewrite (Hsame_len a Hax).
        assert (Hm : (_stackLength (getTile (sl_tileset st) a) <= length rest)%nat)
          by (rewrite Forall_forall in Hall; apply Hall, Ha).
        destruct Hprogress as [Hne|(pre & y & post & Hy & Hle & Hreach)].
        -- left. destruct (selectionAncestor ts0 x); [congruence|exact Hne].
        -- rewrite Hx in Hy. destruct pre as [|b pre].
           ++ cbn [app] in Hy. injection Hy as <- <-.
              destruct (decide (t = x)) as [->|Htx].
              ** left. rewrite H6. congruence.
              ** right. rewrite <- Hstack'. apply Hchild; assumption.
           ++ cbn [app] in Hy. injection Hy as _ ->.
              right. exists (pushed ++ pre), y, post. rewrite <- app_assoc. auto.
      * rewrite Hx in Hs. apply elem_of_cons in Hs as [->|Hs].
        -- apply selection_reaches_first in Hsa as [->|(c & Hc1 & Hc2 & Hc3 & Hc4)].
           ++ (* the tile a itself is visited *)
              right. left. rewrite H2, H3. cbn [andb]. split; [left|].
              right. rewrite HL. destruct (decide (x = x)); [|congruence].
              rewrite H2, H3. cbn [andb]. rewrite <- Hstack'.
              apply Hchild; [lia|exact H4|exact H5].
           ++ right. right. exists c. split; [|exact Hc4]. apply elem_of_app. left.
              apply Hpushed. auto.
        -- right. right. exists s. split; [|exact Hsa]. apply elem_of_app. right. exact Hs.
Qed.
End Resolution.

(** The result of the call, when it has returned. *)
Lemma traverseAndSelect_final_resolution_returned (fuel : nat) (ts ts' : Tileset) (root : TileId)
    (fs : FrameState) (size : TileId -> nat) :
  tree_sizes ts size ->
  wf_parents ts ->
  parent (getTile ts root) = None ->
  traverseAndSelect fuel ts root fs = Some ts' ->
  forall a,
    _finalResolution (getTile ts' a) = false
    <-> _finalResolution (getTile ts a) = false
        \/ (selection_reaches ts root a
            /\ selectionAncestor ts a = true
            /\ canTraverse ts a = true
            /\ exists t, selection_reaches ts a t /\ t <> a
                         /\ selectionAncestor ts t = true).
Proof.
  intros Hsizes Hwf Hroot Hrun a. unfold traverseAndSelect in Hrun.
  destruct (while _ _ fuel _) as [st'|] eqn:Hwhile; [|discriminate].
  injection Hrun as <-.
  apply (while_invariant _ _ (resolution_invariant ts root)) in Hwhile.
  - destruct Hwhile as [[Hinv Hstack Hwaiting Hsound Hkept Hlast Hcomplete] Hcond].
    unfold traverseAndSelect_cond in Hcond. apply orb_false_elim in Hcond as [Hs Ha].
    apply stack_nonempty_false in Hs, Ha.
    split; [apply Hsound|].
    intros [H|(H1 & H2 & H3 & t & H4 & H5 & H6)]; [exact (Hkept a H)|].
    destruct (Hcomplete a t H1 H2 H3 H4 H5 H6) as [H|[[Hin _]|(s & Hin & _)]];
      [exact H|rewrite Ha in Hin; inversion Hin|rewrite Hs in Hin; inversion Hin].
  - intros st st'' Hinv Hcond Hbody.
    exact (resolution_invariant_step ts root fs size Hsizes Hwf Hroot st st'' Hinv Hcond
             Hbody).
  - split; cbn [sl_tileset sl_stack sl_ancestorStack sl_lastAncestor].
    + apply selection_invariant_start.
    + intros x Hx. apply list_elem_of_singleton in Hx as ->. apply reaches_root.
    + intros b Hb. inversion Hb.
    + auto.
    + auto.
    + intros b Hb. inversion Hb.
    + intros b t Hb _ _ _ _ _. right. right. exists root. split; [left|exact Hb].
Qed.

(** X27.  On a finite tree whose parent links agree with the children
    arrays and whose root has no parent, [traverseAndSelect] clears the
    flag [_finalResolution] of exactly the tiles that wait for a marked
    REPLACE tile below them: afterwards the flag of a tile is [false]
    exactly when it was [false] before, or the pass has reached the tile,
    the tile is a marked REPLACE tile that can be traversed, and the pass
    has reached another marked REPLACE tile below it.  No flag is set.
    The call returns once the fuel covers twice the size of the root. *)
Theorem traverseAndSelect_final_resolution (fuel : nat) (ts : Tileset) (root : TileId)
    (fs : FrameState) (size : TileId -> nat) :
  tree_sizes ts size ->
  wf_parents ts ->
  parent (getTile ts root) = None ->
  (forall ts',
     traverseAndSelect fuel ts root fs = Some ts' ->
     forall a,
       _finalResolution (getTile ts' a) = false
       <-> _finalResolution (getTile ts a) = false
           \/ (selection_reaches ts root a
               /\ selectionAncestor ts a = true
               /\ canTraverse ts a = true
               /\ exists t, selection_reaches ts a t /\ t <> a
                            /\ selectionAncestor ts t = true))
  /\ ((2 * size root <= fuel)%nat ->
      exists ts', traverseAndSelect fuel ts root fs = Some ts').
Proof.
  intros Hsizes Hwf Hroot. split.
  - intros ts'.
    apply (traverseAndSelect_final_resolution_returned fuel ts ts' root fs size Hsizes Hwf
             Hroot).
  - apply (traverseAndSelect_terminates ts root fs size Hsizes).
Qed.

Lemma traverseAndSelect_final_resolution_witness :
  exists ts1 ts',
    executeTraversal 8 (selectTiles_start tileset_mixedContent frame_allVisible) 0%nat
      Number_MAX_VALUE 16 frame_allVisible = Some ts1
    /\ traverseAndSelect 8 ts1 0%nat frame_allVisible = Some ts'
    /\ _finalResolution (getTile ts' 0%nat) = false.
Proof.
  assert (H : exists ts1,
             executeTraversal 8 (selectTiles_start tileset_mixedContent frame_allVisible)
               0%nat Number_MAX_VALUE 16 frame_allVisible = Some ts1
             /\ selectionAncestor ts1 0%nat = true
             /\ canTraverse ts1 0%nat = true
             /\ children (getTile ts1 0%nat) = [2%nat; 1%nat]
             /\ isVisible ts1 1%nat = true
             /\ selectionAncestor ts1 1%nat = true
             /\ exists ts', traverseAndSelect 8 ts1 0%nat frame_allVisible = Some ts').
  { eexists. split; [vm_compute; reflexivity|].
    repeat (split; [vm_compute; reflexivity|]).
    eexists. vm_compute. reflexivity. }
  destruct H as (ts1 & Hrun & Hm0 & Ht0 & Hc0 & Hv1 & Hm1 & ts' & Hselect).
  exists ts1, ts'. split; [exact Hrun|]. split; [exact Hselect|].
  assert (Hsame : same_tiles Permutation tileset_mixedContent ts1).
  { apply (executeTraversal_preserves frame_allVisible _
             (Stable_same_tiles frame_allVisible tileset_mixedContent) _ _ _ _ _ _
             (same_tiles_weaken _ _ (same_tiles_selectTiles_start _ _)) Hrun). }
  apply (proj1 (traverseAndSelect_final_resolution 8 ts1 0%nat frame_allVisible size_example
                  (tree_sizes_same_tiles Permutation tileset_mixedContent ts1 size_example
                     (fun l l' H => H) Hsame tree_sizes_mixedContent)
                  (wf_parents_same_tiles tileset_mixedContent ts1 Hsame
                     wf_parents_mixedContent)
                  ltac:(rewrite (same_parent Permutation tileset_mixedContent ts1 Hsame);
                        reflexivity))
           ts' Hselect 0%nat).
  right. split; [apply reaches_root|]. split; [exact Hm0|]. split; [exact Ht0|].
  exists 1%nat. split; [|split; [discriminate|exact Hm1]].
  apply (reaches_child ts1 0%nat 0%nat 1%nat); [apply reaches_root|exact Ht0| |exact Hv1].
  rewrite Hc0. right. left.
Defined.

(** ** The children arrays stay sorted *)

Lemma traversal_reaches_same (fs : FrameState) (ts ts' : Tileset) (r t : TileId) :
  same_tiles Permutation ts ts' ->
  traversal_reaches fs ts r t -> traversal_reaches fs ts' r t.
Proof.
  intros Hsame.
  assert (Hperm : forall l l' : list TileId, Permutation l l' -> Permutation l l') by auto.
  induction 1 as [|p c Hp IH Htraverse Hc Hvisible]; [apply traversal_root|].
  apply (traversal_child fs ts' r p c); [exact IH| | |exact Hvisible].
  - rewrite (same_canTraverse Permutation ts ts' Hperm Hsame). exact Htraverse.
  - rewrite <- (same_children Permutation ts ts' Hperm Hsame p). exact Hc.
Qed.

(** A round of the main traversal leaves the children of the tile it
    pops sorted, when that tile can be traversed. *)
Lemma executeTraversal_body_sorts (fuel : nat) (fs : FrameState) (base maximum : Z)
    (ts0 ts ts' : Tileset) (x : TileId) (rest stack' : list TileId) :
  same_tiles Permutation ts0 ts ->
  canTraverse ts0 x = true ->
  executeTraversal_body fuel fs base maximum (ts, x :: rest) = Some (ts', stack') ->
  same_tiles Permutation ts0 ts'
  /\ StronglySorted (fartherFirst ts0) (children (getTile ts' x)).
Proof.
  intros Hsame Htraverse Hbody.
  assert (Hperm : forall l l' : list TileId, Permutation l l' -> Permutation l l') by auto.
  pose proof (Stable_sorted fs ts0 x) as Hstable.
  apply executeTraversal_body_inversion in Hbody. cbv zeta in Hbody.
  pose proof (same_tiles_executeTraversal_body_head fs ts x
                (Nat.max (traversal_stackMaximumLength ts) (length (x :: rest))))
    as Hhead.
  set (ts1 := updateTileAncestorContentLinks _ x fs) in *. clearbody ts1.
  assert (Hsame1 : same_tiles Permutation ts0 ts1)
    by (etransitivity; [exact Hsame|apply same_tiles_weaken, Hhead]).
  destruct Hbody as (baseTraversal & cr & ts2 & ts3 & _ & Hpush & Hselect & ->).
  rewrite (same_canTraverse Permutation ts0 ts1 Hperm Hsame1), Htraverse in Hpush.
  apply updateAndPushChildren_sorted in Hpush as [Hsame2 Hsorted2].
  assert (H2 : same_tiles Permutation ts0 ts2
               /\ StronglySorted (fartherFirst ts0) (children (getTile ts2 x))).
  { split; [etransitivity; [exact Hsame1|exact Hsame2]|].
    apply (StronglySorted_impl (fartherFirst ts1)); [|exact Hsorted2].
    intros a b. apply (same_fartherFirst Permutation). exact Hsame1. }
  apply (executeTraversal_select_preserves fs _ Hstable _ _ _ _ _ _ H2) in Hselect.
  destruct Hstable. auto.
Qed.

(** When the main traversal has run, the children of every tile that it
    reached and traversed are sorted. *)
Lemma executeTraversal_sorts_reached (fuel : nat) (base maximum : Z) (ts ts' : Tileset)
    (root : TileId) (fs : FrameState) :
  executeTraversal fuel ts root base maximum fs = Some ts' ->
  forall t, traversal_reaches fs ts root t ->
            canTraverse ts t = true ->
            same_tiles Permutation ts ts'
            /\ StronglySorted (fartherFirst ts) (children (getTile ts' t)).
Proof.
  intros Hrun.
  apply (executeTraversal_covers fs ts root
           (fun ts1 t => canTraverse ts t = true ->
                         same_tiles Permutation ts ts1
                         /\ StronglySorted (fartherFirst ts) (children (getTile ts1 t)))
           fuel base maximum ts'); [| |exact Hrun].
  - intros x t. apply Popped_impl, Stable_Popped, Stable_sorted.
  - intros ts1 ts2 x rest stack1 Hsame Hbody Htraverse.
    exact (executeTraversal_body_sorts _ _ _ _ _ _ _ _ _ _ Hsame Htraverse Hbody).
Qed.

(** The order lasts to the end of [selectTiles]: the selection pass sorts
    no array and writes none. *)
Lemma selectTiles_sorts_reached (fuel : nat) (ts ts' : Tileset) (fs : FrameState) :
  selectTiles fuel ts fs = Some (RetTrue, ts') ->
  (forall t, Permutation (children (getTile ts t)) (children (getTile ts' t)))
  /\ (forall t, traversal_reaches fs ts (root ts) t ->
                canTraverse ts t = true ->
                StronglySorted (fartherFirst ts) (children (getTile ts' t))).
Proof.
  intros Hrun.
  assert (Hperm : forall l l' : list TileId, Permutation l l' -> Permutation l l') by auto.
  assert (Hsame : same_tiles Permutation ts ts').
  { apply (selectTiles_preserves fs _ (Stable_same_tiles fs ts) _ _ _ _
             (same_tiles_refl Permutation ts) Hrun). }
  split; [intros t; exact (same_children Permutation ts ts' Hperm Hsame t)|].
  intros t Hreach Htraverse.
  apply selectTiles_inversion in Hrun as (_ & _ & _ & ts1 & Hexec & Hselect).
  pose proof (same_tiles_weaken _ _ (same_tiles_selectTiles_start ts fs)) as Hstart.
  destruct (executeTraversal_sorts_reached _ _ _ _ _ _ _ Hexec t) as [Hsame1 Hsorted1].
  { apply (traversal_reaches_same fs ts); assumption. }
  { rewrite (same_canTraverse Permutation _ _ Hperm Hstart). exact Htraverse. }
  assert (H1 : same_tiles Permutation ts ts1
               /\ StronglySorted (fartherFirst ts) (children (getTile ts1 t))).
  { split; [etransitivity; [exact Hstart|exact Hsame1]|].
    apply (StronglySorted_impl (fartherFirst (selectTiles_start ts fs))); [|exact Hsorted1].
    intros a b. apply (same_fartherFirst Permutation). exact Hstart. }
  destruct (skipLevelOfDetail ts); [|subst ts'; apply H1].
  apply (traverseAndSelect_preserves fs _ (Stable_sorted fs ts t) _ _ _ _ H1 Hselect).
Qed.

(** C9.  [updateAndPushChildren] leaves the children array of its tile as
    a permutation of what it was, in the order of
    [sortChildrenByDistanceToCamera]: farther children first, and among
    children at distance 0 the deeper centre first.  The arrays stay so
    after [selectTiles] has returned: in the final tileset the children
    array of every tile is a permutation of what it was, and that of
    every tile that the traversal reached and could traverse, the root
    or a tile below it, is found in that order.  On [tileset_addChild]
    the array [1; 2] of the root has become [2; 1]; on
    [tileset_threeLevels] the array [3; 4] of tile 1 has become [4; 3].
    Both functions return on a finite tree with enough fuel. *)
Theorem children_sorted_in_place :
  (forall fuel ts tile stack fs refines ts' stack',
     updateAndPushChildren fuel ts tile stack fs = Some (refines, ts', stack') ->
     Permutation (children (getTile ts tile)) (children (getTile ts' tile))
     /\ StronglySorted (fartherFirst ts) (children (getTile ts' tile)))
  /\ (forall fuel ts fs ts',
        selectTiles fuel ts fs = Some (RetTrue, ts') ->
        (forall t, Permutation (children (getTile ts t)) (children (getTile ts' t)))
        /\ (forall t, traversal_reaches fs ts (root ts) t ->
                      canTraverse ts t = true ->
                      StronglySorted (fartherFirst ts) (children (getTile ts' t))))
  /\ (exists ts',
        selectTiles 3 tileset_addChild frame_allVisible = Some (RetTrue, ts')
        /\ children (getTile tileset_addChild 0%nat) = [1%nat; 2%nat]
        /\ children (getTile ts' 0%nat) = [2%nat; 1%nat])
  /\ (exists ts',
        selectTiles 5 tileset_threeLevels frame_allVisible = Some (RetTrue, ts')
        /\ children (getTile tileset_threeLevels 1%nat) = [3%nat; 4%nat]
        /\ children (getTile ts' 1%nat) = [4%nat; 3%nat])
  /\ (forall fuel ts tile stack fs size,
        tree_sizes ts size ->
        (forall c, c ∈ children (getTile ts tile) -> (size c <= fuel)%nat) ->
        exists refines ts' stack',
          updateAndPushChildren fuel ts tile stack fs = Some (refines, ts', stack'))
  /\ (forall fuel ts fs size,
        tree_sizes ts size -> (2 * size (root ts) <= fuel)%nat ->
        exists r ts', selectTiles fuel ts fs = Some (r, ts')).
Proof.
  assert (Hperm : forall l l' : list TileId, Permutation l l' -> Permutation l l') by auto.
  split; [|split; [|split; [|split; [|split]]]].
  - intros fuel ts tile stack fs refines ts' stack' Hcall.
    apply updateAndPushChildren_sorted in Hcall as [Hsame Hsorted].
    split; [exact (same_children Permutation ts ts' Hperm Hsame tile)|exact Hsorted].
  - intros fuel ts fs ts'. apply selectTiles_sorts_reached.
  - eexists. split; [vm_compute; reflexivity|]. split; vm_compute; reflexivity.
  - eexists. split; [vm_compute; reflexivity|]. split; vm_compute; reflexivity.
  - intros fuel ts tile stack fs size. apply updateAndPushChildren_terminates.
  - intros fuel ts fs size. apply selectTiles_terminates.
Qed.

Lemma children_sorted_in_place_witness :
  exists ts',
    selectTiles 5 tileset_threeLevels frame_allVisible = Some (RetTrue, ts')
    /\ children (getTile ts' 1%nat) = [4%nat; 3%nat]
    /\ StronglySorted (fartherFirst tileset_threeLevels) (children (getTile ts' 1%nat)).
Proof.
  eexists. split; [vm_compute; reflexivity|]. split; [vm_compute; reflexivity|].
  eapply (proj2 (proj1 (proj2 children_sorted_in_place) 5%nat tileset_threeLevels
                   frame_allVisible _ _) 1%nat).
  - apply (traversal_child _ _ _ 0%nat 1%nat); [apply traversal_root|..].
    + vm_compute. reflexivity.
    + vm_compute. left.
    + vm_compute. reflexivity.
  - vm_compute. reflexivity.
  Unshelve. vm_compute. reflexivity.
Defined.

(** ** The selection depth is written for marked REPLACE tiles only *)

Lemma selectTile_selectionDepth (ts : Tileset) (tile j : TileId) (fs : FrameState) :
  _selectionDepth (getTile (selectTile ts tile fs) j) = _selectionDepth (getTile ts j).
Proof. revert j. tile_field_kept. Qed.

(** No round of the main traversal writes a selection depth. *)
Lemma Popped_selectionDepth (fs : FrameState) (x t : TileId) (d : nat) :
  Popped fs x (fun ts => _selectionDepth (getTile ts t) = d).
Proof.
  constructor; intros ts; intros; cbv beta in *;
    match goal with H : _selectionDepth _ = d |- _ => rewrite <- H end;
    rewrite ?getTile_updateTile, ?getTile_loadTile, ?getTile_touchTile, ?getTile_selectTile,
      ?getTile_visitTile, ?getTile_updateTileAncestorContentLinks, ?getTile_modTile;
    try match goal with
        | |- context [decide (?a = ?b)] =>
            destruct (decide (a = b)); [subst|reflexivity]
        end;
    repeat match goal with
           | |- context [if ?c then _ else _] => destruct c
           | |- context [match ?c with Some _ => _ | None => _ end] => destruct c
           end;
    fields; reflexivity.
Qed.

Lemma selectTiles_start_selectionDepth (ts : Tileset) (fs : FrameState) (t : TileId) :
  _selectionDepth (getTile (selectTiles_start ts fs) t) = _selectionDepth (getTile ts t).
Proof.
  unfold selectTiles_start, heatmap_resetMinMax.
  set (ts1 := with_hasMixedContent false _).
  assert (Hget : getTile ts1 t = getTile ts t) by reflexivity.
  clearbody ts1. rewrite <- Hget.
  change (getTile (with_heatmap_resets ?n ?a) t) with (getTile a t).
  rewrite getTile_updateTile.
  destruct (decide (t = root ts)) as [->|]; reflexivity.
Qed.

(** One iteration of the selection pass writes the selection depth of no
    tile but the one it pops from the stack, and of that one only when it
    is a marked REPLACE tile. *)
Lemma traverseAndSelect_body_selectionDepth (fs : FrameState) (st st' : SelectionLoop) :
  traverseAndSelect_body fs st = Some st' ->
  forall j,
    _selectionDepth (getTile (sl_tileset st') j)
    = _selectionDepth (getTile (sl_tileset st) j)
    \/ ((exists rest, sl_stack st = j :: rest)
        /\ selectionAncestor (sl_tileset st) j = true).
Proof.
  unfold traverseAndSelect_body. cbv zeta.
  set (tsm := with_selectionTraversal_ancestorStackMaximumLength _ _).
  assert (Hget : forall j, getTile tsm j = getTile (sl_tileset st) j) by reflexivity.
  clearbody tsm. cbn [sl_ancestorStack sl_stack sl_lastAncestor].
  assert (Hvisit : let st1 := traverseAndSelect_visit fs
                                (mkSelectionLoop tsm (sl_stack st) (sl_ancestorStack st)
                                   (sl_lastAncestor st)) in
                   forall j,
                     _selectionDepth (getTile (sl_tileset st1) j)
                     = _selectionDepth (getTile (sl_tileset st) j)
                     \/ ((exists rest, sl_stack st = j :: rest)
                         /\ selectionAncestor (sl_tileset st) j = true)).
  { cbv zeta. unfold traverseAndSelect_visit. cbv zeta.
    cbn [sl_tileset sl_stack sl_ancestorStack sl_lastAncestor].
    destruct (sl_stack st) as [|x rest];
      [cbn [sl_tileset]; intros j; left; rewrite Hget; reflexivity|].
    unfold selectionAncestor. rewrite !Hget.
    destruct (_shouldSelect (getTile (sl_tileset st) x)) eqn:Hmark; cbn [andb];
      [|cbn [sl_tileset]; intros j; left; rewrite Hget; reflexivity].
    destruct (Cesium3DTileRefine_eqb (refine (getTile (sl_tileset st) x)) ADD) eqn:Hadd;
      cbn [negb andb].
    - cbn [sl_tileset]. intros j. left. rewrite selectTile_selectionDepth, Hget.
      reflexivity.
    - intros j. destruct (decide (j = x)) as [->|Hjx].
      + right. split; [exists rest; reflexivity|]. rewrite Hmark, Hadd. reflexivity.
      + left. rewrite getTile_modTile_eq. fields.
        destruct (0 <? length (sl_ancestorStack st))%nat;
          destruct (negb (canTraverse tsm x)); cbn [sl_tileset];
          repeat first
            [ rewrite selectTile_selectionDepth
            | progress change (getTile (with_hasMixedContent ?b ?a) ?i) with (getTile a i)
            | rewrite getTile_modTile ];
          repeat match goal with
                 | |- context [decide (?a = ?b)] =>
                     destruct (decide (a = b)); [congruence|]
                 end;
          rewrite ?Hget; reflexivity. }
  cbv zeta in Hvisit.
  destruct (sl_ancestorStack st) as [|a rest] eqn:Hanc.
  - intros H. injection H as <-. exact Hvisit.
  - destruct (_stackLength (getTile tsm a) =? length (sl_stack st))%nat.
    + intros H. injection H as <-. intros j. left. cbn [sl_tileset].
      rewrite selectTile_selectionDepth.
      destruct (negb (bool_decide _)); [rewrite getTile_modTile|];
        [destruct (decide (j = a)) as [->|]; fields|]; rewrite ?Hget; reflexivity.
    + intros H. injection H as <-. exact Hvisit.
Qed.

(** The selection pass leaves the selection depth of every tile as it was,
    but for the marked REPLACE tiles that it reaches. *)
Lemma traverseAndSelect_selectionDepth (fs : FrameState) (ts ts' : Tileset) (root : TileId)
    (fuel : nat) :
  traverseAndSelect fuel ts root fs = Some ts' ->
  forall t,
    _selectionDepth (getTile ts' t) = _selectionDepth (getTile ts t)
    \/ (selection_reaches ts root t /\ selectionAncestor ts t = true).
Proof.
  unfold traverseAndSelect.
  destruct (while _ _ fuel _) as [st1|] eqn:Hrun; [|discriminate].
  intros H. injection H as <-.
  apply (while_invariant _ _
           (fun st => same_selection ts (sl_tileset st)
                      /\ (forall x, x ∈ sl_stack st -> selection_reaches ts root x)
                      /\ forall t,
                           _selectionDepth (getTile (sl_tileset st) t)
                           = _selectionDepth (getTile ts t)
                           \/ (selection_reaches ts root t /\ selectionAncestor ts t = true)))
    in Hrun.
  - destruct Hrun as [(_ & _ & H) _]. exact H.
  - intros st st' (Hsame & Hstack & Hdepth) _ Hbody.
    pose proof (traverseAndSelect_body_selectionDepth fs st st' Hbody) as Hwritten.
    destruct (traverseAndSelect_body_effect fs ts st st' Hsame Hbody) as [Hsame' Hcases].
    split; [exact Hsame'|]. split.
    + destruct Hcases as [(a & rest & _ & -> & _)|[(_ & -> & _)
                         |(x & rest & pushed & Hst & -> & Hpushed & _)]].
      * exact Hstack.
      * intros x Hx. inversion Hx.
      * intros c Hc. apply elem_of_app in Hc as [Hc|Hc].
        -- apply Hpushed in Hc as (H1 & H2 & H3).
           apply (reaches_child ts root x c); [apply Hstack; rewrite Hst; left|assumption..].
        -- apply Hstack. rewrite Hst. right. exact Hc.
    + intros t. destruct (Hwritten t) as [->|[(rest & Hst) Hmarked]]; [apply Hdepth|].
      right. split; [apply Hstack; rewrite Hst; left|].
      rewrite <- (same_selection_selectionAncestor ts (sl_tileset st) Hsame). exact Hmarked.
  - split; [apply same_selection_refl|]. cbn [sl_tileset sl_stack]. split.
    + intros x Hx. apply list_elem_of_singleton in Hx as ->. apply reaches_root.
    + intros t. left. reflexivity.
Qed.

Lemma selection_reaches_kept (ts ts' : Tileset) (r t : TileId) :
  same_selection ts ts' -> selection_reaches ts r t -> selection_reaches ts' r t.
Proof.
  intros Hsame. induction 1 as [|p c Hp IH Htraverse Hc Hvisible]; [apply reaches_root|].
  apply (reaches_child ts' r p c IH).
  - rewrite (same_selection_canTraverse ts ts' Hsame). exact Htraverse.
  - rewrite (same_selection_children ts ts' Hsame). exact Hc.
  - rewrite (same_selection_isVisible ts ts' Hsame). exact Hvisible.
Qed.

(** [selectTiles] leaves the selection depth of every tile as it was, but
    for the marked REPLACE tiles that its selection pass reaches. *)
Lemma selectTiles_selectionDepth (fuel : nat) (ts ts' : Tileset) (fs : FrameState) :
  selectTiles fuel ts fs = Some (RetTrue, ts') ->
  forall t,
    _selectionDepth (getTile ts' t) = _selectionDepth (getTile ts t)
    \/ (skipLevelOfDetail ts = true
        /\ selection_reaches ts' (root ts) t /\ selectionAncestor ts' t = true).
Proof.
  intros Hrun t.
  apply selectTiles_inversion in Hrun as (_ & _ & _ & ts1 & Hmain & Hpass).
  assert (H1 : _selectionDepth (getTile ts1 t) = _selectionDepth (getTile ts t)).
  { apply (executeTraversal_popped_run fs _ (fun x => Popped_selectionDepth fs x t _)
             _ _ _ _ _ _ (selectTiles_start_selectionDepth ts fs t) Hmain). }
  destruct (skipLevelOfDetail ts); [|subst ts'; left; exact H1].
  destruct (traverseAndSelect_selectionDepth fs ts1 ts' (root ts) fuel Hpass t)
    as [H|[Hreach Hmarked]]; [left; rewrite H; exact H1|].
  right. split; [reflexivity|].
  assert (Hsel : same_selection ts1 ts').
  { unfold traverseAndSelect in Hpass.
    destruct (while _ _ fuel _) as [st1|] eqn:Hwhile; [|discriminate].
    injection Hpass as <-.
    apply (while_invariant _ _ (fun st => same_selection ts1 (sl_tileset st)))
      in Hwhile as [H _]; [exact H| |apply same_selection_refl].
    intros st st' Hsame _ Hbody.
    apply (traverseAndSelect_body_effect fs ts1 st st' Hsame Hbody). }
  split.
  - apply (selection_reaches_kept ts1 ts'); assumption.
  - rewrite (same_selection_selectionAncestor ts1 ts' Hsel). exact Hmarked.
Qed.

(** C6, as amended.  Skip-LOD modes, a finite tree whose parents and
    children agree.  When [selectTiles] has run, every marked REPLACE tile
    that the selection pass reached has as [_selectionDepth] the number of
    marked REPLACE tiles among its proper ancestors, and every other tile
    has the [_selectionDepth] that it had before the call: the field is
    written for the marked REPLACE tiles that the pass reaches and for no
    others, so a tile that is selected as an ADD tile, or by
    [selectDescendants] without a mark, keeps the depth it came with.
    [selectTiles] returns once the fuel covers twice the size of the
    root. *)
Theorem selection_depth_counts_marked_ancestors (ts : Tileset) (fs : FrameState)
    (size : TileId -> nat) :
  tree_sizes ts size ->
  wf_parents ts ->
  parent (getTile ts (root ts)) = None ->
  skipLevelOfDetail ts = true ->
  (forall fuel ts',
     selectTiles fuel ts fs = Some (RetTrue, ts') ->
     (forall t l,
        selection_reaches ts' (root ts) t ->
        selectionAncestor ts' t = true ->
        ancestry ts' t l ->
        _selectionDepth (getTile ts' t) = length (List.filter (selectionAncestor ts') l))
     /\ (forall t,
           _selectionDepth (getTile ts' t) = _selectionDepth (getTile ts t)
           \/ (selection_reaches ts' (root ts) t /\ selectionAncestor ts' t = true)))
  /\ (forall fuel, (2 * size (root ts) <= fuel)%nat ->
                   exists r ts', selectTiles fuel ts fs = Some (r, ts')).
Proof.
  intros Hsizes Hwf Hroot Hskip.
  split; [|intros fuel Hfuel; apply (selectTiles_terminates fuel ts fs size Hsizes Hfuel)].
  intros fuel ts' Hrun. split.
  - exact (selectTiles_depth_counts ts fs size Hsizes Hwf Hroot Hskip fuel ts' Hrun).
  - intros t. destruct (selectTiles_selectionDepth fuel ts ts' fs Hrun t) as [H|(_ & H)];
      [left; exact H|right; exact H].
Qed.

Lemma selection_depth_counts_marked_ancestors_witness :
  exists ts',
    selectTiles 8 tileset_mixedContent frame_allVisible = Some (RetTrue, ts')
    /\ _selectedTiles ts' = [1%nat; 0%nat]
    /\ _selectionDepth (getTile ts' 1%nat)
       = length (List.filter (selectionAncestor ts') [0%nat])
    /\ _selectionDepth (getTile ts' 2%nat)
       = _selectionDepth (getTile tileset_mixedContent 2%nat).
Proof.
  assert (H : exists ts',
             selectTiles 8 tileset_mixedContent frame_allVisible = Some (RetTrue, ts')
             /\ _selectedTiles ts' = [1%nat; 0%nat]
             /\ canTraverse ts' 0%nat = true
             /\ children (getTile ts' 0%nat) = [2%nat; 1%nat]
             /\ isVisible ts' 1%nat = true
             /\ selectionAncestor ts' 1%nat = true
             /\ selectionAncestor ts' 2%nat = false
             /\ parent (getTile ts' 1%nat) = Some 0%nat
             /\ parent (getTile ts' 0%nat) = None).
  { eexists. split; [vm_compute; reflexivity|].
    repeat (split; [vm_compute; reflexivity|]). vm_compute. reflexivity. }
  destruct H as (ts' & Hrun & Hselected & Ht0 & Hc0 & Hv1 & Hm1 & Hm2 & Hp1 & Hp0).
  exists ts'. split; [exact Hrun|]. split; [exact Hselected|].
  destruct (proj1 (selection_depth_counts_marked_ancestors tileset_mixedContent
                     frame_allVisible size_example tree_sizes_mixedContent
                     wf_parents_mixedContent eq_refl eq_refl) 8%nat ts' Hrun)
    as [Hcounts Hkept].
  split.
  - apply Hcounts.
    + apply (reaches_child ts' 0%nat 0%nat 1%nat);
        [apply reaches_root|exact Ht0| |exact Hv1].
      rewrite Hc0. right. left.
    + exact Hm1.
    + apply ancestry_parent; [exact Hp1|]. apply ancestry_root. exact Hp0.
  - destruct (Hkept 2%nat) as [H|[_ H]]; [exact H|].
    rewrite Hm2 in H. discriminate H.
Defined.

(** C6, as stated, fails on [tileset_addRoot]: under skip-LOD the ADD root
    and its REPLACE child are both selected, so the child has one proper
    ancestor in [_selectedTiles], and its [_selectionDepth] is 0.  It
    fails for selected ADD tiles also when REPLACE ancestors alone are
    counted: on [tileset_addLeaf] the ADD leaf 1 and its REPLACE parent,
    the root, are both selected, and the [_selectionDepth] of the leaf is
    0, since the pass writes the field of marked REPLACE tiles only.  And
    it fails for a tile that [selectDescendants] selects without a mark:
    on [tileset_staleDepth] the leaf 1 is the one selected tile, no
    ancestor of it is selected, and it keeps the [_selectionDepth] 5 of
    the frame before. *)
Lemma selection_depth_skips_add_ancestors :
  (skipLevelOfDetail tileset_addRoot = true
   /\ parent (getTile tileset_addRoot 1%nat) = Some 0%nat
   /\ exists ts',
        selectTiles 8 tileset_addRoot frame_allVisible = Some (RetTrue, ts')
        /\ _selectedTiles ts' = [0%nat; 1%nat]
        /\ _selectionDepth (getTile ts' 1%nat) = 0%nat)
  /\ (skipLevelOfDetail tileset_addLeaf = true
      /\ parent (getTile tileset_addLeaf 1%nat) = Some 0%nat
      /\ parent (getTile tileset_addLeaf 0%nat) = None
      /\ refine (getTile tileset_addLeaf 0%nat) = REPLACE
      /\ refine (getTile tileset_addLeaf 1%nat) = ADD
      /\ exists ts',
           selectTiles 8 tileset_addLeaf frame_allVisible = Some (RetTrue, ts')
           /\ _selectedTiles ts' = [1%nat; 0%nat]
           /\ _selectionDepth (getTile ts' 1%nat) = 0%nat)
  /\ (skipLevelOfDetail tileset_staleDepth = true
      /\ parent (getTile tileset_staleDepth 1%nat) = Some 0%nat
      /\ parent (getTile tileset_staleDepth 0%nat) = None
      /\ exists ts',
           selectTiles 8 tileset_staleDepth frame_allVisible = Some (RetTrue, ts')
           /\ _selectedTiles ts' = [1%nat]
           /\ _shouldSelect (getTile ts' 1%nat) = false
           /\ _selectionDepth (getTile ts' 1%nat) = 5%nat).
Proof.
  split; [|split].
  - split; [reflexivity|]. split; [reflexivity|].
    eexists. split; [vm_compute; reflexivity|].
    split; vm_compute; reflexivity.
  - repeat (split; [reflexivity|]).
    eexists. split; [vm_compute; reflexivity|].
    split; vm_compute; reflexivity.
  - repeat (split; [vm_compute; reflexivity|]).
    eexists. split; [vm_compute; reflexivity|].
    repeat (split; [vm_compute; reflexivity|]). vm_compute. reflexivity.
Qed.

(** ** A root that waits for a child *)








